(** * sBayes: likelihood caching, weight normalisation and cluster initialisation

    A shallow embedding of the parts of sBayes that the specification
    describes: the cluster initialiser of [sbayes/sampling/initializers.py],
    the likelihood engines and [normalize_weights] of
    [sbayes/model/likelihood.py], [get_neighbours] of [sbayes/util.py] and
    the resume path of [sbayes/mcmc_setup.py].

    Conventions.
    - A boolean numpy vector is a [list bool]; a boolean matrix is a list of
      rows.  Indexing is stdpp's lookup [!!], item assignment is the list
      insert [<[i:=x]>].
    - Python's [random] module is an oracle [rnd : nat -> nat]: the [t]-th
      draw from a non-empty population [xs] is [xs !! (rnd t mod length xs)],
      so every outcome the program can produce is produced by some oracle.
    - A function that can raise returns a [result]. *)

From stdpp Require Import base list gmap strings.
From Stdlib Require Import QArith Qabs.
From stdpp Require Import pretty.

#[local] Open Scope nat_scope.

(** ** Exceptions and results *)

Inductive exn :=
  | ValueError | ClusterError | IndexError | KeyError | AttributeError
  | AssertionError.

Inductive result (A : Type) :=
  | Ok (a : A)
  | Raise (e : exn).
Arguments Ok {A} a.
Arguments Raise {A} e.

#[global] Instance exn_eq_dec : EqDecision exn.
Proof. solve_decision. Defined.

(** Sequencing of computations that can raise. *)
#[global] Instance result_ret : MRet result := λ A a, Ok a.
#[global] Instance result_bind : MBind result :=
  λ A B f r, match r with Ok a => f a | Raise e => Raise e end.

#[global] Instance result_fmap : FMap result :=
  λ A B f r, match r with Ok a => Ok (f a) | Raise e => Raise e end.

(** [assert b] *)
Definition py_assert (b : bool) : result unit :=
  if b then Ok tt else Raise AssertionError.

(** An optional value, with the exception to raise when it is missing. *)
Definition or_raise {A} (e : exn) (o : option A) : result A :=
  match o with Some a => Ok a | None => Raise e end.

(** A list comprehension whose body can raise. *)
Fixpoint traverse {A B} (f : A → result B) (l : list A) : result (list B) :=
  match l with
  | [] => Ok []
  | x :: l' => y ← f x; ys ← traverse f l'; Ok (y :: ys)
  end.

(** ** Boolean arrays *)

(** [np.zeros(n, bool)] *)
Definition zeros (n : nat) : list bool := replicate n false.

(** [np.sum(mask)]: the number of [True] entries. *)
Fixpoint count_true (mask : list bool) : nat :=
  match mask with
  | [] => 0
  | b :: mask' => (if b then 1 else 0) + count_true mask'
  end.

(** [np.nonzero(mask)[0]]: the indices of the [True] entries, ascending. *)
Definition nonzero (mask : list bool) : list nat :=
  filter (λ i, mask !! i = Some true) (seq 0 (length mask)).

(** [np.any(mask)] *)
Definition any (mask : list bool) : bool := existsb id mask.

(** [random.sample(population, 1)[0]] and [random.choice(population)] with
    the draw [r]; [None] stands for the exception either raises on an empty
    population. *)
Definition random_pick {A} (r : nat) (population : list A) : option A :=
  match population with
  | [] => None
  | _ => population !! (r mod length population)
  end.

(** [list.remove(x)]: drops the first occurrence of [x]. *)
Fixpoint list_remove (x : nat) (l : list nat) : list nat :=
  match l with
  | [] => []
  | y :: l' => if decide (x = y) then l' else y :: list_remove x l'
  end.

(** ** The store of shared arrays

    [grow_cluster_of_size_k] writes into the array its caller passes in.  To
    state what the caller sees afterwards, numpy arrays that are shared live
    in a store and are named by a location. *)

Definition loc := nat.
Abbreviation heap := (gmap loc (list bool)).

(** Reading the array a reference points to. *)
Definition load (l : loc) (h : heap) : list bool := default [] (h !! l).

(** [np.zeros(n, bool)] bound to a new name: a location unused so far. *)
Definition alloc (a : list bool) (h : heap) : loc * heap :=
  let l := fresh (dom h) in (l, <[l:=a]> h).

(** [a[i] = 1]; Python raises [IndexError] when [i] is out of range. *)
Definition set_true (i : nat) (a : list bool) : option (list bool) :=
  if decide (i < length a) then Some (<[i:=true]> a) else None.

Module Initializer.

(** *** [get_neighbours] of [sbayes/util.py] *)

(** [adj_mat.dot(zone)]: entry [i] is set when some member of [zone] is
    adjacent to [i]. *)
Definition dot (adj_mat : list (list bool)) (zone : list bool) : list bool :=
  map (λ row, any (zip_with andb row zone)) adj_mat.

(** [np.logical_and(adj_mat.dot(zone), ~already_in_zone)] *)
Definition get_neighbours (zone already_in_zone : list bool)
    (adj_mat : list (list bool)) : list bool :=
  zip_with andb (dot adj_mat zone) (map negb already_in_zone).

(** *** [SbayesInitializer.grow_cluster_of_size_k] *)

(** [list(set(range(n_objects)) - set(sites_occupied))] *)
Definition sites_free (n_objects : nat) (sites_occupied : list nat) : list nat :=
  filter (λ i, i ∉ sites_occupied) (seq 0 n_objects).

(** The loop [for _ in range(k - 1)].  [m] counts the iterations left, [t]
    numbers the next random draw, [cluster] is the local array and [l] names
    the array [already_in_cluster] in the store [h]. *)
Fixpoint grow_loop (adj_mat : list (list bool)) (rnd : nat → nat) (l : loc)
    (m t : nat) (cluster : list bool) (h : heap)
    : result (list bool) * heap :=
  match m with
  | 0 => (Ok cluster, h)
  | S m' =>
      let neighbours := get_neighbours cluster (load l h) adj_mat in
      if negb (any neighbours) then (Raise ClusterError, h)
      else
        match random_pick (rnd t) (nonzero neighbours) with
        | None => (Raise IndexError, h)
        | Some site_new =>
            match set_true site_new cluster with
            | None => (Raise IndexError, h)
            | Some cluster' =>
                match set_true site_new (load l h) with
                | None => (Raise IndexError, h)
                | Some already' =>
                    grow_loop adj_mat rnd l m' (S t) cluster' (<[l:=already']> h)
                end
            end
        end
  end.

(** The function after [already_in_cluster] is bound to the location [l]. *)
Definition grow_cluster_from (n_objects : nat) (adj_mat : list (list bool))
    (rnd : nat → nat) (k : Z) (l : loc) (h : heap)
    : result (list bool * loc) * heap :=
  let cluster := zeros n_objects in
  let sites_occupied := nonzero (load l h) in
  match random_pick (rnd 0) (sites_free n_objects sites_occupied) with
  | None => (Raise ClusterError, h)
  | Some i =>
      match set_true i cluster with
      | None => (Raise IndexError, h)
      | Some cluster' =>
          match set_true i (load l h) with
          | None => (Raise IndexError, h)
          | Some already' =>
              match grow_loop adj_mat rnd l (Z.to_nat (k - 1)) 1 cluster'
                      (<[l:=already']> h) with
              | (Ok cluster'', h') => (Ok (cluster'', l), h')
              | (Raise e, h') => (Raise e, h')
              end
          end
      end
  end.

(** [grow_cluster_of_size_k(self, k, already_in_cluster=None)]: the argument
    is a reference, or [None], in which case a new array of zeros is used. *)
Definition grow_cluster_of_size_k (n_objects : nat) (adj_mat : list (list bool))
    (rnd : nat → nat) (k : Z) (already_in_cluster : option loc) (h : heap)
    : result (list bool * loc) * heap :=
  match already_in_cluster with
  | Some l => grow_cluster_from n_objects adj_mat rnd k l h
  | None =>
      let '(l, h') := alloc (zeros n_objects) h in
      grow_cluster_from n_objects adj_mat rnd k l h'
  end.

(** *** [SbayesInitializer.grow] *)

Section Grow.
(** The cluster operator comes from [sbayes.sampling.operators].
    [grow_cluster] proposes one grow step; it draws random numbers, so it
    threads its own state [OpState].  It returns the proposed sample and
    the proposal probabilities [q] and [q_back]; [q_ne] is the test
    [q != cluster_operator.Q_REJECT]. *)
Context {Sample OpState Prob : Type}.
Variable grow_cluster : Sample → nat → OpState → (Sample * Prob * Prob) * OpState.
Variable Q_REJECT : Prob.
Variable q_ne : Prob → Prob → bool.

(** [for _ in range(n)]: ... [raise ClusterError] *)
Fixpoint grow_attempts (n : nat) (sample : Sample) (i_cluster : nat)
    (st : OpState) : result Sample * OpState :=
  match n with
  | 0 => (Raise ClusterError, st)
  | S n' =>
      let '((sample', q, q_back), st') := grow_cluster sample i_cluster st in
      if q_ne q Q_REJECT then (Ok sample', st')
      else grow_attempts n' sample' i_cluster st'
  end.

Definition grow (sample : Sample) (i_cluster : nat) (st : OpState)
    : result Sample * OpState :=
  grow_attempts 20 sample i_cluster st.

(** The state after [n] proposals made one after the other, each starting
    from the sample the previous one returned, whatever their outcome. *)
Fixpoint proposals (n : nat) (sample : Sample) (i_cluster : nat)
    (st : OpState) : Sample * OpState :=
  match n with
  | 0 => (sample, st)
  | S n' =>
      let '((sample', _, _), st') := grow_cluster sample i_cluster st in
      proposals n' sample' i_cluster st'
  end.

(** Whether proposal number [n] (counted from 0) of that chain is rejected. *)
Definition rejected (n : nat) (sample : Sample) (i_cluster : nat)
    (st : OpState) : bool :=
  let '(s, st') := proposals n sample i_cluster st in
  let '((_, q, _), _) := grow_cluster s i_cluster st' in
  negb (q_ne q Q_REJECT).
End Grow.

(** *** [SbayesInitializer.initialize_clusters] *)

(** The body of [for i_c in range(self.n_clusters)], threading the matrix
    [clusters] and the list [free_objs]. *)
Fixpoint seed_loop (rnd : nat → nat) (i_cs : list nat)
    (clusters : list (list bool)) (free_objs : list nat)
    : result (list (list bool)) :=
  match i_cs with
  | [] => Ok clusters
  | i_c :: rest =>
      match random_pick (rnd i_c) free_objs with
      | None => Raise ValueError
      | Some j =>
          seed_loop rnd rest
            (alter (λ row, <[j:=true]> row) i_c clusters)
            (list_remove j free_objs)
      end
  end.

Definition initialize_clusters (n_clusters n_objects : nat) (rnd : nat → nat)
    : result (list (list bool)) :=
  seed_loop rnd (seq 0 n_clusters)
    (replicate n_clusters (zeros n_objects)) (seq 0 n_objects).

(** *** Vocabulary of the statements about the initialiser *)

(** The matrix row of a single-object cluster seeded at [s]. *)
Definition seed_row (n_objects s : nat) : list bool :=
  <[s:=true]> (zeros n_objects).

(** The union of two boolean masks, [a | b]. *)
Definition mask_union (a b : list bool) : list bool := zip_with orb a b.

(** [frontier_grown n_objects adj_mat occupied s cluster already]: starting
    from the occupancy mask [occupied], [cluster] has been built in [s]
    additions, the first a free seed and every further one an element of the
    neighbour frontier of the cluster built before it; [already] is the
    occupancy mask with the same additions. *)
Inductive frontier_grown (n_objects : nat) (adj_mat : list (list bool))
    (occupied : list bool) : nat → list bool → list bool → Prop :=
  | fg_seed (i : nat) :
      occupied !! i = Some false →
      frontier_grown n_objects adj_mat occupied 1
        (<[i:=true]> (zeros n_objects)) (<[i:=true]> occupied)
  | fg_step (s : nat) (cluster already : list bool) (j : nat) :
      frontier_grown n_objects adj_mat occupied s cluster already →
      get_neighbours cluster already adj_mat !! j = Some true →
      frontier_grown n_objects adj_mat occupied (S s)
        (<[j:=true]> cluster) (<[j:=true]> already).

(** Object [j] is adjacent to a member of [cluster]: row [j] of the
    adjacency matrix has a [True] at a member. *)
Definition adjacent_to (adj_mat : list (list bool)) (cluster : list bool)
    (j : nat) : Prop :=
  ∃ (row : list bool) (i : nat),
    adj_mat !! j = Some row ∧ row !! i = Some true ∧ cluster !! i = Some true.

(** The neighbour frontier of [cluster], stated on the graph: the objects
    that are neither occupied on entry nor in the cluster, and adjacent to a
    member of the cluster. *)
Definition in_frontier (adj_mat : list (list bool))
    (occupied cluster : list bool) (j : nat) : Prop :=
  occupied !! j = Some false ∧ cluster !! j = Some false ∧
  adjacent_to adj_mat cluster j.

(** [grown_along_edges n_objects adj_mat occupied s cluster]: [cluster] has
    [s] objects; it started as a single object that was not occupied, and
    every further object was in the frontier of the cluster it was added
    to. *)
Inductive grown_along_edges (n_objects : nat) (adj_mat : list (list bool))
    (occupied : list bool) : nat → list bool → Prop :=
  | gae_seed (i : nat) :
      occupied !! i = Some false →
      grown_along_edges n_objects adj_mat occupied 1 (seed_row n_objects i)
  | gae_step (s : nat) (cluster : list bool) (j : nat) :
      grown_along_edges n_objects adj_mat occupied s cluster →
      in_frontier adj_mat occupied cluster j →
      grown_along_edges n_objects adj_mat occupied (S s) (<[j:=true]> cluster).

(** The location of the array that [grow_cluster_of_size_k] writes to: the
    one it is given, or the one of the array of zeros that it makes. *)
Definition argument_loc (already_in_cluster : option loc) (h : heap) : loc :=
  match already_in_cluster with
  | Some l => l
  | None => fresh (dom h)
  end.

(** The occupancy mask [grow_cluster_of_size_k] starts from: the array the
    argument refers to, or zeros when the argument is [None]. *)
Definition entry_mask (n_objects : nat) (already_in_cluster : option loc)
    (h : heap) : option (list bool) :=
  match already_in_cluster with
  | Some l => h !! l
  | None => Some (zeros n_objects)
  end.

(** The adjacency matrix of the path graph on [n] objects: object [i] is
    adjacent to [i - 1] and [i + 1]. *)
Definition path_graph (n : nat) : list (list bool) :=
  map (λ i, map (λ j, bool_decide (i = S j ∨ j = S i)) (seq 0 n)) (seq 0 n).

End Initializer.

Module Weights.

#[local] Open Scope Q_scope.

(** *** [normalize_weights] of [sbayes/model/likelihood.py]

    Weights are modelled by rationals: the rounding of the floats is left
    out, their range is not.  Numpy divides by zero without raising: the
    quotient is [inf] or [nan].  A normalised weight is therefore an
    [option Q], where [None] stands for a value that is not finite. *)

(** The order of [np.unique(..., axis=0)] on boolean rows: lexicographic,
    with [False < True]. *)
Fixpoint row_ltb (a b : list bool) : bool :=
  match a, b with
  | [], [] => false
  | [], _ :: _ => true
  | _ :: _, [] => false
  | x :: a', y :: b' => if Bool.eqb x y then row_ltb a' b' else negb x
  end.

(** Inserting a row into a sorted list of distinct rows. *)
Fixpoint insert_unique (r : list bool) (l : list (list bool)) : list (list bool) :=
  match l with
  | [] => [r]
  | x :: l' =>
      if decide (r = x) then l
      else if row_ltb r x then r :: l
      else x :: insert_unique r l'
  end.

(** The position of a row in a list of rows. *)
Fixpoint index_of (r : list bool) (l : list (list bool)) : nat :=
  match l with
  | [] => 0%nat
  | x :: l' => if decide (r = x) then 0%nat else S (index_of r l')
  end.

(** [np.unique(rows, axis=0, return_inverse=True)]: the sorted distinct rows
    and, for every input row, its position among them. *)
Definition np_unique (rows : list (list bool))
    : list (list bool) * list nat :=
  let pattern := foldr insert_unique [] rows in
  (pattern, map (λ r, index_of r pattern) rows).

(** A boolean used as a number. *)
Definition b2q (b : bool) : Q := if b then 1 else 0.

(** [pattern[:, None, :] * weights[None, :, :]] for one pattern and the
    weights of one feature. *)
Definition mask_weights (pattern : list bool) (w : list Q) : list Q :=
  zip_with (λ b x, b2q b * x) pattern w.

(** [np.sum(..., axis=-1)] *)
Definition sum_Q (l : list Q) : Q := foldl Qplus 0 l.

(** Numpy's division. *)
Definition fdiv (x s : Q) : option Q :=
  if Qeq_bool s 0 then None else Some (x / s).

(** [w /= np.sum(w, axis=-1, keepdims=True)] on one vector of components. *)
Definition normalize_row (w : list Q) : list (option Q) :=
  map (λ x, fdiv x (sum_Q w)) w.

(** The range of the floats: the largest one is [2^1024 - 2^971], and a sum
    that is half-way between it and [2^1024], or beyond, is [inf] (or
    [-inf]). *)
Definition overflows (s : Q) : bool :=
  Qle_bool (inject_Z (2 ^ 1024 - 2 ^ 970)) (Qabs s).

(** [x / s] for a number [x] and a sum [s] of numbers: an infinite sum gives
    the quotient 0. *)
Definition fdiv_sum (x s : Q) : option Q :=
  if overflows s then Some 0 else fdiv x s.

(** [w_per_pattern /= np.sum(w_per_pattern, axis=-1, keepdims=True)] on one
    vector of components. *)
Definition divide_by_sum (w : list Q) : list (option Q) :=
  map (λ x, fdiv_sum x (sum_Q w)) w.

Definition normalize_weights (weights : list (list Q))
    (has_components : list (list bool)) : list (list (list (option Q))) :=
  let '(pattern, pattern_inv) := np_unique has_components in
  let w_per_pattern :=
    map (λ p, map (λ w, divide_by_sum (mask_weights p w)) weights) pattern in
  map (λ i, w_per_pattern !!! i) pattern_inv.

(** The computation without the sharing of patterns, which the source keeps
    as a comment below the function:
    [weights_per_site = weights[np.newaxis, :, :] * has_components[:, np.newaxis, :]]
    and [weights_per_site / weights_per_site.sum(axis=2, keepdims=True)]. *)
Definition normalize_weights_per_site (weights : list (list Q))
    (has_components : list (list bool)) : list (list (list (option Q))) :=
  map (λ r, map (λ w, divide_by_sum (mask_weights r w)) weights) has_components.

(** *** Vocabulary of the statements about [normalize_weights] *)

(** A vector of finite weights that sum to one. *)
Definition sums_to_one (w : list (option Q)) : Prop :=
  ∃ qs : list Q, w = map Some qs ∧ sum_Q qs == 1.

(** Every object has an active component whose weight is positive, for
    some feature. *)
Definition some_active_positive (weights : list (list Q))
    (has_components : list (list bool)) : Prop :=
  ∀ (o : nat) (r : list bool),
    has_components !! o = Some r →
    ∃ (w : list Q) (c : nat) (x : Q),
      w ∈ weights ∧ r !! c = Some true ∧ w !! c = Some x ∧ 0 < x.

(** Every object has, for every feature, an active component whose weight
    is positive. *)
Definition active_positive (weights : list (list Q))
    (has_components : list (list bool)) : Prop :=
  ∀ (o : nat) (r : list bool) (w : list Q),
    has_components !! o = Some r → w ∈ weights →
    ∃ (c : nat) (x : Q), r !! c = Some true ∧ w !! c = Some x ∧ 0 < x.

(** The weights of no feature sum to [inf]. *)
Definition finite_sums (weights : list (list Q)) : Prop :=
  Forall (λ w, overflows (sum_Q w) = false) weights.

(** The vector [p] is the vector [w] masked by [r] and renormalised: its
    entries are finite and sum to one, the entry of an active component is
    its weight divided by a positive number, the same for all, and the entry
    of an inactive component is zero. *)
Definition renormalised (r : list bool) (w : list Q) (p : list (option Q))
    : Prop :=
  length p = length w ∧ sums_to_one p ∧
  ∃ s : Q, 0 < s ∧
    ∀ (c : nat) (b : bool) (x : Q), r !! c = Some b → w !! c = Some x →
      ∃ q : Q, p !! c = Some (Some q) ∧ q * s == (if b then x else 0).

(** What the specification states of the result: objects with the same row
    of [has_components] get the same weights, and the weights of an object
    are, for every feature, the input weights masked by its row and
    renormalised to sum to one. *)
Definition pattern_sharing (weights : list (list Q))
    (has_components : list (list bool)) : Prop :=
  let out := normalize_weights weights has_components in
  length out = length has_components ∧
  (∀ (o1 o2 : nat) (r : list bool),
      has_components !! o1 = Some r → has_components !! o2 = Some r →
      out !! o1 = out !! o2) ∧
  (∀ (o : nat) (r : list bool),
      has_components !! o = Some r →
      ∃ row : list (list (option Q)),
        out !! o = Some row ∧ length row = length weights ∧
        ∀ (f : nat) (w : list Q), weights !! f = Some w →
          ∃ p, row !! f = Some p ∧ renormalised r w p).

End Weights.

Module Resume.

(** *** [MCMCSetup.last_sample] of [sbayes/mcmc_setup.py] *)

Section LastSample.
(** Numbers: the floats of the weights and of the count tensors. *)
Context {F : Type}.
Variable fzero : F.

(** Modelled from the spec: [ModelShapes] ([sbayes.model.model_shapes] is not
    part of the sources at hand), the static dimension record of section 3. *)
Record ModelShapes := {
  n_sites : nat;
  n_features : nat;
  n_states : nat;
  n_clusters : nat;
  n_components : nat;
  n_groups : gmap string nat;
}.

(** Modelled from the spec: the persisted result of a previous run
    ([sbayes.results.Results] is not part of the sources at hand).  It holds
    the cluster assignment of every logged sample (clusters x samples x
    sites), the weights of every logged sample by feature name, and the
    sample indices.  [Persisted] stands for whatever else the previous run
    wrote and the loader read back. *)
Context {Persisted : Type}.
Record Results := {
  r_clusters : list (list (list bool));
  r_weights : gmap string (list (list F));
  r_sample_id : list Z;
  r_rest : Persisted;
}.

(** Modelled from the spec: the part of [Sample] ([sbayes.sampling.state] is
    not part of the sources at hand) that [last_sample] sets up, after
    section 3: cluster assignment, weights, source, sufficient statistics
    and step counter. *)
Context {Confounders : Type}.
Record Sample := {
  clusters : list (list bool);
  weights : list (list F);
  confounders : Confounders;
  source : list (list (list bool));
  feature_counts : gmap string (list (list (list F)));
  model_shapes : ModelShapes;
  i_step : Z;
}.

(** Modelled from the spec: [Sample.from_numpy_arrays] stores the arrays it
    is given; the step counter is set by the caller. *)
Definition from_numpy_arrays (clusters : list (list bool))
    (weights : list (list F)) (confounders : Confounders)
    (source : list (list (list bool)))
    (feature_counts : gmap string (list (list (list F))))
    (model_shapes : ModelShapes) : Sample :=
  {| clusters := clusters; weights := weights; confounders := confounders;
     source := source; feature_counts := feature_counts;
     model_shapes := model_shapes; i_step := 0 |}.

(** The data and the model held by [MCMCSetup]. *)
Context {Features : Type}.
Variable feature_names : list string.
Variable feature_values : Features.
Variable data_confounders : Confounders.
Variable shapes : ModelShapes.

(** Modelled from the spec: [impute_source] ([sbayes.sampling.conditionals]
    is not part of the sources at hand) re-derives the source from the
    prior.  The draw from the prior is a function of the cluster assignment,
    the weights, the confounders and the random numbers. *)
Variable sample_source_from_prior :
  list (list bool) → list (list F) → Confounders → (nat → nat) →
  list (list (list bool)).

Definition impute_source (sample : Sample) (rnd : nat → nat) : Sample :=
  {| clusters := clusters sample; weights := weights sample;
     confounders := confounders sample;
     source := sample_source_from_prior (clusters sample) (weights sample)
                 (confounders sample) rnd;
     feature_counts := feature_counts sample;
     model_shapes := model_shapes sample; i_step := i_step sample |}.

(** Modelled from the spec: [recalculate_feature_counts]
    ([sbayes.sampling.counts] is not part of the sources at hand) recomputes
    the sufficient statistics, which derive from the data, the cluster and
    confounder assignment and the source. *)
Variable count_features :
  Features → list (list bool) → Confounders → list (list (list bool)) →
  gmap string (list (list (list F))).

Definition recalculate_feature_counts (features : Features) (sample : Sample)
    : Sample :=
  {| clusters := clusters sample; weights := weights sample;
     confounders := confounders sample; source := source sample;
     feature_counts := count_features features (clusters sample)
                         (confounders sample) (source sample);
     model_shapes := model_shapes sample; i_step := i_step sample |}.

(** [np.zeros((a, b, c))] *)
Definition zeros3 (a b c : nat) : list (list (list F)) :=
  replicate a (replicate b (replicate c fzero)).

(** [sample.i_step = v] *)
Definition set_i_step (v : Z) (sample : Sample) : Sample :=
  {| clusters := clusters sample; weights := weights sample;
     confounders := confounders sample; source := source sample;
     feature_counts := feature_counts sample;
     model_shapes := model_shapes sample; i_step := v |}.

(** The dictionary [dummy_feature_counts].  Python's [|] lets the right
    operand win on a common key; stdpp's union lets the left one win. *)
Definition dummy_feature_counts : gmap string (list (list (list F))) :=
  ((λ n, zeros3 n (n_features shapes) (n_states shapes)) <$> n_groups shapes)
  ∪ {[ "clusters" := zeros3 (n_clusters shapes) (n_features shapes) (n_states shapes) ]}.

(** [last_sample].  [dummy_source] is what [np.empty] returns: an array of
    the right shape whose content is whatever the memory held. *)
Definition last_sample (results : Results)
    (dummy_source : list (list (list bool))) (rnd : nat → nat)
    : result Sample :=
  clusters ← traverse (λ c, or_raise IndexError (last c)) (r_clusters results);
  weights ← traverse (λ f, ws ← or_raise KeyError (r_weights results !! f);
                           or_raise IndexError (last ws)) feature_names;
  let sample := from_numpy_arrays clusters weights data_confounders
                  dummy_source dummy_feature_counts shapes in
  last_id ← or_raise IndexError (last (r_sample_id results));
  let sample := set_i_step (last_id + 1) sample in
  let sample := impute_source sample rnd in
  let sample := recalculate_feature_counts feature_values sample in
  Ok sample.

(** *** Vocabulary of the statements about [last_sample] *)

(** What [last_sample] reads of a persisted result: the last cluster
    assignment, the last weights of the features and the last sample
    index. *)
Definition persisted_state (results : Results)
    : option (list (list bool) * list (list F) * Z) :=
  cl ← mapM last (r_clusters results);
  w ← mapM (λ f, r_weights results !! f ≫= last) feature_names;
  id ← last (r_sample_id results);
  Some (cl, w, id).

End LastSample.
End Resume.

(** ** Numbers and numpy arrays of the likelihood *)

(** The floats of the likelihood, with the operations of Python, numpy and
    scipy that the engines apply to them, and the closed-form kernels of
    [sbayes.util] that the engines call ([dirichlet_categorical_logpdf],
    [gaussian_mu_marginalised_logpdf], [lh_poisson_lambda_marginalised_logpdf]
    are not part of the sources at hand).  No law is assumed of any of them:
    what is proved holds for IEEE floats as it does for exact numbers.
    [inner1d] is the inner product of two vectors, which
    [numpy.core._umath_tests.inner1d] takes along the last axis, and
    [np_allclose] is [np.allclose] on two matrices. *)
Class Float (F : Type) := {
  fzero : F;
  fhalf : F;
  fone : F;
  fadd : F → F → F;
  fsub : F → F → F;
  fmul : F → F → F;
  fdiv : F → F → F;
  f_of_Z : Z → F;
  np_sum : list F → F;
  inner1d : list F → list F → F;
  np_allclose : list (list F) → list (list F) → bool;
  np_nanstd : list F → F;
  nbinom_pmf : F → F → F → F;
  dirichlet_categorical_logpdf : list (list F) → list (list F) → list F;
  gaussian_mu_marginalised_logpdf : list F → F → F → F → list bool → F;
  lh_poisson_lambda_marginalised_logpdf : list F → F → F → list bool → F;
}.

(** [a[i]] *)
Definition getitem {A} (a : list A) (i : nat) : result A :=
  or_raise IndexError (a !! i).

(** [a[i] = v] *)
Definition setitem {A} (a : list A) (i : nat) (v : A) : result (list A) :=
  if decide (i < length a) then Ok (<[i:=v]> a) else Raise IndexError.

(** [d[k]] *)
Definition getkey {A} (d : gmap string A) (k : string) : result A :=
  or_raise KeyError (d !! k).

(** [for x in xs: body], the body threading a state and able to raise. *)
Fixpoint for_each {S X} (xs : list X) (body : S → X → result S) (s : S)
    : result S :=
  match xs with
  | [] => Ok s
  | x :: xs' => s' ← body s x; for_each xs' body s'
  end.

(** [a[mask]]: the rows of [a] that the boolean [mask] selects. *)
Definition select {A} (mask : list bool) (a : list A) : list A :=
  (filter (λ p : bool * A, p.1 = true) (zip mask a)).*2.

(** [a[:, j]] *)
Definition column {A} (j : nat) (a : list (list A)) : result (list A) :=
  traverse (λ row, getitem row j) a.

(** [a[:, j, c]] *)
Definition column2 {A} (j c : nat) (a : list (list (list A))) : result (list A) :=
  traverse (λ row, cell ← getitem row j; getitem cell c) a.

(** [groups.any(axis=0)] at object [o]: whether some group holds [o]. *)
Definition in_some_group (groups : list (list bool)) (o : nat) : bool :=
  existsb (λ g, bool_decide (g !! o = Some true)) groups.

(** [out[~groups.any(axis=0), :] = 0.] *)
Definition clear_unassigned `{Float F} (groups : list (list bool))
    (out : list (list F)) : list (list F) :=
  imap (λ o row, if in_some_group groups o then row else map (λ _, fzero) row) out.

(** [out[g, j] = vals]: the [k]-th object that the mask [g] selects gets the
    [k]-th value in column [j]. *)
Fixpoint scatter_column {A} (g : list bool) (j : nat) (vals : list A)
    (out : list (list A)) : result (list (list A)) :=
  match g, out with
  | [], [] => Ok []
  | b :: g', row :: out' =>
      if b then
        match vals with
        | v :: vals' =>
            row' ← setitem row j v;
            rest ← scatter_column g' j vals' out';
            Ok (row' :: rest)
        | [] => Raise ValueError
        end
      else rest ← scatter_column g' j vals out'; Ok (row :: rest)
  | _, _ => Raise IndexError
  end.

(** [out[g, :] = rows]: the [k]-th object that the mask [g] selects gets the
    [k]-th row. *)
Fixpoint scatter_rows {A} (g : list bool) (rows : list (list A))
    (out : list (list A)) : result (list (list A)) :=
  match g, out with
  | [], [] => Ok []
  | b :: g', row :: out' =>
      if b then
        match rows with
        | r :: rows' =>
            if decide (length r = length row)
            then rest ← scatter_rows g' rows' out'; Ok (r :: rest)
            else Raise ValueError
        | [] => Raise ValueError
        end
      else rest ← scatter_rows g' rows out'; Ok (row :: rest)
  | _, _ => Raise IndexError
  end.

(** [a[..., c]]: component [c] of an array objects x features x components. *)
Definition get_component {A} (c : nat) (a : list (list (list A)))
    : result (list (list A)) :=
  traverse (λ row, traverse (λ cell, getitem cell c) row) a.

(** Writing through the view [a[..., c]]. *)
Definition set_component {A} (c : nat) (out : list (list A))
    (a : list (list (list A))) : list (list (list A)) :=
  zip_with (λ orow arow, zip_with (λ v cell, <[c:=v]> cell) orow arow) out a.

(** An index as [na_values()] returns it: [None], which numpy reads as
    [np.newaxis], or a boolean mask over objects and features. *)
Inductive na_index :=
  | NewAxis
  | NaMask (m : list (list bool)).

(** [a[idx] = v].  Under [None] the indexed view is the whole array with one
    more axis in front, so every entry is assigned.  Under a mask the entries
    of the selected objects and features are assigned, for all components. *)
Definition assign_index {A} (idx : na_index) (v : A)
    (a : list (list (list A))) : list (list (list A)) :=
  match idx with
  | NewAxis => map (map (map (λ _, v))) a
  | NaMask m =>
      zip_with (λ mrow arow,
        zip_with (λ (b : bool) (cell : list A),
                    if b then map (λ _, v) cell else cell)
          mrow arow) m a
  end.

(** ** The dependency-tracked cache cell *)

(** Modelled from the spec: the cache cell of section 4.1
    ([sbayes.sampling.state] is not part of the sources at hand): a value, the
    flag that [is_outdated] reads, and for every input key the dirty bit of
    each group index. *)
Record CacheNode (V : Type) := {
  value : V;
  outdated : bool;
  dirty : gmap string (list bool);
}.
Arguments value {V} _.
Arguments outdated {V} _.
Arguments dirty {V} _.

Definition is_outdated {V} (c : CacheNode V) : bool := outdated c.

(** The dirty bits of an input key. *)
Definition dirty_bits {V} (c : CacheNode V) (input_key : string) : list bool :=
  default [] (dirty c !! input_key).

(** Modelled from the spec: [what_changed(input_key, caching)].  Without
    caching: all group indices.  With caching: the indices marked dirty,
    whose marks are then cleared. *)
Definition what_changed {V} (input_key : string) (caching : bool)
    (c : CacheNode V) : list nat * CacheNode V :=
  let bits := dirty_bits c input_key in
  if caching then
    (nonzero bits,
     {| value := value c; outdated := outdated c;
        dirty := <[input_key := zeros (length bits)]> (dirty c) |})
  else (seq 0 (length bits), c).

(** [np.unique] of a vector of indices: ascending, without repetition. *)
Definition np_unique_indices (l : list nat) : list nat :=
  filter (λ i, i ∈ l) (seq 0 (S (foldr Nat.max 0 l))).

(** Modelled from the spec: [what_changed] for a list of input keys, as
    [pointwise_likelihood] calls it: the group indices changed under any of
    the keys, ascending and without repetition. *)
Fixpoint what_changed_any {V} (input_keys : list string) (caching : bool)
    (c : CacheNode V) : list nat * CacheNode V :=
  match input_keys with
  | [] => ([], c)
  | k :: ks =>
      let '(changed, c') := what_changed k caching c in
      let '(changed', c'') := what_changed_any ks caching c' in
      (np_unique_indices (changed ++ changed'), c'')
  end.

(** Modelled from the spec: leaving [with cache.edit() as lh] normally
    commits the array and clears the outdated flag. *)
Definition commit {V} (v : V) (c : CacheNode V) : CacheNode V :=
  {| value := v; outdated := false; dirty := dirty c |}.

(** Modelled from the spec: [mark_dirty(group_indices)] for one input key. *)
Definition mark_dirty {V} (input_key : string) (group_indices : list nat)
    (c : CacheNode V) : CacheNode V :=
  {| value := value c; outdated := true;
     dirty := <[input_key :=
                  foldr (λ g bits, <[g:=true]> bits)
                    (dirty_bits c input_key) group_indices]> (dirty c) |}.

(** Modelled from the spec: every group of every input key marked dirty, as
    [everything_changed()] and the setters of whole arrays do. *)
Definition mark_all_dirty {V} (c : CacheNode V) : CacheNode V :=
  {| value := value c; outdated := true;
     dirty := (λ bits, replicate (length bits) true) <$> dirty c |}.

Module Likelihood.

(** *** The state and the data of the likelihood *)

(** [class FeatureType(str, Enum)] *)
Inductive FeatureType := ft_categorical | ft_gaussian | ft_poisson | ft_logitnormal.

#[global] Instance FeatureType_eq_dec : EqDecision FeatureType.
Proof. solve_decision. Defined.

(** A pair of hyperparameter arrays of a prior: mean and standard deviation
    of a normal prior, shape and rate of a gamma prior. *)
Record MeanPrior (A : Type) := {
  mu_0_array : A;
  sigma_0_array : A;
}.
Arguments mu_0_array {A} _.
Arguments sigma_0_array {A} _.

Record RatePrior (A : Type) := {
  alpha_0_array : A;
  beta_0_array : A;
}.
Arguments alpha_0_array {A} _.
Arguments beta_0_array {A} _.

Section State.
Context {F : Type}.

(** Modelled from the spec: the part of a [Sample] that belongs to one
    feature type (section 3): the sufficient statistics by group key (groups
    x features x states) and the source (objects x features x components). *)
Record GenericTypeSample := {
  sufficient_statistics : gmap string (list (list (list F)));
  source : list (list (list bool));
}.

(** Modelled from the spec: the caches of one feature type: the
    log-likelihood of every group, by group key, and the pointwise component
    likelihoods (objects x features x components). *)
Record GenericTypeCache := {
  group_likelihoods : gmap string (CacheNode (list F));
  component_likelihoods : CacheNode (list (list (list F)));
}.

Record ModelCache := {
  cache_categorical : GenericTypeCache;
  cache_gaussian : GenericTypeCache;
  cache_poisson : GenericTypeCache;
  cache_logitnormal : GenericTypeCache;
}.

(** A confounder: its name and the assignment of the objects to its groups
    (groups x objects). *)
Record Confounder := {
  name : string;
  group_assignment : list (list bool);
}.

(** Modelled from the spec: the [Sample] of section 3, as far as the
    likelihood reads and writes it.  [get_component_index] is the method of
    [sample.model_shapes]. *)
Record Sample := {
  clusters : list (list bool);
  categorical : option GenericTypeSample;
  gaussian : option GenericTypeSample;
  poisson : option GenericTypeSample;
  logitnormal : option GenericTypeSample;
  confounders : gmap string Confounder;
  get_component_index : string → nat;
  cache : ModelCache;
}.

(** [sample.<feature type>] *)
Definition ft_sample (ft : FeatureType) (sample : Sample)
    : option GenericTypeSample :=
  match ft with
  | ft_categorical => categorical sample
  | ft_gaussian => gaussian sample
  | ft_poisson => poisson sample
  | ft_logitnormal => logitnormal sample
  end.

(** [get_ft_cache]: [cache.<feature type>] *)
Definition get_ft_cache (ft : FeatureType) (c : ModelCache) : GenericTypeCache :=
  match ft with
  | ft_categorical => cache_categorical c
  | ft_gaussian => cache_gaussian c
  | ft_poisson => cache_poisson c
  | ft_logitnormal => cache_logitnormal c
  end.

(** The sample after the caches of one feature type were written in place. *)
Definition set_ft_cache (ft : FeatureType) (v : GenericTypeCache)
    (sample : Sample) : Sample :=
  let c := cache sample in
  {| clusters := clusters sample; categorical := categorical sample;
     gaussian := gaussian sample; poisson := poisson sample;
     logitnormal := logitnormal sample; confounders := confounders sample;
     get_component_index := get_component_index sample;
     cache :=
       match ft with
       | ft_categorical =>
           {| cache_categorical := v; cache_gaussian := cache_gaussian c;
              cache_poisson := cache_poisson c;
              cache_logitnormal := cache_logitnormal c |}
       | ft_gaussian =>
           {| cache_categorical := cache_categorical c; cache_gaussian := v;
              cache_poisson := cache_poisson c;
              cache_logitnormal := cache_logitnormal c |}
       | ft_poisson =>
           {| cache_categorical := cache_categorical c;
              cache_gaussian := cache_gaussian c; cache_poisson := v;
              cache_logitnormal := cache_logitnormal c |}
       | ft_logitnormal =>
           {| cache_categorical := cache_categorical c;
              cache_gaussian := cache_gaussian c;
              cache_poisson := cache_poisson c; cache_logitnormal := v |}
       end |}.

(** The sample after the cell [group_likelihoods[key]] of a feature type was
    written in place. *)
Definition set_group_likelihoods (ft : FeatureType) (key : string)
    (cell : CacheNode (list F)) (sample : Sample) : Sample :=
  let c := get_ft_cache ft (cache sample) in
  set_ft_cache ft
    {| group_likelihoods := <[key:=cell]> (group_likelihoods c);
       component_likelihoods := component_likelihoods c |} sample.

(** The sample after the cell [component_likelihoods] of a feature type was
    written in place. *)
Definition set_component_likelihoods (ft : FeatureType)
    (cell : CacheNode (list (list (list F)))) (sample : Sample) : Sample :=
  let c := get_ft_cache ft (cache sample) in
  set_ft_cache ft
    {| group_likelihoods := group_likelihoods c;
       component_likelihoods := cell |} sample.

(** [self.features]: the categorical observations (objects x features x
    states, one-hot) with their mask of missing values (objects x features),
    and the numeric observations (objects x features). *)
Record CategoricalFeatures := {
  cat_values : list (list (list bool));
  cat_na_values : list (list bool);
}.

Record NumericFeatures := {
  num_values : list (list F);
  n_features : nat;
}.

Record Features := {
  features_categorical : CategoricalFeatures;
  features_gaussian : NumericFeatures;
  features_poisson : NumericFeatures;
  features_logitnormal : NumericFeatures;
}.

(** [self.prior]: the hyperparameter arrays.  Those of the cluster effect are
    indexed by feature, those of a confounding effect by group and feature;
    the Dirichlet concentration of a confounding effect is a method of the
    sample. *)

Record ClusterEffectPrior := {
  cluster_concentration_array : list (list F);
  cluster_gaussian_mean : MeanPrior (list F);
  cluster_poisson : RatePrior (list F);
  cluster_logitnormal_mean : MeanPrior (list F);
}.

Record ConfoundingEffectPrior := {
  conf_concentration_array : Sample → list (list (list F));
  conf_gaussian_mean : MeanPrior (list (list F));
  conf_poisson : RatePrior (list (list F));
  conf_logitnormal_mean : MeanPrior (list (list F));
}.

Record Prior := {
  prior_cluster_effect : ClusterEffectPrior;
  prior_confounding_effects : gmap string ConfoundingEffectPrior;
}.

(** The attributes of a likelihood object.  [self_confounders] is the
    dictionary of the confounders in the order of their registration. *)
Record Self := {
  features : Features;
  self_confounders : list (string * Confounder);
  prior : Prior;
}.

(** The numeric observations and the mean prior that an engine with a normal
    kernel reads: the Gaussian ones or the logit-normal ones. *)
Definition numeric_features (ft : FeatureType) (fs : Features) : NumericFeatures :=
  match ft with
  | ft_poisson => features_poisson fs
  | ft_logitnormal => features_logitnormal fs
  | _ => features_gaussian fs
  end.

Definition cluster_mean (ft : FeatureType) (p : ClusterEffectPrior)
    : MeanPrior (list F) :=
  match ft with
  | ft_logitnormal => cluster_logitnormal_mean p
  | _ => cluster_gaussian_mean p
  end.

Definition conf_mean (ft : FeatureType) (p : ConfoundingEffectPrior)
    : MeanPrior (list (list F)) :=
  match ft with
  | ft_logitnormal => conf_logitnormal_mean p
  | _ => conf_gaussian_mean p
  end.

End State.
Arguments GenericTypeSample : clear implicits.
Arguments GenericTypeCache : clear implicits.
Arguments ModelCache : clear implicits.
Arguments Sample : clear implicits.
Arguments CategoricalFeatures : clear implicits.
Arguments NumericFeatures : clear implicits.
Arguments Features : clear implicits.
Arguments ClusterEffectPrior : clear implicits.
Arguments ConfoundingEffectPrior : clear implicits.
Arguments Prior : clear implicits.
Arguments Self : clear implicits.

(** *** The engines *)

(** The count of the observations by group, feature and state
    ([sbayes.sampling.counts] is not part of the sources at hand), from the
    categorical observations, the clusters, the confounders and the
    source. *)
Class FeatureCounts (F : Type) := {
  count_features :
    list (list (list bool)) → list (list bool) → gmap string Confounder →
    list (list (list bool)) → gmap string (list (list (list F)));
}.

Section Engines.
Context `{Float F, FeatureCounts F}.

(** [sample.categorical] replaced. *)
Definition set_categorical (v : option (GenericTypeSample F))
    (sample : Sample F) : Sample F :=
  {| clusters := clusters sample; categorical := v;
     gaussian := gaussian sample; poisson := poisson sample;
     logitnormal := logitnormal sample; confounders := confounders sample;
     get_component_index := get_component_index sample;
     cache := cache sample |}.

(** Modelled from the spec: [recalculate_feature_counts] recomputes the
    sufficient statistics from scratch and stores them through the setter,
    which marks the caches that depend on them dirty (sections 4.2, 4.3). *)
Definition recalculate_feature_counts (values : list (list (list bool)))
    (sample : Sample F) : Sample F :=
  match categorical sample with
  | None => sample
  | Some cat =>
      let counts := count_features values (clusters sample)
                      (confounders sample) (source cat) in
      let c := cache_categorical (cache sample) in
      set_ft_cache ft_categorical
        {| group_likelihoods := mark_all_dirty <$> group_likelihoods c;
           component_likelihoods := mark_all_dirty (component_likelihoods c) |}
        (set_categorical
           (Some {| sufficient_statistics := counts; source := source cat |})
           sample)
  end.

(** **** [LikelihoodCategorical]

    In [compute_lh_*] the name [cell] stands for the local variable [cache]
    of the source, and [lh] for the array that [cache.edit()] hands out. *)

Definition Categorical_compute_lh_clusters (self : Self F) (sample : Sample F)
    (caching : bool) : result (F * Sample F) :=
  cell ← getkey (group_likelihoods (cache_categorical (cache sample))) "clusters";
  cat ← or_raise AttributeError (categorical sample);
  feature_counts ← getkey (sufficient_statistics cat) "clusters";
  let '(changed, cell) := what_changed "sufficient_stats" caching cell in
  lh ← for_each changed (λ lh i_cluster,
         counts ← getitem feature_counts i_cluster;
         setitem lh i_cluster
           (np_sum (dirichlet_categorical_logpdf counts
                      (cluster_concentration_array
                         (prior_cluster_effect (prior self))))))
       (value cell);
  let cell := commit lh cell in
  Ok (np_sum (value cell),
      set_group_likelihoods ft_categorical "clusters" cell sample).

Definition Categorical_compute_lh_confounder (self : Self F) (sample : Sample F)
    (conf : string) (caching : bool) : result (F * Sample F) :=
  cell ← getkey (group_likelihoods (cache_categorical (cache sample))) conf;
  cat ← or_raise AttributeError (categorical sample);
  feature_counts ← getkey (sufficient_statistics cat) conf;
  conf_prior ← getkey (prior_confounding_effects (prior self)) conf;
  let prior_concentration := conf_concentration_array conf_prior sample in
  let '(changed, cell) := what_changed "sufficient_stats" caching cell in
  lh ← for_each changed (λ lh i_g,
         counts ← getitem feature_counts i_g;
         a ← getitem prior_concentration i_g;
         setitem lh i_g (np_sum (dirichlet_categorical_logpdf counts a)))
       (value cell);
  let cell := commit lh cell in
  Ok (np_sum (value cell),
      set_group_likelihoods ft_categorical conf cell sample).

(** [normalize(x, axis=-1)] on one vector of the last axis. *)
Definition normalize (x : list F) : list F :=
  map (λ v, fdiv v (np_sum x)) x.

(** A boolean used as a float. *)
Definition b2f (b : bool) : F := if b then fone else fzero.

(** [np.einsum('ijk,jk->ij', f_g, p_g)] *)
Definition einsum_ijk_jk (f_g : list (list (list bool)))
    (p_g : list (list F)) : list (list F) :=
  map (λ f_i, zip_with (λ f_ij p_j,
                 np_sum (zip_with (λ b p, fmul (b2f b) p) f_ij p_j)) f_i p_g)
      f_g.

(** [inner1d(f_g, p_g[np.newaxis, ...])]: the one matrix [p_g] is broadcast
    over the objects of [f_g]. *)
Definition inner1d_ijk_jk (f_g : list (list (list bool)))
    (p_g : list (list F)) : list (list F) :=
  map (λ f_i, zip_with (λ f_ij p_j, inner1d (map b2f f_ij) p_j) f_i p_g) f_g.

(** [compute_component_likelihood].  The first assertion compares the rows
    just written with [np.sum(f_g * p_g[np.newaxis, ...], axis=-1)], the
    sums of products that [einsum_ijk_jk] stands for; the second one with
    [inner1d].  [np.allclose] is false of a [nan], also against itself, so
    that either assertion can fail. *)
Definition compute_component_likelihood (features : list (list (list bool)))
    (probs : list (list (list F))) (groups : list (list bool))
    (changed_groups : list nat) (out : list (list F))
    : result (list (list F)) :=
  let out := clear_unassigned groups out in
  for_each changed_groups (λ out i,
    g ← getitem groups i;
    let f_g := select g features in
    p_g ← getitem probs i;
    out ← scatter_rows g (einsum_ijk_jk f_g p_g) out;
    py_assert (np_allclose (select g out) (einsum_ijk_jk f_g p_g));;
    py_assert (np_allclose (select g out) (inner1d_ijk_jk f_g p_g));;
    Ok out) out.

Definition Categorical_compute_pointwise_cluster_likelihood (self : Self F)
    (sample : Sample F) (changed_clusters : list nat) (out : list (list F))
    : result (list (list F)) :=
  cat ← or_raise AttributeError (categorical sample);
  counts ← getkey (sufficient_statistics cat) "clusters";
  let cluster_effect_counts :=
    map (λ c, zip_with (zip_with fadd) c
                (cluster_concentration_array (prior_cluster_effect (prior self))))
        counts in
  let cluster_effect := map (map normalize) cluster_effect_counts in
  compute_component_likelihood (cat_values (features_categorical (features self)))
    cluster_effect (clusters sample) changed_clusters out.

Definition Categorical_compute_pointwise_confounder_likelihood (self : Self F)
    (confounder : Confounder) (sample : Sample F) (changed_groups : list nat)
    (out : list (list F)) : result (list (list F)) :=
  let groups := group_assignment confounder in
  conf_prior ← getkey (prior_confounding_effects (prior self)) (name confounder);
  cat ← or_raise AttributeError (categorical sample);
  counts ← getkey (sufficient_statistics cat) (name confounder);
  let conf_effect_counts :=
    zip_with (zip_with (zip_with fadd)) counts
      (conf_concentration_array conf_prior sample) in
  let conf_effect := map (map normalize) conf_effect_counts in
  compute_component_likelihood (cat_values (features_categorical (features self)))
    conf_effect groups changed_groups out.

Definition Categorical_na_values (self : Self F) : na_index :=
  NaMask (cat_na_values (features_categorical (features self))).

(** **** [LikelihoodPoisson] *)

Definition Poisson_compute_lh_clusters (self : Self F) (sample : Sample F)
    (caching : bool) : result (F * Sample F) :=
  cell ← getkey (group_likelihoods (cache_poisson (cache sample))) "clusters";
  let '(changed, cell) := what_changed "sufficient_stats" caching cell in
  lh ← for_each changed (λ lh i_cluster,
         lh ← setitem lh i_cluster fzero;
         cluster ← getitem (clusters sample) i_cluster;
         for_each (seq 0 (n_features (features_poisson (features self))))
           (λ lh f,
              x ← column f (select cluster
                              (num_values (features_poisson (features self))));
              alpha_0 ← getitem (alpha_0_array (cluster_poisson
                                   (prior_cluster_effect (prior self)))) f;
              beta_0 ← getitem (beta_0_array (cluster_poisson
                                  (prior_cluster_effect (prior self)))) f;
              lh_i ← getitem lh i_cluster;
              poi ← or_raise AttributeError (poisson sample);
              in_component ← column2 f 0 (select cluster (source poi));
              setitem lh i_cluster
                (fadd lh_i (lh_poisson_lambda_marginalised_logpdf
                              x alpha_0 beta_0 in_component)))
           lh)
       (value cell);
  let cell := commit lh cell in
  Ok (np_sum (value cell),
      set_group_likelihoods ft_poisson "clusters" cell sample).

Definition Poisson_compute_lh_confounder (self : Self F) (sample : Sample F)
    (conf : string) (caching : bool) : result (F * Sample F) :=
  cell ← getkey (group_likelihoods (cache_poisson (cache sample))) conf;
  let i_component := get_component_index sample conf in
  let '(changed, cell) := what_changed "sufficient_stats" caching cell in
  lh ← for_each changed (λ lh i_g,
         lh ← setitem lh i_g fzero;
         confounder ← getkey (confounders sample) conf;
         group ← getitem (group_assignment confounder) i_g;
         for_each (seq 0 (n_features (features_poisson (features self))))
           (λ lh f,
              x ← column f (select group
                              (num_values (features_poisson (features self))));
              conf_prior ← getkey (prior_confounding_effects (prior self)) conf;
              alpha_0_g ← getitem (alpha_0_array (conf_poisson conf_prior)) i_g;
              alpha_0 ← getitem alpha_0_g f;
              beta_0_g ← getitem (beta_0_array (conf_poisson conf_prior)) i_g;
              beta_0 ← getitem beta_0_g f;
              lh_i ← getitem lh i_g;
              poi ← or_raise AttributeError (poisson sample);
              in_component ← column2 f i_component (select group (source poi));
              setitem lh i_g
                (fadd lh_i (lh_poisson_lambda_marginalised_logpdf
                              x alpha_0 beta_0 in_component)))
           lh)
       (value cell);
  let cell := commit lh cell in
  Ok (np_sum (value cell),
      set_group_likelihoods ft_poisson conf cell sample).

(** The loop over the changed groups of the pointwise Poisson likelihood:
    the negative-binomial predictive of every member, given the others. *)
Definition Poisson_pointwise_groups (values : list (list F)) (n_columns : nat)
    (alpha_0 beta_0 : nat → nat → result F) (groups : list (list bool))
    (changed_groups : list nat) (out : list (list F))
    : result (list (list F)) :=
  let out := clear_unassigned groups out in
  for_each changed_groups (λ out i,
    g ← getitem groups i;
    let f_g := select g values in
    for_each (seq 0 n_columns) (λ out j,
      f ← column j f_g;
      let n := (Z.of_nat (length f) - 1)%Z in
      a0 ← alpha_0 i j;
      b0 ← beta_0 i j;
      let alpha_1 := map (λ x, fsub (fadd a0 (np_sum f)) x) f in
      let beta_1 := fadd b0 (f_of_Z n) in
      scatter_column g j
        (zip_with (λ x a, nbinom_pmf x a (fdiv beta_1 (fadd fone beta_1)))
           f alpha_1)
        out) out) out.

Definition Poisson_compute_pointwise_cluster_likelihood (self : Self F)
    (sample : Sample F) (changed_clusters : list nat) (out : list (list F))
    : result (list (list F)) :=
  let alpha_0 := alpha_0_array (cluster_poisson (prior_cluster_effect (prior self))) in
  let beta_0 := beta_0_array (cluster_poisson (prior_cluster_effect (prior self))) in
  Poisson_pointwise_groups (num_values (features_poisson (features self)))
    (n_features (features_poisson (features self)))
    (λ _ j, getitem alpha_0 j) (λ _ j, getitem beta_0 j)
    (clusters sample) changed_clusters out.

Definition Poisson_compute_pointwise_confounder_likelihood (self : Self F)
    (confounder : Confounder) (sample : Sample F) (changed_groups : list nat)
    (out : list (list F)) : result (list (list F)) :=
  conf_prior ← getkey (prior_confounding_effects (prior self)) (name confounder);
  let alpha_0 := alpha_0_array (conf_poisson conf_prior) in
  let beta_0 := beta_0_array (conf_poisson conf_prior) in
  Poisson_pointwise_groups (num_values (features_poisson (features self)))
    (n_features (features_poisson (features self)))
    (λ i j, row ← getitem alpha_0 i; getitem row j)
    (λ i j, row ← getitem beta_0 i; getitem row j)
    (group_assignment confounder) changed_groups out.

(** **** [LikelihoodGaussian] and [LikelihoodLogitNormal]

    The two classes have the same code, up to the attribute they read from
    [self.features], [self.prior], [sample] and [sample.cache]; [ft] is that
    attribute. *)

Definition Normal_compute_lh_clusters (ft : FeatureType) (self : Self F)
    (sample : Sample F) (caching : bool) : result (F * Sample F) :=
  cell ← getkey (group_likelihoods (get_ft_cache ft (cache sample))) "clusters";
  let '(changed, cell) := what_changed "sufficient_stats" caching cell in
  lh ← for_each changed (λ lh i_cluster,
         lh ← setitem lh i_cluster fzero;
         cluster ← getitem (clusters sample) i_cluster;
         for_each (seq 0 (n_features (numeric_features ft (features self))))
           (λ lh f,
              x ← column f (select cluster
                              (num_values (numeric_features ft (features self))));
              mu_0 ← getitem (mu_0_array (cluster_mean ft
                                (prior_cluster_effect (prior self)))) f;
              sigma_0 ← getitem (sigma_0_array (cluster_mean ft
                                   (prior_cluster_effect (prior self)))) f;
              let sigma_fixed := np_nanstd x in
              lh_i ← getitem lh i_cluster;
              s ← or_raise AttributeError (ft_sample ft sample);
              in_component ← column2 f 0 (select cluster (source s));
              setitem lh i_cluster
                (fadd lh_i (gaussian_mu_marginalised_logpdf
                              x mu_0 sigma_0 sigma_fixed in_component)))
           lh)
       (value cell);
  let cell := commit lh cell in
  Ok (np_sum (value cell), set_group_likelihoods ft "clusters" cell sample).

Definition Normal_compute_lh_confounder (ft : FeatureType) (self : Self F)
    (sample : Sample F) (conf : string) (caching : bool)
    : result (F * Sample F) :=
  cell ← getkey (group_likelihoods (get_ft_cache ft (cache sample))) conf;
  let i_component := get_component_index sample conf in
  let '(changed, cell) := what_changed "sufficient_stats" caching cell in
  lh ← for_each changed (λ lh i_g,
         lh ← setitem lh i_g fzero;
         confounder ← getkey (confounders sample) conf;
         group ← getitem (group_assignment confounder) i_g;
         for_each (seq 0 (n_features (numeric_features ft (features self))))
           (λ lh f,
              x ← column f (select group
                              (num_values (numeric_features ft (features self))));
              conf_prior ← getkey (prior_confounding_effects (prior self)) conf;
              mu_0_g ← getitem (mu_0_array (conf_mean ft conf_prior)) i_g;
              mu_0 ← getitem mu_0_g f;
              sigma_0_g ← getitem (sigma_0_array (conf_mean ft conf_prior)) i_g;
              sigma_0 ← getitem sigma_0_g f;
              let sigma_fixed := np_nanstd x in
              lh_i ← getitem lh i_g;
              s ← or_raise AttributeError (ft_sample ft sample);
              in_component ← column2 f i_component (select group (source s));
              setitem lh i_g
                (fadd lh_i (gaussian_mu_marginalised_logpdf
                              x mu_0 sigma_0 sigma_fixed in_component)))
           lh)
       (value cell);
  let cell := commit lh cell in
  Ok (np_sum (value cell), set_group_likelihoods ft conf cell sample).

(** The loop over the changed groups of the pointwise normal likelihoods.
    The source marks the kernel as not yet implemented and writes 0.5. *)
Definition Normal_pointwise_groups (values : list (list F)) (n_columns : nat)
    (groups : list (list bool)) (changed_groups : list nat)
    (out : list (list F)) : result (list (list F)) :=
  let out := clear_unassigned groups out in
  for_each changed_groups (λ out i,
    g ← getitem groups i;
    let f_g := select g values in
    for_each (seq 0 n_columns) (λ out j,
      f ← column j f_g;
      scatter_column g j (replicate (length f) fhalf) out) out) out.

Definition Normal_compute_pointwise_cluster_likelihood (ft : FeatureType)
    (self : Self F) (sample : Sample F) (changed_clusters : list nat)
    (out : list (list F)) : result (list (list F)) :=
  Normal_pointwise_groups (num_values (numeric_features ft (features self)))
    (n_features (numeric_features ft (features self)))
    (clusters sample) changed_clusters out.

Definition Normal_compute_pointwise_confounder_likelihood (ft : FeatureType)
    (self : Self F) (confounder : Confounder) (sample : Sample F)
    (changed_groups : list nat) (out : list (list F))
    : result (list (list F)) :=
  conf_prior ← getkey (prior_confounding_effects (prior self)) (name confounder);
  Normal_pointwise_groups (num_values (numeric_features ft (features self)))
    (n_features (numeric_features ft (features self)))
    (group_assignment confounder) changed_groups out.

(** [LikelihoodGenericType.na_values]: the body is [pass], the method returns
    [None].  The Gaussian, Poisson and logit-normal classes inherit it. *)
Definition Generic_na_values (self : Self F) : na_index := NewAxis.

(** **** [LikelihoodGenericType] and its four subclasses *)

(** The methods that the subclasses define or inherit. *)
Record LikelihoodGenericType := {
  feature_type : FeatureType;
  compute_lh_clusters : Self F → Sample F → bool → result (F * Sample F);
  compute_lh_confounder :
    Self F → Sample F → string → bool → result (F * Sample F);
  compute_pointwise_cluster_likelihood :
    Self F → Sample F → list nat → list (list F) → result (list (list F));
  compute_pointwise_confounder_likelihood :
    Self F → Confounder → Sample F → list nat → list (list F) →
    result (list (list F));
  na_values : Self F → na_index;
}.

Definition LikelihoodCategorical : LikelihoodGenericType :=
  {| feature_type := ft_categorical;
     compute_lh_clusters := Categorical_compute_lh_clusters;
     compute_lh_confounder := Categorical_compute_lh_confounder;
     compute_pointwise_cluster_likelihood :=
       Categorical_compute_pointwise_cluster_likelihood;
     compute_pointwise_confounder_likelihood :=
       Categorical_compute_pointwise_confounder_likelihood;
     na_values := Categorical_na_values |}.

Definition LikelihoodGaussian : LikelihoodGenericType :=
  {| feature_type := ft_gaussian;
     compute_lh_clusters := Normal_compute_lh_clusters ft_gaussian;
     compute_lh_confounder := Normal_compute_lh_confounder ft_gaussian;
     compute_pointwise_cluster_likelihood :=
       Normal_compute_pointwise_cluster_likelihood ft_gaussian;
     compute_pointwise_confounder_likelihood :=
       Normal_compute_pointwise_confounder_likelihood ft_gaussian;
     na_values := Generic_na_values |}.

Definition LikelihoodPoisson : LikelihoodGenericType :=
  {| feature_type := ft_poisson;
     compute_lh_clusters := Poisson_compute_lh_clusters;
     compute_lh_confounder := Poisson_compute_lh_confounder;
     compute_pointwise_cluster_likelihood :=
       Poisson_compute_pointwise_cluster_likelihood;
     compute_pointwise_confounder_likelihood :=
       Poisson_compute_pointwise_confounder_likelihood;
     na_values := Generic_na_values |}.

Definition LikelihoodLogitNormal : LikelihoodGenericType :=
  {| feature_type := ft_logitnormal;
     compute_lh_clusters := Normal_compute_lh_clusters ft_logitnormal;
     compute_lh_confounder := Normal_compute_lh_confounder ft_logitnormal;
     compute_pointwise_cluster_likelihood :=
       Normal_compute_pointwise_cluster_likelihood ft_logitnormal;
     compute_pointwise_confounder_likelihood :=
       Normal_compute_pointwise_confounder_likelihood ft_logitnormal;
     na_values := Generic_na_values |}.

(** [is_used]: [sample.<feature type> is not None] *)
Definition is_used (engine : LikelihoodGenericType) (sample : Sample F) : bool :=
  bool_decide (is_Some (ft_sample (feature_type engine) sample)).

(** [LikelihoodGenericType.__call__]: the total log-likelihood of one
    feature type. *)
Definition GenericType_call (engine : LikelihoodGenericType) (self : Self F)
    (sample : Sample F) (caching : bool) : result (F * Sample F) :=
  let sample :=
    if caching then sample
    else recalculate_feature_counts
           (cat_values (features_categorical (features self))) sample in
  let log_lh := fzero in
  '(v, sample) ← compute_lh_clusters engine self sample caching;
  let log_lh := fadd log_lh v in
  for_each (self_confounders self).*1
    (λ '(log_lh, sample) conf,
       '(v, sample) ← compute_lh_confounder engine self sample conf caching;
       Ok (fadd log_lh v, sample))
    (log_lh, sample).

(** [LikelihoodGenericType.pointwise_likelihood].  [CHECK_CACHING] is the
    constant [False], which leaves the two assertions out. *)
Definition pointwise_likelihood (engine : LikelihoodGenericType)
    (self : Self F) (sample : Sample F) (caching : bool)
    : result (list (list (list F)) * Sample F) :=
  let lh_cache :=
    component_likelihoods (get_ft_cache (feature_type engine) (cache sample)) in
  if caching && negb (is_outdated lh_cache) then Ok (value lh_cache, sample)
  else
    let component_likelihood := value lh_cache in
    let '(changed_clusters, lh_cache) :=
      what_changed_any ["clusters"; "clusters_sufficient_stats"] caching lh_cache in
    component_likelihood ←
      (if bool_decide (0 < length changed_clusters) then
         out ← get_component 0 component_likelihood;
         out ← compute_pointwise_cluster_likelihood engine self sample
                 changed_clusters out;
         Ok (set_component 0 out component_likelihood)
       else Ok component_likelihood);
    '(component_likelihood, lh_cache) ←
      for_each (zip (seq 1 (length (self_confounders self)))
                  (self_confounders self).*2)
        (λ '(component_likelihood, lh_cache) '(i, conf),
           let '(changed_groups, lh_cache) :=
             what_changed (name conf +:+ "_sufficient_stats") caching lh_cache in
           if bool_decide (length changed_groups = 0)
           then Ok (component_likelihood, lh_cache)
           else
             out ← get_component i component_likelihood;
             out ← compute_pointwise_confounder_likelihood engine self conf
                     sample changed_groups out;
             Ok (set_component i out component_likelihood, lh_cache))
        (component_likelihood, lh_cache);
    let component_likelihood :=
      assign_index (na_values engine self) fone component_likelihood in
    let lh_cache := commit component_likelihood lh_cache in
    Ok (value lh_cache,
        set_component_likelihoods (feature_type engine) lh_cache sample).

(** **** [Likelihood] *)

(** The attributes of a [Likelihood]: the data it was built from and its four
    engines. *)
Record LikelihoodObject := {
  lh_self : Self F;
  lh_categorical : LikelihoodGenericType;
  lh_gaussian : LikelihoodGenericType;
  lh_poisson : LikelihoodGenericType;
  lh_logitnormal : LikelihoodGenericType;
}.

(** [Likelihood.__init__] *)
Definition Likelihood_init (self : Self F) : LikelihoodObject :=
  {| lh_self := self;
     lh_categorical := LikelihoodCategorical;
     lh_gaussian := LikelihoodGaussian;
     lh_poisson := LikelihoodPoisson;
     lh_logitnormal := LikelihoodLogitNormal |}.

(** [Likelihood.__call__] *)
Definition Likelihood_call (L : LikelihoodObject) (sample : Sample F)
    (caching : bool) : result (F * Sample F) :=
  let log_lh := fzero in
  '(log_lh, sample) ←
    (if bool_decide (is_Some (categorical sample)) then
       '(v, sample) ← GenericType_call (lh_categorical L) (lh_self L) sample caching;
       Ok (fadd log_lh v, sample)
     else Ok (log_lh, sample));
  '(log_lh, sample) ←
    (if bool_decide (is_Some (gaussian sample)) then
       '(v, sample) ← GenericType_call (lh_gaussian L) (lh_self L) sample caching;
       Ok (fadd log_lh v, sample)
     else Ok (log_lh, sample));
  '(log_lh, sample) ←
    (if bool_decide (is_Some (poisson sample)) then
       '(v, sample) ← GenericType_call (lh_poisson L) (lh_self L) sample caching;
       Ok (fadd log_lh v, sample)
     else Ok (log_lh, sample));
  '(log_lh, sample) ←
    (if bool_decide (is_Some (logitnormal sample)) then
       '(v, sample) ← GenericType_call (lh_logitnormal L) (lh_self L) sample caching;
       Ok (fadd log_lh v, sample)
     else Ok (log_lh, sample));
  Ok (log_lh, sample).

(** *** Vocabulary of the statements about the likelihood *)

(** The concrete engine of a feature type. *)
Definition engine_of (ft : FeatureType) : LikelihoodGenericType :=
  match ft with
  | ft_categorical => LikelihoodCategorical
  | ft_gaussian => LikelihoodGaussian
  | ft_poisson => LikelihoodPoisson
  | ft_logitnormal => LikelihoodLogitNormal
  end.

(** A mixture component whose groups have a log-likelihood each: the
    clusters, or a confounder. *)
Inductive component := Clusters | Conf (conf : string).

(** The key of a component in [group_likelihoods]. *)
Definition key_of (g : component) : string :=
  match g with Clusters => "clusters" | Conf conf => conf end.

(** [compute_lh_clusters] or [compute_lh_confounder], by component. *)
Definition compute_lh (engine : LikelihoodGenericType) (self : Self F)
    (sample : Sample F) (g : component) (caching : bool)
    : result (F * Sample F) :=
  match g with
  | Clusters => compute_lh_clusters engine self sample caching
  | Conf conf => compute_lh_confounder engine self sample conf caching
  end.

(** The components in the order in which [__call__] adds them up. *)
Definition components_of (self : Self F) : list component :=
  Clusters :: map Conf (self_confounders self).*1.

(** The closed-form marginal log-likelihood of group [i] of a component, as
    the loop bodies of [compute_lh_clusters] and [compute_lh_confounder]
    compute it from the current state. *)
Definition Categorical_row (self : Self F) (sample : Sample F)
    (g : component) (i : nat) : result F :=
  cat ← or_raise AttributeError (categorical sample);
  feature_counts ← getkey (sufficient_statistics cat) (key_of g);
  match g with
  | Clusters =>
      counts ← getitem feature_counts i;
      Ok (np_sum (dirichlet_categorical_logpdf counts
                    (cluster_concentration_array
                       (prior_cluster_effect (prior self)))))
  | Conf conf =>
      conf_prior ← getkey (prior_confounding_effects (prior self)) conf;
      counts ← getitem feature_counts i;
      a ← getitem (conf_concentration_array conf_prior sample) i;
      Ok (np_sum (dirichlet_categorical_logpdf counts a))
  end.

(** The members of group [i] of a component and the component index of its
    source. *)
Definition members (sample : Sample F) (g : component) (i : nat)
    : result (list bool) :=
  match g with
  | Clusters => getitem (clusters sample) i
  | Conf conf =>
      confounder ← getkey (confounders sample) conf;
      getitem (group_assignment confounder) i
  end.

Definition source_index (sample : Sample F) (g : component) : nat :=
  match g with
  | Clusters => 0
  | Conf conf => get_component_index sample conf
  end.

(** The hyperparameters of feature [f] for group [i] of a component. *)
Definition rate_prior (self : Self F) (g : component) (i f : nat)
    : result (F * F) :=
  match g with
  | Clusters =>
      alpha_0 ← getitem (alpha_0_array (cluster_poisson
                           (prior_cluster_effect (prior self)))) f;
      beta_0 ← getitem (beta_0_array (cluster_poisson
                          (prior_cluster_effect (prior self)))) f;
      Ok (alpha_0, beta_0)
  | Conf conf =>
      conf_prior ← getkey (prior_confounding_effects (prior self)) conf;
      alpha_0_g ← getitem (alpha_0_array (conf_poisson conf_prior)) i;
      alpha_0 ← getitem alpha_0_g f;
      beta_0_g ← getitem (beta_0_array (conf_poisson conf_prior)) i;
      beta_0 ← getitem beta_0_g f;
      Ok (alpha_0, beta_0)
  end.

Definition mean_prior (ft : FeatureType) (self : Self F) (g : component)
    (i f : nat) : result (F * F) :=
  match g with
  | Clusters =>
      mu_0 ← getitem (mu_0_array (cluster_mean ft
                        (prior_cluster_effect (prior self)))) f;
      sigma_0 ← getitem (sigma_0_array (cluster_mean ft
                           (prior_cluster_effect (prior self)))) f;
      Ok (mu_0, sigma_0)
  | Conf conf =>
      conf_prior ← getkey (prior_confounding_effects (prior self)) conf;
      mu_0_g ← getitem (mu_0_array (conf_mean ft conf_prior)) i;
      mu_0 ← getitem mu_0_g f;
      sigma_0_g ← getitem (sigma_0_array (conf_mean ft conf_prior)) i;
      sigma_0 ← getitem sigma_0_g f;
      Ok (mu_0, sigma_0)
  end.

(** The term that feature [f] adds to the log-likelihood of group [i],
    whose members are [group]. *)
Definition Poisson_term (self : Self F) (sample : Sample F) (g : component)
    (i : nat) (group : list bool) (f : nat) : result F :=
  x ← column f (select group (num_values (features_poisson (features self))));
  '(alpha_0, beta_0) ← rate_prior self g i f;
  poi ← or_raise AttributeError (poisson sample);
  in_component ← column2 f (source_index sample g) (select group (source poi));
  Ok (lh_poisson_lambda_marginalised_logpdf x alpha_0 beta_0 in_component).

Definition Poisson_row (self : Self F) (sample : Sample F)
    (g : component) (i : nat) : result F :=
  group ← members sample g i;
  for_each (seq 0 (n_features (features_poisson (features self))))
    (λ acc f, t ← Poisson_term self sample g i group f; Ok (fadd acc t))
    fzero.

Definition Normal_term (ft : FeatureType) (self : Self F) (sample : Sample F)
    (g : component) (i : nat) (group : list bool) (f : nat) : result F :=
  x ← column f (select group (num_values (numeric_features ft (features self))));
  '(mu_0, sigma_0) ← mean_prior ft self g i f;
  s ← or_raise AttributeError (ft_sample ft sample);
  in_component ← column2 f (source_index sample g) (select group (source s));
  Ok (gaussian_mu_marginalised_logpdf x mu_0 sigma_0 (np_nanstd x) in_component).

Definition Normal_row (ft : FeatureType) (self : Self F) (sample : Sample F)
    (g : component) (i : nat) : result F :=
  group ← members sample g i;
  for_each (seq 0 (n_features (numeric_features ft (features self))))
    (λ acc f, t ← Normal_term ft self sample g i group f; Ok (fadd acc t))
    fzero.

Definition row_of (ft : FeatureType) (self : Self F) (sample : Sample F)
    (g : component) (i : nat) : result F :=
  match ft with
  | ft_categorical => Categorical_row self sample g i
  | ft_poisson => Poisson_row self sample g i
  | _ => Normal_row ft self sample g i
  end.

(** What [compute_lh_clusters] and [compute_lh_confounder] read before their
    loop: the categorical engine reads the sufficient statistics of the
    component and, for a confounder, its prior; the other engines read
    nothing there. *)
Definition preamble (ft : FeatureType) (self : Self F) (sample : Sample F)
    (g : component) : Prop :=
  match ft with
  | ft_categorical =>
      (∃ cat, categorical sample = Some cat ∧
              is_Some (sufficient_statistics cat !! key_of g)) ∧
      (∀ conf, g = Conf conf →
               is_Some (prior_confounding_effects (prior self) !! conf))
  | _ => True
  end.

(** Recomputing the rows [changed] of the array [lh] of a cell. *)
Definition refresh_rows (row : nat → result F) (changed : list nat)
    (lh : list F) : result (list F) :=
  for_each changed (λ lh i, r ← row i; setitem lh i r) lh.

(** The edit of a cell by [compute_lh_clusters] or [compute_lh_confounder]:
    the rows that [what_changed] reports are recomputed in closed form, the
    array is committed, and the sum of all its rows is returned. *)
Definition refresh (ft : FeatureType) (self : Self F) (sample : Sample F)
    (g : component) (caching : bool) (cell : CacheNode (list F))
    : result (F * Sample F) :=
  let '(changed, cell') := what_changed "sufficient_stats" caching cell in
  lh ← refresh_rows (row_of ft self sample g) changed (value cell);
  Ok (np_sum lh, set_group_likelihoods ft (key_of g) (commit lh cell') sample).

(** The cell of a component in the caches of a feature type. *)
Definition cell_of (ft : FeatureType) (sample : Sample F) (g : component)
    : option (CacheNode (list F)) :=
  group_likelihoods (get_ft_cache ft (cache sample)) !! key_of g.

(** The rows of a cell after an edit that recomputes the rows [changed]:
    the closed form where recomputed, the cached row elsewhere. *)
Definition rows_after (row : nat → result F) (changed : list nat)
    (cached lh : list F) : Prop :=
  length lh = length cached ∧
  (∀ i, i ∈ changed → ∃ r, row i = Ok r ∧ lh !! i = Some r) ∧
  (∀ i, i ∉ changed → lh !! i = cached !! i).

(** Two samples with the same state; their caches may differ. *)
Definition same_state (s s' : Sample F) : Prop :=
  clusters s' = clusters s ∧ categorical s' = categorical s ∧
  gaussian s' = gaussian s ∧ poisson s' = poisson s ∧
  logitnormal s' = logitnormal s ∧ confounders s' = confounders s ∧
  get_component_index s' = get_component_index s.

(** The Dirichlet concentrations of the confounding effects are computed
    from the state of the sample, not from its caches. *)
Definition prior_reads_state (self : Self F) : Prop :=
  ∀ (conf : string) (p : ConfoundingEffectPrior F) (s s' : Sample F),
    prior_confounding_effects (prior self) !! conf = Some p →
    same_state s s' →
    conf_concentration_array p s' = conf_concentration_array p s.

(** The sufficient statistics are those that the state has: recomputing
    them from scratch gives the stored ones. *)
Definition statistics_in_sync (self : Self F) (sample : Sample F) : Prop :=
  match categorical sample with
  | None => True
  | Some cat =>
      sufficient_statistics cat
      = count_features (cat_values (features_categorical (features self)))
          (clusters sample) (confounders sample) (source cat)
  end.

(** What the dirty tracking is there to maintain, for one component of one
    feature type: the cell exists, what the engine reads before its loop is
    there, the cell has a dirty bit for every row, the closed form of every
    row can be computed, and every row that is not marked dirty holds that
    closed form. *)
Definition cell_consistent (ft : FeatureType) (self : Self F)
    (sample : Sample F) (g : component) : Prop :=
  ∃ (cell : CacheNode (list F)) (rows : list F),
    cell_of ft sample g = Some cell ∧
    preamble ft self sample g ∧
    length (dirty_bits cell "sufficient_stats") = length (value cell) ∧
    traverse (row_of ft self sample g) (seq 0 (length (value cell))) = Ok rows ∧
    (∀ i, dirty_bits cell "sufficient_stats" !! i = Some false →
          value cell !! i = rows !! i).

(** The cache of a feature type is consistent with the state of the sample:
    every cell is, and the components have distinct keys. *)
Definition consistent (ft : FeatureType) (self : Self F) (sample : Sample F)
    : Prop :=
  NoDup (key_of <$> components_of self) ∧
  statistics_in_sync self sample ∧
  ∀ g, g ∈ components_of self → cell_consistent ft self sample g.

(** The closed form of all rows of a component. *)
Definition all_rows (ft : FeatureType) (self : Self F) (sample : Sample F)
    (g : component) : result (list F) :=
  cell ← or_raise KeyError (cell_of ft sample g);
  traverse (row_of ft self sample g) (seq 0 (length (value cell))).

(** The total log-likelihood of a feature type computed from the state
    alone: for every component the closed form of every row, summed as
    [__call__] sums. *)
Definition closed_form_total (ft : FeatureType) (self : Self F)
    (sample : Sample F) : result F :=
  for_each (components_of self)
    (λ log_lh g, rows ← all_rows ft self sample g;
                 Ok (fadd log_lh (np_sum rows)))
    fzero.

(** Adding the log-likelihood of a component to a running sum. *)
Definition add_component (engine : LikelihoodGenericType) (self : Self F)
    (caching : bool) (acc : F * Sample F) (g : component)
    : result (F * Sample F) :=
  '(v, sample) ← compute_lh engine self acc.2 g caching;
  Ok (fadd acc.1 v, sample).

(** Modelled from the spec: a step of a state-mutating operator (sections
    4.1 and 4.2; [sbayes.sampling.operators] is not part of the sources at
    hand).  The setters replace the cluster assignment and the sources, the
    sufficient statistics follow the new state, and [mark_dirty] flags, in
    every group cell, the groups that the operator reports as changed. *)
Record Mutation := {
  mut_clusters : list (list bool);
  mut_source : FeatureType → list (list (list bool));
  mut_marked : FeatureType → string → list nat;
}.

Definition mutate_cache (m : Mutation) (ft : FeatureType)
    (c : GenericTypeCache F) : GenericTypeCache F :=
  {| group_likelihoods :=
       map_imap (λ key cell,
                   Some (mark_dirty "sufficient_stats" (mut_marked m ft key) cell))
         (group_likelihoods c);
     component_likelihoods := mark_all_dirty (component_likelihoods c) |}.

Definition apply_mutation (self : Self F) (m : Mutation) (sample : Sample F)
    : Sample F :=
  {| clusters := mut_clusters m;
     categorical :=
       (λ _, {| sufficient_statistics :=
                  count_features
                    (cat_values (features_categorical (features self)))
                    (mut_clusters m) (confounders sample)
                    (mut_source m ft_categorical);
                source := mut_source m ft_categorical |})
       <$> categorical sample;
     gaussian :=
       (λ t, {| sufficient_statistics := sufficient_statistics t;
                source := mut_source m ft_gaussian |}) <$> gaussian sample;
     poisson :=
       (λ t, {| sufficient_statistics := sufficient_statistics t;
                source := mut_source m ft_poisson |}) <$> poisson sample;
     logitnormal :=
       (λ t, {| sufficient_statistics := sufficient_statistics t;
                source := mut_source m ft_logitnormal |}) <$> logitnormal sample;
     confounders := confounders sample;
     get_component_index := get_component_index sample;
     cache :=
       {| cache_categorical :=
            mutate_cache m ft_categorical (cache_categorical (cache sample));
          cache_gaussian :=
            mutate_cache m ft_gaussian (cache_gaussian (cache sample));
          cache_poisson :=
            mutate_cache m ft_poisson (cache_poisson (cache sample));
          cache_logitnormal :=
            mutate_cache m ft_logitnormal (cache_logitnormal (cache sample)) |} |}.

(** The contract of an operator towards the cache of a feature type: in the
    new state the engine still finds what it reads, and every group is marked
    dirty unless its closed form is what it was. *)
Definition marks_changes (ft : FeatureType) (self : Self F) (m : Mutation)
    (sample : Sample F) : Prop :=
  ∀ (g : component) (cell : CacheNode (list F)),
    g ∈ components_of self → cell_of ft sample g = Some cell →
    preamble ft self (apply_mutation self m sample) g ∧
    ∀ i, i < length (value cell) →
      (∃ r, row_of ft self (apply_mutation self m sample) g i = Ok r) ∧
      (i ∈ mut_marked m ft (key_of g) ∨
       row_of ft self (apply_mutation self m sample) g i
       = row_of ft self sample g i).

(** Modelled from the spec: [everything_changed()] (section 4.2) marks every
    cache key dirty; the state stays as it is. *)
Definition mark_cache (c : GenericTypeCache F) : GenericTypeCache F :=
  {| group_likelihoods := mark_all_dirty <$> group_likelihoods c;
     component_likelihoods := mark_all_dirty (component_likelihoods c) |}.

Definition everything_changed (sample : Sample F) : Sample F :=
  {| clusters := clusters sample; categorical := categorical sample;
     gaussian := gaussian sample; poisson := poisson sample;
     logitnormal := logitnormal sample; confounders := confounders sample;
     get_component_index := get_component_index sample;
     cache :=
       {| cache_categorical := mark_cache (cache_categorical (cache sample));
          cache_gaussian := mark_cache (cache_gaussian (cache sample));
          cache_poisson := mark_cache (cache_poisson (cache sample));
          cache_logitnormal := mark_cache (cache_logitnormal (cache sample)) |} |}.

(** The source of a feature type in a sample. *)
Definition source_of (ft : FeatureType) (sample : Sample F)
    : list (list (list bool)) :=
  default [] (source <$> ft_sample ft sample).

(** All the groups of the cell of a key. *)
Definition all_groups (sample : Sample F) (ft : FeatureType) (key : string)
    : list nat :=
  match group_likelihoods (get_ft_cache ft (cache sample)) !! key with
  | Some cell => seq 0 (length (value cell))
  | None => []
  end.

(** Modelled from the spec: the setter of [clusters] (section 4.2) replaces
    the array and marks the caches that depend on it, those of every
    feature type, dirty in all their groups. *)
Definition set_clusters (self : Self F) (new_clusters : list (list bool))
    (sample : Sample F) : Sample F :=
  apply_mutation self
    {| mut_clusters := new_clusters;
       mut_source := λ ft, source_of ft sample;
       mut_marked := all_groups sample |} sample.

(** Modelled from the spec: the setter of the [source] of a feature type
    (section 4.2) replaces the array and marks the caches of that feature
    type dirty in all their groups. *)
Definition set_source (self : Self F) (ft' : FeatureType)
    (new_source : list (list (list bool))) (sample : Sample F) : Sample F :=
  apply_mutation self
    {| mut_clusters := clusters sample;
       mut_source := λ ft, if decide (ft = ft') then new_source
                           else source_of ft sample;
       mut_marked := λ ft key, if decide (ft = ft') then all_groups sample ft key
                               else [] |} sample.

(** Modelled from the spec: an operator that changes the members of one
    cluster (sections 2 and 4.1) and calls [mark_dirty] with the index of
    that cluster on the cells of the clusters. *)
Definition set_cluster (self : Self F) (i_cluster : nat)
    (new_cluster : list bool) (sample : Sample F) : Sample F :=
  apply_mutation self
    {| mut_clusters := <[i_cluster:=new_cluster]> (clusters sample);
       mut_source := λ ft, source_of ft sample;
       mut_marked := λ ft key, if decide (key = "clusters") then [i_cluster]
                               else [] |} sample.

(** A sample at the start of a chain: every cache key is marked dirty and
    the sufficient statistics are computed from scratch. *)
Definition fresh (self : Self F) (sample : Sample F) : Sample F :=
  recalculate_feature_counts (cat_values (features_categorical (features self)))
    (everything_changed sample).

(** The caches of a feature type have a cell for every component, with a
    dirty bit for every row. *)
Definition cache_shaped (ft : FeatureType) (self : Self F) (sample : Sample F)
    : Prop :=
  ∀ g, g ∈ components_of self →
    ∃ cell, cell_of ft sample g = Some cell ∧
            length (dirty_bits cell "sufficient_stats") = length (value cell).

(** The state of a sample is valid input for the engine of a feature type:
    the engine finds what it reads before its loops, and the closed form of
    every row of every component can be computed. *)
Definition computable (ft : FeatureType) (self : Self F) (sample : Sample F)
    : Prop :=
  ∀ (g : component) (cell : CacheNode (list F)),
    g ∈ components_of self → cell_of ft sample g = Some cell →
    preamble ft self sample g ∧
    ∀ i, i < length (value cell) → ∃ r, row_of ft self sample g i = Ok r.

(** The counts of a group are those of its members: row [j] of the counts
    of a key changes with the clusters only under the key of the clusters,
    and only with cluster [j]. *)
Definition counts_by_group : Prop :=
  ∀ (values : list (list (list bool))) (cl cl' : list (list bool))
    (confs : gmap string Confounder) (src : list (list (list bool)))
    (key : string) (j : nat),
    (key = "clusters" → cl' !! j = cl !! j) →
    count_features values cl' confs src !! key ≫= (.!! j)
    = count_features values cl confs src !! key ≫= (.!! j).

(** The Dirichlet concentrations of the confounding effects are computed
    from the confounders of the sample. *)
Definition prior_reads_confounders (self : Self F) : Prop :=
  ∀ (conf : string) (p : ConfoundingEffectPrior F) (s s' : Sample F),
    prior_confounding_effects (prior self) !! conf = Some p →
    confounders s' = confounders s →
    conf_concentration_array p s' = conf_concentration_array p s.

(** What the closed forms of the categorical engine read through the
    counting and the priors, which are code of other modules. *)
Definition categorical_reads_own_group (self : Self F) : Prop :=
  counts_by_group ∧ prior_reads_confounders self.

(** The steps of a chain as far as one feature type sees them: the
    operators above, each leaving a state that is valid input, and
    evaluations of the total log-likelihood, with or without caching. *)
Inductive operator_step (ft : FeatureType) (self : Self F)
    : Sample F → Sample F → Prop :=
  | step_everything_changed (sample : Sample F) :
      operator_step ft self sample (everything_changed sample)
  | step_set_clusters (new_clusters : list (list bool)) (sample : Sample F) :
      computable ft self (set_clusters self new_clusters sample) →
      operator_step ft self sample (set_clusters self new_clusters sample)
  | step_set_source (ft' : FeatureType) (new_source : list (list (list bool)))
      (sample : Sample F) :
      computable ft self (set_source self ft' new_source sample) →
      operator_step ft self sample (set_source self ft' new_source sample)
  | step_set_cluster (i_cluster : nat) (new_cluster : list bool)
      (sample : Sample F) :
      i_cluster < length (clusters sample) →
      computable ft self (set_cluster self i_cluster new_cluster sample) →
      operator_step ft self sample
        (set_cluster self i_cluster new_cluster sample)
  | step_likelihood (caching : bool) (sample sample' : Sample F) (v : F) :
      GenericType_call (engine_of ft) self sample caching = Ok (v, sample') →
      operator_step ft self sample sample'.

(** The engines of a likelihood object in the order of [__call__]. *)
Definition engines_of (L : LikelihoodObject) : list LikelihoodGenericType :=
  [lh_categorical L; lh_gaussian L; lh_poisson L; lh_logitnormal L].

(** Adding the total log-likelihood of an engine to a running sum. *)
Definition add_total (self : Self F) (caching : bool) (acc : F * Sample F)
    (engine : LikelihoodGenericType) : result (F * Sample F) :=
  '(v, sample) ← GenericType_call engine self acc.2 caching;
  Ok (fadd acc.1 v, sample).

(** Two samples with the same feature types. *)
Definition same_presence (s s' : Sample F) : Prop :=
  ∀ ft, is_Some (ft_sample ft s') ↔ is_Some (ft_sample ft s).

(** The step of [Likelihood.__call__] for one engine: its total is added
    when its feature type is in the sample, and the engine is skipped
    otherwise. *)
Definition add_if_used (self : Self F) (caching : bool) (acc : F * Sample F)
    (engine : LikelihoodGenericType) : result (F * Sample F) :=
  if is_used engine acc.2 then add_total self caching acc engine else Ok acc.

(** The engines whose feature type is in the sample. *)
Definition used_engines (L : LikelihoodObject) (sample : Sample F)
    : list LikelihoodGenericType :=
  filter (λ engine, is_used engine sample = true) (engines_of L).

(** The feature types that a sample has. *)
Definition present_types (sample : Sample F) : list FeatureType :=
  filter (λ ft, is_Some (ft_sample ft sample))
    [ft_categorical; ft_gaussian; ft_poisson; ft_logitnormal].

(** The sum, from [0.0] and in the order of the list, of the total
    log-likelihoods of some engines, each on the sample the previous left. *)
Definition sum_of_totals (engines : list LikelihoodGenericType) (self : Self F)
    (sample : Sample F) (caching : bool) : result (F * Sample F) :=
  for_each engines (add_total self caching) (fzero, sample).

End Engines.
Arguments LikelihoodGenericType F : clear implicits.
Arguments LikelihoodObject F : clear implicits.

End Likelihood.

(** ** A model of the numbers for the examples *)

Module RationalModel.
Import Likelihood.

(** Rationals in place of floats.  The kernels of [sbayes.util] and of scipy
    are replaced by stand-ins: the examples need some function there, and
    none of them depends on which. *)
#[export] Instance Float_Q : Float Q := {|
  fzero := 0%Q;
  fhalf := (1 # 2)%Q;
  fone := 1%Q;
  fadd := Qplus;
  fsub := Qminus;
  fmul := Qmult;
  fdiv := Qdiv;
  f_of_Z := inject_Z;
  np_sum := foldl Qplus 0%Q;
  inner1d := λ a b, foldl Qplus 0%Q (zip_with Qmult a b);
  np_allclose := λ a b,
    bool_decide (Forall2 (Forall2 (λ x y : Q,
      Qle_bool (Qabs (x - y)) ((1 # 100000000) + (1 # 100000) * Qabs y) = true))
      a b);
  np_nanstd := λ _, 0%Q;
  nbinom_pmf := λ k n p, p;
  dirichlet_categorical_logpdf :=
    λ counts a, map (foldl Qplus 0%Q) (zip_with (zip_with Qplus) counts a);
  gaussian_mu_marginalised_logpdf := λ x mu_0 sigma_0 sigma_fixed in_component,
    foldl Qplus mu_0 x;
  lh_poisson_lambda_marginalised_logpdf := λ x alpha_0 beta_0 in_component,
    foldl Qplus alpha_0 x;
|}.

(** Counting the observations of a group by state, for the members whose
    source is the component of the group (component 0 for the clusters). *)
#[export] Instance FeatureCounts_Q : FeatureCounts Q := {|
  count_features := λ values clusters confounders source,
    {[ "clusters" :=
         map (λ g, foldr (zip_with (zip_with Qplus))
                     (replicate (length (default [] (head values)))
                        (replicate (length (default [] (head (default [] (head values))))) 0%Q))
                     (map (map (map (λ b : bool, if b then 1%Q else 0%Q)))
                        (select g values)))
             clusters ]};
|}.

(** No prior on anything but the cluster effect of the features at hand. *)
Definition prior_example : Prior Q :=
  {| prior_cluster_effect :=
       {| cluster_concentration_array := [[1%Q; 1%Q]];
          cluster_gaussian_mean := {| mu_0_array := [0%Q]; sigma_0_array := [1%Q] |};
          cluster_poisson := {| alpha_0_array := [1%Q]; beta_0_array := [1%Q] |};
          cluster_logitnormal_mean :=
            {| mu_0_array := [0%Q]; sigma_0_array := [1%Q] |} |};
     prior_confounding_effects := ∅ |}.

(** Two objects, one feature of every type, no confounder. *)
Definition self_example : Self Q :=
  {| features :=
       {| features_categorical :=
            {| cat_values := [[[true; false]]; [[false; true]]];
               cat_na_values := [[false]; [false]] |};
          features_gaussian := {| num_values := [[2%Q]; [3%Q]]; n_features := 1 |};
          features_poisson := {| num_values := [[4%Q]; [1%Q]]; n_features := 1 |};
          features_logitnormal :=
            {| num_values := [[(1 # 3)%Q]; [(2 # 3)%Q]]; n_features := 1 |} |};
     self_confounders := [];
     prior := prior_example |}.

(** The caches of a feature type before anything was computed: zeros,
    outdated, the one cluster marked dirty. *)
Definition cold_cache : GenericTypeCache Q :=
  {| group_likelihoods :=
       {[ "clusters" :=
            {| value := [0%Q]; outdated := true;
               dirty := {[ "sufficient_stats" := [true] ]} |} ]};
     component_likelihoods :=
       {| value := [[[0%Q]]; [[0%Q]]]; outdated := true;
          dirty := {[ "clusters" := [true];
                      "clusters_sufficient_stats" := [true] ]} |} |}.

(** One cluster that holds both objects; every observation has the cluster
    as its source. *)
Definition type_sample_example : GenericTypeSample Q :=
  {| sufficient_statistics := {[ "clusters" := [[[1%Q; 1%Q]]] ]};
     source := [[[true]]; [[true]]] |}.

Definition sample_example : Sample Q :=
  {| clusters := [[true; true]];
     categorical := Some type_sample_example;
     gaussian := Some type_sample_example;
     poisson := Some type_sample_example;
     logitnormal := None;
     confounders := ∅;
     get_component_index := λ _, 0;
     cache := {| cache_categorical := cold_cache; cache_gaussian := cold_cache;
                 cache_poisson := cold_cache; cache_logitnormal := cold_cache |} |}.

(** The cell of the clusters in the caches of [cold_cache]. *)
Definition cold_cell : CacheNode (list Q) :=
  {| value := [0%Q]; outdated := true;
     dirty := {[ "sufficient_stats" := [true] ]} |}.

(** The sample after one evaluation of the categorical likelihood with
    caching. *)
Definition sample_after_call : Sample Q :=
  match GenericType_call LikelihoodCategorical self_example sample_example true with
  | Ok (_, sample) => sample
  | Raise _ => sample_example
  end.

(** Two clusters over the two objects, the first with the first object and
    the second empty, and caches of two rows that were never filled. *)
Definition two_cache : GenericTypeCache Q :=
  {| group_likelihoods :=
       {[ "clusters" :=
            {| value := [0%Q; 0%Q]; outdated := false;
               dirty := {[ "sufficient_stats" := [false; false] ]} |} ]};
     component_likelihoods :=
       {| value := [[[0%Q]]; [[0%Q]]]; outdated := false;
          dirty := {[ "clusters" := [false; false];
                      "clusters_sufficient_stats" := [false; false] ]} |} |}.

Definition sample_two : Sample Q :=
  {| clusters := [[true; false]; [false; false]];
     categorical := Some type_sample_example;
     gaussian := Some type_sample_example;
     poisson := Some type_sample_example;
     logitnormal := None;
     confounders := ∅;
     get_component_index := λ _, 0;
     cache := {| cache_categorical := two_cache; cache_gaussian := two_cache;
                 cache_poisson := two_cache; cache_logitnormal := two_cache |} |}.

(** A chain: the start, the sample after an evaluation of the categorical
    likelihood with caching, and the sample after the second object was
    then put into the second cluster. *)
Definition chain_start : Sample Q := fresh self_example sample_two.

Definition chain_warm : Sample Q :=
  match GenericType_call LikelihoodCategorical self_example chain_start true with
  | Ok (_, sample) => sample
  | Raise _ => chain_start
  end.

Definition chain_moved : Sample Q :=
  set_cluster self_example 1 [false; true] chain_warm.

End RationalModel.

(** ** Further functions of the same files

    The definitions below embed further functions of the same modules:
    of [sbayes/sampling/initializers.py], [sbayes/model/likelihood.py],
    [sbayes/mcmc_setup.py] and [sbayes/util.py]. *)

Module RandomClusters.
Import Initializer.

(** *** [SbayesInitializer.grow_random_clusters]

    Every call of [grow_cluster_of_size_k] draws from the oracle of its own:
    call number [call] uses [rnd call].  The message printed and the warning
    logged before a restart are left out. *)

(** How the loop [for i in range(n_initialized, self.n_clusters)] ends: it
    runs to its [else] branch, it is left by [break] after a [ClusterError],
    or an exception that the [try] does not catch leaves the function. *)
Inductive pass_outcome :=
  | Completed (initial_clusters : list (list bool))
  | Broke (initial_clusters : list (list bool))
  | Propagated (e : exn).

(** The loop over the clusters [i_s].  [occupied] names the array that every
    call of [grow_cluster_of_size_k] is given and writes into. *)
Fixpoint grow_pass (n_objects : nat) (adj_mat : list (list bool))
    (rnd : nat → nat → nat) (initial_size : Z) (occupied : loc)
    (i_s : list nat) (call : nat) (initial_clusters : list (list bool))
    (h : heap) : pass_outcome * nat * heap :=
  match i_s with
  | [] => (Completed initial_clusters, call, h)
  | i :: rest =>
      match grow_cluster_of_size_k n_objects adj_mat (rnd call) initial_size
              (Some occupied) h with
      | (Ok (cl, in_cl), h') =>
          grow_pass n_objects adj_mat rnd initial_size occupied rest (S call)
            (<[i:=cl]> initial_clusters) h'
      | (Raise ClusterError, h') => (Broke initial_clusters, S call, h')
      | (Raise e, h') => (Propagated e, S call, h')
      end
  end.

Definition max_attempts : nat := 1000.

(** The loop [while True].  [budget] is [max_attempts - attempts], so that
    [attempts < max_attempts] reads [budget] is not zero; [n_initialized]
    stays 0, the statement that would increase it being commented out.  The
    function returns its result with [self.initial_size], which it may have
    decreased. *)
Fixpoint grow_random_loop (n_objects n_clusters : nat)
    (adj_mat : list (list bool)) (rnd : nat → nat → nat) (budget : nat)
    (initial_size : Z) (restart : bool) (occupied : loc)
    (initial_clusters : list (list bool)) (call : nat) (h : heap)
    : result (list (list bool)) * Z * heap :=
  let '(occupied, initial_clusters, h) :=
    if restart then
      let '(l, h') := alloc (zeros n_objects) h in
      (l, replicate n_clusters (zeros n_objects), h')
    else (occupied, initial_clusters, h) in
  match grow_pass n_objects adj_mat rnd initial_size occupied
          (seq 0 n_clusters) call initial_clusters h with
  | (Completed initial_clusters, _, h') => (Ok initial_clusters, initial_size, h')
  | (Propagated e, _, h') => (Raise e, initial_size, h')
  | (Broke initial_clusters, call', h') =>
      match budget with
      | 0 => (Raise ValueError, initial_size, h')
      | S budget' =>
          let attempts := max_attempts - budget' in
          if decide (attempts mod 20 = 0 ∧ (3 < initial_size)%Z) then
            grow_random_loop n_objects n_clusters adj_mat rnd budget'
              (initial_size - 1) true occupied initial_clusters call' h'
          else
            grow_random_loop n_objects n_clusters adj_mat rnd budget'
              initial_size false occupied initial_clusters call' h'
      end
  end.

Definition grow_random_clusters (n_objects n_clusters : nat)
    (adj_mat : list (list bool)) (rnd : nat → nat → nat) (initial_size : Z)
    (h : heap) : result (list (list bool)) * Z * heap :=
  if decide (n_clusters = 0) then (Ok [], initial_size, h)
  else
    let '(occupied, h) := alloc (zeros n_objects) h in
    let initial_clusters := replicate n_clusters (zeros n_objects) in
    grow_random_loop n_objects n_clusters adj_mat rnd max_attempts
      initial_size false occupied initial_clusters 0 h.

(** *** Vocabulary *)

(** The clusters of a matrix are pairwise disjoint: no object is in two. *)
Definition disjoint_rows (clusters : list (list bool)) : Prop :=
  ∀ (i1 i2 : nat) (row1 row2 : list bool) (j : nat),
    clusters !! i1 = Some row1 → clusters !! i2 = Some row2 →
    row1 !! j = Some true → row2 !! j = Some true → i1 = i2.

(** The first [i] rows of [cls] are clusters of [k] objects each, all of
    them marked in the mask [occ], and pairwise disjoint. *)
Definition grown (n_objects : nat) (k : Z) (i : nat) (occ : list bool)
    (cls : list (list bool)) : Prop :=
  (∀ a, a < i → ∃ row, cls !! a = Some row ∧ length row = n_objects ∧
      count_true row = Z.to_nat k ∧
      ∀ j, row !! j = Some true → occ !! j = Some true) ∧
  (∀ a b row1 row2 j, a < i → b < i →
      cls !! a = Some row1 → cls !! b = Some row2 →
      row1 !! j = Some true → row2 !! j = Some true → a = b).

End RandomClusters.

Module InitialParameters.
Import Weights.

#[local] Open Scope Q_scope.

(** *** [generate_initial_weights] and [generate_initial_confounding_effect]
    of [SbayesInitializer]

    Numbers are rationals, and a quotient is an [option Q] as for
    [normalize_weights]: [None] stands for the [nan] or [inf] of a division
    by zero. *)

(** [normalize(x)] of [sbayes/util.py], [x / np.sum(x, axis=-1,
    keepdims=True)], on a matrix. *)
Definition normalize (x : list (list Q)) : list (list (option Q)) :=
  map normalize_row x.

(** [np.ones((rows, cols))] *)
Definition np_ones (rows cols : nat) : list (list Q) :=
  replicate rows (replicate cols 1).

(** [self.n_sources] is [1 + len(self.confounders)]. *)
Definition generate_initial_weights (n_features n_confounders : nat)
    : list (list (option Q)) :=
  normalize (np_ones n_features (1 + n_confounders)).

(** A confounder of the model, as the initialiser reads it. *)
Record ConfounderGroups := {
  n_groups : nat;
  group_assignment : list (list bool);
}.

(** [np.nansum(features_group, axis=0)] for observations of shape
    [(_, n_features, n_states)]: an entry that is [nan], here [None], counts
    as zero, and the sum over no object at all is zero. *)
Definition nansum_axis0 (n_features n_states : nat)
    (features_group : list (list (list (option Q)))) : list (list Q) :=
  foldr (λ obj acc, zip_with (zip_with (λ v a, default 0 v + a)) obj acc)
    (replicate n_features (replicate n_states 0)) features_group.

(** [sites_per_state[self.applicable_states] += 1] *)
Definition add_one_where (mask : list (list bool)) (a : list (list Q))
    : list (list Q) :=
  zip_with (zip_with (λ (b : bool) v, if b then v + 1 else v)) mask a.

(** [generate_initial_confounding_effect(self, conf)].  The statement
    [sites_per_state[np.isnan(sites_per_state)] = 0] changes nothing, a
    [nansum] having no [nan]. *)
Definition generate_initial_confounding_effect
    (features : list (list (list (option Q))))
    (applicable_states : list (list bool)) (n_features n_states : nat)
    (confounders : gmap string ConfounderGroups) (conf : string)
    : result (list (list (list (option Q)))) :=
  c ← getkey confounders conf;
  traverse (λ g,
      group ← getitem (group_assignment c) g;
      features_group ← traverse (getitem features) (nonzero group);
      let sites_per_state := nansum_axis0 n_features n_states features_group in
      let sites_per_state := add_one_where applicable_states sites_per_state in
      Ok (map normalize_row sites_per_state))
    (seq 0 (n_groups c)).

(** *** Vocabulary *)

(** Observations of [n_features] features with [n_states] states each, every
    entry [nan] or a number that is not negative. *)
Definition well_formed_features (n_features n_states : nat)
    (features : list (list (list (option Q)))) : Prop :=
  Forall (λ obj, length obj = n_features ∧
            Forall (λ states, length states = n_states ∧
                      Forall (λ v, ∀ q, v = Some q → 0 <= q) states) obj)
    features.

(** A probability vector that gives every state of the mask [states] a
    positive probability. *)
Definition smoothed (states : list bool) (p : list (option Q)) : Prop :=
  sums_to_one p ∧
  ∀ s, states !! s = Some true → ∃ q, p !! s = Some (Some q) ∧ 0 < q.

End InitialParameters.

Module BestOfAttempts.

(** *** [SbayesInitializer.generate_sample]

    The value of the model on a sample is a float: a number, an infinity or
    [nan]. *)
Inductive float :=
  | NaN
  | NegInf
  | Finite (q : Q)
  | PosInf.

(** [a > b] on floats; a comparison with [nan] is false. *)
Definition float_gt (a b : float) : bool :=
  match a, b with
  | NaN, _ | _, NaN => false
  | NegInf, _ => false
  | Finite _, NegInf => true
  | Finite x, Finite y => negb (Qle_bool x y)
  | Finite _, PosInf => false
  | PosInf, PosInf => false
  | PosInf, _ => true
  end.

Section GenerateSample.
(** One attempt draws random numbers, so it threads a state of its own.  The
    model evaluates a sample in place: it returns the value and leaves the
    sample with its caches filled.  Both are code of other modules. *)
Context {Sample State : Type}.
Variable generate_sample_attempt : State → Sample * State.
Variable model : Sample → float * Sample.

(** [for _ in range(n)] with the variables [best_sample] and [best_lh]. *)
Fixpoint attempts_loop (n : nat) (best_sample : option Sample)
    (best_lh : float) (st : State) : option Sample * State :=
  match n with
  | 0 => (best_sample, st)
  | S n' =>
      let '(sample, st) := generate_sample_attempt st in
      let '(lh, sample) := model sample in
      if float_gt lh best_lh then attempts_loop n' (Some sample) lh st
      else attempts_loop n' best_sample best_lh st
  end.

(** [generate_sample(self, c)]; the outer [None] stands for the
    [AssertionError] of [assert self.initialization_attempts > 0], the inner
    one is Python's [None]. *)
Definition generate_sample (initialization_attempts : Z) (st : State)
    : option (option Sample) * State :=
  if decide (0 < initialization_attempts)%Z then
    let '(best_sample, st) :=
      attempts_loop (Z.to_nat initialization_attempts) None NegInf st in
    (Some best_sample, st)
  else (None, st).

(** The samples of [n] attempts made one after the other, each with the
    value of the model on it. *)
Fixpoint attempts (n : nat) (st : State) : list (Sample * float) :=
  match n with
  | 0 => []
  | S n' =>
      let '(sample, st) := generate_sample_attempt st in
      let '(lh, sample) := model sample in
      (sample, lh) :: attempts n' st
  end.

(** [best] is the best of the attempts [tried]: [None] when no value exceeds
    [-inf]; else the sample of an attempt whose value exceeds [-inf], is
    exceeded by no value, and exceeds every value before it that is not
    [nan]. *)
Definition best_of (tried : list (Sample * float)) (best : option Sample)
    : Prop :=
  match best with
  | None => ∀ s lh, (s, lh) ∈ tried → float_gt lh NegInf = false
  | Some sample =>
      ∃ (i : nat) (lh : float),
        tried !! i = Some (sample, lh) ∧ float_gt lh NegInf = true ∧
        (∀ s' lh', (s', lh') ∈ tried → float_gt lh' lh = false) ∧
        (∀ j s' lh', j < i → tried !! j = Some (s', lh') →
           float_gt lh lh' = true ∨ lh' = NaN)
  end.

End GenerateSample.

End BestOfAttempts.

Module Conditional.
Import Likelihood.

(** *** [pointwise_conditional_cluster_lh] of the categorical, the Gaussian
    and the logit-normal engine *)

(** [a[:, j] = vals] *)
Fixpoint set_column {A} (j : nat) (vals : list A) (a : list (list A))
    : result (list (list A)) :=
  match a, vals with
  | [], [] => Ok []
  | row :: a', v :: vals' =>
      row' ← setitem row j v;
      rest ← set_column j vals' a';
      Ok (row' :: rest)
  | _, _ => Raise ValueError
  end.

Section Engines.
Context `{Float F}.

(** [np.zeros(a.shape)] *)
Definition zeros_like (a : list (list F)) : list (list F) :=
  map (map (λ _, fzero)) a.

(** [LikelihoodCategorical.pointwise_conditional_cluster_lh].  The one
    matrix of [p] is broadcast over the candidates. *)
Definition Categorical_pointwise_conditional_cluster_lh (self : Self F)
    (sample : Sample F) (i_cluster : nat) (available : list bool)
    : result (list (list F)) :=
  let prior_counts :=
    cluster_concentration_array (prior_cluster_effect (prior self)) in
  cat ← or_raise AttributeError (categorical sample);
  counts ← getkey (sufficient_statistics cat) "clusters";
  feature_counts ← getitem counts i_cluster;
  let p := map normalize (zip_with (zip_with fadd) prior_counts feature_counts) in
  Ok (inner1d_ijk_jk
        (select available (cat_values (features_categorical (features self)))) p).

(** [LikelihoodGaussian.pointwise_conditional_cluster_lh] and
    [LikelihoodLogitNormal.pointwise_conditional_cluster_lh], which differ
    in the attribute [ft] they read.  The source marks the likelihood as not
    yet implemented and writes 0.5. *)
Definition Normal_pointwise_conditional_cluster_lh (ft : FeatureType)
    (self : Self F) (sample : Sample F) (i_cluster : nat)
    (available : list bool) : result (list (list F)) :=
  let values := num_values (numeric_features ft (features self)) in
  let features_candidates := select available values in
  cluster ← getitem (clusters sample) i_cluster;
  let features_cluster := select cluster values in
  let condition_lh := zeros_like features_candidates in
  for_each (seq 0 (n_features (numeric_features ft (features self))))
    (λ condition_lh j,
       f_c ← column j features_cluster;
       candidates_j ← column j features_candidates;
       set_column j (replicate (length candidates_j) fhalf) condition_lh)
    condition_lh.

End Engines.
End Conditional.

Module LikelihoodFrame.
Import Likelihood.

Section Vocabulary.
Context {F : Type}.

(** Two samples with the same clusters, sources, confounders and numeric
    feature types; the sufficient statistics of the categorical features and
    the caches may differ. *)
Definition same_assignment (s s' : Sample F) : Prop :=
  clusters s' = clusters s ∧
  source <$> categorical s' = source <$> categorical s ∧
  gaussian s' = gaussian s ∧ poisson s' = poisson s ∧
  logitnormal s' = logitnormal s ∧ confounders s' = confounders s ∧
  get_component_index s' = get_component_index s.

(** Object [o] is in none of the groups [changed_groups]. *)
Definition outside (groups : list (list bool)) (changed_groups : list nat)
    (o : nat) : Prop :=
  ∀ i g, i ∈ changed_groups → groups !! i = Some g → g !! o ≠ Some true.

End Vocabulary.
End LikelihoodFrame.

(** ** A model with a confounder for the examples *)

Module ConfounderModel.
Import Likelihood RationalModel.

(** One confounder of two groups, the first object in the first and the
    second in the second. *)
Definition family : Confounder :=
  {| name := "family"; group_assignment := [[true; false]; [false; true]] |}.

Definition prior_family : Prior Q :=
  {| prior_cluster_effect := prior_cluster_effect prior_example;
     prior_confounding_effects :=
       {[ "family" :=
            {| conf_concentration_array := λ _, [[[1%Q; 1%Q]]; [[1%Q; 1%Q]]];
               conf_gaussian_mean :=
                 {| mu_0_array := [[0%Q]; [0%Q]];
                    sigma_0_array := [[1%Q]; [1%Q]] |};
               conf_poisson :=
                 {| alpha_0_array := [[1%Q]; [2%Q]];
                    beta_0_array := [[1%Q]; [1%Q]] |};
               conf_logitnormal_mean :=
                 {| mu_0_array := [[0%Q]; [0%Q]];
                    sigma_0_array := [[1%Q]; [1%Q]] |} |} ]} |}.

Definition self_family : Self Q :=
  {| features := features self_example;
     self_confounders := [("family", family)];
     prior := prior_family |}.

(** The cell of the confounder: the first group is marked dirty, the second
    holds a cached value. *)
Definition family_cell : CacheNode (list Q) :=
  {| value := [7%Q; 9%Q]; outdated := true;
     dirty := {[ "sufficient_stats" := [true; false] ]} |}.

Definition family_cache : GenericTypeCache Q :=
  {| group_likelihoods := {[ "clusters" := cold_cell; "family" := family_cell ]};
     component_likelihoods := component_likelihoods cold_cache |}.

(** A sample with Poisson features only. *)
Definition sample_family : Sample Q :=
  {| clusters := [[true; true]];
     categorical := None;
     gaussian := None;
     poisson := Some {| sufficient_statistics := ∅;
                        source := [[[true; true]]; [[true; true]]] |};
     logitnormal := None;
     confounders := {[ "family" := family ]};
     get_component_index := λ _, 1;
     cache := {| cache_categorical := cold_cache; cache_gaussian := cold_cache;
                 cache_poisson := family_cache;
                 cache_logitnormal := cold_cache |} |}.

(** The sample of [RationalModel] after one evaluation of the aggregate
    likelihood with caching, and after one evaluation of the pointwise
    likelihood of the categorical engine without. *)
Definition sample_after_likelihood : Sample Q :=
  match Likelihood_call (Likelihood_init self_example) sample_example true with
  | Ok (_, sample) => sample
  | Raise _ => sample_example
  end.

Definition sample_after_pointwise : Sample Q :=
  match pointwise_likelihood LikelihoodCategorical self_example sample_example
          false with
  | Ok (_, sample) => sample
  | Raise _ => sample_example
  end.

End ConfounderModel.

Module Aggregate.
Import Likelihood.

Section Vocabulary.
Context `{Float F, FeatureCounts F}.

(** The caches of all feature types that the sample has are consistent with
    its state. *)
Definition all_consistent (self : Self F) (sample : Sample F) : Prop :=
  ∀ ft, is_Some (ft_sample ft sample) → consistent ft self sample.

End Vocabulary.
End Aggregate.

Module Loggers.

(** *** [MCMCSetup.get_sample_loggers] and [MCMCSetup.read_previous_results]
    of [sbayes/mcmc_setup.py]

    A path below [self.path_results] is the list of its components.  The
    loggers are classes of [sbayes.sampling.loggers]; a logger is modelled by
    the arguments it is built with, except [self.data] and [self.model],
    which all of them get. *)

Inductive logger :=
  | ParametersCSVLogger (path : list string) (log_source : bool)
      (float_format : string) (resume : bool)
  | ClustersLogger (path : list string) (resume : bool)
  | OperatorStatsLogger (path : list string) (resume : bool)
  | LikelihoodLogger (path : list string) (resume : bool).

(** The attributes of [self.config] that the function reads. *)
Record Config := {
  sample_from_prior : bool;
  log_likelihood : bool;
  log_source : bool;
  float_precision : Z;
}.

(** [self.path_results / f'K{k}'] *)
Definition base_dir (k : Z) : list string := ["K" +:+ pretty k].

(** [base_dir / f'<prefix>_K{k}_{run}<suffix>'] *)
Definition run_file (prefix : string) (k run : Z) (suffix : string)
    : list string :=
  base_dir k ++ [prefix +:+ "_K" +:+ pretty k +:+ "_" +:+ pretty run +:+ suffix].

(** [get_sample_loggers(self, run, resume)].  [dirs] is the set of the
    directories below [self.path_results]; [base_dir.mkdir(exist_ok=True)]
    adds one to it. *)
Definition get_sample_loggers (config : Config) (k : Z) (run : Z)
    (resume : bool) (dirs : gset (list string))
    : list logger * gset (list string) :=
  let dirs := dirs ∪ {[ base_dir k ]} in
  let params_path := run_file "stats" k run ".txt" in
  let clusters_path := run_file "clusters" k run ".txt" in
  let likelihood_path := run_file "likelihood" k run ".h5" in
  let op_stats_path := run_file "operator_stats" k run ".txt" in
  let sample_loggers :=
    [ParametersCSVLogger params_path (log_source config)
       ("%." +:+ pretty (float_precision config) +:+ "g") resume;
     ClustersLogger clusters_path resume;
     OperatorStatsLogger op_stats_path resume] in
  let sample_loggers :=
    if negb (sample_from_prior config) && log_likelihood config
    then sample_loggers ++ [LikelihoodLogger likelihood_path resume]
    else sample_loggers in
  (sample_loggers, dirs).

(** [read_previous_results(self, run=1)]: the two paths that
    [Results.from_csv_files] is given, the clusters first. *)
Definition read_previous_results (k : Z) (run : Z)
    : list string * list string :=
  let params_path := run_file "stats" k run ".txt" in
  let clusters_path := run_file "clusters" k run ".txt" in
  (clusters_path, params_path).

(** The file a logger writes. *)
Definition logger_path (l : logger) : list string :=
  match l with
  | ParametersCSVLogger path _ _ _ => path
  | ClustersLogger path _ => path
  | OperatorStatsLogger path _ => path
  | LikelihoodLogger path _ => path
  end.

End Loggers.

Module Areas.
Import Stdlib.Strings.Ascii.

(** *** [encode_area] and [decode_area] of [sbayes/util.py]

    A Python string is a [string]; its characters are bytes, so the strings
    of the model are the ASCII ones. *)

(** [str(int(b))] *)
Definition bit_char (b : bool) : ascii := if b then "1"%char else "0"%char.

(** [''.join(area.astype(int).astype(str))] *)
Definition encode_area (area : list bool) : string :=
  String.string_of_list_ascii (map bit_char area).

(** The conversion of a one-character string by [astype(int)]: the value of
    a decimal digit; anything else raises [ValueError]. *)
Definition int_of_char (c : ascii) : result Z :=
  let n := nat_of_ascii c in
  if decide (48 ≤ n ≤ 57) then Ok (Z.of_nat (n - 48)) else Raise ValueError.

(** [np.array(list(area_str)).astype(int).astype(bool)] *)
Definition decode_area (area_str : string) : result (list bool) :=
  ints ← traverse int_of_char (String.list_ascii_of_string area_str);
  Ok (map (λ n : Z, negb (n =? 0)%Z) ints).

(** *** [format_area_columns] and [parse_area_columns] *)

(** [str.split(sep)] for a separator of one character. *)
Fixpoint split (sep : ascii) (s : string) : list string :=
  match s with
  | EmptyString => [EmptyString]
  | String c s' =>
      if decide (c = sep) then EmptyString :: split sep s'
      else
        match split sep s' with
        | piece :: pieces => String c piece :: pieces
        | [] => [String c EmptyString]
        end
  end.

(** The tab character. *)
Definition tab : ascii := ascii_of_nat 9.

(** ['\t'.join(map(encode_area, areas))] *)
Definition format_area_columns (areas : list (list bool)) : string :=
  String.concat (String tab EmptyString) (map encode_area areas).

(** [np.array(rows)] of a list of boolean vectors: the matrix with these
    rows.  Rows of different lengths make no matrix: numpy raises
    [ValueError] (from version 1.24 on; older versions warn and build an
    array of objects). *)
Definition np_array (rows : list (list bool)) : result (list (list bool)) :=
  match rows with
  | [] => Ok []
  | row :: _ =>
      if decide (Forall (λ r, length r = length row) rows) then Ok rows
      else Raise ValueError
  end.

(** [np.array(list(map(decode_area, areas_encoded.split('\t'))))] *)
Definition parse_area_columns (areas_encoded : string)
    : result (list (list bool)) :=
  areas_decoded ← traverse decode_area (split tab areas_encoded);
  np_array areas_decoded.

(** A string of the characters ['0'] and ['1'] only. *)
Definition bit_string (s : string) : Prop :=
  Forall (λ c, c = "0"%char ∨ c = "1"%char) (String.list_ascii_of_string s).

End Areas.

Module BoundingBox.

(** *** [bounding_box]

    Coordinates are floats: numbers, infinities or [nan].  The function only
    compares them. *)

(** [a > b] and [a < b] on floats; a comparison with [nan] is false. *)
Definition float_gt : BestOfAttempts.float → BestOfAttempts.float → bool :=
  BestOfAttempts.float_gt.

Definition float_lt (a b : BestOfAttempts.float) : bool := float_gt b a.

(** Python's [max(xs)] and [min(xs)]: the running maximum is replaced by an
    item that is greater ([item > max]), the running minimum by one that is
    less ([item < min]); [ValueError] on an empty list. *)
Definition py_max (xs : list BestOfAttempts.float)
    : result BestOfAttempts.float :=
  match xs with
  | [] => Raise ValueError
  | x :: xs' => Ok (foldl (λ m v, if float_gt v m then v else m) x xs')
  end.

Definition py_min (xs : list BestOfAttempts.float)
    : result BestOfAttempts.float :=
  match xs with
  | [] => Raise ValueError
  | x :: xs' => Ok (foldl (λ m v, if float_lt v m then v else m) x xs')
  end.

Definition bounding_box (points : list (list BestOfAttempts.float))
    : result (gmap string BestOfAttempts.float) :=
  x ← traverse (λ p, getitem p 0) points;
  y ← traverse (λ p, getitem p 1) points;
  x_max ← py_max x;
  y_max ← py_max y;
  x_min ← py_min x;
  y_min ← py_min y;
  Ok (<["x_max" := x_max]> (<["y_max" := y_max]>
        (<["x_min" := x_min]> (<["y_min" := y_min]> ∅)))).

(** *** Vocabulary *)

(** [a <= b] on floats. *)
Definition float_le (a b : BestOfAttempts.float) : bool :=
  match a, b with
  | BestOfAttempts.NaN, _ | _, BestOfAttempts.NaN => false
  | BestOfAttempts.NegInf, _ => true
  | BestOfAttempts.Finite _, BestOfAttempts.NegInf => false
  | BestOfAttempts.Finite x, BestOfAttempts.Finite y => Qle_bool x y
  | BestOfAttempts.Finite _, BestOfAttempts.PosInf => true
  | BestOfAttempts.PosInf, BestOfAttempts.PosInf => true
  | BestOfAttempts.PosInf, _ => false
  end.

(** The first two coordinates of every point are numbers or infinities. *)
Definition no_nan (points : list (list BestOfAttempts.float)) : Prop :=
  ∀ p c, p ∈ points → (c < 2)%nat → p !! c ≠ Some BestOfAttempts.NaN.

End BoundingBox.

Module Rounding.

#[local] Open Scope Z_scope.

(** *** [round_single_int] and [round_int] of [sbayes/util.py]

    Both take Python integers, which are unbounded.  What they raise is a
    plain [Exception] with a message, the [AssertionError] of an [assert],
    or the [OverflowError] or [ZeroDivisionError] of a division;
    [RecursionError] stands for a recursion that does not end. *)

Inductive py_exn :=
  | Exception (msg : string)
  | AssertionError
  | RecursionError
  | OverflowError
  | ZeroDivisionError.

(** A float that is a number, by its value [mantissa * 2 ^ exponent]. *)
Record py_float := { mantissa : Z; exponent : Z }.

(** The float nearest to the quotient [a / b] of two positive integers.
    With [2^e <= a / b < 2^(e + 1)], the floats near the quotient are the
    multiples of [2^(e - 52)], and of [2^-1074] below [2^-1022]; of two
    that are equally near, the one with the even mantissa is taken. *)
Definition nearest_float (a b : Z) : py_float :=
  let e := if decide (a < b) then - Z.log2_up ((b + a - 1) / a)
           else Z.log2 (a / b) in
  let shift := Z.min (52 - e) 1074 in
  let num := a * 2 ^ Z.max 0 shift in
  let den := b * 2 ^ Z.max 0 (- shift) in
  let q := num / den in
  let r := num mod den in
  let m := if decide (2 * r < den) then q
           else if decide (den < 2 * r) then q + 1
           else if Z.even q then q else q + 1 in
  {| mantissa := m; exponent := - shift |}.

(** No float is as large as [2^1024]. *)
Definition too_large (x : py_float) : bool :=
  bool_decide (0 ≤ exponent x ∧ 2 ^ 1024 ≤ mantissa x * 2 ^ exponent x).

(** [a / b] for two Python integers: the float nearest to the quotient;
    [OverflowError] when that would be [2^1024] or more. *)
Definition int_true_divide (a b : Z) : py_float + py_exn :=
  if decide (b = 0) then inr ZeroDivisionError
  else if decide (a = 0) then inl {| mantissa := 0; exponent := 0 |}
  else
    let x := nearest_float (Z.abs a) (Z.abs b) in
    if too_large x then inr OverflowError
    else inl {| mantissa := Z.sgn a * Z.sgn b * mantissa x;
                exponent := exponent x |}.

(** [math.floor(x)] and [math.ceil(x)] *)
Definition math_floor (x : py_float) : Z :=
  if decide (0 ≤ exponent x) then mantissa x * 2 ^ exponent x
  else mantissa x / 2 ^ (- exponent x).

Definition math_ceil (x : py_float) : Z :=
  if decide (0 ≤ exponent x) then mantissa x * 2 ^ exponent x
  else - ((- mantissa x) / 2 ^ (- exponent x)).

(** [len(str(n))] *)
Definition len_str (n : Z) : Z := Z.of_nat (String.length (pretty n)).

(** [len(str(n)) if n > 0 else len(str(n)) - 1] *)
Definition n_digits (n : Z) : Z :=
  if decide (0 < n) then len_str n else len_str n - 1.

(** [round_single_int(n, mode='up', position=2, offset=1)]; [//] is the
    floor division. *)
Definition round_single_int (n : Z) (mode : string) (position offset : Z)
    : Z + py_exn :=
  let n_digits := n_digits n in
  if decide (mode ≠ "up" ∧ mode ≠ "down") then inr (Exception "unkown mode")
  else if decide (n_digits < position) then inr (Exception "unkown mode")
  else if decide (n_digits = 1) then
    inl (if decide (mode = "down") then n - offset else n + offset)
  else if decide (n_digits = 2) then
    if decide (position = 1) then
      let base := n / 10 * 10 in
      inl (if decide (mode = "down") then base - offset * 10
           else base + (offset + 1) * 10)
    else if decide (position = 2) then
      inl (if decide (mode = "down") then n - offset else n + offset)
    else inr AssertionError
  else
    if decide (position ≠ n_digits) then
      let factor := 10 ^ (n_digits - position) in
      let base := n / factor * factor in
      inl (if decide (mode = "down") then base - offset * factor
           else base + (offset + 1) * factor)
    else inl (if decide (mode = "down") then n - offset else n + offset).

(** [10 ** (len(str(offset)) - 1)] *)
Definition convertor (offset : Z) : Z := 10 ^ (len_str offset - 1).

(** The body of [round_int(n, mode='up', offset=0)], with [rec] for the
    function it calls on a negative [n].  [n / convertor] is the division
    of two integers, which gives a float.  When [n > offset], the statement
    [if mode == 'up'] is followed by a second [if mode == 'down'] with the
    [else] that raises: what the first computes for ['up'] is dropped by
    that [else]. *)
Definition round_int_body (rec : Z → string → Z → Z + py_exn)
    (n : Z) (mode : string) (offset : Z) : Z + py_exn :=
  let convertor := convertor offset in
  if decide (offset < n) then
    match (if decide (mode = "up") then
             match int_true_divide n convertor with
             | inl x => inl (Some (math_ceil x * convertor + offset))
             | inr e => inr e
             end
           else inl None) with
    | inr e => inr e
    | inl n_rounded =>
        if decide (mode = "down") then
          match int_true_divide n convertor with
          | inl x => inl (math_floor x * convertor - offset)
          | inr e => inr e
          end
        else inr (Exception "unkown mode")
    end
  else if decide (0 ≤ n) then
    inl (if decide (mode = "up") then offset + convertor else - offset)
  else
    let inverse_mode := if decide (mode = "down") then "up" else "down" in
    match rec (Z.abs n) inverse_mode offset with
    | inl n_rounded => inl (- n_rounded)
    | inr e => inr e
    end.

(** The recursion is one call deep: the argument of the inner call is
    [abs(n)], which is not negative. *)
Definition round_int : Z → string → Z → Z + py_exn :=
  round_int_body (round_int_body (λ _ _ _, inr RecursionError)).

End Rounding.

Module RoundMultiple.
Import Rounding.

#[local] Open Scope Z_scope.

(** *** [round_multiple_ints] of [sbayes/util.py]

    The numbers are Python integers, for which [int(n)] is [n]. *)

(** The type of the elements of the array that numpy makes of a list of
    Python integers. *)
Inductive np_dtype := np_int64 | np_uint64 | np_float64 | np_object.

(** An integer is an [int64] when it fits, a [uint64] when it fits that,
    and a Python object otherwise. *)
Definition dtype_of_int (n : Z) : np_dtype :=
  if decide (- 2 ^ 63 ≤ n < 2 ^ 63) then np_int64
  else if decide (2 ^ 63 ≤ n < 2 ^ 64) then np_uint64
  else np_object.

(** [np.promote_types]: an [int64] and a [uint64] have no integer type in
    common and become floats. *)
Definition promote_types (a b : np_dtype) : np_dtype :=
  match a, b with
  | np_object, _ | _, np_object => np_object
  | np_float64, _ | _, np_float64 => np_float64
  | np_int64, np_int64 => np_int64
  | np_uint64, np_uint64 => np_uint64
  | np_int64, np_uint64 | np_uint64, np_int64 => np_float64
  end.

(** The type of [np.array(xs)] for a non-empty list. *)
Definition array_dtype (x : Z) (xs : list Z) : np_dtype :=
  foldl (λ t n, promote_types t (dtype_of_int n)) (dtype_of_int x) xs.

(** The smallest of a list of integers; [None] stands for the [ValueError]
    that [np.min] raises on an empty list. *)
Definition np_min (xs : list Z) : option Z :=
  match xs with
  | [] => None
  | x :: xs' => Some (foldl Z.min x xs')
  end.

Section RoundMultipleInts.
(** [len_str_float64 n] is the length of what numpy prints for the float
    nearest to the integer [n], as [113.0] for 113; nothing is assumed of
    it. *)
Variable len_str_float64 : Z → Z.

(** [len(str(np.min(xs)))]: the smallest element is printed as an integer,
    unless the array is one of floats. *)
Definition fewest_digits (xs : list Z) : option Z :=
  match xs with
  | [] => None
  | x :: xs' =>
      smallest ← np_min xs;
      Some (match array_dtype x xs' with
            | np_float64 => len_str_float64 smallest
            | _ => len_str smallest
            end)
  end.

(** The loops [for n in ups] and [for n in downs], which differ in the mode:
    every number is rounded by [round_single_int], at the position
    [position + len(str(n)) - fewest_digits], and the results are appended
    in order.  An exception of [round_single_int] ends the function. *)
Fixpoint round_each (mode : string) (position fewest_digits offset : Z)
    (ns : list Z) : list Z + py_exn :=
  match ns with
  | [] => inl []
  | n :: ns' =>
      let length := len_str n in
      match round_single_int n mode (position + length - fewest_digits)
              offset with
      | inr e => inr e
      | inl n_rounded =>
          match round_each mode position fewest_digits offset ns' with
          | inr e => inr e
          | inl rounded => inl (n_rounded :: rounded)
          end
      end
  end.

(** [round_multiple_ints(ups, downs, position=2, offset=1)]; the outer
    [None] is the [ValueError] of [np.min]. *)
Definition round_multiple_ints (ups downs : list Z) (position offset : Z)
    : option ((list Z * list Z) + py_exn) :=
  match fewest_digits (ups ++ downs) with
  | None => None
  | Some fewest_digits =>
      Some
        match round_each "up" position fewest_digits offset ups with
        | inr e => inr e
        | inl ups_rounded =>
            match round_each "down" position fewest_digits offset downs with
            | inr e => inr e
            | inl downs_rounded => inl (ups_rounded, downs_rounded)
            end
        end
  end.

End RoundMultipleInts.

End RoundMultiple.

Module Edges.

(** *** [add_edge] of [sbayes/util.py]

    The function returns nothing: it updates the set [edges] and the list
    [edge_nodes] that it is given.  The model returns the two objects as the
    caller finds them afterwards, also when the call raises. *)

(** [a[i]] for a Python integer: a negative index counts from the end. *)
Definition py_index {A : Type} (a : list A) (i : Z) : result A :=
  if decide (0 ≤ i)%Z then getitem a (Z.to_nat i)
  else if decide (- Z.of_nat (length a) ≤ i)%Z
       then getitem a (Z.to_nat (Z.of_nat (length a) + i))
       else Raise IndexError.

(** [coords[[i, j]]] *)
Definition index_pair {A : Type} (coords : list A) (i j : Z) : result (list A) :=
  ci ← py_index coords i; cj ← py_index coords j; Ok [ci; cj].

Definition add_edge {A : Type} (edges : gset (Z * Z)) (edge_nodes : list (list A))
    (coords : list A) (i j : Z)
    : result () * (gset (Z * Z) * list (list A)) :=
  if decide ((i, j) ∈ edges ∨ (j, i) ∈ edges) then (Ok (), (edges, edge_nodes))
  else
    let edges := edges ∪ {[ (i, j) ]} in
    match index_pair coords i j with
    | Ok nodes => (Ok (), (edges, edge_nodes ++ [nodes]))
    | Raise e => (Raise e, (edges, edge_nodes))
    end.

(** An index that [coords] has. *)
Definition in_range {A : Type} (coords : list A) (i : Z) : Prop :=
  (- Z.of_nat (length coords) ≤ i < Z.of_nat (length coords))%Z.

End Edges.

Module Rescale.

#[local] Open Scope Q_scope.

(** *** [linear_rescale] of [sbayes/util.py]

    The arguments are rationals; [None] stands for the [ZeroDivisionError]
    of Python's division by zero. *)
Definition linear_rescale (value old_min old_max new_min new_max : Q)
    : option Q :=
  if Qeq_bool (old_max - old_min) 0 then None
  else Some ((new_max - new_min) / (old_max - old_min) * (value - old_max)
             + old_max).

End Rescale.

Module Balance.
Import Weights.

#[local] Open Scope Q_scope.

(** *** [balance_p_array] of [sbayes/util.py]

    The array has one axis and rational entries.  An entry of the result is
    an [option Q], where [None] stands for a value that is not finite, as
    for [normalize_weights].  [balance_by] is a Python float, as the
    docstring has it: its division by the integer 0 raises
    [ZeroDivisionError]. *)

(** [np.where(test(a))[0]]: the indices of the entries that pass the test,
    in increasing order; [i] is the index of the first entry of [a]. *)
Fixpoint np_where (test : Q → bool) (i : nat) (a : list Q) : list nat :=
  match a with
  | [] => []
  | x :: a' =>
      if test x then i :: np_where test (S i) a' else np_where test (S i) a'
  end.

(** [a[idx]] for indices that [np.where] returned for [a], which are in
    range. *)
Definition take_idx (a : list Q) (idx : list nat) : list Q :=
  omap (λ i, a !! i) idx.

(** [a[idx] = vals], for as many values as indices. *)
Definition put_idx {A} (idx : list nat) (vals : list A) (a : list A)
    : list A :=
  foldl (λ a iv, <[iv.1 := iv.2]> a) a (zip idx vals).

(** [balance_p_array(p_array, balance_by)]; [None] is the
    [ZeroDivisionError] of [balance_by / len(zero_idx)].  The function
    writes into the array it is given and returns it. *)
Definition balance_p_array (p_array : list Q) (balance_by : Q)
    : option (list (option Q)) :=
  let zero_idx := np_where (λ x, Qeq_bool x 0) 0 p_array in
  let nonzero_idx := np_where (λ x, negb (Qeq_bool x 0)) 0 p_array in
  let total := sum_Q (take_idx p_array nonzero_idx) in
  let non_zero_proportion :=
    map (λ x, fdiv x total) (take_idx p_array nonzero_idx) in
  let p_array_nonzero_balanced :=
    zip_with (λ x proportion, (λ y, x - y * balance_by) <$> proportion)
      (take_idx p_array nonzero_idx) non_zero_proportion in
  if decide (length zero_idx = 0%nat) then None
  else
    let p_array_zero_balanced :=
      balance_by / inject_Z (Z.of_nat (length zero_idx)) in
    let p_array := map Some p_array in
    let p_array :=
      put_idx zero_idx
        (replicate (length zero_idx) (Some p_array_zero_balanced)) p_array in
    let p_array := put_idx nonzero_idx p_array_nonzero_balanced p_array in
    Some p_array.

End Balance.

Module AssignNA.

(** *** [assign_na] of [sbayes/util.py]

    The features are an array of shape (sites, features, categories), a list
    of sites here; [features.astype(float)] copies it, so that the argument
    is left as it is.  The draws of [np.random] come from an oracle. *)

(** [np.random.choice(a=a, size=1)] for an integer [a]: one of
    [0, ..., a - 1]; numpy raises [ValueError] when [a] is 0. *)
Definition np_random_choice (rnd : nat → nat) (t a : nat) : result nat :=
  if decide (a = 0) then Raise ValueError else Ok (rnd t mod a).

(** [features[na_site, na_feature, :] = 0] *)
Definition set_na (na_site na_feature : nat) (features : list (list (list Q)))
    : list (list (list Q)) :=
  alter (alter (map (λ _, 0%Q)) na_feature) na_site features.

(** The loop [for _ in range(n_na)]; [t] numbers the next draw.
    [features.shape[1]] is the number of features of every site. *)
Fixpoint assign_na_loop (rnd : nat → nat) (n t : nat)
    (features : list (list (list Q))) : result (list (list (list Q))) :=
  match n with
  | 0 => Ok features
  | S n' =>
      na_site ← np_random_choice rnd t (length features);
      na_feature ← np_random_choice rnd (S t) (length (hd [] features));
      assign_na_loop rnd n' (S (S t)) (set_na na_site na_feature features)
  end.

Definition assign_na (rnd : nat → nat) (features : list (list (list Q)))
    (n_na : Z) : result (list (list (list Q))) :=
  assign_na_loop rnd (Z.to_nat n_na) 0 features.

(** *** Vocabulary *)

(** The array [features] with the categories of the pairs (site, feature) of
    [pairs] set to zero. *)
Definition with_na (pairs : list (nat * nat))
    (features out : list (list (list Q))) : Prop :=
  length out = length features ∧
  ∀ (s f : nat) (site : list (list Q)) (cats : list Q),
    features !! s = Some site → site !! f = Some cats →
    ∃ site', out !! s = Some site' ∧ length site' = length site ∧
      site' !! f = Some (if decide ((s, f) ∈ pairs) then map (λ _, 0%Q) cats
                         else cats).

(** The pairs (site, feature) of the first [n] rounds of the loop: round
    [k] takes its site from draw [2 k] and its feature from draw
    [2 k + 1]. *)
Definition drawn_pairs (rnd : nat → nat) (n_sites n_features n : nat)
    : list (nat * nat) :=
  map (λ k, (rnd (2 * k) mod n_sites, rnd (2 * k + 1) mod n_features))
    (seq 0 n).

End AssignNA.

(** * Properties *)

(** ** Auxiliary facts on lists and random draws *)

Lemma random_pick_elem {A} (r : nat) (xs : list A) (x : A) :
  random_pick r xs = Some x → x ∈ xs.
Proof.
  destruct xs as [|y ys]; [done|].
  unfold random_pick. intros H. by eapply list_elem_of_lookup_2.
Qed.

Lemma random_pick_is_Some {A} (r : nat) (xs : list A) :
  xs ≠ [] → is_Some (random_pick r xs).
Proof.
  destruct xs as [|y ys]; [done|]. intros _.
  unfold random_pick. apply lookup_lt_is_Some.
  apply Nat.mod_upper_bound. simpl. lia.
Qed.

Lemma random_pick_None {A} (r : nat) (xs : list A) :
  random_pick r xs = None → xs = [].
Proof.
  intros H. destruct xs as [|y ys]; [done|].
  destruct (random_pick_is_Some r (y :: ys)) as [x Hx]; [done|]. congruence.
Qed.

Lemma elem_of_list_remove (x y : nat) (l : list nat) :
  NoDup l → y ∈ list_remove x l ↔ y ∈ l ∧ y ≠ x.
Proof.
  induction l as [|z l IH]; simpl; intros Hnd.
  - split; [by intros ?%elem_of_nil | by intros [?%elem_of_nil _]].
  - apply NoDup_cons in Hnd as [Hz Hnd]. case_decide as Hxz.
    + subst z. split.
      * intros Hy. split; [by right|]. by intros ->.
      * intros [[->|Hy]%elem_of_cons Hne]; done.
    + rewrite !elem_of_cons, IH by done. split.
      * intros [->|[? ?]]; split; auto.
      * intros [[->|?] ?]; auto.
Qed.

Lemma NoDup_list_remove (x : nat) (l : list nat) :
  NoDup l → NoDup (list_remove x l).
Proof.
  induction l as [|z l IH]; simpl; intros Hnd; [done|].
  apply NoDup_cons in Hnd as [Hz Hnd]. case_decide; [done|].
  apply NoDup_cons. split; [|by apply IH].
  rewrite elem_of_list_remove by done. by intros [? _].
Qed.

Lemma length_list_remove (x : nat) (l : list nat) :
  x ∈ l → S (length (list_remove x l)) = length l.
Proof.
  induction l as [|z l IH]; simpl; [by intros ?%elem_of_nil|].
  intros Hx. case_decide as Hxz; [done|].
  apply elem_of_cons in Hx as [?|Hx]; [done|]. simpl. by rewrite IH.
Qed.

Lemma count_true_zeros (n : nat) : count_true (zeros n) = 0.
Proof. unfold zeros. induction n as [|n IH]; [done|]. simpl. exact IH. Qed.

Lemma count_true_insert_true (i : nat) (a : list bool) :
  a !! i = Some false → count_true (<[i:=true]> a) = S (count_true a).
Proof.
  revert i. induction a as [|b a IH]; intros [|i] H; try done.
  - simpl in H. by injection H as ->.
  - simpl in H. simpl. rewrite IH by done. lia.
Qed.

Lemma zeros_lookup (n i : nat) : i < n → zeros n !! i = Some false.
Proof. intros. unfold zeros. by apply lookup_replicate_2. Qed.

Lemma zeros_lookup_true (n i : nat) : zeros n !! i ≠ Some true.
Proof. unfold zeros. intros [? _]%lookup_replicate. done. Qed.

Module InitializerSpec.
Import Initializer.

(** ** [initialize_clusters] *)


Lemma seed_row_lookup_true (n s j : nat) :
  seed_row n s !! j = Some true → j = s.
Proof.
  unfold seed_row. intros H. destruct (decide (s = j)) as [|Hne]; [done|].
  rewrite list_lookup_insert_ne in H by done. by apply zeros_lookup_true in H.
Qed.

Lemma seed_loop_seq (rnd : nat → nat) (n m : nat) :
  ∀ (i : nat) (clusters : list (list bool)) (free seeds : list nat),
    length seeds = i →
    length clusters = i + m →
    NoDup free → NoDup seeds →
    (∀ x, x ∈ free → x < n ∧ x ∉ seeds) →
    Forall (λ s, s < n) seeds →
    m ≤ length free →
    (∀ k s, seeds !! k = Some s → clusters !! k = Some (seed_row n s)) →
    (∀ k, i ≤ k < i + m → clusters !! k = Some (zeros n)) →
    ∃ clusters' seeds',
      seed_loop rnd (seq i m) clusters free = Ok clusters' ∧
      length seeds' = i + m ∧ length clusters' = i + m ∧
      NoDup seeds' ∧ Forall (λ s, s < n) seeds' ∧
      (∀ k s, seeds' !! k = Some s → clusters' !! k = Some (seed_row n s)).
Proof.
  induction m as [|m IH]; intros i clusters free seeds Hls Hlc Hndf Hnds Hfree Hlt Hm Hdone Htodo.
  - exists clusters, seeds. simpl. rewrite Nat.add_0_r in Hlc |- *.
    split_and!; done.
  - simpl. destruct (random_pick (rnd i) free) as [j|] eqn:Hj.
    2:{ apply random_pick_None in Hj. subst free. simpl in Hm. lia. }
    apply random_pick_elem in Hj.
    destruct (Hfree j Hj) as [Hjn Hjs].
    destruct (IH (S i) (alter (λ row, <[j:=true]> row) i clusters)
                (list_remove j free) (seeds ++ [j])) as (clusters' & seeds' & Hrun & H1 & H2 & H3 & H4 & H5).
    + rewrite length_app. simpl. lia.
    + rewrite length_alter. lia.
    + by apply NoDup_list_remove.
    + apply NoDup_app. split_and!; [done| |apply NoDup_singleton].
      intros x Hx ->%list_elem_of_singleton. done.
    + intros x [Hx Hne]%elem_of_list_remove; [|done].
      destruct (Hfree x Hx) as [? ?]. split; [done|].
      rewrite elem_of_app, list_elem_of_singleton. by intros [?|?].
    + apply Forall_app. split; [done|]. by apply Forall_singleton.
    + apply length_list_remove in Hj. lia.
    + intros k s Hk. destruct (decide (k = i)) as [->|Hki].
      * rewrite lookup_app_r in Hk by lia. rewrite Hls, Nat.sub_diag in Hk.
        injection Hk as <-. rewrite list_lookup_alter_eq.
        rewrite (Htodo i) by lia. done.
      * rewrite list_lookup_alter_ne by done. apply Hdone.
        apply lookup_lt_Some in Hk as Hk'. rewrite length_app in Hk'. simpl in Hk'.
        rewrite lookup_app_l in Hk by lia. done.
    + intros k Hk. rewrite list_lookup_alter_ne by lia. apply Htodo. lia.
    + exists clusters', seeds'. split; [done|].
      replace (i + S m) with (S i + m) by lia. done.
Qed.

(** C7.  With no more clusters than objects, [initialize_clusters] returns an
    [n_clusters] x [n_objects] boolean matrix.  Row [i] is the seed row of an
    object [seeds !! i]: it holds exactly one [True].  The seeds are drawn
    without replacement (they are pairwise distinct objects), so no object is
    [True] in two rows. *)
Theorem initialize_clusters_single_disjoint_seeds
    (n_clusters n_objects : nat) (rnd : nat → nat) :
  n_clusters ≤ n_objects →
  ∃ (clusters : list (list bool)) (seeds : list nat),
    initialize_clusters n_clusters n_objects rnd = Ok clusters ∧
    length clusters = n_clusters ∧
    Forall (λ row, length row = n_objects ∧ count_true row = 1) clusters ∧
    length seeds = n_clusters ∧ NoDup seeds ∧ Forall (λ s, s < n_objects) seeds ∧
    (∀ i s, seeds !! i = Some s → clusters !! i = Some (seed_row n_objects s)) ∧
    (∀ i1 i2 row1 row2 j,
        clusters !! i1 = Some row1 → clusters !! i2 = Some row2 →
        row1 !! j = Some true → row2 !! j = Some true → i1 = i2).
Proof.
  intros Hle. unfold initialize_clusters.
  destruct (seed_loop_seq rnd n_objects n_clusters 0
              (replicate n_clusters (zeros n_objects)) (seq 0 n_objects) [])
    as (clusters & seeds & Hrun & Hls & Hlc & Hnd & Hlt & Hrows).
  - done.
  - by rewrite length_replicate.
  - apply NoDup_seq.
  - apply NoDup_nil_2.
  - intros x Hx%elem_of_seq. split; [lia|]. apply not_elem_of_nil.
  - done.
  - by rewrite length_seq.
  - intros k s Hk. done.
  - intros k Hk. apply lookup_replicate_2. lia.
  - simpl in Hls, Hlc.
    assert (Hrow : ∀ i row, clusters !! i = Some row →
              ∃ s, seeds !! i = Some s ∧ s < n_objects ∧ row = seed_row n_objects s).
    { intros i row Hi. apply lookup_lt_Some in Hi as Hi'.
      destruct (lookup_lt_is_Some_2 seeds i) as [s Hs]; [lia|].
      exists s. split; [done|]. split.
      - eapply Forall_lookup_1 in Hlt; eauto.
      - apply Hrows in Hs. congruence. }
    exists clusters, seeds. split_and!; try done.
    + apply Forall_lookup_2. intros i row Hi.
      destruct (Hrow i row Hi) as (s & Hs & Hsn & ->). unfold seed_row. split.
      * rewrite length_insert. unfold zeros. by rewrite length_replicate.
      * rewrite count_true_insert_true by by apply zeros_lookup.
        by rewrite count_true_zeros.
    + intros i1 i2 row1 row2 j H1 H2 Hj1 Hj2.
      destruct (Hrow i1 row1 H1) as (s1 & Hs1 & _ & ->).
      destruct (Hrow i2 row2 H2) as (s2 & Hs2 & _ & ->).
      apply seed_row_lookup_true in Hj1, Hj2. subst s1 s2.
      eapply NoDup_lookup; eauto.
Qed.

Lemma initialize_clusters_single_disjoint_seeds_witness :
  ∃ (clusters : list (list bool)) (seeds : list nat),
    initialize_clusters 2 10 (λ t, 3 + 4 * t) = Ok clusters ∧
    length clusters = 2 ∧
    Forall (λ row, length row = 10 ∧ count_true row = 1) clusters ∧
    length seeds = 2 ∧ NoDup seeds ∧ Forall (λ s, s < 10) seeds ∧
    (∀ i s, seeds !! i = Some s → clusters !! i = Some (seed_row 10 s)) ∧
    (∀ i1 i2 row1 row2 j,
        clusters !! i1 = Some row1 → clusters !! i2 = Some row2 →
        row1 !! j = Some true → row2 !! j = Some true → i1 = i2).
Proof.
  apply (initialize_clusters_single_disjoint_seeds 2 10 (λ t, 3 + 4 * t)). lia.
Defined.

(** ** [grow_cluster_of_size_k] *)

Lemma elem_of_nonzero (mask : list bool) (i : nat) :
  i ∈ nonzero mask ↔ mask !! i = Some true.
Proof.
  unfold nonzero. rewrite list_elem_of_filter, elem_of_seq. split.
  - by intros [? _].
  - intros H. split; [done|]. apply lookup_lt_Some in H. lia.
Qed.

Lemma any_true (mask : list bool) :
  any mask = true ↔ ∃ i, mask !! i = Some true.
Proof.
  unfold any. rewrite existsb_exists. split.
  - intros (b & Hin & Hb). simpl in Hb. subst b.
    apply list_elem_of_In, list_elem_of_lookup in Hin. done.
  - intros (i & Hi). exists true. split; [|done].
    apply list_elem_of_In. by eapply list_elem_of_lookup_2.
Qed.

Lemma set_true_Some (i : nat) (a a' : list bool) :
  set_true i a = Some a' ↔ i < length a ∧ a' = <[i:=true]> a.
Proof. unfold set_true. case_decide; naive_solver. Qed.

Lemma elem_of_sites_free (n : nat) (occupied : list bool) (i : nat) :
  length occupied = n →
  i ∈ sites_free n (nonzero occupied) ↔ occupied !! i = Some false.
Proof.
  intros Hlen. unfold sites_free.
  rewrite list_elem_of_filter, elem_of_seq, elem_of_nonzero. split.
  - intros [Hnot Hi]. destruct (lookup_lt_is_Some_2 occupied i) as [[] Hb]; [lia|done..].
  - intros Hi. split; [congruence|]. apply lookup_lt_Some in Hi. lia.
Qed.


Lemma mask_union_insert_r (a b : list bool) (j : nat) :
  mask_union a (<[j:=true]> b) = <[j:=true]> (mask_union a b).
Proof.
  unfold mask_union. revert b j.
  induction a as [|x a IH]; intros [|y b] [|j]; simpl; try done.
  - by rewrite orb_true_r.
  - by rewrite IH.
Qed.

Lemma mask_union_zeros (a : list bool) (n : nat) :
  length a = n → mask_union a (zeros n) = a.
Proof.
  intros <-. unfold mask_union, zeros. induction a as [|x a IH]; [done|].
  simpl. by rewrite orb_false_r, IH.
Qed.

Section GrowClusterSpec.
Variable n_objects : nat.
Variable adj_mat : list (list bool).
(** The occupancy mask when the function is entered. *)
Variable occupied : list bool.

#[local] Abbreviation fgrown := (frontier_grown n_objects adj_mat occupied).

Hypothesis occupied_length : length occupied = n_objects.

Lemma get_neighbours_true (cluster already : list bool) (j : nat) :
  get_neighbours cluster already adj_mat !! j = Some true →
  already !! j = Some false.
Proof.
  unfold get_neighbours. intros (x & y & Hxy & _ & Hy)%lookup_zip_with_Some.
  rewrite list_lookup_fmap in Hy. destruct (already !! j) as [[]|]; simpl in Hy;
    [|done|done].
  injection Hy as <-. by destruct x.
Qed.

Lemma frontier_grown_inv (s : nat) (cluster already : list bool) :
  fgrown s cluster already →
  length cluster = n_objects ∧ length already = n_objects ∧
  count_true cluster = s ∧ 1 ≤ s ∧
  already = mask_union occupied cluster ∧
  (∀ i, cluster !! i = Some true → occupied !! i = Some false).
Proof.
  induction 1 as [i Hi|s cluster already j _ (Hlc & Hla & Hcount & Hs & Hunion & Hdisj) Hj].
  - apply lookup_lt_Some in Hi as Hlt.
    assert (Hz : length (zeros n_objects) = n_objects)
      by (unfold zeros; by rewrite length_replicate).
    split_and!.
    + by rewrite length_insert.
    + by rewrite length_insert.
    + rewrite count_true_insert_true by (apply zeros_lookup; lia).
      by rewrite count_true_zeros.
    + done.
    + by rewrite mask_union_insert_r, mask_union_zeros.
    + intros k Hk. destruct (decide (i = k)) as [<-|Hne]; [done|].
      rewrite list_lookup_insert_ne in Hk by done. by apply zeros_lookup_true in Hk.
  - apply get_neighbours_true in Hj.
    apply lookup_lt_Some in Hj as Hlt.
    assert (Hoj : occupied !! j = Some false ∧ cluster !! j = Some false).
    { rewrite Hunion in Hj. unfold mask_union in Hj.
      apply lookup_zip_with_Some in Hj as (x & y & Hxy & -> & ->).
      symmetry in Hxy. apply orb_false_elim in Hxy as [-> ->]. done. }
    destruct Hoj as [Hoj Hcj].
    split_and!.
    + by rewrite length_insert.
    + by rewrite length_insert.
    + rewrite count_true_insert_true by done. lia.
    + lia.
    + by rewrite mask_union_insert_r, <- Hunion.
    + intros k Hk. destruct (decide (j = k)) as [<-|Hne]; [done|].
      rewrite list_lookup_insert_ne in Hk by done. by apply Hdisj.
Qed.

(** The frontier that the code computes is the frontier of the graph. *)
Lemma get_neighbours_in_frontier (cluster : list bool) (j : nat) :
  get_neighbours cluster (mask_union occupied cluster) adj_mat !! j = Some true
  ↔ in_frontier adj_mat occupied cluster j.
Proof.
  unfold get_neighbours, dot, in_frontier, adjacent_to, mask_union.
  rewrite lookup_zip_with_Some. split.
  - intros (x & y & Hxy & Hx & Hy).
    symmetry in Hxy. apply andb_true_iff in Hxy as [-> ->].
    rewrite list_lookup_fmap in Hx. rewrite list_lookup_fmap in Hy.
    destruct (adj_mat !! j) as [row|] eqn:Hrow; [|done].
    destruct (zip_with orb occupied cluster !! j) as [b|] eqn:Hb; [|done].
    simpl in Hx, Hy. injection Hx as Hx. injection Hy as Hy.
    apply negb_true_iff in Hy as ->.
    apply lookup_zip_with_Some in Hb as (o & c & Hoc & Ho & Hc).
    symmetry in Hoc. apply orb_false_elim in Hoc as [-> ->].
    split_and!; [done..|].
    apply any_true in Hx as [i Hi].
    apply lookup_zip_with_Some in Hi as (a & b & Hab & Ha & Hb).
    symmetry in Hab. apply andb_true_iff in Hab as [-> ->].
    by exists row, i.
  - intros (Ho & Hc & row & i & Hrow & Hi & Hm). exists true, true.
    split_and!; [done| |].
    + rewrite list_lookup_fmap, Hrow. simpl. f_equal.
      apply any_true. exists i. by rewrite lookup_zip_with, Hi, Hm.
    + by rewrite list_lookup_fmap, lookup_zip_with, Ho, Hc.
Qed.

Lemma frontier_grown_along_edges (s : nat) (cluster already : list bool) :
  fgrown s cluster already →
  grown_along_edges n_objects adj_mat occupied s cluster.
Proof.
  induction 1 as [i Hi|s cluster already j Hfg IH Hj].
  - by apply gae_seed.
  - apply gae_step; [done|].
    destruct (frontier_grown_inv s cluster already Hfg)
      as (_ & _ & _ & _ & -> & _).
    by apply get_neighbours_in_frontier.
Qed.

Lemma empty_frontier (cluster : list bool) :
  any (get_neighbours cluster (mask_union occupied cluster) adj_mat) = false →
  ∀ j, ¬ in_frontier adj_mat occupied cluster j.
Proof.
  intros Hany j Hj%get_neighbours_in_frontier.
  assert (any (get_neighbours cluster (mask_union occupied cluster) adj_mat)
          = true) by (apply any_true; by exists j).
  congruence.
Qed.

(** A mask united with a cluster that holds a free object differs from the
    mask. *)
Lemma mask_union_changes (cluster : list bool) :
  1 ≤ count_true cluster →
  (∀ i, cluster !! i = Some true → occupied !! i = Some false) →
  mask_union occupied cluster ≠ occupied.
Proof.
  intros Hcount Hdisj Heq.
  assert (Hex : ∃ i, cluster !! i = Some true).
  { clear -Hcount. induction cluster as [|b c IH]; simpl in *; [lia|].
    destruct b.
    - by exists 0.
    - destruct IH as [i Hi]; [done|]. by exists (S i). }
  destruct Hex as [i Hi]. specialize (Hdisj i Hi).
  unfold mask_union in Heq.
  assert (Hz : zip_with orb occupied cluster !! i = Some true)
    by (by rewrite lookup_zip_with, Hdisj, Hi).
  rewrite Heq in Hz. congruence.
Qed.

Variable rnd : nat → nat.
Variable l : loc.

Lemma load_insert (a : list bool) (h : heap) : load l (<[l:=a]> h) = a.
Proof. unfold load. by rewrite lookup_insert_eq. Qed.

Lemma frontier_pick (t : nat) (cluster already : list bool) :
  any (get_neighbours cluster already adj_mat) = true →
  ∃ j, random_pick (rnd t) (nonzero (get_neighbours cluster already adj_mat)) = Some j ∧
       get_neighbours cluster already adj_mat !! j = Some true.
Proof.
  intros (i & Hi)%any_true.
  destruct (random_pick_is_Some (rnd t)
              (nonzero (get_neighbours cluster already adj_mat))) as [j Hj].
  { intros Hnil. apply elem_of_nonzero in Hi. rewrite Hnil in Hi.
    by apply elem_of_nil in Hi. }
  exists j. split; [done|]. by apply random_pick_elem, elem_of_nonzero in Hj.
Qed.

(** The loop keeps the cluster frontier-grown; it can only stop early with
    [ClusterError], and then on a cluster whose frontier is empty. *)
Lemma grow_loop_spec (m : nat) :
  ∀ (t s : nat) (cluster : list bool) (h : heap),
    fgrown s cluster (load l h) →
    ∃ (h' : heap) (s' : nat) (cluster' : list bool),
      (∀ l2, l2 ≠ l → h' !! l2 = h !! l2) ∧
      (is_Some (h !! l) → h' !! l = Some (load l h')) ∧
      fgrown s' cluster' (load l h') ∧
      ((s' = s + m ∧
        grow_loop adj_mat rnd l m t cluster h = (Ok cluster', h'))
       ∨ (s ≤ s' < s + m ∧
          any (get_neighbours cluster' (load l h') adj_mat) = false ∧
          grow_loop adj_mat rnd l m t cluster h = (Raise ClusterError, h'))).
Proof.
  induction m as [|m IH]; intros t s cluster h Hfg.
  - exists h, s, cluster. split_and!; [done| |done|left; split; [lia|done]].
    intros [a Ha]. unfold load. by rewrite Ha.
  - simpl. destruct (any (get_neighbours cluster (load l h) adj_mat)) eqn:Hany; simpl.
    2:{ exists h, s, cluster. split_and!; [done| |done|right; split_and!; [lia..|done|done]].
        intros [a Ha]. unfold load. by rewrite Ha. }
    destruct (frontier_pick t _ _ Hany) as (j & -> & Hj).
    destruct (frontier_grown_inv s cluster (load l h) Hfg)
      as (Hlc & Hla & _ & _ & _ & _).
    apply get_neighbours_true in Hj as Hfree.
    apply lookup_lt_Some in Hfree as Hlt.
    unfold set_true. rewrite !decide_True by lia.
    destruct (IH (S t) (S s) (<[j:=true]> cluster)
                (<[l:=<[j:=true]> (load l h)]> h))
      as (h' & s' & cluster' & Hframe & Hl & Hfg' & Hres).
    { rewrite load_insert. by apply fg_step. }
    exists h', s', cluster'. split_and!.
    + intros l2 Hl2. rewrite Hframe by done. by rewrite lookup_insert_ne.
    + intros _. apply Hl. rewrite lookup_insert_eq. done.
    + done.
    + destruct Hres as [[-> Hrun]|(Hs' & Hempty & Hrun)].
      * left. split; [lia|done].
      * right. split_and!; [lia..|done|done].
Qed.

(** What the function does once [already_in_cluster] names the array at
    [l], which holds [occupied] on entry. *)
Lemma grow_cluster_from_spec (k : Z) (h : heap) :
  h !! l = Some occupied →
  (sites_free n_objects (nonzero occupied) = [] ∧
   grow_cluster_from n_objects adj_mat rnd k l h = (Raise ClusterError, h))
  ∨ (sites_free n_objects (nonzero occupied) ≠ [] ∧
     ∃ (h' : heap) (s : nat) (cluster : list bool),
       (∀ l2, l2 ≠ l → h' !! l2 = h !! l2) ∧
       h' !! l = Some (mask_union occupied cluster) ∧
       fgrown s cluster (mask_union occupied cluster) ∧
       ((s = S (Z.to_nat (k - 1)) ∧
         grow_cluster_from n_objects adj_mat rnd k l h = (Ok (cluster, l), h'))
        ∨ (s < S (Z.to_nat (k - 1)) ∧
           any (get_neighbours cluster (mask_union occupied cluster) adj_mat) = false ∧
           grow_cluster_from n_objects adj_mat rnd k l h = (Raise ClusterError, h')))).
Proof.
  intros Hl. unfold grow_cluster_from.
  assert (Hload : load l h = occupied) by (unfold load; by rewrite Hl).
  rewrite Hload.
  destruct (random_pick (rnd 0) (sites_free n_objects (nonzero occupied)))
    as [i|] eqn:Hpick.
  2:{ left. split; [|done]. by apply random_pick_None in Hpick. }
  right. split.
  { intros Hnil. by rewrite Hnil in Hpick. }
  apply random_pick_elem in Hpick. apply elem_of_sites_free in Hpick; [|done].
  apply lookup_lt_Some in Hpick as Hlt.
  unfold set_true. rewrite !decide_True
    by (unfold zeros; rewrite ?length_replicate; lia).
  destruct (grow_loop_spec (Z.to_nat (k - 1)) 1 1
              (<[i:=true]> (zeros n_objects)) (<[l:=<[i:=true]> occupied]> h))
    as (h' & s & cluster & Hframe & Hl' & Hfg & Hres).
  { rewrite load_insert. by apply fg_seed. }
  destruct (frontier_grown_inv s cluster (load l h') Hfg)
    as (_ & _ & _ & _ & Hunion & _).
  exists h', s, cluster. rewrite <- Hunion. split_and!.
  - intros l2 Hl2. rewrite Hframe by done. by rewrite lookup_insert_ne.
  - apply Hl'. rewrite lookup_insert_eq. done.
  - done.
  - destruct Hres as [[-> ->]|(Hs & Hempty & ->)].
    + left. done.
    + right. split_and!; [lia|done|done].
Qed.
End GrowClusterSpec.


(** C6.  For [k >= 1], a square adjacency matrix and an occupancy mask over
    the [n_objects] objects, [grow_cluster_of_size_k] has exactly two
    outcomes.  Either it returns a cluster of exactly [k] objects, none of
    them occupied on entry, that grew along the edges of the graph: it
    started from a free seed, and each of the [k - 1] further objects was,
    when it was added, free, outside the cluster and adjacent to a member of
    the cluster ([grown_along_edges]).  Or it raises [ClusterError], and
    then either no object was free for a seed, or the cluster that the run
    has built, of fewer than [k] objects, grew in that way and has no such
    object left: no free object outside it is adjacent to a member.  That
    cluster is the one the run leaves marked in the array of the
    argument. *)
Theorem grow_cluster_of_size_k_frontier_or_error
    (n_objects : nat) (adj_mat : list (list bool)) (rnd : nat → nat) (k : Z)
    (already_in_cluster : option loc) (h : heap) (occupied : list bool) :
  (1 ≤ k)%Z →
  length adj_mat = n_objects →
  Forall (λ row, length row = n_objects) adj_mat →
  entry_mask n_objects already_in_cluster h = Some occupied →
  length occupied = n_objects →
  (∃ (cluster : list bool) (h' : heap),
      grow_cluster_of_size_k n_objects adj_mat rnd k already_in_cluster h
        = (Ok (cluster, argument_loc already_in_cluster h), h') ∧
      sites_free n_objects (nonzero occupied) ≠ [] ∧
      length cluster = n_objects ∧
      count_true cluster = Z.to_nat k ∧
      (∀ i, cluster !! i = Some true → occupied !! i = Some false) ∧
      grown_along_edges n_objects adj_mat occupied (Z.to_nat k) cluster ∧
      h' !! argument_loc already_in_cluster h
      = Some (mask_union occupied cluster))
  ∨ (∃ h' : heap,
      grow_cluster_of_size_k n_objects adj_mat rnd k already_in_cluster h
        = (Raise ClusterError, h') ∧
      ((sites_free n_objects (nonzero occupied) = [] ∧
        h' !! argument_loc already_in_cluster h = Some occupied)
       ∨ ∃ (s : nat) (cluster : list bool),
           s < Z.to_nat k ∧
           sites_free n_objects (nonzero occupied) ≠ [] ∧
           count_true cluster = s ∧
           grown_along_edges n_objects adj_mat occupied s cluster ∧
           (∀ j, ¬ in_frontier adj_mat occupied cluster j) ∧
           h' !! argument_loc already_in_cluster h
           = Some (mask_union occupied cluster))).
Proof.
  intros Hk _ _ Hentry Hlen.
  assert (Hcore : ∀ l h0, h0 !! l = Some occupied →
    (∃ (cluster : list bool) (h' : heap),
        grow_cluster_from n_objects adj_mat rnd k l h0 = (Ok (cluster, l), h') ∧
        sites_free n_objects (nonzero occupied) ≠ [] ∧
        length cluster = n_objects ∧
        count_true cluster = Z.to_nat k ∧
        (∀ i, cluster !! i = Some true → occupied !! i = Some false) ∧
        grown_along_edges n_objects adj_mat occupied (Z.to_nat k) cluster ∧
        h' !! l = Some (mask_union occupied cluster))
    ∨ (∃ h' : heap,
        grow_cluster_from n_objects adj_mat rnd k l h0 = (Raise ClusterError, h') ∧
        ((sites_free n_objects (nonzero occupied) = [] ∧
          h' !! l = Some occupied)
         ∨ ∃ (s : nat) (cluster : list bool),
             s < Z.to_nat k ∧
             sites_free n_objects (nonzero occupied) ≠ [] ∧
             count_true cluster = s ∧
             grown_along_edges n_objects adj_mat occupied s cluster ∧
             (∀ j, ¬ in_frontier adj_mat occupied cluster j) ∧
             h' !! l = Some (mask_union occupied cluster)))).
  { intros l h0 Hl.
    destruct (grow_cluster_from_spec n_objects adj_mat occupied Hlen rnd l k h0 Hl)
      as [[Hnil Hrun]|(Hfree & h' & s & cluster & _ & Hl' & Hfg & Hres)].
    - right. exists h0. split; [done|]. by left.
    - replace (S (Z.to_nat (k - 1))) with (Z.to_nat k) in Hres by lia.
      destruct (frontier_grown_inv n_objects adj_mat occupied Hlen s cluster _ Hfg)
        as (Hlc & _ & Hcount & _ & _ & Hdisj).
      pose proof (frontier_grown_along_edges n_objects adj_mat occupied Hlen
                    s cluster _ Hfg) as Hedges.
      destruct Hres as [[-> Hrun]|(Hs & Hempty & Hrun)].
      + left. exists cluster, h'. done.
      + right. exists h'. split; [done|]. right. exists s, cluster.
        split_and!; [done..| |done].
        by apply empty_frontier. }
  destruct already_in_cluster as [l|]; simpl in *.
  - by apply Hcore.
  - injection Hentry as <-. apply Hcore. by rewrite lookup_insert_eq.
Qed.

(** C10.  [grow_cluster_of_size_k] writes into the array it is given.  No
    other array of the store changes.  On return the second component is the
    location that was passed in, and the array there is the mask on entry
    united with the returned cluster; the cluster holds at least the seed
    and only objects that were free, so the array has changed: it differs
    from the mask on entry exactly in the objects of the cluster.  When
    [ClusterError] is raised although a seed was available, the array there
    is the mask on entry united with the cluster built before the failure,
    which holds at least the seed: it differs from the mask on entry. *)
Theorem grow_cluster_of_size_k_marks_argument
    (n_objects : nat) (adj_mat : list (list bool)) (rnd : nat → nat) (k : Z)
    (l : loc) (h : heap) (occupied : list bool) :
  length adj_mat = n_objects →
  Forall (λ row, length row = n_objects) adj_mat →
  h !! l = Some occupied →
  length occupied = n_objects →
  ∃ h' : heap,
    (grow_cluster_of_size_k n_objects adj_mat rnd k (Some l) h).2 = h' ∧
    (∀ l2, l2 ≠ l → h' !! l2 = h !! l2) ∧
    ((∃ cluster : list bool,
        (grow_cluster_of_size_k n_objects adj_mat rnd k (Some l) h).1
          = Ok (cluster, l) ∧
        h' !! l = Some (mask_union occupied cluster) ∧
        length cluster = n_objects ∧
        count_true cluster = S (Z.to_nat (k - 1)) ∧
        (∀ i, cluster !! i = Some true → occupied !! i = Some false) ∧
        mask_union occupied cluster ≠ occupied)
     ∨ ((grow_cluster_of_size_k n_objects adj_mat rnd k (Some l) h).1
          = Raise ClusterError ∧
        sites_free n_objects (nonzero occupied) = [] ∧ h' = h)
     ∨ ((grow_cluster_of_size_k n_objects adj_mat rnd k (Some l) h).1
          = Raise ClusterError ∧
        ∃ (s : nat) (cluster : list bool),
          frontier_grown n_objects adj_mat occupied s cluster
            (mask_union occupied cluster) ∧
          1 ≤ count_true cluster ∧
          h' !! l = Some (mask_union occupied cluster) ∧
          mask_union occupied cluster ≠ occupied)).
Proof.
  intros _ _ Hl Hlen. simpl.
  destruct (grow_cluster_from_spec n_objects adj_mat occupied Hlen rnd l k h Hl)
    as [[Hnil Hrun]|(Hfree & h' & s & cluster & Hframe & Hl' & Hfg & Hres)].
  - exists h. rewrite Hrun. split_and!; [done..|]. right. left. done.
  - exists h'.
    destruct (frontier_grown_inv n_objects adj_mat occupied Hlen s cluster _ Hfg)
      as (Hlc & _ & Hcount & Hs1 & _ & Hdisj).
    assert (Hchanged : mask_union occupied cluster ≠ occupied).
    { apply mask_union_changes; [lia|done]. }
    destruct Hres as [[-> Hrun]|(Hs & Hempty & Hrun)]; rewrite Hrun.
    + split_and!; [done..|]. left. exists cluster. done.
    + split_and!; [done..|]. right. right. split; [done|].
      exists s, cluster. split_and!; [done|lia|done|done].
Qed.

(** The scenario of the specification: ten objects on a path graph, a
    cluster of size three grown from a seed in the middle. *)
Example grow_cluster_path_graph :
  (grow_cluster_of_size_k 10 (path_graph 10) (λ t, 5 + t) 3 (Some 0)
     {[ 0 := zeros 10 ]}).1
  = Ok ([false; false; false; false; true; true; true; false; false; false], 0).
Proof. vm_compute. reflexivity. Qed.

(** Three objects cannot hold a cluster of four: the frontier runs empty, and
    the array of the caller keeps the three marks. *)
Example grow_cluster_frontier_empty :
  let r := grow_cluster_of_size_k 3 (path_graph 3) (λ t, 1) 4 (Some 0)
             {[ 0 := zeros 3 ]} in
  r.1 = Raise ClusterError ∧ r.2 !! 0 = Some [true; true; true].
Proof. vm_compute. split; reflexivity. Qed.

Lemma grow_cluster_of_size_k_frontier_or_error_witness :
  (∃ (cluster : list bool) (h' : heap),
      grow_cluster_of_size_k 10 (path_graph 10) (λ t, 5 + t) 3 (Some 0)
        {[ 0 := zeros 10 ]}
      = (Ok (cluster, argument_loc (Some 0) {[ 0 := zeros 10 ]}), h') ∧
      sites_free 10 (nonzero (zeros 10)) ≠ [] ∧
      length cluster = 10 ∧
      count_true cluster = Z.to_nat 3 ∧
      (∀ i, cluster !! i = Some true → zeros 10 !! i = Some false) ∧
      grown_along_edges 10 (path_graph 10) (zeros 10) (Z.to_nat 3) cluster ∧
      h' !! argument_loc (Some 0) {[ 0 := zeros 10 ]}
      = Some (mask_union (zeros 10) cluster))
  ∨ (∃ h' : heap,
      grow_cluster_of_size_k 10 (path_graph 10) (λ t, 5 + t) 3 (Some 0)
        {[ 0 := zeros 10 ]} = (Raise ClusterError, h') ∧
      ((sites_free 10 (nonzero (zeros 10)) = [] ∧
        h' !! argument_loc (Some 0) {[ 0 := zeros 10 ]} = Some (zeros 10))
       ∨ ∃ (s : nat) (cluster : list bool),
           s < Z.to_nat 3 ∧
           sites_free 10 (nonzero (zeros 10)) ≠ [] ∧
           count_true cluster = s ∧
           grown_along_edges 10 (path_graph 10) (zeros 10) s cluster ∧
           (∀ j, ¬ in_frontier (path_graph 10) (zeros 10) cluster j) ∧
           h' !! argument_loc (Some 0) {[ 0 := zeros 10 ]}
           = Some (mask_union (zeros 10) cluster))).
Proof.
  apply (grow_cluster_of_size_k_frontier_or_error 10 (path_graph 10)
           (λ t, 5 + t) 3 (Some 0) {[ 0 := zeros 10 ]} (zeros 10)).
  - lia.
  - reflexivity.
  - repeat constructor.
  - reflexivity.
  - reflexivity.
Defined.

Lemma grow_cluster_of_size_k_marks_argument_witness :
  ∃ h' : heap,
    (grow_cluster_of_size_k 3 (path_graph 3) (λ t, 1) 4 (Some 0)
       {[ 0 := zeros 3 ]}).2 = h' ∧
    (∀ l2, l2 ≠ 0 → h' !! l2 = ({[ 0 := zeros 3 ]} : heap) !! l2) ∧
    ((∃ cluster : list bool,
        (grow_cluster_of_size_k 3 (path_graph 3) (λ t, 1) 4 (Some 0)
           {[ 0 := zeros 3 ]}).1 = Ok (cluster, 0) ∧
        h' !! 0 = Some (mask_union (zeros 3) cluster) ∧
        length cluster = 3 ∧
        count_true cluster = S (Z.to_nat (4 - 1)) ∧
        (∀ i, cluster !! i = Some true → zeros 3 !! i = Some false) ∧
        mask_union (zeros 3) cluster ≠ zeros 3)
     ∨ ((grow_cluster_of_size_k 3 (path_graph 3) (λ t, 1) 4 (Some 0)
           {[ 0 := zeros 3 ]}).1 = Raise ClusterError ∧
        sites_free 3 (nonzero (zeros 3)) = [] ∧ h' = {[ 0 := zeros 3 ]})
     ∨ ((grow_cluster_of_size_k 3 (path_graph 3) (λ t, 1) 4 (Some 0)
           {[ 0 := zeros 3 ]}).1 = Raise ClusterError ∧
        ∃ (s : nat) (cluster : list bool),
          frontier_grown 3 (path_graph 3) (zeros 3) s cluster
            (mask_union (zeros 3) cluster) ∧
          1 ≤ count_true cluster ∧
          h' !! 0 = Some (mask_union (zeros 3) cluster) ∧
          mask_union (zeros 3) cluster ≠ zeros 3)).
Proof.
  apply (grow_cluster_of_size_k_marks_argument 3 (path_graph 3) (λ t, 1) 4 0
           {[ 0 := zeros 3 ]} (zeros 3)).
  - reflexivity.
  - repeat constructor.
  - reflexivity.
  - reflexivity.
Defined.

(** ** [grow]: the bounded retry *)

Section GrowSpec.
Context {Sample OpState Prob : Type}.
Variable grow_cluster : Sample → nat → OpState → (Sample * Prob * Prob) * OpState.
Variable Q_REJECT : Prob.
Variable q_ne : Prob → Prob → bool.

(** C8.  [grow] makes the one-step proposals one after the other, each on
    the sample the previous one returned.  There is a number [n] of
    rejected proposals, at most 20, such that either [n < 20], proposal
    [n] is the first one not rejected and [grow] returns its sample, the
    operator having been called [n + 1] times; or [n = 20], all twenty
    were rejected, and [grow] raises [ClusterError] after exactly twenty
    calls. *)
Theorem grow_bounded_retry (sample : Sample) (i_cluster : nat) (st : OpState) :
  ∃ n : nat,
    n ≤ 20 ∧
    (∀ j, j < n → rejected grow_cluster Q_REJECT q_ne j sample i_cluster st = true) ∧
    ((n < 20 ∧
      rejected grow_cluster Q_REJECT q_ne n sample i_cluster st = false ∧
      grow grow_cluster Q_REJECT q_ne sample i_cluster st =
        (Ok (proposals grow_cluster (S n) sample i_cluster st).1,
         (proposals grow_cluster (S n) sample i_cluster st).2))
     ∨ (n = 20 ∧
        grow grow_cluster Q_REJECT q_ne sample i_cluster st =
          (Raise ClusterError,
           (proposals grow_cluster 20 sample i_cluster st).2))).
Proof.
  unfold grow. generalize 20 as m. intros m. revert sample i_cluster st.
  induction m as [|m IH]; intros sample i_cluster st.
  - exists 0. split; [lia|]. split; [intros j Hj; lia|]. right. done.
  - destruct (grow_cluster sample i_cluster st) as [[[sample' q] q_back] st'] eqn:Hstep.
    destruct (q_ne q Q_REJECT) eqn:Hq.
    + exists 0. split; [lia|]. split; [intros j Hj; lia|]. left.
      split; [lia|]. unfold rejected. simpl. rewrite Hstep, Hq. done.
    + destruct (IH sample' i_cluster st') as (n & Hn & Hrej & Hres).
      exists (S n). split; [lia|]. split.
      * intros [|j] Hj.
        -- unfold rejected. simpl. by rewrite Hstep, Hq.
        -- specialize (Hrej j ltac:(lia)). unfold rejected in *. simpl.
           by rewrite Hstep.
      * destruct Hres as [(Hlt & Hacc & Hrun)|[-> Hrun]].
        -- left. split; [lia|]. split.
           ++ unfold rejected in *. simpl. by rewrite Hstep.
           ++ simpl. rewrite Hstep, Hq. simpl in Hrun. rewrite Hrun.
              by destruct (grow_cluster sample' i_cluster st') as [[[? ?] ?] ?].
        -- right. split; [done|]. simpl. by rewrite Hstep, Hq, Hrun.
Qed.
End GrowSpec.

(** An operator that counts its calls and rejects the first three proposals:
    [grow] returns after the fourth call. *)
Example grow_fourth_attempt :
  grow (λ (s : nat) (_ : nat) (calls : nat),
          ((S s, if decide (calls < 3) then 0%Z else 1%Z, 1%Z), S calls))
       0%Z (λ q r, negb (Z.eqb q r)) 0 0 0
  = (Ok 4, 4).
Proof. reflexivity. Qed.

(** An operator that always rejects: [grow] gives up after twenty calls. *)
Example grow_gives_up :
  grow (λ (s : nat) (_ : nat) (calls : nat), ((S s, 0%Z, 1%Z), S calls))
       0%Z (λ q r, negb (Z.eqb q r)) 0 0 0
  = (Raise ClusterError, 20).
Proof. reflexivity. Qed.

End InitializerSpec.

Module WeightsSpec.
Import Weights.

#[local] Open Scope Q_scope.

(** ** [np.unique] *)

Lemma elem_of_insert_unique (r y : list bool) (l : list (list bool)) :
  y ∈ insert_unique r l ↔ y = r ∨ y ∈ l.
Proof.
  induction l as [|x l IH]; simpl.
  - rewrite list_elem_of_singleton. split; [by left|].
    intros [?|?%elem_of_nil]; done.
  - case_decide as Hrx.
    + subst x. rewrite elem_of_cons. split; [by right|]. intros [->|?]; auto.
    + destruct (row_ltb r x).
      * by rewrite elem_of_cons.
      * rewrite !elem_of_cons, IH. split.
        -- intros [?|[?|?]]; auto.
        -- intros [?|[?|?]]; auto.
Qed.

Lemma elem_of_unique_rows (r : list bool) (rows : list (list bool)) :
  r ∈ rows → r ∈ foldr insert_unique [] rows.
Proof.
  induction rows as [|x rows IH]; [done|]. simpl.
  rewrite elem_of_cons, elem_of_insert_unique. intros [?|?]; auto.
Qed.

Lemma index_of_lookup (r : list bool) (l : list (list bool)) :
  r ∈ l → l !! index_of r l = Some r.
Proof.
  induction l as [|x l IH]; [by intros ?%elem_of_nil|]. simpl.
  intros Hr. case_decide as Hrx; [by subst|].
  apply elem_of_cons in Hr as [?|?]; [done|]. by apply IH.
Qed.

(** The inverse mapping of [np.unique] leads every row back to itself. *)
Lemma np_unique_inverse (rows : list (list bool)) (o : nat) (r : list bool) :
  rows !! o = Some r →
  ∃ i, (np_unique rows).2 !! o = Some i ∧ (np_unique rows).1 !! i = Some r.
Proof.
  intros Ho. unfold np_unique. simpl. exists (index_of r (foldr insert_unique [] rows)).
  split.
  - by rewrite list_lookup_fmap, Ho.
  - apply index_of_lookup, elem_of_unique_rows. by eapply list_elem_of_lookup_2.
Qed.

(** ** [normalize_weights] *)

Lemma normalize_weights_lookup (weights : list (list Q))
    (has_components : list (list bool)) (o : nat) (r : list bool) :
  has_components !! o = Some r →
  normalize_weights weights has_components !! o
  = Some (map (λ w, divide_by_sum (mask_weights r w)) weights).
Proof.
  intros Ho. unfold normalize_weights.
  destruct (np_unique_inverse has_components o r Ho) as (i & Hinv & Hpat).
  destruct (np_unique has_components) as [pattern pattern_inv]. simpl in *.
  rewrite list_lookup_fmap, Hinv. simpl. f_equal.
  apply list_lookup_total_correct. by rewrite list_lookup_fmap, Hpat.
Qed.

(** Sharing the patterns does not change the result: the function computes
    what the per-site computation computes. *)
Lemma normalize_weights_per_site_eq (weights : list (list Q))
    (has_components : list (list bool)) :
  normalize_weights weights has_components
  = normalize_weights_per_site weights has_components.
Proof.
  apply list_eq. intros o. unfold normalize_weights_per_site.
  rewrite list_lookup_fmap.
  destruct (has_components !! o) as [r|] eqn:Ho.
  - by rewrite (normalize_weights_lookup _ _ _ _ Ho).
  - apply lookup_ge_None. apply lookup_ge_None in Ho.
    unfold normalize_weights, np_unique. by rewrite !length_map.
Qed.

(** ** Sums of rationals *)

Lemma foldl_Qplus (a : Q) (l : list Q) : foldl Qplus a l == a + sum_Q l.
Proof.
  unfold sum_Q. revert a. induction l as [|x l IH]; intros a; simpl.
  - ring.
  - rewrite (IH (a + x)), (IH (0 + x)). ring.
Qed.

Lemma sum_Q_cons (x : Q) (l : list Q) : sum_Q (x :: l) == x + sum_Q l.
Proof. unfold sum_Q at 1. simpl. rewrite foldl_Qplus. ring. Qed.

Lemma sum_Q_nonneg (l : list Q) : Forall (λ x, 0 <= x) l → 0 <= sum_Q l.
Proof.
  induction 1 as [|x l Hx _ IH]; [done|]. rewrite sum_Q_cons.
  replace 0 with (0 + 0) by done. by apply Qplus_le_compat.
Qed.

Lemma sum_Q_pos (l : list Q) (c : nat) (x : Q) :
  Forall (λ x, 0 <= x) l → l !! c = Some x → 0 < x → 0 < sum_Q l.
Proof.
  intros Hl. revert c. induction Hl as [|y l Hy Hl IH]; intros c Hc Hx; [done|].
  rewrite sum_Q_cons. destruct c as [|c]; simpl in Hc.
  - injection Hc as ->. apply sum_Q_nonneg in Hl.
    apply Qlt_le_trans with (x + 0); [by rewrite Qplus_0_r|].
    by apply Qplus_le_compat; [apply Qle_refl|].
  - specialize (IH c Hc Hx).
    apply Qlt_le_trans with (0 + sum_Q l); [by rewrite Qplus_0_l|].
    by apply Qplus_le_compat; [|apply Qle_refl].
Qed.

Lemma sum_Q_div (s : Q) (l : list Q) :
  sum_Q (map (λ x, x / s) l) == sum_Q l / s.
Proof.
  induction l as [|x l IH]; simpl.
  - unfold sum_Q. simpl. unfold Qdiv. ring.
  - rewrite !sum_Q_cons, IH. unfold Qdiv. ring.
Qed.

Lemma normalize_row_sums_to_one (w : list Q) :
  0 < sum_Q w → sums_to_one (normalize_row w).
Proof.
  intros Hs. exists (map (λ x, x / sum_Q w) w). split.
  - unfold normalize_row, fdiv. rewrite map_map.
    destruct (Qeq_bool (sum_Q w) 0) eqn:Hz; [|done].
    apply Qeq_bool_eq in Hz. rewrite Hz in Hs. by apply Qlt_irrefl in Hs.
  - rewrite sum_Q_div. apply Qmult_inv_r. intros Hz. rewrite Hz in Hs.
    by apply Qlt_irrefl in Hs.
Qed.

Lemma mask_weights_nonneg (r : list bool) (w : list Q) :
  Forall (λ x, 0 <= x) w → Forall (λ x, 0 <= x) (mask_weights r w).
Proof.
  intros Hw. unfold mask_weights. revert r.
  induction Hw as [|x w Hx _ IH]; intros [|b r]; simpl; try done.
  constructor; [|apply IH]. apply Qmult_le_0_compat; [by destruct b|done].
Qed.

Lemma mask_weights_active (r : list bool) (w : list Q) (c : nat) (x : Q) :
  r !! c = Some true → w !! c = Some x →
  mask_weights r w !! c = Some (b2q true * x).
Proof. intros Hr Hw. unfold mask_weights. by rewrite lookup_zip_with, Hr, Hw. Qed.

Lemma sum_Q_mask_weights_le (r : list bool) (w : list Q) :
  Forall (λ x, 0 <= x) w → sum_Q (mask_weights r w) <= sum_Q w.
Proof.
  intros Hw. revert r. induction Hw as [|x w Hx Hw IH]; intros [|b r].
  - apply Qle_refl.
  - apply Qle_refl.
  - cbn [mask_weights zip_with]. apply (sum_Q_nonneg (x :: w)). by constructor.
  - cbn [mask_weights zip_with]. rewrite !sum_Q_cons.
    apply Qplus_le_compat; [|apply IH].
    destruct b; cbn; [rewrite Qmult_1_l; apply Qle_refl|].
    by rewrite Qmult_0_l.
Qed.

Lemma overflows_mono (s t : Q) :
  0 <= s → s <= t → overflows t = false → overflows s = false.
Proof.
  unfold overflows. intros Hs Hst Ht.
  destruct (Qle_bool _ (Qabs s)) eqn:Hb; [|done].
  apply Qle_bool_iff in Hb. rewrite Qabs_pos in Hb by done.
  assert (Hov : Qle_bool (inject_Z (2 ^ 1024 - 2 ^ 970)) (Qabs t) = true).
  { apply Qle_bool_iff. rewrite Qabs_pos by (by eapply Qle_trans).
    by eapply Qle_trans. }
  congruence.
Qed.

Lemma divide_by_sum_finite (w : list Q) :
  0 < sum_Q w → overflows (sum_Q w) = false →
  divide_by_sum w = map (λ x, Some (x / sum_Q w)) w.
Proof.
  intros Hs Hov. unfold divide_by_sum, fdiv_sum, fdiv. rewrite Hov.
  destruct (Qeq_bool (sum_Q w) 0) eqn:Hz; [|done].
  apply Qeq_bool_eq in Hz. rewrite Hz in Hs. by apply Qlt_irrefl in Hs.
Qed.

Lemma divide_by_sum_renormalised (r : list bool) (w : list Q) :
  length r = length w →
  Forall (λ x, 0 <= x) w →
  overflows (sum_Q w) = false →
  (∃ (c : nat) (x : Q), r !! c = Some true ∧ w !! c = Some x ∧ 0 < x) →
  renormalised r w (divide_by_sum (mask_weights r w)).
Proof.
  intros Hlen Hnonneg Hfin (c0 & x0 & Hr0 & Hw0 & Hx0).
  assert (Hs : 0 < sum_Q (mask_weights r w)).
  { apply sum_Q_pos with c0 (b2q true * x0).
    - by apply mask_weights_nonneg.
    - by apply mask_weights_active.
    - simpl. by rewrite Qmult_1_l. }
  assert (Hov : overflows (sum_Q (mask_weights r w)) = false).
  { apply overflows_mono with (sum_Q w); [by apply Qlt_le_weak| |done].
    by apply sum_Q_mask_weights_le. }
  rewrite (divide_by_sum_finite _ Hs Hov). split_and!.
  - unfold mask_weights. rewrite length_map, length_zip_with. lia.
  - exists (map (λ x, x / sum_Q (mask_weights r w)) (mask_weights r w)).
    split; [by rewrite map_map|].
    rewrite sum_Q_div. apply Qmult_inv_r. intros Hz. rewrite Hz in Hs.
    by apply Qlt_irrefl in Hs.
  - exists (sum_Q (mask_weights r w)). split; [done|].
    intros c b x Hb Hx.
    exists (b2q b * x / sum_Q (mask_weights r w)). split.
    + assert (Hm : mask_weights r w !! c = Some (b2q b * x)).
      { unfold mask_weights. by rewrite lookup_zip_with, Hb, Hx. }
      by rewrite list_lookup_fmap, Hm.
    + assert (Hne : ¬ sum_Q (mask_weights r w) == 0).
      { intros Hz. rewrite Hz in Hs. by apply Qlt_irrefl in Hs. }
      destruct b; unfold b2q; cbv iota; field; exact Hne.
Qed.

(** C5, as amended.  For weights that are not negative (as the data model
    of the specification has them) and whose sum, for every feature, is in
    the range of the floats, and when every object has an active component
    of positive weight for every feature: two objects with the same row of
    [has_components] get the same normalised weights, and the weights of an
    object are, for every feature, the input weights masked by its row and
    divided by their sum, which makes them finite and sum to one. *)
Theorem normalize_weights_pattern_sharing (n_components : nat)
    (weights : list (list Q)) (has_components : list (list bool)) :
  Forall (λ w, length w = n_components) weights →
  Forall (λ r, length r = n_components) has_components →
  Forall (Forall (λ x, 0 <= x)) weights →
  finite_sums weights →
  active_positive weights has_components →
  pattern_sharing weights has_components.
Proof.
  intros Hlw Hlr Hnonneg Hfin Hactive. split_and!.
  - unfold normalize_weights, np_unique. by rewrite !length_map.
  - intros o1 o2 r H1 H2.
    by rewrite (normalize_weights_lookup _ _ _ _ H1),
               (normalize_weights_lookup _ _ _ _ H2).
  - intros o r Ho. eexists. split; [by apply normalize_weights_lookup|].
    split; [by rewrite length_map|].
    intros f w Hf. eexists. split; [by rewrite list_lookup_fmap, Hf|].
    assert (Hw : w ∈ weights) by (by eapply list_elem_of_lookup_2).
    apply divide_by_sum_renormalised.
    + eapply Forall_lookup_1 in Hlr; [|exact Ho].
      eapply Forall_lookup_1 in Hlw; [|exact Hf]. cbn in Hlr, Hlw. congruence.
    + by eapply Forall_lookup_1 in Hnonneg.
    + by eapply Forall_lookup_1 in Hfin.
    + by apply (Hactive o r w).
Qed.

Lemma normalize_weights_pattern_sharing_witness :
  pattern_sharing [[1#2; 1#2]; [1#4; 3#4]]
    [[true; false]; [true; true]; [true; false]].
Proof.
  apply (normalize_weights_pattern_sharing 2).
  - repeat constructor.
  - repeat constructor.
  - repeat constructor; discriminate.
  - repeat constructor.
  - intros o r w Ho Hw. exists 0%nat.
    assert (Hr : r !! 0%nat = Some true).
    { destruct o as [|[|[|o]]]; simpl in Ho; [by injection Ho as <-..|done]. }
    apply elem_of_cons in Hw as [->|Hw].
    + exists (1#2). done.
    + apply list_elem_of_singleton in Hw as ->. exists (1#4). done.
Defined.

(** The claim as the specification states it fails on weights of its data
    model, which are not negative, in two ways.

    A feature can have all its weight on components that an object does not
    have.  With the weights [1, 0] of one feature and [0, 1] of another, an
    object that has the first component only has an active component of
    positive weight; for the second feature its masked weights are all
    zero, and the division leaves the [nan] of 0/0.

    The sum of the weights of a feature can leave the range of the floats.
    With the weights [2^1023] and [2^1023] of two active components the sum
    is [inf], and the division leaves the weights 0 and 0, which do not sum
    to one. *)
Lemma normalize_weights_not_renormalised :
  (Forall (Forall (λ x, 0 <= x)) [[1; 0]; [0; 1]] ∧
   finite_sums [[1; 0]; [0; 1]] ∧
   some_active_positive [[1; 0]; [0; 1]] [[true; false]] ∧
   normalize_weights [[1; 0]; [0; 1]] [[true; false]]
   = [[[Some (1 / 1); Some (0 / 1)]; [None; None]]] ∧
   ¬ pattern_sharing [[1; 0]; [0; 1]] [[true; false]]) ∧
  (Forall (Forall (λ x, 0 <= x))
     [[inject_Z (2 ^ 1023); inject_Z (2 ^ 1023)]] ∧
   active_positive [[inject_Z (2 ^ 1023); inject_Z (2 ^ 1023)]]
     [[true; true]] ∧
   normalize_weights [[inject_Z (2 ^ 1023); inject_Z (2 ^ 1023)]]
     [[true; true]] = [[[Some 0; Some 0]]] ∧
   ¬ pattern_sharing [[inject_Z (2 ^ 1023); inject_Z (2 ^ 1023)]]
       [[true; true]]).
Proof.
  split; split_and!.
  - repeat constructor; discriminate.
  - repeat constructor.
  - intros o r Ho. destruct o as [|o]; [|done]. injection Ho as <-.
    exists [1; 0], 0%nat, 1. split_and!; [by left|done..].
  - vm_compute. reflexivity.
  - intros (_ & _ & Hnorm).
    destruct (Hnorm 0%nat [true; false] eq_refl) as (row & Hrow & _ & Hf).
    destruct (Hf 1%nat [0; 1] eq_refl) as (p & Hp & _ & (qs & Hqs & _) & _).
    vm_compute in Hrow. injection Hrow as <-. injection Hp as <-.
    destruct qs; discriminate.
  - repeat constructor; discriminate.
  - intros o r w Ho Hw. apply list_elem_of_singleton in Hw as ->.
    destruct o as [|o]; [|done]. injection Ho as <-.
    exists 0%nat, (inject_Z (2 ^ 1023)). done.
  - vm_compute. reflexivity.
  - intros (_ & _ & Hnorm).
    destruct (Hnorm 0%nat [true; true] eq_refl) as (row & Hrow & _ & Hf).
    destruct (Hf 0%nat _ eq_refl) as (p & Hp & _ & (qs & Hqs & Hsum) & _).
    vm_compute in Hrow. injection Hrow as <-. injection Hp as <-.
    destruct qs as [|a [|b [|]]]; try discriminate.
    injection Hqs as <- <-. vm_compute in Hsum. discriminate.
Qed.

End WeightsSpec.

Module ResumeSpec.
Import Resume.

Lemma traverse_mapM {A B} (f : A → option B) (g : A → result B)
    (l : list A) (ys : list B) :
  (∀ x y, f x = Some y → g x = Ok y) →
  mapM f l = Some ys → traverse g l = Ok ys.
Proof.
  intros Hfg Hl. apply mapM_Some in Hl.
  induction Hl as [|x y l ys Hxy _ IH]; [done|].
  simpl. rewrite (Hfg x y Hxy). simpl. rewrite IH. done.
Qed.

Section LastSampleSpec.
Context {F Persisted Confounders Features : Type}.
Variable fzero : F.
Variable feature_names : list string.
Variable feature_values : Features.
Variable data_confounders : Confounders.
Variable shapes : ModelShapes.
Variable sample_source_from_prior :
  list (list bool) → list (list F) → Confounders → (nat → nat) →
  list (list (list bool)).
Variable count_features :
  Features → list (list bool) → Confounders → list (list (list bool)) →
  gmap string (list (list (list F))).

#[local] Abbreviation last_sample' :=
  (last_sample (Persisted:=Persisted) fzero feature_names feature_values
     data_confounders shapes sample_source_from_prior count_features).

Lemma dummy_feature_counts_zero (key : string) (counts : list (list (list F))) :
  dummy_feature_counts fzero shapes !! key = Some counts →
  Forall (Forall (Forall (λ x, x = fzero))) counts.
Proof.
  assert (Hz : ∀ a b c, Forall (Forall (Forall (λ x, x = fzero))) (zeros3 fzero a b c)).
  { intros a b c. unfold zeros3. do 3 (apply Forall_replicate). done. }
  unfold dummy_feature_counts. intros [H|[_ H]]%lookup_union_Some_raw.
  - apply lookup_fmap_Some in H as (n & <- & _). apply Hz.
  - apply lookup_singleton_Some in H as [_ <-]. apply Hz.
Qed.

(** The dictionary of count tensors that [last_sample] builds has a tensor
    of zeros of the group's shape for every confounder and for the clusters,
    and no other key. *)
Lemma dummy_feature_counts_confounder (conf : string) (n : nat) :
  n_groups shapes !! conf = Some n →
  dummy_feature_counts fzero shapes !! conf
  = Some (zeros3 fzero n (n_features shapes) (n_states shapes)).
Proof.
  intros Hn. unfold dummy_feature_counts.
  apply lookup_union_Some_l. by rewrite lookup_fmap, Hn.
Qed.

Lemma dummy_feature_counts_clusters :
  dummy_feature_counts fzero shapes !! "clusters"
  = Some (zeros3 fzero (default (n_clusters shapes) (n_groups shapes !! "clusters"))
            (n_features shapes) (n_states shapes)).
Proof.
  destruct (n_groups shapes !! "clusters") as [n|] eqn:Hn; simpl.
  - by apply dummy_feature_counts_confounder.
  - unfold dummy_feature_counts. rewrite lookup_union_r.
    + by rewrite lookup_singleton_eq.
    + by rewrite lookup_fmap, Hn.
Qed.

Lemma dummy_feature_counts_keys (key : string) :
  is_Some (dummy_feature_counts fzero shapes !! key) ↔
  key = "clusters" ∨ is_Some (n_groups shapes !! key).
Proof.
  split.
  - intros [counts [H|[_ H]]%lookup_union_Some_raw].
    + right. apply lookup_fmap_Some in H as (n & _ & Hn). by exists n.
    + left. by apply lookup_singleton_Some in H as [<- _].
  - intros [->|[n Hn]].
    + rewrite dummy_feature_counts_clusters. by eexists.
    + rewrite (dummy_feature_counts_confounder key n Hn). by eexists.
Qed.

(** C9.  Let a persisted result hold at least one sample, with last cluster
    assignment [cl], last weights [w] and last sample index [id].  Then
    [last_sample] returns the sample with clusters [cl], weights [w] and
    step [id + 1], whose source is the draw from the prior for [cl] and [w]
    and whose sufficient statistics are the counts recomputed from the data
    with that source.  The sample it starts from has the placeholder for
    source, and for its counts a dictionary that holds a tensor of zeros, of
    shape groups x features x states, under ['clusters'] and under every
    confounder (a confounder named ['clusters'] gives the shape), and
    nothing under any other key.  Nothing else of the persisted result and
    nothing of the placeholder reaches the sample: two results with the same
    [cl], [w] and [id] give the same sample, whatever the placeholders
    hold. *)
Theorem last_sample_rebuilds_from_clusters_and_weights
    (results : Results) (dummy_source : list (list (list bool)))
    (rnd : nat → nat)
    (cl : list (list bool)) (w : list (list F)) (id : Z) :
  persisted_state feature_names results = Some (cl, w, id) →
  let src := sample_source_from_prior cl w data_confounders rnd in
  last_sample' results dummy_source rnd
  = Ok {| clusters := cl; weights := w; confounders := data_confounders;
          source := src;
          feature_counts := count_features feature_values cl data_confounders src;
          model_shapes := shapes; i_step := id + 1 |}
  ∧ last_sample' results dummy_source rnd
    = Ok (recalculate_feature_counts count_features feature_values
            (impute_source sample_source_from_prior
               (set_i_step (id + 1)
                  (from_numpy_arrays cl w data_confounders dummy_source
                     (dummy_feature_counts fzero shapes) shapes)) rnd))
  ∧ source (from_numpy_arrays cl w data_confounders dummy_source
               (dummy_feature_counts fzero shapes) shapes) = dummy_source
  ∧ feature_counts (from_numpy_arrays cl w data_confounders dummy_source
                      (dummy_feature_counts fzero shapes) shapes)
    = dummy_feature_counts fzero shapes
  ∧ dummy_feature_counts fzero shapes !! "clusters"
    = Some (zeros3 fzero
              (default (n_clusters shapes) (n_groups shapes !! "clusters"))
              (n_features shapes) (n_states shapes))
  ∧ (∀ (conf : string) (n : nat),
        n_groups shapes !! conf = Some n →
        dummy_feature_counts fzero shapes !! conf
        = Some (zeros3 fzero n (n_features shapes) (n_states shapes)))
  ∧ (∀ key : string,
        is_Some (dummy_feature_counts fzero shapes !! key) ↔
        key = "clusters" ∨ is_Some (n_groups shapes !! key))
  ∧ (∀ key counts,
        dummy_feature_counts fzero shapes !! key = Some counts →
        Forall (Forall (Forall (λ x, x = fzero))) counts)
  ∧ (∀ (results' : Results) (dummy_source' : list (list (list bool))),
        persisted_state feature_names results' = Some (cl, w, id) →
        last_sample' results' dummy_source' rnd
        = last_sample' results dummy_source rnd).
Proof.
  intros Hstate src.
  assert (Hrun : ∀ (r : Results) (d : list (list (list bool))),
    persisted_state feature_names r = Some (cl, w, id) →
    last_sample' r d rnd
    = Ok {| clusters := cl; weights := w; confounders := data_confounders;
            source := src;
            feature_counts := count_features feature_values cl data_confounders src;
            model_shapes := shapes; i_step := id + 1 |}).
  { intros r d Hr. unfold persisted_state in Hr.
    destruct (mapM last (r_clusters r)) as [cl'|] eqn:Hcl; [|done].
    simpl in Hr.
    destruct (mapM (λ f, r_weights r !! f ≫= last) feature_names)
      as [w'|] eqn:Hw; [|done].
    simpl in Hr.
    destruct (last (r_sample_id r)) as [id'|] eqn:Hid; [|done].
    simpl in Hr. injection Hr as -> -> ->.
    unfold last_sample.
    rewrite (traverse_mapM last _ _ cl); [|by intros x y ->|done]. simpl.
    rewrite (traverse_mapM (λ f, r_weights r !! f ≫= last) _ _ w); [| |done].
    2:{ intros f y Hf. destruct (r_weights r !! f) as [ws|]; [|done].
        simpl in *. by rewrite Hf. }
    simpl. rewrite Hid. done. }
  split_and!.
  - by apply Hrun.
  - by rewrite Hrun.
  - reflexivity.
  - reflexivity.
  - apply dummy_feature_counts_clusters.
  - apply dummy_feature_counts_confounder.
  - apply dummy_feature_counts_keys.
  - apply dummy_feature_counts_zero.
  - intros results' dummy_source' Hstate'. by rewrite !Hrun.
Qed.

End LastSampleSpec.

(** A persisted run of two samples with one cluster over three sites, one
    feature and one confounder of two groups; the source drawn from the
    prior puts every observation on the first component and the counts are
    left empty. *)
Lemma last_sample_rebuilds_from_clusters_and_weights_witness :
  let results := {| r_clusters := [[[true; false; false]; [true; true; false]]];
                    r_weights := {[ "f1" := [[1%Z; 1%Z]; [3%Z; 1%Z]] ]};
                    r_sample_id := [10%Z; 20%Z];
                    r_rest := tt |} in
  let shapes := {| n_sites := 3; n_features := 1; n_states := 2;
                   n_clusters := 1; n_components := 2;
                   n_groups := {[ "family" := 2 ]} |} in
  let prior := λ (cl : list (list bool)) (w : list (list Z)) (_ : unit)
                 (_ : nat → nat), replicate 3 [[true; false]] in
  let count := λ (_ : unit) (cl : list (list bool)) (_ : unit)
                 (_ : list (list (list bool))),
                 (∅ : gmap string (list (list (list Z)))) in
  last_sample 0%Z ["f1"] tt tt shapes prior count results [] (λ _, 0)
  = Ok {| clusters := [[true; true; false]]; weights := [[3%Z; 1%Z]];
          confounders := tt; source := replicate 3 [[true; false]];
          feature_counts := ∅; model_shapes := shapes; i_step := 21 |}.
Proof.
  intros results shapes prior count.
  refine (proj1 (last_sample_rebuilds_from_clusters_and_weights 0%Z ["f1"] tt tt
                   shapes prior count results [] (λ _, 0)
                   [[true; true; false]] [[3%Z; 1%Z]] 20%Z _)).
  vm_compute. reflexivity.
Defined.

End ResumeSpec.

Module LikelihoodSpec.
Import Likelihood.

(** ** Computations that can raise *)

(** Case analysis on the computation that a sequence runs first. *)
Ltac case_bind :=
  unfold mbind, result_bind;
  match goal with
  | |- context [match ?x with Ok _ => _ | Raise _ => _ end] =>
      lazymatch x with
      | context [match _ with Ok _ => _ | Raise _ => _ end] => fail
      | _ => destruct x eqn:?; cbv beta; try done
      end
  end.

(** Inversion of a sequence that returned. *)
Ltac inv_result H :=
  unfold mbind, result_bind in H;
  repeat match type of H with
         | match ?x with _ => _ end = _ =>
             let E := fresh "E" in
             destruct x eqn:E; try discriminate H; cbv beta in H
         end.

Lemma for_each_ext_inv {S X} (P : S → Prop) (xs : list X)
    (body1 body2 : S → X → result S) (s : S) :
  P s →
  (∀ s x, P s → x ∈ xs →
     body1 s x = body2 s x ∧ ∀ s', body1 s x = Ok s' → P s') →
  for_each xs body1 s = for_each xs body2 s.
Proof.
  revert s. induction xs as [|x xs IH]; intros s Hs Hbody; [done|].
  simpl. destruct (Hbody s x Hs) as [Heq Hinv]; [by left|].
  rewrite <- Heq. destruct (body1 s x) as [s'|e]; [|done]. simpl.
  apply IH; [by apply Hinv|].
  intros s0 x0 Hs0 Hx0. apply Hbody; [done|by right].
Qed.

Lemma for_each_app {S X} (xs ys : list X) (body : S → X → result S) (s : S) :
  for_each (xs ++ ys) body s = s' ← for_each xs body s; for_each ys body s'.
Proof.
  revert s. induction xs as [|x xs IH]; intros s; [done|].
  simpl. destruct (body s x); [|done]. simpl. apply IH.
Qed.

Lemma traverse_ext {A B} (f g : A → result B) (l : list A) :
  (∀ x, x ∈ l → f x = g x) → traverse f l = traverse g l.
Proof.
  induction l as [|x l IH]; intros Hfg; [done|].
  simpl. rewrite Hfg by by left. rewrite IH; [done|].
  intros y Hy. apply Hfg. by right.
Qed.

Lemma setitem_Ok {A} (a : list A) (i : nat) (v : A) :
  i < length a → setitem a i v = Ok (<[i:=v]> a).
Proof. intros. unfold setitem. by rewrite decide_True. Qed.

Lemma setitem_inv {A} (a a' : list A) (i : nat) (v : A) :
  setitem a i v = Ok a' → i < length a ∧ a' = <[i:=v]> a.
Proof. unfold setitem. case_decide; [|done]. by intros [= <-]. Qed.

Lemma getitem_Ok {A} (a : list A) (i : nat) (x : A) :
  a !! i = Some x → getitem a i = Ok x.
Proof. intros Hx. unfold getitem. by rewrite Hx. Qed.

Section EngineSpec.
Context `{Float F, FeatureCounts F}.

(** ** The loop bodies compute the closed form of a row *)

(** The inner loop of the Poisson and the normal engines accumulates in
    [lh[i]] what the closed form accumulates in a local sum. *)
Lemma accumulate_in_place (term : nat → result F) (i : nat) :
  ∀ (fs : list nat) (lh : list F) (acc : F),
    lh !! i = Some acc →
    for_each fs (λ lh f, t ← term f; lh_i ← getitem lh i;
                         setitem lh i (fadd lh_i t)) lh
    = r ← for_each fs (λ acc f, t ← term f; Ok (fadd acc t)) acc;
      Ok (<[i:=r]> lh).
Proof.
  induction fs as [|f fs IH]; intros lh acc Hi; simpl.
  - by rewrite list_insert_id.
  - destruct (term f) as [t|e]; simpl; [|done].
    rewrite (getitem_Ok _ _ _ Hi). simpl.
    rewrite setitem_Ok by by eapply lookup_lt_Some. simpl.
    rewrite (IH _ (fadd acc t)).
    + destruct (for_each fs _ (fadd acc t)); simpl; [|done].
      by rewrite list_insert_insert_eq.
    + apply list_lookup_insert_eq. by eapply lookup_lt_Some.
Qed.

(** The indices that [what_changed] reports are indices of dirty bits. *)
Lemma what_changed_lt {V} (key : string) (caching : bool) (c : CacheNode V) (i : nat) :
  i ∈ (what_changed key caching c).1 → i < length (dirty_bits c key).
Proof.
  unfold what_changed. destruct caching; simpl.
  - unfold nonzero. intros [_ ?%elem_of_seq]%list_elem_of_filter. lia.
  - intros ?%elem_of_seq. lia.
Qed.

Lemma what_changed_value {V} (key : string) (caching : bool) (c : CacheNode V) :
  value (what_changed key caching c).2 = value c.
Proof. unfold what_changed. by destruct caching. Qed.

(** Rewriting the loop over the changed rows, whose body keeps the length of
    the array. *)
Lemma refresh_rows_ext (row : nat → result F) (body : list F → nat → result (list F))
    (changed : list nat) (lh : list F) :
  (∀ i, i ∈ changed → i < length lh) →
  (∀ lh' i, i < length lh' → body lh' i = r ← row i; setitem lh' i r) →
  for_each changed body lh = refresh_rows row changed lh.
Proof.
  intros Hlt Hbody. unfold refresh_rows.
  apply (for_each_ext_inv (λ lh', length lh' = length lh)); [done|].
  intros lh' i Hlen Hi. specialize (Hlt i Hi).
  rewrite Hbody by lia. split; [done|].
  intros lh''. destruct (row i) as [r|e]; simpl; [|done].
  intros [_ ->]%setitem_inv. by rewrite length_insert.
Qed.

(** One row of an engine that accumulates over the features. *)
Lemma accumulated_row (group : result (list bool)) (n : nat)
    (body : list bool → list F → nat → result (list F))
    (term : list bool → nat → result F) (lh : list F) (i : nat) :
  i < length lh →
  (∀ g lh' f, i < length lh' →
     body g lh' f = t ← term g f; lh_i ← getitem lh' i; setitem lh' i (fadd lh_i t)) →
  (lh0 ← setitem lh i fzero; g ← group; for_each (seq 0 n) (body g) lh0)
  = r ← (g ← group; for_each (seq 0 n) (λ acc f, t ← term g f; Ok (fadd acc t)) fzero);
    setitem lh i r.
Proof.
  intros Hi Hbody. rewrite setitem_Ok by done. simpl.
  destruct group as [g|e]; simpl; [|done].
  rewrite (for_each_ext_inv (λ lh', length lh' = length lh) _ (body g)
             (λ lh' f, t ← term g f; lh_i ← getitem lh' i;
                       setitem lh' i (fadd lh_i t))).
  - rewrite (accumulate_in_place (term g) i _ _ fzero)
      by by apply list_lookup_insert_eq.
    destruct (for_each _ _ fzero) as [r|e]; simpl; [|done].
    rewrite setitem_Ok by done. by rewrite list_insert_insert_eq.
  - by rewrite length_insert.
  - intros lh' f Hlen _. rewrite Hbody by lia. split; [done|].
    intros lh''. destruct (term g f) as [t|e]; simpl; [|done].
    destruct (getitem lh' i) as [lh_i|e]; simpl; [|done].
    intros [_ ->]%setitem_inv. by rewrite length_insert.
Qed.

Lemma Poisson_compute_lh_refresh (self : Self F) (s : Sample F)
    (g : component) (caching : bool) (cell : CacheNode (list F)) :
  cell_of ft_poisson s g = Some cell →
  length (dirty_bits cell "sufficient_stats") ≤ length (value cell) →
  compute_lh LikelihoodPoisson self s g caching
  = refresh ft_poisson self s g caching cell.
Proof.
  intros Hcell Hlen. unfold cell_of in Hcell. simpl in Hcell.
  unfold refresh.
  pose proof (what_changed_lt "sufficient_stats" caching cell) as Hlt.
  pose proof (what_changed_value "sufficient_stats" caching cell) as Hval.
  destruct g as [|conf]; simpl in *.
  - unfold Poisson_compute_lh_clusters, getkey. rewrite Hcell. simpl.
    destruct (what_changed "sufficient_stats" caching cell) as [changed cell'].
    simpl in Hlt, Hval. rewrite Hval.
    rewrite (refresh_rows_ext (Poisson_row self s Clusters)); [done| |].
    + intros i Hi. specialize (Hlt i Hi). lia.
    + intros lh' i Hi. unfold Poisson_row.
      apply (accumulated_row (members s Clusters i) _ _
               (Poisson_term self s Clusters i)); [done|].
      intros cluster lh'' f Hi''. unfold Poisson_term. simpl.
      destruct (lookup_lt_is_Some_2 lh'' i Hi'') as [v Hv].
      rewrite (getitem_Ok _ _ _ Hv). repeat case_bind.
  - unfold Poisson_compute_lh_confounder, getkey. rewrite Hcell. simpl.
    destruct (what_changed "sufficient_stats" caching cell) as [changed cell'].
    simpl in Hlt, Hval. rewrite Hval.
    rewrite (refresh_rows_ext (Poisson_row self s (Conf conf))); [done| |].
    + intros i Hi. specialize (Hlt i Hi). lia.
    + intros lh' i Hi. unfold Poisson_row, members, getkey.
      destruct (confounders s !! conf) as [confounder|] eqn:Hconf; simpl.
      2:{ by rewrite setitem_Ok by done. }
      apply (accumulated_row (getitem (group_assignment confounder) i) _ _
               (Poisson_term self s (Conf conf) i)); [done|].
      intros cluster lh'' f Hi''. unfold Poisson_term. simpl. unfold getkey.
      destruct (lookup_lt_is_Some_2 lh'' i Hi'') as [v Hv].
      rewrite (getitem_Ok _ _ _ Hv). repeat case_bind.
Qed.

Lemma Normal_compute_lh_refresh (ft : FeatureType) (self : Self F)
    (s : Sample F) (g : component) (caching : bool) (cell : CacheNode (list F)) :
  ft = ft_gaussian ∨ ft = ft_logitnormal →
  cell_of ft s g = Some cell →
  length (dirty_bits cell "sufficient_stats") ≤ length (value cell) →
  compute_lh (engine_of ft) self s g caching = refresh ft self s g caching cell.
Proof.
  intros Hft Hcell Hlen. unfold cell_of in Hcell.
  assert (Hrow : row_of ft self s g = Normal_row ft self s g)
    by by destruct Hft as [-> | ->].
  assert (Hrun : compute_lh (engine_of ft) self s g caching
                 = match g with
                   | Clusters => Normal_compute_lh_clusters ft self s caching
                   | Conf conf => Normal_compute_lh_confounder ft self s conf caching
                   end) by by destruct Hft as [-> | ->].
  rewrite Hrun. clear Hrun. unfold refresh. rewrite Hrow. clear Hrow Hft.
  pose proof (what_changed_lt "sufficient_stats" caching cell) as Hlt.
  pose proof (what_changed_value "sufficient_stats" caching cell) as Hval.
  destruct g as [|conf]; simpl in *.
  - unfold Normal_compute_lh_clusters, getkey. rewrite Hcell. simpl.
    destruct (what_changed "sufficient_stats" caching cell) as [changed cell'].
    simpl in Hlt, Hval. rewrite Hval.
    rewrite (refresh_rows_ext (Normal_row ft self s Clusters)); [done| |].
    + intros i Hi. specialize (Hlt i Hi). lia.
    + intros lh' i Hi. unfold Normal_row.
      apply (accumulated_row (members s Clusters i) _ _
               (Normal_term ft self s Clusters i)); [done|].
      intros cluster lh'' f Hi''. unfold Normal_term. simpl.
      destruct (lookup_lt_is_Some_2 lh'' i Hi'') as [v Hv].
      rewrite (getitem_Ok _ _ _ Hv). repeat case_bind.
  - unfold Normal_compute_lh_confounder, getkey. rewrite Hcell. simpl.
    destruct (what_changed "sufficient_stats" caching cell) as [changed cell'].
    simpl in Hlt, Hval. rewrite Hval.
    rewrite (refresh_rows_ext (Normal_row ft self s (Conf conf))); [done| |].
    + intros i Hi. specialize (Hlt i Hi). lia.
    + intros lh' i Hi. unfold Normal_row, members, getkey.
      destruct (confounders s !! conf) as [confounder|] eqn:Hconf; simpl.
      2:{ by rewrite setitem_Ok by done. }
      apply (accumulated_row (getitem (group_assignment confounder) i) _ _
               (Normal_term ft self s (Conf conf) i)); [done|].
      intros cluster lh'' f Hi''. unfold Normal_term. simpl. unfold getkey.
      destruct (lookup_lt_is_Some_2 lh'' i Hi'') as [v Hv].
      rewrite (getitem_Ok _ _ _ Hv). repeat case_bind.
Qed.

Lemma Categorical_compute_lh_refresh (self : Self F) (s : Sample F)
    (g : component) (caching : bool) (cell : CacheNode (list F)) :
  cell_of ft_categorical s g = Some cell →
  preamble ft_categorical self s g →
  length (dirty_bits cell "sufficient_stats") ≤ length (value cell) →
  compute_lh LikelihoodCategorical self s g caching
  = refresh ft_categorical self s g caching cell.
Proof.
  intros Hcell [(cat & Hcat & [counts Hcounts]) Hprior] Hlen.
  unfold cell_of in Hcell. unfold refresh.
  pose proof (what_changed_lt "sufficient_stats" caching cell) as Hlt.
  pose proof (what_changed_value "sufficient_stats" caching cell) as Hval.
  destruct g as [|conf]; simpl in *.
  - unfold Categorical_compute_lh_clusters, getkey.
    rewrite Hcell, Hcat. simpl. rewrite Hcounts. simpl.
    destruct (what_changed "sufficient_stats" caching cell) as [changed cell'].
    simpl in Hlt, Hval. rewrite Hval.
    rewrite (refresh_rows_ext (Categorical_row self s Clusters)); [done| |].
    + intros i Hi. specialize (Hlt i Hi). lia.
    + intros lh' i Hi. unfold Categorical_row, getkey. simpl.
      rewrite Hcat. simpl. rewrite Hcounts. simpl. by case_bind.
  - destruct (Hprior conf eq_refl) as [p Hp].
    unfold Categorical_compute_lh_confounder, getkey.
    rewrite Hcell, Hcat. simpl. rewrite Hcounts. simpl. rewrite Hp. simpl.
    destruct (what_changed "sufficient_stats" caching cell) as [changed cell'].
    simpl in Hlt, Hval. rewrite Hval.
    rewrite (refresh_rows_ext (Categorical_row self s (Conf conf))); [done| |].
    + intros i Hi. specialize (Hlt i Hi). lia.
    + intros lh' i Hi. unfold Categorical_row, getkey. simpl.
      rewrite Hcat. simpl. rewrite Hcounts. simpl. rewrite Hp. simpl.
      repeat case_bind.
Qed.

(** Every engine follows the one protocol: [compute_lh_clusters] and
    [compute_lh_confounder] are the [refresh] of the cell of their component
    with the closed form of their rows. *)
Lemma compute_lh_refresh (ft : FeatureType) (self : Self F) (s : Sample F)
    (g : component) (caching : bool) (cell : CacheNode (list F)) :
  cell_of ft s g = Some cell →
  preamble ft self s g →
  length (dirty_bits cell "sufficient_stats") ≤ length (value cell) →
  compute_lh (engine_of ft) self s g caching = refresh ft self s g caching cell.
Proof.
  destruct ft; intros Hcell Hpre Hlen.
  - by apply Categorical_compute_lh_refresh.
  - apply Normal_compute_lh_refresh; auto.
  - by apply Poisson_compute_lh_refresh.
  - apply Normal_compute_lh_refresh; auto.
Qed.

(** ** The rows after an edit *)

Lemma traverse_Ok {A B} (f : A → result B) (l : list A) (ys : list B) :
  traverse f l = Ok ys →
  length ys = length l ∧
  ∀ k x, l !! k = Some x → ∃ y, f x = Ok y ∧ ys !! k = Some y.
Proof.
  revert ys. induction l as [|x l IH]; intros ys Hrun; simpl in Hrun.
  - injection Hrun as <-. split; [done|]. intros k x Hk. done.
  - inv_result Hrun. injection Hrun as <-.
    destruct (IH _ eq_refl) as [Hlen Hl]. split; [simpl; by rewrite Hlen|].
    intros [|k] x' Hk; simpl in *.
    + injection Hk as <-. eauto.
    + by apply Hl.
Qed.

Lemma refresh_rows_after (row : nat → result F) (changed : list nat)
    (lh : list F) :
  (∀ i, i ∈ changed → i < length lh ∧ ∃ r, row i = Ok r) →
  ∃ lh', refresh_rows row changed lh = Ok lh' ∧ rows_after row changed lh lh'.
Proof.
  unfold refresh_rows, rows_after. revert lh.
  induction changed as [|i changed IH]; intros lh Hchanged; simpl.
  - exists lh. split_and!; [done..| |done]. by intros i ?%elem_of_nil.
  - destruct (Hchanged i) as [Hi [r Hr]]; [by left|].
    rewrite Hr. simpl. rewrite setitem_Ok by done. simpl.
    destruct (IH (<[i:=r]> lh)) as (lh' & -> & Hlen & Hin & Hout).
    { intros j Hj. rewrite length_insert. apply Hchanged. by right. }
    exists lh'. rewrite length_insert in Hlen. split_and!; [done..| |].
    + intros j [->|Hj]%elem_of_cons; [|by apply Hin].
      exists r. split; [done|].
      destruct (decide (i ∈ changed)) as [Hj|Hj].
      * destruct (Hin i Hj) as (r' & Hr' & ->). congruence.
      * rewrite (Hout i Hj). by apply list_lookup_insert_eq.
    + intros j Hj. apply not_elem_of_cons in Hj as [Hne Hj].
      rewrite (Hout j Hj). by apply list_lookup_insert_ne.
Qed.

(** What an edit leaves in the cell it has written, and what the other
    bits of the cell are after [what_changed]. *)
Lemma dirty_bits_after_what_changed {V} (caching : bool) (c : CacheNode V)
    (v : V) (n : nat) :
  length (dirty_bits c "sufficient_stats") = n →
  dirty_bits (commit v (what_changed "sufficient_stats" caching c).2)
    "sufficient_stats"
  = if caching then zeros n else dirty_bits c "sufficient_stats".
Proof.
  intros <-. unfold what_changed. destruct caching; simpl; [|done].
  unfold dirty_bits at 1. simpl. by rewrite lookup_insert_eq.
Qed.

Lemma same_state_set_group_likelihoods (ft : FeatureType) (key : string)
    (cell : CacheNode (list F)) (s : Sample F) :
  same_state s (set_group_likelihoods ft key cell s).
Proof. by destruct ft. Qed.

Lemma cell_of_set_group_likelihoods (ft : FeatureType) (key : string)
    (cell : CacheNode (list F)) (s : Sample F) (g : component) :
  cell_of ft (set_group_likelihoods ft key cell s) g
  = if decide (key = key_of g) then Some cell else cell_of ft s g.
Proof.
  unfold cell_of, set_group_likelihoods.
  destruct ft; simpl; by rewrite lookup_insert.
Qed.

(** C2.  For every feature type (the categorical and the Poisson engine
    among them), every sample and both values of the caching flag: when the
    cluster cell exists with a dirty bit for every row, and the closed form
    of the rows that the cache reports changed can be computed,
    [compute_lh_clusters] returns the sum over all rows of an array [lh]
    that it commits to the cell.  That array holds the closed form in the
    rows reported changed and the cached value in all others.  The flag
    decides which rows are reported, all of them without caching and the
    dirty ones with it; it has no part in what is summed.  In the sample
    that the call leaves, the cell of the clusters holds [lh] as its value
    and is not outdated, the marks of the rows that were reported are
    cleared, and nothing else has changed: the state is the same, and so
    are the cells of the other components. *)
Theorem compute_lh_clusters_recomputes_changed_sums_all
    (ft : FeatureType) (self : Self F) (sample : Sample F) (caching : bool)
    (cell : CacheNode (list F)) :
  cell_of ft sample Clusters = Some cell →
  preamble ft self sample Clusters →
  length (dirty_bits cell "sufficient_stats") = length (value cell) →
  (∀ i, i ∈ (what_changed "sufficient_stats" caching cell).1 →
        ∃ r, row_of ft self sample Clusters i = Ok r) →
  ∃ (lh : list F) (sample' : Sample F) (cell' : CacheNode (list F)),
    compute_lh_clusters (engine_of ft) self sample caching
    = Ok (np_sum lh, sample') ∧
    sample'
    = set_group_likelihoods ft "clusters"
        (commit lh (what_changed "sufficient_stats" caching cell).2) sample ∧
    rows_after (row_of ft self sample Clusters)
      (what_changed "sufficient_stats" caching cell).1 (value cell) lh ∧
    (what_changed "sufficient_stats" caching cell).1
    = (if caching then nonzero (dirty_bits cell "sufficient_stats")
       else seq 0 (length (value cell))) ∧
    cell_of ft sample' Clusters = Some cell' ∧
    value cell' = lh ∧
    is_outdated cell' = false ∧
    dirty_bits cell' "sufficient_stats"
    = (if caching then zeros (length (value cell))
       else dirty_bits cell "sufficient_stats") ∧
    same_state sample sample' ∧
    (∀ g, key_of g ≠ "clusters" → cell_of ft sample' g = cell_of ft sample g).
Proof.
  intros Hcell Hpre Hlen Hrows.
  pose proof (compute_lh_refresh ft self sample Clusters caching cell Hcell Hpre)
    as Hrun.
  simpl in Hrun. rewrite Hrun by lia. clear Hrun. unfold refresh.
  pose proof (what_changed_lt "sufficient_stats" caching cell) as Hlt.
  assert (Hwhich : (what_changed "sufficient_stats" caching cell).1
                   = (if caching then nonzero (dirty_bits cell "sufficient_stats")
                      else seq 0 (length (value cell)))).
  { unfold what_changed. destruct caching; simpl; [done|]. by rewrite Hlen. }
  pose proof (λ lh, dirty_bits_after_what_changed caching cell lh _ Hlen)
    as Hbits.
  destruct (what_changed "sufficient_stats" caching cell) as [changed cell'].
  simpl in *.
  destruct (refresh_rows_after (row_of ft self sample Clusters) changed (value cell))
    as (lh & Hlh & Hafter).
  { intros i Hi. split; [|by apply Hrows]. specialize (Hlt i Hi). lia. }
  exists lh, (set_group_likelihoods ft "clusters" (commit lh cell') sample),
    (commit lh cell').
  rewrite Hlh. split_and!; [done..| | | | | |].
  - rewrite cell_of_set_group_likelihoods. by rewrite decide_True.
  - done.
  - done.
  - apply Hbits.
  - apply same_state_set_group_likelihoods.
  - intros g Hg. rewrite cell_of_set_group_likelihoods.
    by rewrite decide_False.
Qed.

(** ** The state and the caches *)

Lemma same_state_refl (s : Sample F) : same_state s s.
Proof. by repeat split. Qed.

Lemma same_state_trans (s1 s2 s3 : Sample F) :
  same_state s1 s2 → same_state s2 s3 → same_state s1 s3.
Proof.
  intros (?&?&?&?&?&?&?) (?&?&?&?&?&?&?). repeat split; congruence.
Qed.

Lemma same_state_sym (s1 s2 : Sample F) : same_state s1 s2 → same_state s2 s1.
Proof. intros (?&?&?&?&?&?&?). repeat split; congruence. Qed.

Lemma ft_sample_same_state (ft : FeatureType) (s s' : Sample F) :
  same_state s s' → ft_sample ft s' = ft_sample ft s.
Proof. intros (?&?&?&?&?&?&?). by destruct ft. Qed.

(** The closed form of a row is a function of the state. *)
Lemma row_of_same_state (ft : FeatureType) (self : Self F) (s s' : Sample F)
    (g : component) (i : nat) :
  prior_reads_state self → same_state s s' →
  row_of ft self s' g i = row_of ft self s g i.
Proof.
  intros Hprior Hsame.
  pose proof (ft_sample_same_state ft s s' Hsame) as Hft.
  destruct Hsame as (Hcl & Hcat & Hga & Hpo & Hlo & Hconf & Hidx).
  assert (Hmem : members s' g i = members s g i).
  { unfold members. by rewrite Hcl, Hconf. }
  assert (Hsrc : source_index s' g = source_index s g).
  { unfold source_index. by rewrite Hidx. }
  destruct ft; simpl.
  - unfold Categorical_row. rewrite Hcat.
    destruct g as [|conf]; [done|].
    destruct (categorical s) as [cat|]; simpl; [|done].
    destruct (getkey (sufficient_statistics cat) conf); simpl; [|done].
    unfold getkey.
    destruct (prior_confounding_effects (prior self) !! conf) as [p|] eqn:Hp;
      simpl; [|done].
    rewrite (Hprior conf p s s' Hp); [done|]. by repeat split.
  - unfold Normal_row, Normal_term. rewrite Hmem, Hsrc. simpl in Hft.
    simpl. by rewrite Hga.
  - unfold Poisson_row, Poisson_term. by rewrite Hmem, Hsrc, Hpo.
  - unfold Normal_row, Normal_term. rewrite Hmem, Hsrc. simpl.
    by rewrite Hlo.
Qed.

Lemma preamble_same_state (ft : FeatureType) (self : Self F) (s s' : Sample F)
    (g : component) :
  same_state s s' → preamble ft self s g → preamble ft self s' g.
Proof.
  intros (_ & Hcat & _). destruct ft; simpl; [|done..]. by rewrite Hcat.
Qed.

Lemma statistics_in_sync_same_state (self : Self F) (s s' : Sample F) :
  same_state s s' → statistics_in_sync self s → statistics_in_sync self s'.
Proof.
  intros (Hcl & Hcat & _ & _ & _ & Hconf & _). unfold statistics_in_sync.
  by rewrite Hcl, Hcat, Hconf.
Qed.

(** A consistent cell stays consistent while the state and the cell stay
    the same. *)
Lemma cell_consistent_transfer (ft : FeatureType) (self : Self F)
    (s s' : Sample F) (g : component) :
  prior_reads_state self → same_state s s' →
  cell_of ft s' g = cell_of ft s g →
  cell_consistent ft self s g → cell_consistent ft self s' g.
Proof.
  intros Hprior Hsame Hcell (cell & rows & Hc & Hpre & Hlen & Hrows & Hclean).
  exists cell, rows. split_and!; [congruence| |done| |done].
  - by eapply preamble_same_state.
  - rewrite <- Hrows. clear Hrows.
    induction (seq 0 (length (value cell))) as [|i l IH]; [done|].
    simpl. by rewrite IH, (row_of_same_state ft self s s').
Qed.

Lemma all_rows_transfer (ft : FeatureType) (self : Self F)
    (s s' : Sample F) (g : component) (cell cell' : CacheNode (list F)) :
  prior_reads_state self → same_state s s' →
  cell_of ft s g = Some cell → cell_of ft s' g = Some cell' →
  length (value cell') = length (value cell) →
  all_rows ft self s' g = all_rows ft self s g.
Proof.
  intros Hprior Hsame Hc Hc' Hlen. unfold all_rows. rewrite Hc, Hc'. simpl.
  rewrite Hlen.
  induction (seq 0 (length (value cell))) as [|i l IH]; [done|].
  simpl. by rewrite IH, (row_of_same_state ft self s s').
Qed.

Lemma dirty_bits_what_changed {V} (key : string) (caching : bool)
    (c : CacheNode V) :
  length (dirty_bits (what_changed key caching c).2 key)
  = length (dirty_bits c key).
Proof.
  unfold what_changed. destruct caching; simpl; [|done].
  unfold dirty_bits at 1. simpl. rewrite lookup_insert_eq. simpl.
  unfold zeros. by rewrite length_replicate.
Qed.

(** ** One component *)

(** On a consistent cell, with or without caching, the engine commits the
    closed form of all rows and returns its sum. *)
Lemma compute_lh_consistent (ft : FeatureType) (self : Self F) (s : Sample F)
    (g : component) (caching : bool) :
  cell_consistent ft self s g →
  ∃ (rows : list F) (cell : CacheNode (list F)),
    cell_of ft s g = Some cell ∧
    all_rows ft self s g = Ok rows ∧
    length rows = length (value cell) ∧
    compute_lh (engine_of ft) self s g caching
    = Ok (np_sum rows,
          set_group_likelihoods ft (key_of g)
            (commit rows (what_changed "sufficient_stats" caching cell).2) s).
Proof.
  intros (cell & rows & Hcell & Hpre & Hlen & Hrows & Hclean).
  exists rows, cell.
  destruct (traverse_Ok _ _ _ Hrows) as [Hlr Hrow]. rewrite length_seq in Hlr.
  split_and!; [done| |done|].
  { unfold all_rows. by rewrite Hcell. }
  rewrite (compute_lh_refresh ft self s g caching cell Hcell Hpre) by lia.
  unfold refresh.
  pose proof (what_changed_lt "sufficient_stats" caching cell) as Hlt.
  assert (Hwhich : (what_changed "sufficient_stats" caching cell).1
                   = (if caching then nonzero (dirty_bits cell "sufficient_stats")
                      else seq 0 (length (value cell)))).
  { unfold what_changed. destruct caching; simpl; [done|]. by rewrite Hlen. }
  destruct (what_changed "sufficient_stats" caching cell) as [changed cell'].
  simpl in *.
  destruct (refresh_rows_after (row_of ft self s g) changed (value cell))
    as (lh & Hlh & Hlenlh & Hin & Hout).
  { intros i Hi. specialize (Hlt i Hi). split; [lia|].
    destruct (Hrow i i) as (r & Hr & _); [|by eauto].
    apply lookup_seq. lia. }
  rewrite Hlh. simpl. replace lh with rows; [done|].
  apply list_eq. intros i.
  destruct (decide (i < length (value cell))) as [Hi|Hi].
  2:{ rewrite !lookup_ge_None_2; [done|lia..]. }
  destruct (Hrow i i) as (r & Hr & Hri); [apply lookup_seq; lia|].
  destruct (decide (i ∈ changed)) as [Hc|Hc].
  - destruct (Hin i Hc) as (r' & Hr' & ->). congruence.
  - rewrite (Hout i Hc). symmetry. apply Hclean.
    destruct (lookup_lt_is_Some_2 (dirty_bits cell "sufficient_stats") i)
      as [[] Hb]; [lia| |done].
    exfalso. apply Hc. rewrite Hwhich. destruct caching.
    + by apply InitializerSpec.elem_of_nonzero.
    + apply elem_of_seq. lia.
Qed.

(** ** All components *)

Lemma for_each_fmap {S X Y} (f : X → Y) (xs : list X)
    (body : S → Y → result S) (s : S) :
  for_each (f <$> xs) body s = for_each xs (λ s x, body s (f x)) s.
Proof.
  revert s. induction xs as [|x xs IH]; intros s; [done|].
  simpl. destruct (body s (f x)); simpl; [|done]. apply IH.
Qed.

Lemma for_each_ext {S X} (xs : list X) (body1 body2 : S → X → result S) (s : S) :
  (∀ s x, x ∈ xs → body1 s x = body2 s x) →
  for_each xs body1 s = for_each xs body2 s.
Proof.
  intros Hbody. apply (for_each_ext_inv (λ _, True)); [done|].
  intros s' x _ Hx. split; [by apply Hbody|done].
Qed.

(** [__call__] is one loop over the components, the clusters first. *)
Lemma GenericType_call_components (engine : LikelihoodGenericType F)
    (self : Self F) (s : Sample F) (caching : bool) :
  GenericType_call engine self s caching
  = for_each (components_of self) (add_component engine self caching)
      (fzero,
       if caching then s
       else recalculate_feature_counts
              (cat_values (features_categorical (features self))) s).
Proof.
  unfold GenericType_call, components_of. simpl. unfold add_component at 2.
  simpl.
  destruct (compute_lh_clusters engine self _ caching) as [[v s']|e];
    simpl; [|done].
  rewrite (for_each_fmap Conf). apply for_each_ext.
  intros [log_lh sample] conf _. done.
Qed.

(** The loop over components, from a state whose cells are consistent:
    every component is refreshed to its closed form, the value is the sum of
    the closed forms, and the state stays the same. *)
Lemma components_consistent (ft : FeatureType) (self : Self F)
    (caching : bool) :
  prior_reads_state self →
  ∀ (gs : list component) (acc : F) (s : Sample F),
    NoDup (key_of <$> gs) →
    (∀ g, g ∈ gs → cell_consistent ft self s g) →
    ∃ (v : F) (s' : Sample F),
      for_each gs (add_component (engine_of ft) self caching) (acc, s)
      = Ok (v, s') ∧
      for_each gs (λ log_lh g, rows ← all_rows ft self s g;
                               Ok (fadd log_lh (np_sum rows))) acc = Ok v ∧
      same_state s s' ∧
      (∀ g, g ∈ gs → cell_consistent ft self s' g) ∧
      (∀ g, key_of g ∉ key_of <$> gs → cell_of ft s' g = cell_of ft s g).
Proof.
  intros Hprior. induction gs as [|g gs IH]; intros acc s Hnd Hcons.
  - exists acc, s. split_and!; [done|done| | |done].
    + apply same_state_refl.
    + by intros g ?%elem_of_nil.
  - rewrite fmap_cons in Hnd. apply NoDup_cons in Hnd as [Hg Hnd].
    destruct (compute_lh_consistent ft self s g caching) as
      (rows & cell & Hcell & Hrows & Hlen & Hrun); [apply Hcons; by left|].
    set (cell1 := commit rows (what_changed "sufficient_stats" caching cell).2) in *.
    set (s1 := set_group_likelihoods ft (key_of g) cell1 s) in *.
    assert (Hsame1 : same_state s s1) by apply same_state_set_group_likelihoods.
    assert (Hother : ∀ g', key_of g' ≠ key_of g → cell_of ft s1 g' = cell_of ft s g').
    { intros g' Hne. unfold s1. rewrite cell_of_set_group_likelihoods.
      by rewrite decide_False by done. }
    destruct (IH (fadd acc (np_sum rows)) s1 Hnd) as
      (v & s' & Hloop & Hspec & Hsame & Hcons' & Hframe).
    { intros g' Hg'. apply (cell_consistent_transfer ft self s s1); [done..| |].
      - apply Hother. intros Heq. apply Hg. rewrite <- Heq.
        by apply list_elem_of_fmap_2.
      - apply Hcons. by right. }
    exists v, s'. split_and!.
    + cbn [for_each]. unfold add_component in *. cbn [fst snd].
      rewrite Hrun. exact Hloop.
    + simpl. rewrite Hrows. simpl. rewrite <- Hspec. apply for_each_ext.
      intros log_lh g' Hg'.
      destruct (Hcons g') as (cell' & _ & Hc' & _); [by right|].
      rewrite (all_rows_transfer ft self s s1 g' cell' cell'); [done..| |done].
      rewrite Hother; [done|]. intros Heq. apply Hg. rewrite <- Heq.
      by apply list_elem_of_fmap_2.
    + by eapply same_state_trans.
    + intros g' [->|Hg']%elem_of_cons; [|by apply Hcons'].
      destruct (Hcons g) as (cell0 & rows0 & Hc0 & Hpre0 & Hlen0 & Hrows0 & _);
        [by left|].
      assert (cell0 = cell) as -> by congruence.
      assert (rows0 = rows) as ->.
      { unfold all_rows in Hrows. rewrite Hcell in Hrows. simpl in Hrows.
        congruence. }
      exists cell1, rows. split_and!.
      * rewrite Hframe by done. unfold s1.
        rewrite cell_of_set_group_likelihoods. by rewrite decide_True.
      * by eapply preamble_same_state.
      * unfold cell1. simpl.
        change (dirty (what_changed "sufficient_stats" caching cell).2)
          with (dirty (what_changed "sufficient_stats" caching cell).2).
        transitivity (length (dirty_bits (what_changed "sufficient_stats" caching cell).2
                                "sufficient_stats")); [done|].
        rewrite dirty_bits_what_changed. lia.
      * unfold cell1. simpl. rewrite Hlen, <- Hrows0.
        assert (Hss : same_state s s') by (by eapply same_state_trans).
        clear -Hprior Hss.
        induction (seq 0 (length (value cell))) as [|i l IHl]; [done|].
        simpl. by rewrite IHl, (row_of_same_state ft self s s').
      * done.
    + intros g' Hg'. rewrite fmap_cons in Hg'.
      apply not_elem_of_cons in Hg' as [Hne Hg'].
      rewrite Hframe by done. by apply Hother.
Qed.

(** ** Recomputing the sufficient statistics *)

Lemma recalculate_same_state (self : Self F) (s : Sample F) :
  statistics_in_sync self s →
  same_state s (recalculate_feature_counts
                  (cat_values (features_categorical (features self))) s).
Proof.
  unfold statistics_in_sync, recalculate_feature_counts.
  destruct (categorical s) as [cat|] eqn:Hcat; [|intros _; apply same_state_refl].
  intros <-. repeat split; simpl. rewrite Hcat. by destruct cat.
Qed.

Lemma dirty_bits_mark_all_dirty {V} (c : CacheNode V) (key : string) :
  dirty_bits (mark_all_dirty c) key
  = replicate (length (dirty_bits c key)) true.
Proof.
  unfold dirty_bits, mark_all_dirty. simpl. rewrite lookup_fmap.
  by destruct (dirty c !! key).
Qed.

Lemma recalculate_cell_of (ft : FeatureType) (self : Self F) (s : Sample F)
    (g : component) (cell : CacheNode (list F)) :
  cell_of ft s g = Some cell →
  ∃ cell', cell_of ft (recalculate_feature_counts
                         (cat_values (features_categorical (features self))) s) g
           = Some cell' ∧
           value cell' = value cell ∧
           (cell' = cell ∨ cell' = mark_all_dirty cell).
Proof.
  intros Hcell. unfold recalculate_feature_counts.
  destruct (categorical s) as [cat|]; [|by exists cell; auto].
  unfold cell_of in *.
  destruct ft; simpl in *; [|by exists cell; auto..].
  rewrite lookup_fmap, Hcell. simpl. exists (mark_all_dirty cell). auto.
Qed.

Lemma cell_consistent_recalculate (ft : FeatureType) (self : Self F)
    (s : Sample F) (g : component) :
  prior_reads_state self → statistics_in_sync self s →
  cell_consistent ft self s g →
  cell_consistent ft self
    (recalculate_feature_counts
       (cat_values (features_categorical (features self))) s) g.
Proof.
  intros Hprior Hsync (cell & rows & Hcell & Hpre & Hlen & Hrows & Hclean).
  pose proof (recalculate_same_state self s Hsync) as Hsame.
  destruct (recalculate_cell_of ft self s g cell Hcell)
    as (cell' & Hcell' & Hval & Hdirty).
  set (s0 := recalculate_feature_counts _ s) in *.
  exists cell', rows. split_and!; [done| | | |].
  - by eapply preamble_same_state.
  - rewrite Hval. destruct Hdirty as [-> | ->]; [done|].
    by rewrite dirty_bits_mark_all_dirty, length_replicate.
  - rewrite Hval, <- Hrows. apply traverse_ext. intros i _.
    by apply row_of_same_state.
  - intros i Hi. rewrite Hval. destruct Hdirty as [-> | ->]; [by apply Hclean|].
    rewrite dirty_bits_mark_all_dirty in Hi.
    by apply lookup_replicate in Hi as [? _].
Qed.

(** ** The two paths of the total log-likelihood *)

(** On a consistent cache the two paths agree: the total log-likelihood
    with caching and the one without are the value that the closed forms
    give, and both calls leave a consistent cache behind. *)
Lemma caching_equivalent_on_consistent
    (ft : FeatureType) (self : Self F) (sample : Sample F) :
  prior_reads_state self →
  consistent ft self sample →
  ∃ (v : F) (s1 s2 : Sample F),
    GenericType_call (engine_of ft) self sample true = Ok (v, s1) ∧
    GenericType_call (engine_of ft) self sample false = Ok (v, s2) ∧
    closed_form_total ft self sample = Ok v ∧
    consistent ft self s1 ∧ consistent ft self s2.
Proof.
  intros Hprior (Hnd & Hsync & Hcells).
  rewrite !GenericType_call_components.
  destruct (components_consistent ft self true Hprior (components_of self)
              fzero sample Hnd Hcells)
    as (v & s1 & Hrun1 & Hspec1 & Hsame1 & Hcons1 & _).
  set (s0 := recalculate_feature_counts
               (cat_values (features_categorical (features self))) sample).
  pose proof (recalculate_same_state self sample Hsync) as Hsame0.
  destruct (components_consistent ft self false Hprior (components_of self)
              fzero s0 Hnd)
    as (v' & s2 & Hrun2 & Hspec2 & Hsame2 & Hcons2 & _).
  { intros g Hg. apply cell_consistent_recalculate; auto. }
  assert (v' = v) as ->.
  { assert (Ok (A:=F) v' = Ok v) as [= ->]; [|done].
    rewrite <- Hspec1, <- Hspec2. apply for_each_ext.
    intros log_lh g Hg.
    destruct (Hcells g Hg) as (cell & _ & Hcell & _).
    destruct (recalculate_cell_of ft self sample g cell Hcell)
      as (cell' & Hcell' & Hval & _).
    rewrite (all_rows_transfer ft self sample s0 g cell cell');
      [done..|by rewrite Hval]. }
  exists v, s1, s2. split_and!; [done..| |].
  - split_and!; [done| |done].
    by eapply statistics_in_sync_same_state.
  - split_and!; [done| |done].
    eapply statistics_in_sync_same_state; [|done].
    by eapply same_state_trans.
Qed.

(** ** Operators *)

Lemma traverse_pointwise {A B} (f : A → result B) (l : list A) :
  (∀ x, x ∈ l → ∃ y, f x = Ok y) → ∃ ys, traverse f l = Ok ys.
Proof.
  induction l as [|x l IH]; intros Hf; [by exists []|].
  destruct (Hf x) as [y Hy]; [by left|].
  destruct IH as [ys Hys]; [intros z Hz; apply Hf; by right|].
  exists (y :: ys). simpl. by rewrite Hy, Hys.
Qed.

Lemma mark_bits_length (gs : list nat) (bits : list bool) :
  length (foldr (λ g b, <[g:=true]> b) bits gs) = length bits.
Proof. induction gs as [|g gs IH]; [done|]. simpl. by rewrite length_insert. Qed.

Lemma mark_bits_marked (gs : list nat) (bits : list bool) (i : nat) :
  i ∈ gs → i < length bits →
  foldr (λ g b, <[g:=true]> b) bits gs !! i = Some true.
Proof.
  induction gs as [|g gs IH]; [by intros ?%elem_of_nil|].
  intros Hi Hlt. simpl. destruct (decide (g = i)) as [->|Hne].
  - apply list_lookup_insert_eq. by rewrite mark_bits_length.
  - rewrite list_lookup_insert_ne by done.
    apply elem_of_cons in Hi as [?|Hi]; [congruence|]. by apply IH.
Qed.

Lemma mark_bits_clean (gs : list nat) (bits : list bool) (i : nat) :
  foldr (λ g b, <[g:=true]> b) bits gs !! i = Some false →
  bits !! i = Some false.
Proof.
  induction gs as [|g gs IH]; [done|]. simpl. intros Hi.
  destruct (decide (g = i)) as [->|Hne].
  - rewrite list_lookup_insert in Hi. case_decide; [done|].
    apply lookup_lt_Some in Hi. rewrite mark_bits_length in *. lia.
  - rewrite list_lookup_insert_ne in Hi by done. by apply IH.
Qed.

Lemma dirty_bits_mark_dirty {V} (key : string) (gs : list nat) (c : CacheNode V) :
  dirty_bits (mark_dirty key gs c) key
  = foldr (λ g b, <[g:=true]> b) (dirty_bits c key) gs.
Proof. unfold dirty_bits at 1. simpl. by rewrite lookup_insert_eq. Qed.

Lemma cell_of_apply_mutation (ft : FeatureType) (self : Self F) (m : Mutation)
    (s : Sample F) (g : component) :
  cell_of ft (apply_mutation self m s) g
  = mark_dirty "sufficient_stats" (mut_marked m ft (key_of g)) <$> cell_of ft s g.
Proof.
  unfold cell_of. destruct ft; simpl; rewrite map_lookup_imap;
    by destruct (_ !! key_of g).
Qed.

(** An operator that keeps its contract keeps the cache consistent. *)
Lemma mutation_consistent (ft : FeatureType) (self : Self F) (m : Mutation)
    (s : Sample F) :
  consistent ft self s → marks_changes ft self m s →
  consistent ft self (apply_mutation self m s).
Proof.
  intros (Hnd & Hsync & Hcells) Hmarks. split_and!; [done| |].
  - unfold statistics_in_sync. simpl. by destruct (categorical s).
  - intros g Hg.
    destruct (Hcells g Hg) as (cell & rows & Hcell & Hpre & Hlen & Hrows & Hclean).
    destruct (Hmarks g cell Hg Hcell) as [Hpre' Hrow'].
    destruct (traverse_Ok _ _ _ Hrows) as [Hlr Hrow]. rewrite length_seq in Hlr.
    destruct (traverse_pointwise (row_of ft self (apply_mutation self m s) g)
                (seq 0 (length (value cell)))) as [rows' Hrows'].
    { intros i Hi%elem_of_seq. apply Hrow'. lia. }
    destruct (traverse_Ok _ _ _ Hrows') as [Hlr' Hrow2]. rewrite length_seq in Hlr'.
    exists (mark_dirty "sufficient_stats" (mut_marked m ft (key_of g)) cell), rows'.
    split_and!.
    + by rewrite cell_of_apply_mutation, Hcell.
    + done.
    + by rewrite dirty_bits_mark_dirty, mark_bits_length.
    + done.
    + intros i Hi. rewrite dirty_bits_mark_dirty in Hi. simpl.
      apply lookup_lt_Some in Hi as Hlt. rewrite mark_bits_length, Hlen in Hlt.
      destruct (Hrow' i Hlt) as [_ [Hin|Heq]].
      * rewrite mark_bits_marked in Hi; [done..|lia].
      * apply mark_bits_clean in Hi. rewrite (Hclean i Hi).
        destruct (Hrow i i) as (r & Hr & ->); [apply lookup_seq; lia|].
        destruct (Hrow2 i i) as (r' & Hr' & ->); [apply lookup_seq; lia|].
        congruence.
Qed.

(** ** The operators *)

Lemma everything_changed_same_state (s : Sample F) :
  same_state s (everything_changed s).
Proof. by repeat split. Qed.

Lemma cell_of_everything_changed (ft : FeatureType) (s : Sample F)
    (g : component) :
  cell_of ft (everything_changed s) g = mark_all_dirty <$> cell_of ft s g.
Proof. unfold cell_of. destruct ft; simpl; by rewrite lookup_fmap. Qed.

(** A cell all of whose rows are marked dirty is consistent with every
    state that is valid input. *)
Lemma cell_consistent_all_dirty (ft : FeatureType) (self : Self F)
    (s : Sample F) (g : component) (cell : CacheNode (list F)) :
  cell_of ft s g = Some cell →
  length (dirty_bits cell "sufficient_stats") = length (value cell) →
  (∀ i, dirty_bits cell "sufficient_stats" !! i ≠ Some false) →
  preamble ft self s g →
  (∀ i, i < length (value cell) → ∃ r, row_of ft self s g i = Ok r) →
  cell_consistent ft self s g.
Proof.
  intros Hcell Hlen Hdirty Hpre Hrows.
  destruct (traverse_pointwise (row_of ft self s g)
              (seq 0 (length (value cell)))) as [rows Hr].
  { intros i Hi%elem_of_seq. apply Hrows. lia. }
  exists cell, rows. split_and!; [done..|].
  intros i Hi. by apply Hdirty in Hi.
Qed.

Lemma everything_changed_consistent (ft : FeatureType) (self : Self F)
    (s : Sample F) :
  prior_reads_state self → consistent ft self s →
  consistent ft self (everything_changed s).
Proof.
  intros Hprior (Hnd & Hsync & Hcells).
  pose proof (everything_changed_same_state s) as Hsame.
  split_and!; [done|by eapply statistics_in_sync_same_state|].
  intros g Hg.
  destruct (Hcells g Hg) as (cell & rows & Hcell & Hpre & Hlen & Hrows & _).
  destruct (traverse_Ok _ _ _ Hrows) as [Hlr Hrow]. rewrite length_seq in Hlr.
  apply (cell_consistent_all_dirty ft self _ g (mark_all_dirty cell)).
  - by rewrite cell_of_everything_changed, Hcell.
  - by rewrite dirty_bits_mark_all_dirty, length_replicate.
  - intros i Hi. rewrite dirty_bits_mark_all_dirty in Hi.
    by apply lookup_replicate in Hi as [? _].
  - by eapply preamble_same_state.
  - intros i Hi. destruct (Hrow i i) as (r & Hr & _); [apply lookup_seq; simpl in *; lia|].
    exists r. by rewrite (row_of_same_state ft self s).
Qed.

(** At the start of a chain the caches are consistent with the state. *)
Lemma fresh_consistent (ft : FeatureType) (self : Self F) (s : Sample F) :
  NoDup (key_of <$> components_of self) →
  cache_shaped ft self s →
  computable ft self (fresh self s) →
  consistent ft self (fresh self s).
Proof.
  intros Hnd Hshape Hcomp. split_and!; [done| |].
  - unfold fresh, statistics_in_sync, recalculate_feature_counts.
    destruct (categorical (everything_changed s)) as [cat|] eqn:Hcat.
    + done.
    + by rewrite Hcat.
  - intros g Hg. destruct (Hshape g Hg) as (cell & Hcell & Hlen).
    assert (Hcell1 : cell_of ft (everything_changed s) g
                     = Some (mark_all_dirty cell))
      by (by rewrite cell_of_everything_changed, Hcell).
    destruct (recalculate_cell_of ft self _ g _ Hcell1)
      as (cell' & Hcell' & Hval & Hdirty).
    fold (fresh self s) in Hcell'.
    assert (Hbits : dirty_bits cell' "sufficient_stats"
                    = replicate (length (value cell)) true).
    { destruct Hdirty as [-> | ->];
        rewrite ?dirty_bits_mark_all_dirty, ?length_replicate; by rewrite Hlen. }
    destruct (Hcomp g cell' Hg Hcell') as [Hpre Hrows].
    apply (cell_consistent_all_dirty ft self _ g cell'); [done| | |done|done].
    + rewrite Hbits, length_replicate. by rewrite Hval.
    + intros i Hi. rewrite Hbits in Hi.
      by apply lookup_replicate in Hi as [? _].
Qed.

(** An operator whose marks cover the rows that changed keeps its
    contract. *)
Lemma marks_changes_intro (ft : FeatureType) (self : Self F) (m : Mutation)
    (s : Sample F) :
  computable ft self (apply_mutation self m s) →
  (∀ g cell i r, g ∈ components_of self → cell_of ft s g = Some cell →
     i < length (value cell) → i ∉ mut_marked m ft (key_of g) →
     row_of ft self (apply_mutation self m s) g i = Ok r →
     row_of ft self s g i = Ok r) →
  marks_changes ft self m s.
Proof.
  intros Hcomp Hrows g cell Hg Hcell.
  destruct (Hcomp g (mark_dirty "sufficient_stats" (mut_marked m ft (key_of g)) cell)
              Hg) as [Hpre Hok].
  { by rewrite cell_of_apply_mutation, Hcell. }
  split; [done|]. intros i Hi. destruct (Hok i Hi) as [r Hr].
  split; [by exists r|].
  destruct (decide (i ∈ mut_marked m ft (key_of g))) as [Hin|Hout]; [by left|].
  right. rewrite Hr. symmetry. by eapply Hrows.
Qed.

Lemma all_groups_elem (ft : FeatureType) (s : Sample F) (g : component)
    (cell : CacheNode (list F)) (i : nat) :
  cell_of ft s g = Some cell → i < length (value cell) →
  i ∈ all_groups s ft (key_of g).
Proof.
  unfold cell_of, all_groups. intros -> Hi. apply elem_of_seq. lia.
Qed.

Lemma source_of_Some (ft : FeatureType) (s : Sample F)
    (t : GenericTypeSample F) :
  ft_sample ft s = Some t → source_of ft s = source t.
Proof. unfold source_of. by intros ->. Qed.

(** The rows of the Gaussian, the Poisson and the logit-normal engine read
    the members of their group and the source of their feature type. *)
Lemma numeric_row_apply_mutation (ft : FeatureType) (self : Self F)
    (m : Mutation) (s : Sample F) (g : component) (i : nat) :
  ft ≠ ft_categorical →
  mut_source m ft = source_of ft s →
  (g = Clusters → mut_clusters m !! i = clusters s !! i) →
  row_of ft self (apply_mutation self m s) g i = row_of ft self s g i.
Proof.
  intros Hft Hsrc Hcl.
  assert (Hmem : members (apply_mutation self m s) g i = members s g i).
  { destruct g as [|conf]; simpl; [|done]. unfold getitem. by rewrite Hcl. }
  assert (Hsample : ft_sample ft (apply_mutation self m s) = ft_sample ft s).
  { unfold source_of in Hsrc.
    destruct ft; [done|..]; simpl in *.
    - destruct (gaussian s) as [t|]; simpl in *; [|done].
      rewrite Hsrc. by destruct t.
    - destruct (poisson s) as [t|]; simpl in *; [|done].
      rewrite Hsrc. by destruct t.
    - destruct (logitnormal s) as [t|]; simpl in *; [|done].
      rewrite Hsrc. by destruct t. }
  assert (Hidx : source_index (apply_mutation self m s) g = source_index s g)
    by done.
  unfold row_of. destruct ft; [done|..];
    unfold Normal_row, Normal_term, Poisson_row, Poisson_term;
    rewrite Hmem, Hidx; try change (poisson ?x) with (ft_sample ft_poisson x);
    by rewrite Hsample.
Qed.

(** The rows of the categorical engine read the counts of their group and
    the concentrations of the prior. *)
Lemma categorical_row_apply_mutation (self : Self F) (m : Mutation)
    (s : Sample F) (g : component) (i : nat) (r : F) :
  categorical_reads_own_group self →
  statistics_in_sync self s →
  mut_source m ft_categorical = source_of ft_categorical s →
  (key_of g = "clusters" → mut_clusters m !! i = clusters s !! i) →
  Categorical_row self (apply_mutation self m s) g i = Ok r →
  Categorical_row self s g i = Ok r.
Proof.
  intros [Hcounts Hprior] Hsync Hsrc Hcl. unfold Categorical_row.
  unfold statistics_in_sync in Hsync. simpl.
  destruct (categorical s) as [cat|] eqn:Hcat; simpl; [|done].
  rewrite Hsrc, (source_of_Some ft_categorical s cat Hcat).
  pose proof (Hcounts (cat_values (features_categorical (features self)))
                (clusters s) (mut_clusters m) (confounders s) (source cat)
                (key_of g) i Hcl) as Heq.
  rewrite <- Hsync in Heq. unfold getkey, getitem.
  destruct (count_features _ (mut_clusters m) _ _ !! key_of g) as [fc'|];
    simpl in *; [|done].
  destruct g as [|conf]; simpl in *.
  - destruct (fc' !! i) as [counts|]; simpl in *; [|done].
    destruct (sufficient_statistics cat !! "clusters") as [fc|];
      simpl in *; [|done].
    by rewrite <- Heq.
  - destruct (prior_confounding_effects (prior self) !! conf) as [p|] eqn:Hp;
      simpl; [|by destruct (sufficient_statistics cat !! conf)].
    destruct (fc' !! i) as [counts|]; simpl in *; [|done].
    destruct (sufficient_statistics cat !! conf) as [fc|]; simpl in *; [|done].
    rewrite <- Heq. simpl.
    by rewrite (Hprior conf p s (apply_mutation self m s) Hp).
Qed.

(** A row that an operator leaves unmarked is what it was, when the
    operator leaves the source of the feature type and the cluster of the
    row as they were. *)
Lemma row_apply_mutation (ft : FeatureType) (self : Self F) (m : Mutation)
    (s : Sample F) (g : component) (i : nat) (r : F) :
  (ft = ft_categorical → categorical_reads_own_group self) →
  statistics_in_sync self s →
  mut_source m ft = source_of ft s →
  (key_of g = "clusters" → mut_clusters m !! i = clusters s !! i) →
  row_of ft self (apply_mutation self m s) g i = Ok r →
  row_of ft self s g i = Ok r.
Proof.
  intros Hlaws Hsync Hsrc Hcl Hrow.
  destruct (decide (ft = ft_categorical)) as [->|Hft].
  - apply (categorical_row_apply_mutation self m); [by apply Hlaws|done..].
  - rewrite <- Hrow. symmetry. apply numeric_row_apply_mutation; [done..|].
    intros ->. by apply Hcl.
Qed.

Lemma set_clusters_consistent (ft : FeatureType) (self : Self F)
    (new_clusters : list (list bool)) (s : Sample F) :
  consistent ft self s →
  computable ft self (set_clusters self new_clusters s) →
  consistent ft self (set_clusters self new_clusters s).
Proof.
  intros Hcons Hcomp. apply mutation_consistent; [done|].
  apply marks_changes_intro; [done|].
  intros g cell i r Hg Hcell Hi Hout. exfalso. apply Hout. simpl.
  by eapply all_groups_elem.
Qed.

Lemma set_source_consistent (ft ft' : FeatureType) (self : Self F)
    (new_source : list (list (list bool))) (s : Sample F) :
  (ft = ft_categorical → categorical_reads_own_group self) →
  consistent ft self s →
  computable ft self (set_source self ft' new_source s) →
  consistent ft self (set_source self ft' new_source s).
Proof.
  intros Hlaws Hcons Hcomp. apply mutation_consistent; [done|].
  apply marks_changes_intro; [done|].
  intros g cell i r Hg Hcell Hi Hout. simpl in Hout.
  destruct (decide (ft = ft')) as [Heq|Hne].
  - exfalso. apply Hout. by eapply all_groups_elem.
  - apply row_apply_mutation; [done|by destruct Hcons as (_ & ? & _)| |done].
    simpl. by rewrite decide_False.
Qed.

Lemma set_cluster_consistent (ft : FeatureType) (self : Self F)
    (i_cluster : nat) (new_cluster : list bool) (s : Sample F) :
  (ft = ft_categorical → categorical_reads_own_group self) →
  consistent ft self s →
  computable ft self (set_cluster self i_cluster new_cluster s) →
  consistent ft self (set_cluster self i_cluster new_cluster s).
Proof.
  intros Hlaws Hcons Hcomp. apply mutation_consistent; [done|].
  apply marks_changes_intro; [done|].
  intros g cell i r Hg Hcell Hi Hout. simpl in Hout.
  apply row_apply_mutation; [done|by destruct Hcons as (_ & ? & _)|done|].
  intros Hkey. rewrite decide_True in Hout by done.
  simpl. apply list_lookup_insert_ne. intros ->. apply Hout. by left.
Qed.

(** ** Cache correctness along a chain *)

Lemma operator_step_consistent (ft : FeatureType) (self : Self F)
    (s s' : Sample F) :
  prior_reads_state self →
  (ft = ft_categorical → categorical_reads_own_group self) →
  consistent ft self s →
  operator_step ft self s s' → consistent ft self s'.
Proof.
  intros Hprior Hlaws Hcons Hstep.
  destruct Hstep as [s0|new s0 Hcomp|ft' new s0 Hcomp|i row s0 Hi Hcomp
                    |caching s0 s0' v Hrun].
  - by apply everything_changed_consistent.
  - by apply set_clusters_consistent.
  - by apply set_source_consistent.
  - by apply set_cluster_consistent.
  - destruct (caching_equivalent_on_consistent ft self s0 Hprior Hcons)
      as (v' & s1 & s2 & Htrue & Hfalse & _ & Hcons1 & Hcons2).
    destruct caching; congruence.
Qed.

(** C1.  Let a chain start from a sample with every cache key marked dirty
    and the sufficient statistics computed from scratch, and let it go
    through any sequence of steps of the operators of the state (the setters
    of the clusters and of the sources, which mark all groups of the caches
    that depend on the array; an operator that changes one cluster and
    marks that cluster; [everything_changed]) and of evaluations of the
    likelihood, with or without caching.  The states that the operators
    leave are valid input for the engine.  At every sample of the chain,
    the total log-likelihood of the engine with caching and the one without
    return the same value, which is the one that the closed forms give for
    the state.  No law of floating-point arithmetic is used: the two values
    are the same float. *)
Theorem total_log_likelihood_caching_equivalent
    (ft : FeatureType) (self : Self F) (sample0 sample : Sample F) :
  prior_reads_state self →
  (ft = ft_categorical → categorical_reads_own_group self) →
  NoDup (key_of <$> components_of self) →
  cache_shaped ft self sample0 →
  computable ft self (fresh self sample0) →
  rtc (operator_step ft self) (fresh self sample0) sample →
  ∃ (v : F) (s1 s2 : Sample F),
    GenericType_call (engine_of ft) self sample true = Ok (v, s1) ∧
    GenericType_call (engine_of ft) self sample false = Ok (v, s2) ∧
    closed_form_total ft self sample = Ok v.
Proof.
  intros Hprior Hlaws Hnd Hshape Hcomp Hchain.
  pose proof (fresh_consistent ft self sample0 Hnd Hshape Hcomp) as Hcons.
  clear Hshape Hcomp.
  induction Hchain as [s|s s' s'' Hstep Hchain IH].
  - destruct (caching_equivalent_on_consistent ft self s Hprior Hcons)
      as (v & s1 & s2 & Htrue & Hfalse & Hclosed & _).
    by exists v, s1, s2.
  - apply IH. by eapply operator_step_consistent.
Qed.

(** ** The aggregate likelihood *)

(** The engines write to the caches only. *)
Lemma compute_lh_same_state (ft : FeatureType) (self : Self F) (s s' : Sample F)
    (g : component) (caching : bool) (v : F) :
  compute_lh (engine_of ft) self s g caching = Ok (v, s') → same_state s s'.
Proof.
  destruct ft, g; simpl;
    unfold Categorical_compute_lh_clusters, Categorical_compute_lh_confounder,
           Normal_compute_lh_clusters, Normal_compute_lh_confounder,
           Poisson_compute_lh_clusters, Poisson_compute_lh_confounder;
    intros Hrun; inv_result Hrun; injection Hrun as <- <-;
    apply same_state_set_group_likelihoods.
Qed.

Lemma same_state_presence (s s' : Sample F) :
  same_state s s' → same_presence s s'.
Proof. intros Hsame ft. by rewrite (ft_sample_same_state ft s s'). Qed.

Lemma recalculate_presence (values : list (list (list bool))) (s : Sample F) :
  same_presence s (recalculate_feature_counts values s).
Proof.
  intros ft. unfold recalculate_feature_counts.
  destruct (categorical s) as [cat|] eqn:Hcat; [|done].
  destruct ft; simpl; [|done..]. rewrite Hcat. by split; eauto.
Qed.

Lemma GenericType_call_presence (ft : FeatureType) (self : Self F)
    (s s' : Sample F) (caching : bool) (v : F) :
  GenericType_call (engine_of ft) self s caching = Ok (v, s') →
  same_presence s s'.
Proof.
  rewrite GenericType_call_components.
  set (s0 := if caching then s else _).
  assert (Hs0 : same_presence s s0).
  { unfold s0. destruct caching; [done|]. apply recalculate_presence. }
  clearbody s0. generalize fzero at 1. intros acc Hrun.
  enough (same_state s0 s') as Hsame.
  { intros ft'. rewrite (ft_sample_same_state ft' s0 s' Hsame). apply Hs0. }
  clear Hs0. revert acc s0 Hrun.
  induction (components_of self) as [|g gs IH]; intros acc s0 Hrun;
    cbn [for_each] in Hrun.
  - injection Hrun as <- <-. apply same_state_refl.
  - destruct (add_component (engine_of ft) self caching (acc, s0) g)
      as [[v1 s1]|e] eqn:Hg; [|done].
    unfold add_component in Hg. cbn [fst snd] in Hg. inv_result Hg.
    injection Hg as <- <-.
    match goal with
    | Hg : compute_lh _ _ _ _ _ = Ok _ |- _ => apply compute_lh_same_state in Hg
    end.
    apply IH in Hrun.
    by eapply same_state_trans.
Qed.

Lemma is_used_presence (engine : LikelihoodGenericType F) (s s' : Sample F) :
  same_presence s s' → is_used engine s' = is_used engine s.
Proof. intros Hsame. unfold is_used. apply bool_decide_ext, Hsame. Qed.

(** Skipping the engines whose type is absent is the same as summing over
    those whose type is present. *)
Lemma add_if_used_filter (self : Self F) (caching : bool) (s0 : Sample F) :
  ∀ (engines : list (LikelihoodGenericType F)) (acc : F) (s : Sample F),
    Forall (λ engine, ∃ ft, engine = engine_of ft) engines →
    same_presence s0 s →
    for_each engines (add_if_used self caching) (acc, s)
    = for_each (filter (λ engine, is_used engine s0 = true) engines)
        (add_total self caching) (acc, s).
Proof.
  induction engines as [|engine engines IH]; intros acc s Heng Hsame; [done|].
  apply Forall_cons in Heng as [[ft ->] Heng].
  rewrite filter_cons. cbn [for_each].
  change (add_if_used self caching (acc, s) (engine_of ft))
    with (if is_used (engine_of ft) s
          then add_total self caching (acc, s) (engine_of ft) else Ok (acc, s)).
  rewrite (is_used_presence _ s0 s Hsame).
  destruct (is_used (engine_of ft) s0) eqn:Hused.
  - rewrite decide_True by done. cbn [for_each].
    change (add_total self caching (acc, s) (engine_of ft))
      with ('(v, sample) ← GenericType_call (engine_of ft) self s caching;
            Ok (fadd acc v, sample)).
    destruct (GenericType_call (engine_of ft) self s caching) as [[v s']|e] eqn:Hrun;
      [|done].
    unfold mbind at 1 4, result_bind. cbv beta iota.
    apply IH; [done|].
    intros ft'. rewrite (GenericType_call_presence _ _ _ _ _ _ Hrun ft').
    apply Hsame.
  - rewrite decide_False by done. simpl. by apply IH.
Qed.

(** Four steps written one after the other are a loop over four items. *)
Lemma for_each_four {A B X} (body : A * B → X → result (A * B))
    (x1 x2 x3 x4 : X) (acc : A * B) :
  ('(a, b) ← body acc x1;
   '(a, b) ← body (a, b) x2;
   '(a, b) ← body (a, b) x3;
   '(a, b) ← body (a, b) x4;
   Ok (a, b))
  = for_each [x1; x2; x3; x4] body acc.
Proof.
  cbn [for_each]. unfold mbind, result_bind.
  destruct (body acc x1) as [[a1 b1]|e]; [|done].
  destruct (body (a1, b1) x2) as [[a2 b2]|e]; [|done].
  destruct (body (a2, b2) x3) as [[a3 b3]|e]; [|done].
  by destruct (body (a3, b3) x4) as [[a4 b4]|e].
Qed.

(** C4.  [Likelihood.__call__] returns the sum, from [0.0] and in the order
    categorical, Gaussian, Poisson, logit-normal, of the total
    log-likelihoods of the engines it uses, each evaluated on the sample as
    the previous engine left it.  The feature types of the engines it uses
    are exactly those that the sample has: an engine is skipped if and only
    if [sample.<type>] is [None]. *)
Theorem Likelihood_call_sums_used_engines (self : Self F) (sample : Sample F)
    (caching : bool) :
  Likelihood_call (Likelihood_init self) sample caching
  = sum_of_totals (used_engines (Likelihood_init self) sample) self sample caching
  ∧ feature_type <$> used_engines (Likelihood_init self) sample
    = present_types sample.
Proof.
  split.
  - unfold sum_of_totals, used_engines.
    rewrite <- (add_if_used_filter self caching sample).
    + exact (for_each_four (add_if_used self caching) LikelihoodCategorical
               LikelihoodGaussian LikelihoodPoisson LikelihoodLogitNormal
               (fzero, sample)).
    + repeat constructor.
      * by exists ft_categorical.
      * by exists ft_gaussian.
      * by exists ft_poisson.
      * by exists ft_logitnormal.
    + done.
  - unfold used_engines, present_types, engines_of, is_used.
    destruct sample as [cl [cat|] [ga|] [po|] [lo|] co gi ca]; reflexivity.
Qed.

(** ** The neutral patch of the pointwise likelihood *)

(** When [pointwise_likelihood] recomputes, what it returns and commits is
    the array of the component updates with [1.0] assigned at the index that
    [na_values()] returns. *)
Lemma pointwise_likelihood_recomputed (engine : LikelihoodGenericType F)
    (self : Self F) (s s' : Sample F) (caching : bool)
    (out : list (list (list F))) :
  pointwise_likelihood engine self s caching = Ok (out, s') →
  caching && negb (is_outdated (component_likelihoods
                                  (get_ft_cache (feature_type engine) (cache s))))
    = false →
  ∃ fresh : list (list (list F)),
    out = assign_index (na_values engine self) fone fresh ∧
    value (component_likelihoods (get_ft_cache (feature_type engine) (cache s')))
      = out ∧
    outdated (component_likelihoods (get_ft_cache (feature_type engine) (cache s')))
      = false.
Proof.
  unfold pointwise_likelihood. intros Hrun Hstale. rewrite Hstale in Hrun.
  inv_result Hrun; injection Hrun as <- <-; eexists; split_and!;
    try reflexivity; by destruct (feature_type engine).
Qed.

(** Assigning under a mask: the masked entries get the value, for all
    components, and the others are kept. *)
Lemma assign_index_mask {A} (m : list (list bool)) (v : A)
    (a : list (list (list A))) (o f c : nat) (b : bool)
    (mrow : list bool) (arow : list (list A)) (cell : list A) (x : A) :
  m !! o = Some mrow → mrow !! f = Some b →
  a !! o = Some arow → arow !! f = Some cell → cell !! c = Some x →
  ∃ arow' cell',
    assign_index (NaMask m) v a !! o = Some arow' ∧
    arow' !! f = Some cell' ∧
    cell' !! c = Some (if b then v else x).
Proof.
  intros Hm Hb Ha Hf Hc. simpl. eexists _, _. split_and!.
  - by rewrite lookup_zip_with, Hm, Ha.
  - by rewrite lookup_zip_with, Hb, Hf.
  - destruct b; [|done]. by rewrite list_lookup_fmap, Hc.
Qed.

(** Assigning under [None]: every entry gets the value. *)
Lemma assign_index_newaxis {A} (v : A) (a : list (list (list A)))
    (o f c : nat) (row : list (list A)) (cell : list A) (x : A) :
  assign_index NewAxis v a !! o = Some row → row !! f = Some cell →
  cell !! c = Some x → x = v.
Proof.
  simpl. intros Ho Hf Hc.
  apply list_lookup_fmap_Some in Ho as (row0 & -> & _).
  apply list_lookup_fmap_Some in Hf as (cell0 & -> & _).
  by apply list_lookup_fmap_Some in Hc as (x0 & -> & _).
Qed.

(** The Gaussian, Poisson and logit-normal engines inherit [na_values] from
    the base class: whenever they recompute, every entry of the pointwise
    likelihood they return is [1.0], whatever was computed. *)
Lemma pointwise_likelihood_inherited_na_values (ft : FeatureType)
    (self : Self F) (s s' : Sample F) (caching : bool)
    (out : list (list (list F))) (o f c : nat) (row : list (list F))
    (cell : list F) (x : F) :
  ft ≠ ft_categorical →
  pointwise_likelihood (engine_of ft) self s caching = Ok (out, s') →
  caching && negb (is_outdated (component_likelihoods
                                  (get_ft_cache (feature_type (engine_of ft))
                                     (cache s)))) = false →
  out !! o = Some row → row !! f = Some cell → cell !! c = Some x →
  x = fone.
Proof.
  intros Hft Hrun Hstale Ho Hf Hc.
  destruct (pointwise_likelihood_recomputed _ _ _ _ _ _ Hrun Hstale)
    as (fresh & -> & _).
  assert (Hna : na_values (engine_of ft) self = NewAxis) by by destruct ft.
  rewrite Hna in Ho. by eapply assign_index_newaxis.
Qed.

(** The categorical engine overrides [na_values]: whenever it recomputes,
    the entries of the missing observations are [1.0] and all others are
    what the component updates left. *)
Lemma pointwise_likelihood_categorical_patch (self : Self F) (s s' : Sample F)
    (caching : bool) (out : list (list (list F))) :
  pointwise_likelihood LikelihoodCategorical self s caching = Ok (out, s') →
  caching && negb (is_outdated (component_likelihoods
                                  (cache_categorical (cache s)))) = false →
  ∃ fresh : list (list (list F)),
    out = assign_index (NaMask (cat_na_values (features_categorical (features self))))
            fone fresh ∧
    value (component_likelihoods (cache_categorical (cache s'))) = out.
Proof.
  intros Hrun Hstale.
  destruct (pointwise_likelihood_recomputed _ _ _ _ _ _ Hrun Hstale)
    as (fresh & Hout & Hval & _).
  by exists fresh.
Qed.

End EngineSpec.

(** ** Examples on the rational model *)

Import RationalModel.

(** The cold caches are consistent with the state of the example. *)
Lemma sample_example_consistent :
  consistent ft_categorical self_example sample_example.
Proof.
  split_and!.
  - apply NoDup_singleton.
  - vm_compute. reflexivity.
  - intros g ->%list_elem_of_singleton.
    exists cold_cell, [4%Q]. split_and!.
    + reflexivity.
    + split; [eexists; split; [reflexivity|by eexists]|by intros conf [=]].
    + reflexivity.
    + vm_compute. reflexivity.
    + intros [|i] Hi; vm_compute in Hi; [discriminate|].
      by destruct i.
Qed.

Lemma self_example_prior_reads_state : prior_reads_state self_example.
Proof.
  intros conf p s s' Hp _. change (prior_confounding_effects (prior self_example))
    with (∅ : gmap string (ConfoundingEffectPrior Q)) in Hp.
  by rewrite lookup_empty in Hp.
Qed.

(** The stand-in for the counting counts the members of a cluster. *)
Lemma FeatureCounts_Q_by_group : counts_by_group (F:=Q).
Proof.
  intros values cl cl' confs src key j Hcl. simpl.
  destruct (decide (key = "clusters")) as [->|Hne].
  - rewrite !lookup_singleton_eq. simpl.
    by rewrite !list_lookup_fmap, Hcl.
  - by rewrite !lookup_singleton_ne.
Qed.

Lemma self_example_reads_own_group : categorical_reads_own_group self_example.
Proof.
  split; [exact FeatureCounts_Q_by_group|].
  intros conf p s s' Hp _.
  change (prior_confounding_effects (prior self_example))
    with (∅ : gmap string (ConfoundingEffectPrior Q)) in Hp.
  by rewrite lookup_empty in Hp.
Qed.

(** The chain of the example: from the start, an evaluation with caching
    fills the cache; then the second object is put into the second cluster,
    which marks that cluster and leaves the row of the first one in the
    cache. *)
Lemma total_log_likelihood_caching_equivalent_witness :
  ∃ (v : Q) (s1 s2 : Sample Q),
    GenericType_call (engine_of ft_categorical) self_example chain_moved true
      = Ok (v, s1) ∧
    GenericType_call (engine_of ft_categorical) self_example chain_moved false
      = Ok (v, s2) ∧
    closed_form_total ft_categorical self_example chain_moved = Ok v.
Proof.
  apply (total_log_likelihood_caching_equivalent ft_categorical self_example
           sample_two chain_moved).
  - exact self_example_prior_reads_state.
  - intros _. exact self_example_reads_own_group.
  - apply NoDup_singleton.
  - intros g ->%list_elem_of_singleton. eexists. split; reflexivity.
  - intros g cell ->%list_elem_of_singleton Hcell.
    vm_compute in Hcell. injection Hcell as <-. split.
    + split; [eexists; split; [reflexivity|by eexists]|by intros conf [=]].
    + intros [|[|i]] Hi; [eexists; vm_compute; reflexivity..|simpl in Hi; lia].
  - apply (rtc_l _ _ chain_warm).
    { apply (step_likelihood _ _ true _ _ 5%Q). vm_compute. reflexivity. }
    apply rtc_once. apply (step_set_cluster _ _ 1 [false; true] chain_warm).
    { vm_compute. lia. }
    intros g cell ->%list_elem_of_singleton Hcell.
    vm_compute in Hcell. injection Hcell as <-. split.
    + split; [eexists; split; [reflexivity|by eexists]|by intros conf [=]].
    + intros [|[|i]] Hi; [eexists; vm_compute; reflexivity..|simpl in Hi; lia].
Defined.

(** In the sample that the chain of the example ends in, the cell of the
    clusters still holds the row of the first cluster, and only the second
    cluster is marked: the evaluation with caching recomputes one row. *)
Example chain_moved_cell :
  cell_of ft_categorical chain_moved Clusters
  = Some {| value := [3%Q; 2%Q]; outdated := true;
            dirty := {[ "sufficient_stats" := [false; true] ]} |}.
Proof. vm_compute. reflexivity. Qed.

Lemma compute_lh_clusters_recomputes_changed_sums_all_witness :
  ∃ (lh : list Q) (sample' : Sample Q) (cell' : CacheNode (list Q)),
    compute_lh_clusters (engine_of ft_categorical) self_example sample_example true
    = Ok (np_sum lh, sample') ∧
    sample'
    = set_group_likelihoods ft_categorical "clusters"
        (commit lh (what_changed "sufficient_stats" true cold_cell).2)
        sample_example ∧
    rows_after (row_of ft_categorical self_example sample_example Clusters)
      (what_changed "sufficient_stats" true cold_cell).1 (value cold_cell) lh ∧
    (what_changed "sufficient_stats" true cold_cell).1
    = nonzero (dirty_bits cold_cell "sufficient_stats") ∧
    cell_of ft_categorical sample' Clusters = Some cell' ∧
    value cell' = lh ∧
    is_outdated cell' = false ∧
    dirty_bits cell' "sufficient_stats" = zeros (length (value cold_cell)) ∧
    same_state sample_example sample' ∧
    (∀ g, key_of g ≠ "clusters" →
          cell_of ft_categorical sample' g
          = cell_of ft_categorical sample_example g).
Proof.
  apply (compute_lh_clusters_recomputes_changed_sums_all ft_categorical
           self_example sample_example true cold_cell).
  - reflexivity.
  - split; [eexists; split; [reflexivity|by eexists]|by intros conf [=]].
  - reflexivity.
  - intros i Hi. vm_compute in Hi.
    apply list_elem_of_singleton in Hi as ->. by eexists.
Defined.

(** The total of the example is the same with and without caching. *)
Example total_log_likelihood_example :
  fst <$> GenericType_call LikelihoodCategorical self_example sample_example true
    = Ok 4%Q ∧
  fst <$> GenericType_call LikelihoodCategorical self_example sample_example false
    = Ok 4%Q.
Proof. split; vm_compute; reflexivity. Qed.

(** The aggregate of the example: the logit-normal type is absent and its
    engine is skipped. *)
Example Likelihood_call_example :
  fst <$> Likelihood_call (Likelihood_init self_example) sample_example true
    = Ok 15%Q ∧
  feature_type <$> used_engines (Likelihood_init self_example) sample_example
    = [ft_categorical; ft_gaussian; ft_poisson].
Proof. split; vm_compute; reflexivity. Qed.

(** C3, where the code departs from it.  In the example no observation is
    missing.  The Gaussian engine computes 0.5 for both objects of the
    cluster, and the categorical engine keeps the 0.5 it computes (the
    fraction 8/16, which the rational model does not reduce).  But
    [pointwise_likelihood] of the Gaussian engine returns 1.0 for both
    objects: the engine inherits [na_values], which returns [None], and the
    assignment at the index [None] overwrites the whole array. *)
Theorem pointwise_likelihood_gaussian_overwrites_computed :
  Normal_compute_pointwise_cluster_likelihood ft_gaussian self_example
    sample_example [0] [[0%Q]; [0%Q]]
    = Ok [[(1 # 2)%Q]; [(1 # 2)%Q]] ∧
  fst <$> pointwise_likelihood LikelihoodGaussian self_example sample_example true
    = Ok [[[1%Q]]; [[1%Q]]] ∧
  fst <$> pointwise_likelihood LikelihoodCategorical self_example sample_example true
    = Ok [[[(8 # 16)%Q]]; [[(8 # 16)%Q]]].
Proof. split_and!; vm_compute; reflexivity. Qed.

End LikelihoodSpec.

(** ** Properties of the further functions *)

Module SeedSpec.
Import Initializer.

(** With fewer free objects than clusters left to seed, the loop runs out of
    objects. *)
Lemma seed_loop_short (rnd : nat → nat) (i_cs : list nat) :
  ∀ (clusters : list (list bool)) (free_objs : list nat),
    length free_objs < length i_cs →
    seed_loop rnd i_cs clusters free_objs = Raise ValueError.
Proof.
  induction i_cs as [|i_c i_cs IH]; intros clusters free_objs Hlt; cbn in *.
  - lia.
  - destruct (random_pick (rnd i_c) free_objs) as [j|] eqn:Hj; [|done].
    apply random_pick_elem, length_list_remove in Hj. apply IH. lia.
Qed.

(** X1.  [initialize_clusters] raises exactly when there are more clusters
    than objects, and what it raises then is the [ValueError] of
    [random.sample] on the list of free objects, which has become empty. *)
Theorem initialize_clusters_too_many (n_clusters n_objects : nat)
    (rnd : nat → nat) :
  (initialize_clusters n_clusters n_objects rnd = Raise ValueError
   ↔ n_objects < n_clusters) ∧
  ((∃ clusters, initialize_clusters n_clusters n_objects rnd = Ok clusters)
   ↔ n_clusters ≤ n_objects).
Proof.
  assert (Hshort : n_objects < n_clusters →
            initialize_clusters n_clusters n_objects rnd = Raise ValueError).
  { intros Hlt. unfold initialize_clusters. apply seed_loop_short.
    by rewrite !length_seq. }
  assert (Hfit : n_clusters ≤ n_objects →
            ∃ clusters, initialize_clusters n_clusters n_objects rnd = Ok clusters).
  { intros Hle. unfold initialize_clusters.
    destruct (InitializerSpec.seed_loop_seq rnd n_objects n_clusters 0
                (replicate n_clusters (zeros n_objects)) (seq 0 n_objects) [])
      as (clusters & seeds & Hrun & _); [done| | | | | | | | |by exists clusters].
    - by rewrite length_replicate.
    - apply NoDup_seq.
    - constructor.
    - intros x Hx%elem_of_seq. split; [lia|]. by intros ?%elem_of_nil.
    - constructor.
    - by rewrite length_seq.
    - intros k s Hk. by rewrite lookup_nil in Hk.
    - intros k Hk. apply lookup_replicate_2. lia. }
  split; split; [|done| |done].
  - intros Hraise. destruct (decide (n_objects < n_clusters)) as [|Hge]; [done|].
    destruct (Hfit ltac:(lia)) as [clusters Hok]. congruence.
  - intros [clusters Hok].
    destruct (decide (n_clusters ≤ n_objects)) as [|Hgt]; [done|].
    rewrite Hshort in Hok by lia. done.
Qed.

End SeedSpec.

Module RandomClustersSpec.
Import Initializer RandomClusters.

Lemma mask_union_lookup_l (a b : list bool) (j : nat) :
  length a = length b → a !! j = Some true → mask_union a b !! j = Some true.
Proof.
  intros Hlen Ha. unfold mask_union.
  destruct (lookup_lt_is_Some_2 b j) as [y Hy].
  { apply lookup_lt_Some in Ha. lia. }
  rewrite lookup_zip_with, Ha, Hy. done.
Qed.

Lemma mask_union_lookup_r (a b : list bool) (j : nat) :
  length a = length b → b !! j = Some true → mask_union a b !! j = Some true.
Proof.
  intros Hlen Hb. unfold mask_union.
  destruct (lookup_lt_is_Some_2 a j) as [x Hx].
  { apply lookup_lt_Some in Hb. lia. }
  rewrite lookup_zip_with, Hx, Hb. cbn. by rewrite orb_true_r.
Qed.

Section Pass.
Variable n_objects n_clusters : nat.
Variable adj_mat : list (list bool).
Variable rnd : nat → nat → nat.
Variable k : Z.
Hypothesis k_pos : (1 ≤ k)%Z.
Variable l : loc.

#[local] Abbreviation grown := (RandomClusters.grown n_objects k).

Lemma grow_pass_spec (m : nat) :
  ∀ (i call : nat) (cls : list (list bool)) (occ : list bool) (h : heap),
    i + m = n_clusters → length cls = n_clusters →
    h !! l = Some occ → length occ = n_objects →
    grown i occ cls →
    ∃ (cls' : list (list bool)) (call' : nat) (h' : heap) (occ' : list bool),
      length cls' = n_clusters ∧ h' !! l = Some occ' ∧ length occ' = n_objects ∧
      ((grow_pass n_objects adj_mat rnd k l (seq i m) call cls h
          = (Completed cls', call', h') ∧ grown n_clusters occ' cls')
       ∨ grow_pass n_objects adj_mat rnd k l (seq i m) call cls h
          = (Broke cls', call', h')).
Proof.
  induction m as [|m IH]; intros i call cls occ h Him Hlen Hl Hocc Hg.
  - exists cls, call, h, occ. split_and!; [done..|]. left. split; [done|].
    by replace n_clusters with i by lia.
  - cbn [seq grow_pass grow_cluster_of_size_k].
    destruct (InitializerSpec.grow_cluster_from_spec n_objects adj_mat occ Hocc
                (rnd call) l k h Hl)
      as [[_ ->]|(_ & h' & s & cl & Hframe & Hl' & Hfg & Hres)].
    { exists cls, (S call), h, occ. split_and!; [done..|]. by right. }
    destruct (InitializerSpec.frontier_grown_inv n_objects adj_mat occ Hocc
                s cl _ Hfg) as (Hlc & Hlu & Hcount & _ & _ & Hfree).
    destruct Hres as [[-> ->]|(_ & _ & ->)].
    2:{ exists cls, (S call), h', (mask_union occ cl).
        split_and!; [done..|]. by right. }
    destruct (IH (S i) (S call) (<[i:=cl]> cls) (mask_union occ cl) h')
      as (cls' & call' & h'' & occ' & H1 & H2 & H3 & H4).
    + lia.
    + by rewrite length_insert.
    + done.
    + done.
    + destruct Hg as [Hrows Hdisj]. split.
      * intros a Ha. destruct (decide (a = i)) as [->|Hne].
        -- exists cl. rewrite list_lookup_insert_eq by lia.
           split_and!; [done|done|lia|].
           intros j Hj. apply mask_union_lookup_r; [lia|done].
        -- destruct (Hrows a ltac:(lia)) as (row & Hrow & Hlr & Hcr & Hsub).
           exists row. rewrite list_lookup_insert_ne by done.
           split_and!; [done..|].
           intros j Hj. apply mask_union_lookup_l; [lia|by apply Hsub].
      * intros a b row1 row2 j Ha Hb Hr1 Hr2 Hj1 Hj2.
        destruct (decide (a = i)) as [->|Hai], (decide (b = i)) as [->|Hbi];
          [done| | |].
        -- rewrite list_lookup_insert_eq in Hr1 by lia. injection Hr1 as <-.
           rewrite list_lookup_insert_ne in Hr2 by done.
           destruct (Hrows b ltac:(lia)) as (row & Hrow & _ & _ & Hsub).
           assert (row = row2) as -> by congruence.
           apply Hfree in Hj1. apply Hsub in Hj2. congruence.
        -- rewrite list_lookup_insert_eq in Hr2 by lia. injection Hr2 as <-.
           rewrite list_lookup_insert_ne in Hr1 by done.
           destruct (Hrows a ltac:(lia)) as (row & Hrow & _ & _ & Hsub).
           assert (row = row1) as -> by congruence.
           apply Hfree in Hj2. apply Hsub in Hj1. congruence.
        -- rewrite list_lookup_insert_ne in Hr1, Hr2 by done.
           apply (Hdisj a b row1 row2 j); [lia|lia|done..].
    + exists cls', call', h'', occ'. done.
Qed.

End Pass.

Lemma grown_all (n_objects n_clusters : nat) (k : Z) (occ : list bool)
    (cls : list (list bool)) :
  length cls = n_clusters → grown n_objects k n_clusters occ cls →
  Forall (λ row, length row = n_objects ∧ count_true row = Z.to_nat k) cls ∧
  disjoint_rows cls.
Proof.
  intros Hlen [Hrows Hdisj]. split.
  - apply Forall_lookup. intros a row Ha.
    apply lookup_lt_Some in Ha as Hlt.
    destruct (Hrows a ltac:(lia)) as (row' & Hrow' & ? & ? & _).
    assert (row' = row) as -> by congruence. done.
  - intros i1 i2 row1 row2 j H1 H2.
    apply lookup_lt_Some in H1 as Hlt1. apply lookup_lt_Some in H2 as Hlt2.
    apply Hdisj; [lia|lia|done..].
Qed.

Lemma grown_none (n_objects : nat) (k : Z) (occ : list bool)
    (cls : list (list bool)) : grown n_objects k 0 occ cls.
Proof. split; intros; lia. Qed.

Section Loop.
Variable n_objects n_clusters : nat.
Variable adj_mat : list (list bool).
Variable rnd : nat → nat → nat.

(** The loop [while True] ends: by returning clusters grown in its last
    pass, or by raising [ValueError] once the attempts are used up. *)
Lemma grow_random_loop_spec (budget : nat) :
  ∀ (k : Z) (restart : bool) (l : loc) (cls : list (list bool))
    (call : nat) (h : heap),
    (1 ≤ k)%Z →
    (restart = false →
       length cls = n_clusters ∧
       ∃ occ, h !! l = Some occ ∧ length occ = n_objects) →
    ∃ (r : result (list (list bool))) (k' : Z) (h' : heap),
      grow_random_loop n_objects n_clusters adj_mat rnd budget k restart l
        cls call h = (r, k', h') ∧
      (1 ≤ k' ≤ k)%Z ∧ (k' = k ∨ 3 ≤ k')%Z ∧
      (r = Raise ValueError ∨
       ∃ clusters, r = Ok clusters ∧ length clusters = n_clusters ∧
         Forall (λ row, length row = n_objects ∧ count_true row = Z.to_nat k')
           clusters ∧
         disjoint_rows clusters).
Proof.
  induction budget as [|budget IH]; intros k restart l cls call h Hk Hstate.
  all: assert (Hentry : ∃ l0 cls0 h0 occ0,
          (if restart then
             let '(l1, h1) := alloc (zeros n_objects) h in
             (l1, replicate n_clusters (zeros n_objects), h1)
           else (l, cls, h)) = (l0, cls0, h0) ∧
          length cls0 = n_clusters ∧ h0 !! l0 = Some occ0 ∧
          length occ0 = n_objects).
  1,3: destruct restart; cbn;
    [ eexists _, _, _, (zeros n_objects); split_and!;
        [done|by rewrite length_replicate|by rewrite lookup_insert_eq|
         unfold zeros; by rewrite length_replicate]
    | destruct (Hstate eq_refl) as (Hlen & occ & Hocc & Hlocc);
      eexists _, _, _, occ; done ].
  all: destruct Hentry as (l0 & cls0 & h0 & occ0 & Hentry & Hlen0 & Hl0 & Hocc0).
  all: cbn [grow_random_loop]; rewrite Hentry.
  all: destruct (grow_pass_spec n_objects n_clusters adj_mat rnd k Hk l0
                   n_clusters 0 call cls0 occ0 h0 eq_refl Hlen0 Hl0 Hocc0
                   (grown_none _ _ _ _))
      as (cls' & call' & h' & occ' & Hlen' & Hl' & Hocc' & [[-> Hg]| ->]).
  1,3: destruct (grown_all _ _ _ _ _ Hlen' Hg) as [Hall Hdisj];
       eexists _, _, _; split; [done|]; split_and!; [lia|lia|by left|];
       right; by exists cls'.
  - eexists _, _, _. split; [done|]. split_and!; [lia|lia|by left|by left].
  - case_decide as Hrestart.
    + destruct (IH (k - 1)%Z true l0 cls' call' h' ltac:(lia) ltac:(done))
        as (r & k' & h'' & -> & Hk' & Hk3 & Hres).
      exists r, k', h''. split; [done|]. split_and!; [lia|lia|lia|done].
    + destruct (IH k false l0 cls' call' h' Hk) as (r & k' & h'' & -> & ?).
      { intros _. split; [done|]. by exists occ'. }
      by exists r, k', h''.
Qed.

End Loop.

(** X2.  For a square adjacency matrix over the objects and an initial size
    of at least 1, [grow_random_clusters] ends in one of two ways.  It
    returns [n_clusters] clusters that are pairwise disjoint and hold the
    same number of objects each, [self.initial_size] as the function leaves
    it; or it raises [ValueError].  A [ClusterError] never leaves the
    function.  The size it leaves is the size it was given, or a smaller one
    that is at least 3. *)
Theorem grow_random_clusters_disjoint (n_objects n_clusters : nat)
    (adj_mat : list (list bool)) (rnd : nat → nat → nat) (initial_size : Z)
    (h : heap) :
  (1 ≤ initial_size)%Z →
  length adj_mat = n_objects →
  Forall (λ row, length row = n_objects) adj_mat →
  ∃ (r : result (list (list bool))) (k' : Z) (h' : heap),
    grow_random_clusters n_objects n_clusters adj_mat rnd initial_size h
      = (r, k', h') ∧
    (1 ≤ k' ≤ initial_size)%Z ∧ (k' = initial_size ∨ 3 ≤ k')%Z ∧
    (r = Raise ValueError ∨
     ∃ clusters, r = Ok clusters ∧ length clusters = n_clusters ∧
       Forall (λ row, length row = n_objects ∧ count_true row = Z.to_nat k')
         clusters ∧
       disjoint_rows clusters).
Proof.
  intros Hk _ _. unfold grow_random_clusters.
  destruct (decide (n_clusters = 0)) as [->|Hn].
  - exists (Ok []), initial_size, h. split_and!; [done|lia|lia|by left|].
    right. exists []. split_and!; [done|done|constructor|].
    intros i1 i2 row1 row2 j Hnil. by rewrite lookup_nil in Hnil.
  - unfold alloc. cbv beta iota zeta.
    apply grow_random_loop_spec; [done|]. intros _.
    split; [by rewrite length_replicate|].
    exists (zeros n_objects). rewrite lookup_insert_eq.
    split; [done|]. unfold zeros. by rewrite length_replicate.
Qed.

Lemma grow_random_clusters_disjoint_witness :
  ∃ (r : result (list (list bool))) (k' : Z) (h' : heap),
    grow_random_clusters 4 2 (path_graph 4) (λ _ _, 0) 2 ∅ = (r, k', h') ∧
    (1 ≤ k' ≤ 2)%Z ∧ (k' = 2 ∨ 3 ≤ k')%Z ∧
    (r = Raise ValueError ∨
     ∃ clusters, r = Ok clusters ∧ length clusters = 2 ∧
       Forall (λ row, length row = 4 ∧ count_true row = Z.to_nat k') clusters ∧
       disjoint_rows clusters).
Proof.
  apply (grow_random_clusters_disjoint 4 2 (path_graph 4) (λ _ _, 0) 2 ∅).
  - lia.
  - reflexivity.
  - repeat constructor.
Defined.

(** On the path of four objects, with every draw the first candidate, the
    two clusters of two objects are found in the first pass. *)
Example grow_random_clusters_path_graph :
  (grow_random_clusters 4 2 (path_graph 4) (λ _ _, 0) 2 ∅).1
  = (Ok [[true; true; false; false]; [false; false; true; true]], 2%Z).
Proof. vm_compute. reflexivity. Qed.

End RandomClustersSpec.

Module InitialParametersSpec.
Import Weights InitialParameters.
#[local] Open Scope Q_scope.

Lemma sum_Q_replicate_one (n : nat) :
  sum_Q (replicate n 1) == inject_Z (Z.of_nat n).
Proof.
  induction n as [|n IH]; [done|]. cbn [replicate].
  rewrite WeightsSpec.sum_Q_cons, IH, Nat2Z.inj_succ.
  unfold Z.succ. rewrite inject_Z_plus. ring.
Qed.

(** X3.  The initial weights are uniform: for every feature each of the
    [1 + n_confounders] components gets the weight [1 / (1 + n_confounders)],
    and the weights of a feature sum to one. *)
Theorem generate_initial_weights_uniform (n_features n_confounders : nat) :
  length (generate_initial_weights n_features n_confounders) = n_features ∧
  ∀ w, w ∈ generate_initial_weights n_features n_confounders →
    sums_to_one w ∧
    ∃ qs, w = map Some qs ∧ length qs = S n_confounders ∧
          Forall (λ q, q == 1 / inject_Z (Z.of_nat (S n_confounders))) qs.
Proof.
  unfold generate_initial_weights, normalize, np_ones.
  split; [by rewrite length_map, length_replicate|].
  intros w (row & -> & [-> _]%elem_of_replicate)%list_elem_of_fmap.
  assert (Hpos : 0 < sum_Q (replicate (1 + n_confounders) 1)).
  { rewrite sum_Q_replicate_one. change 0 with (inject_Z 0).
    rewrite <- Zlt_Qlt. lia. }
  split; [by apply WeightsSpec.normalize_row_sums_to_one|].
  exists (map (λ x, x / sum_Q (replicate (1 + n_confounders) 1))
            (replicate (1 + n_confounders) 1)).
  split_and!.
  - unfold normalize_row, fdiv. rewrite map_map.
    destruct (Qeq_bool (sum_Q (replicate (1 + n_confounders) 1)) 0) eqn:Hz; [|done].
    apply Qeq_bool_eq in Hz. rewrite Hz in Hpos. by apply Qlt_irrefl in Hpos.
  - by rewrite length_map, length_replicate.
  - apply Forall_forall. intros q (x & -> & [-> _]%elem_of_replicate)%list_elem_of_fmap.
    by rewrite sum_Q_replicate_one.
Qed.

(** A matrix of [rows] x [cols] numbers, none negative. *)
#[local] Abbreviation counts_matrix rows cols a :=
  (length a = rows ∧
   Forall (λ row : list Q, length row = cols ∧ Forall (λ x, 0 <= x) row) a).

Lemma nansum_axis0_counts (n_features n_states : nat)
    (features_group : list (list (list (option Q)))) :
  well_formed_features n_features n_states features_group →
  counts_matrix n_features n_states
    (nansum_axis0 n_features n_states features_group).
Proof.
  induction 1 as [|obj fg [Hlo Hobj] _ [IHl IHrows]]; cbn [nansum_axis0 foldr].
  - split; [by rewrite length_replicate|].
    apply Forall_forall. intros row [-> _]%elem_of_replicate.
    split; [by rewrite length_replicate|].
    apply Forall_forall. by intros x [-> _]%elem_of_replicate.
  - fold (nansum_axis0 n_features n_states fg).
    split; [rewrite length_zip_with; lia|].
    apply Forall_lookup. intros f row Hrow.
    apply lookup_zip_with_Some in Hrow as (states & acc & -> & Hst & Hacc).
    eapply Forall_lookup_1 in Hobj as [Hls Hnn]; [|exact Hst].
    eapply Forall_lookup_1 in IHrows as [Hla Hacc_nn]; [|exact Hacc].
    split; [rewrite length_zip_with; lia|].
    apply Forall_lookup. intros s x Hx.
    apply lookup_zip_with_Some in Hx as (v & a & -> & Hv & Ha).
    eapply Forall_lookup_1 in Hnn; [|exact Hv].
    eapply Forall_lookup_1 in Hacc_nn; [|exact Ha]. cbn in Hacc_nn.
    replace 0 with (0 + 0) by done. apply Qplus_le_compat; [|done].
    destruct v as [q|]; cbn; [by apply Hnn|done].
Qed.

Lemma add_one_where_counts (n_features n_states : nat)
    (mask : list (list bool)) (a : list (list Q)) :
  length mask = n_features → Forall (λ m, length m = n_states) mask →
  counts_matrix n_features n_states a →
  counts_matrix n_features n_states (add_one_where mask a) ∧
  ∀ f states s, mask !! f = Some states → states !! s = Some true →
    ∃ row x, add_one_where mask a !! f = Some row ∧ row !! s = Some x ∧ 0 < x.
Proof.
  intros Hlm Hmask [Hla Ha]. unfold add_one_where. split; [split|].
  - rewrite length_zip_with. lia.
  - apply Forall_lookup. intros f row Hrow.
    apply lookup_zip_with_Some in Hrow as (m & r & -> & Hm & Hr).
    eapply Forall_lookup_1 in Hmask; [|exact Hm].
    eapply Forall_lookup_1 in Ha as [Hlr Hnn]; [|exact Hr].
    split; [rewrite length_zip_with; lia|].
    apply Forall_lookup. intros s x Hx.
    apply lookup_zip_with_Some in Hx as (b & v & -> & Hb & Hv).
    eapply Forall_lookup_1 in Hnn; [|exact Hv]. cbn in Hnn.
    destruct b; [|done]. replace 0 with (0 + 0) by done.
    by apply Qplus_le_compat.
  - intros f states s Hf Hs.
    destruct (lookup_lt_is_Some_2 a f) as [r Hr].
    { apply lookup_lt_Some in Hf. lia. }
    eapply Forall_lookup_1 in Hmask; [|exact Hf].
    eapply Forall_lookup_1 in Ha as [Hlr Hnn]; [|exact Hr].
    destruct (lookup_lt_is_Some_2 r s) as [v Hv].
    { apply lookup_lt_Some in Hs. lia. }
    eapply Forall_lookup_1 in Hnn; [|exact Hv]. cbn in Hnn.
    exists (zip_with (λ (b : bool) v, if b then v + 1 else v) states r), (v + 1).
    split_and!.
    + by rewrite lookup_zip_with, Hf, Hr.
    + by rewrite lookup_zip_with, Hs, Hv.
    + apply Qlt_le_trans with (0 + 1); [done|].
      apply Qplus_le_compat; [done|apply Qle_refl].
Qed.

Lemma normalize_row_smoothed (states : list bool) (w : list Q) :
  Forall (λ x, 0 <= x) w →
  (∃ s, states !! s = Some true) →
  (∀ s, states !! s = Some true → ∃ x, w !! s = Some x ∧ 0 < x) →
  smoothed states (normalize_row w).
Proof.
  intros Hnn [s0 Hs0] Hpos.
  assert (Hsum : 0 < sum_Q w).
  { destruct (Hpos s0 Hs0) as (x & Hx & Hx0).
    by apply (WeightsSpec.sum_Q_pos w s0 x). }
  split; [by apply WeightsSpec.normalize_row_sums_to_one|].
  intros s Hs. destruct (Hpos s Hs) as (x & Hx & Hx0).
  exists (x / sum_Q w). split.
  - unfold normalize_row. rewrite list_lookup_fmap, Hx. cbn. unfold fdiv.
    destruct (Qeq_bool (sum_Q w) 0) eqn:Hz; [|done].
    apply Qeq_bool_eq in Hz. rewrite Hz in Hsum. by apply Qlt_irrefl in Hsum.
  - apply Qlt_shift_div_l; [done|]. by rewrite Qmult_0_l.
Qed.

(** X4.  For a confounder of the model, observations that are [nan] or not
    negative, and arrays of matching shapes, the initial confounding effect
    is defined for every group; and for every group and every feature with
    an applicable state, its entries are finite, they sum to one, and every
    applicable state has a positive probability, also in a group without
    members or without observations of that feature. *)
Theorem generate_initial_confounding_effect_smoothed
    (features : list (list (list (option Q))))
    (applicable_states : list (list bool)) (n_features n_states : nat)
    (confounders : gmap string ConfounderGroups) (conf : string)
    (c : ConfounderGroups) :
  confounders !! conf = Some c →
  (n_groups c ≤ length (group_assignment c))%nat →
  Forall (λ group, (length group ≤ length features)%nat) (group_assignment c) →
  well_formed_features n_features n_states features →
  length applicable_states = n_features →
  Forall (λ m, length m = n_states) applicable_states →
  ∃ effect,
    generate_initial_confounding_effect features applicable_states
      n_features n_states confounders conf = Ok effect ∧
    length effect = n_groups c ∧
    ∀ g p_group, effect !! g = Some p_group →
      length p_group = n_features ∧
      ∀ f p states, p_group !! f = Some p →
        applicable_states !! f = Some states →
        (∃ s, states !! s = Some true) → smoothed states p.
Proof.
  intros Hconf Hng Hgroups Hwf Hlm Hmask.
  unfold generate_initial_confounding_effect, getkey. rewrite Hconf. cbn.
  set (body := λ g : nat, _).
  assert (Hbody : ∀ g, (g < n_groups c)%nat →
    ∃ p_group, body g = Ok p_group ∧ length p_group = n_features ∧
      ∀ f p states, p_group !! f = Some p →
        applicable_states !! f = Some states →
        (∃ s, states !! s = Some true) → smoothed states p).
  { intros g Hg. unfold body.
    destruct (lookup_lt_is_Some_2 (group_assignment c) g) as [group Hgroup];
      [lia|].
    rewrite (LikelihoodSpec.getitem_Ok _ _ _ Hgroup). cbn.
    eapply Forall_lookup_1 in Hgroups; [|exact Hgroup]. cbn in Hgroups.
    destruct (LikelihoodSpec.traverse_pointwise (getitem features) (nonzero group))
      as [fg Hfg].
    { intros i Hi. apply InitializerSpec.elem_of_nonzero in Hi.
      apply lookup_lt_Some in Hi.
      destruct (lookup_lt_is_Some_2 features i) as [obj Hobj]; [lia|].
      exists obj. by apply LikelihoodSpec.getitem_Ok. }
    rewrite Hfg. cbn.
    assert (Hwfg : well_formed_features n_features n_states fg).
    { apply LikelihoodSpec.traverse_Ok in Hfg as [Hlfg Hfg].
      apply Forall_lookup. intros k obj Hk.
      destruct (lookup_lt_is_Some_2 (nonzero group) k) as [i Hi].
      { apply lookup_lt_Some in Hk. lia. }
      destruct (Hfg k i Hi) as (obj' & Hget & Hk').
      assert (obj' = obj) as -> by congruence.
      unfold getitem in Hget. destruct (features !! i) as [o|] eqn:Ho; [|done].
      injection Hget as ->. by eapply Forall_lookup_1 in Hwf. }
    apply nansum_axis0_counts in Hwfg.
    destruct (add_one_where_counts n_features n_states applicable_states _
                Hlm Hmask Hwfg) as [[Hlen Hrows] Hone].
    eexists. split; [done|]. split; [by rewrite length_map|].
    intros f p states Hp Hstates Hsome.
    rewrite list_lookup_fmap in Hp.
    destruct (add_one_where applicable_states
                (nansum_axis0 n_features n_states fg) !! f) as [w|] eqn:Hw;
      [|done].
    injection Hp as <-.
    eapply Forall_lookup_1 in Hrows as [_ Hnn]; [|exact Hw].
    apply normalize_row_smoothed; [done|done|].
    intros s Hs. destruct (Hone f states s Hstates Hs) as (row & x & Hrow & Hx & Hx0).
    assert (row = w) as -> by congruence. by exists x. }
  clearbody body.
  assert (Hrun : ∃ effect, traverse body (seq 0 (n_groups c)) = Ok effect).
  { apply LikelihoodSpec.traverse_pointwise. intros g Hg%elem_of_seq.
    destruct (Hbody g ltac:(lia)) as (p_group & Hp & _). by exists p_group. }
  destruct Hrun as [effect Hrun]. exists effect. split; [done|].
  apply LikelihoodSpec.traverse_Ok in Hrun as [Hlen Hrun].
  rewrite length_seq in Hlen. split; [done|].
  intros g p_group Hg. apply lookup_lt_Some in Hg as Hlt.
  destruct (Hrun g g) as (p' & Hp' & Hg').
  { apply lookup_seq. lia. }
  assert (p' = p_group) as -> by congruence.
  destruct (Hbody g ltac:(lia)) as (p'' & Hp'' & Hspec).
  assert (p'' = p_group) as -> by congruence. done.
Qed.

Lemma generate_initial_confounding_effect_smoothed_witness :
  ∃ effect,
    generate_initial_confounding_effect
      [[[Some 1; Some 0]]; [[None; None]]] [[true; true]] 1 2
      {[ "family" := {| n_groups := 2;
                        group_assignment := [[true; true]; [false; false]] |} ]}
      "family" = Ok effect ∧
    length effect = 2%nat ∧
    ∀ g p_group, effect !! g = Some p_group →
      length p_group = 1%nat ∧
      ∀ f p states, p_group !! f = Some p →
        [[true; true]] !! f = Some states →
        (∃ s, states !! s = Some true) → smoothed states p.
Proof.
  apply (generate_initial_confounding_effect_smoothed
           [[[Some 1; Some 0]]; [[None; None]]] [[true; true]] 1 2
           {[ "family" := {| n_groups := 2;
                             group_assignment := [[true; true]; [false; false]] |} ]}
           "family"
           {| n_groups := 2; group_assignment := [[true; true]; [false; false]] |}).
  - reflexivity.
  - cbn. lia.
  - repeat constructor.
  - repeat constructor; intros q [= <-]; done.
  - reflexivity.
  - repeat constructor.
Defined.

(** Two objects of one group, one of them without observation: the counts
    1 and 0 become the probabilities 2/3 and 1/3; the group without members
    gets 1/2 and 1/2. *)
Example generate_initial_confounding_effect_example :
  generate_initial_confounding_effect
    [[[Some 1; Some 0]]; [[None; None]]] [[true; true]] 1 2
    {[ "family" := {| n_groups := 2;
                      group_assignment := [[true; true]; [false; false]] |} ]}
    "family"
  = Ok [[[Some (2 # 3); Some (1 # 3)]]; [[Some (1 # 2); Some (1 # 2)]]].
Proof. vm_compute. reflexivity. Qed.

End InitialParametersSpec.

Module BestOfAttemptsSpec.
Import BestOfAttempts.

Lemma float_gt_trans (a b c : float) :
  float_gt a b = true → float_gt b c = true → float_gt a c = true.
Proof.
  destruct a as [| |x|], b as [| |y|], c as [| |z|]; cbn; try done.
  rewrite !negb_true_iff. intros Hxy Hyz.
  destruct (Qle_bool x z) eqn:Hxz; [|done].
  apply Qle_bool_iff in Hxz.
  assert (Hzy : ¬ (y <= z)%Q) by (rewrite <- Qle_bool_iff; congruence).
  assert (Hyx : ¬ (x <= y)%Q) by (rewrite <- Qle_bool_iff; congruence).
  apply Qnot_le_lt in Hzy, Hyx. exfalso.
  apply (Qlt_irrefl x). eapply Qle_lt_trans; [exact Hxz|].
  by eapply Qlt_trans.
Qed.

(** What does not exceed [b] is exceeded by what exceeds [b], unless it is
    [nan]. *)
Lemma float_gt_le (a b c : float) :
  float_gt a b = true → float_gt c b = false →
  float_gt a c = true ∨ c = NaN.
Proof.
  destruct a as [| |x|], b as [| |y|], c as [| |z|]; cbn; try done; auto.
  rewrite negb_true_iff, negb_false_iff. intros Hxy Hzy. left.
  apply negb_true_iff. destruct (Qle_bool x z) eqn:Hxz; [|done].
  apply Qle_bool_iff in Hxz, Hzy.
  assert (Hyx : ¬ (x <= y)%Q) by (rewrite <- Qle_bool_iff; congruence).
  exfalso. apply Hyx. by eapply Qle_trans.
Qed.

Lemma float_gt_irrefl (a : float) : float_gt a a = false.
Proof.
  destruct a as [| |x|]; cbn; try done.
  apply negb_false_iff, Qle_bool_iff, Qle_refl.
Qed.

Section GenerateSampleSpec.
Context {Sample State : Type}.
Variable generate_sample_attempt : State → Sample * State.
Variable model : Sample → float * Sample.

#[local] Abbreviation attempts_loop :=
  (BestOfAttempts.attempts_loop generate_sample_attempt model).
#[local] Abbreviation attempts :=
  (BestOfAttempts.attempts generate_sample_attempt model).

(** The variables [best_sample] and [best_lh] after the attempts [tried]. *)
#[local] Abbreviation tracked tried best_sample best_lh :=
  (match best_sample with
   | None =>
       best_lh = NegInf ∧
       ∀ (s : Sample) lh, (s, lh) ∈ tried → float_gt lh NegInf = false
   | Some sample =>
       ∃ i : nat,
         tried !! i = Some (sample, best_lh) ∧ float_gt best_lh NegInf = true ∧
         (∀ (s' : Sample) lh', (s', lh') ∈ tried → float_gt lh' best_lh = false) ∧
         (∀ j (s' : Sample) lh', j < i → tried !! j = Some (s', lh') →
            float_gt best_lh lh' = true ∨ lh' = NaN)
   end).

Lemma tracked_exceeds (tried : list (Sample * float))
    (best_sample : option Sample) (best_lh : float) :
  tracked tried best_sample best_lh →
  ∀ s lh, (s, lh) ∈ tried → float_gt lh best_lh = false.
Proof.
  destruct best_sample as [sample|].
  - intros (i & _ & _ & Hmax & _). exact Hmax.
  - intros [-> Hall]. exact Hall.
Qed.

(** The loop keeps [best_sample] the best of the attempts made so far. *)
Lemma attempts_loop_tracked (n : nat) :
  ∀ (tried : list (Sample * float)) (best_sample : option Sample)
    (best_lh : float) (st : State),
    tracked tried best_sample best_lh →
    best_of (tried ++ attempts n st)
      (attempts_loop n best_sample best_lh st).1.
Proof.
  induction n as [|n IH]; intros tried best_sample best_lh st Hinv.
  - cbn. rewrite app_nil_r. destruct best_sample as [sample|].
    + destruct Hinv as (i & Hi & Hpos & Hmax & Hfirst).
      by exists i, best_lh.
    + by destruct Hinv as [_ Hall].
  - cbn [BestOfAttempts.attempts_loop BestOfAttempts.attempts].
    destruct (generate_sample_attempt st) as [sample0 st1].
    destruct (model sample0) as [lh sample].
    rewrite (cons_middle (sample, lh)), app_assoc.
    pose proof (tracked_exceeds _ _ _ Hinv) as Hmax.
    destruct (float_gt lh best_lh) eqn:Hgt; apply IH.
    + exists (length tried). split_and!.
      * rewrite lookup_app_r by lia. by rewrite Nat.sub_diag.
      * destruct best_sample as [s|].
        -- destruct Hinv as (i & _ & Hpos & _). by eapply float_gt_trans.
        -- destruct Hinv as [-> _]. done.
      * intros s' lh' [Hin|Hin%list_elem_of_singleton]%elem_of_app.
        -- destruct (float_gt lh' lh) eqn:Hgt'; [|done].
           rewrite <- (Hmax s' lh' Hin). symmetry. by eapply float_gt_trans.
        -- injection Hin as -> ->. apply float_gt_irrefl.
      * intros j s' lh' Hj Hlook. rewrite lookup_app_l in Hlook by done.
        apply list_elem_of_lookup_2 in Hlook.
        eapply float_gt_le; [exact Hgt|]. by eapply Hmax.
    + destruct best_sample as [s|].
      * destruct Hinv as (i & Hi & Hpos & _ & Hfirst). exists i.
        apply lookup_lt_Some in Hi as Hlt. split_and!.
        -- by rewrite lookup_app_l.
        -- done.
        -- intros s' lh' [Hin|Hin%list_elem_of_singleton]%elem_of_app.
           ++ by eapply Hmax.
           ++ by injection Hin as -> ->.
        -- intros j s' lh' Hj Hlook. rewrite lookup_app_l in Hlook by lia.
           by eapply Hfirst.
      * destruct Hinv as [-> Hall]. split; [done|].
        intros s' lh' [Hin|Hin%list_elem_of_singleton]%elem_of_app.
        -- by eapply Hall.
        -- by injection Hin as -> ->.
Qed.

(** X5.  With a positive number of attempts, [generate_sample] returns the
    best of the attempts: the sample of the first attempt whose value under
    the model exceeds [-inf] and is exceeded by no other value.  When the
    value of every attempt is [-inf] or [nan] it returns [None], no sample
    at all. *)
Theorem generate_sample_best (initialization_attempts : Z) (st : State) :
  (0 < initialization_attempts)%Z →
  ∃ (best : option Sample) (st' : State),
    generate_sample generate_sample_attempt model initialization_attempts st
    = (Some best, st') ∧
    best_of (attempts (Z.to_nat initialization_attempts) st) best.
Proof.
  intros Hpos. unfold generate_sample. rewrite decide_True by done.
  pose proof (attempts_loop_tracked (Z.to_nat initialization_attempts) []
                None NegInf st) as Hbest.
  destruct (attempts_loop (Z.to_nat initialization_attempts) None NegInf st)
    as [best st'].
  exists best, st'. split; [done|]. apply Hbest. split; [done|].
  intros s lh Hin. by apply elem_of_nil in Hin.
Qed.

End GenerateSampleSpec.

(** Three attempts whose values are [nan], 2 and 2: the second is returned. *)
Lemma generate_sample_best_witness :
  ∃ (best : option nat) (st' : nat),
    generate_sample (λ st, (st, S st))
      (λ s, (match s with 0 => NaN | _ => Finite 2 end, s)) 3 0
    = (Some best, st') ∧
    best_of (attempts (λ st, (st, S st))
               (λ s, (match s with 0 => NaN | _ => Finite 2 end, s))
               (Z.to_nat 3) 0) best.
Proof.
  apply (generate_sample_best (λ st, (st, S st))
           (λ s, (match s with 0 => NaN | _ => Finite 2 end, s)) 3 0).
  lia.
Defined.

Example generate_sample_first_best :
  generate_sample (λ st, (st, S st))
    (λ s : nat, (match s with 0 => NaN | _ => Finite 2 end, s)) 3 0
  = (Some (Some 1), 3).
Proof. vm_compute. reflexivity. Qed.

Example generate_sample_none :
  generate_sample (λ st, (st, S st)) (λ s : nat, (NegInf, s)) 3 0
  = (Some None, 3).
Proof. vm_compute. reflexivity. Qed.

End BestOfAttemptsSpec.

Module LikelihoodFrameSpec.
Import Likelihood LikelihoodSpec LikelihoodFrame.

Section EngineSpec.
Context `{Float F, FeatureCounts F}.

(** ** [compute_component_likelihood] *)

Lemma scatter_rows_frame {A} (g : list bool) :
  ∀ (rows out out' : list (list A)),
    scatter_rows g rows out = Ok out' →
    length out' = length out ∧
    ∀ o, g !! o ≠ Some true → out' !! o = out !! o.
Proof.
  induction g as [|b g IH]; intros rows [|row out] out' Hrun; cbn in Hrun;
    try done.
  - by injection Hrun as <-.
  - destruct b.
    + destruct rows as [|r rows]; [done|]. case_decide; [|done].
      inv_result Hrun. injection Hrun as <-.
      match goal with
      | Hr : scatter_rows g rows out = Ok ?x |- _ =>
          destruct (IH _ _ _ Hr) as [Hlen Hframe]
      end.
      split; [cbn; by rewrite Hlen|].
      intros [|o] Ho; [done|]. cbn. by apply Hframe.
    + inv_result Hrun. injection Hrun as <-.
      match goal with
      | Hr : scatter_rows g rows out = Ok ?x |- _ =>
          destruct (IH _ _ _ Hr) as [Hlen Hframe]
      end.
      split; [cbn; by rewrite Hlen|].
      intros [|o] Ho; [done|]. cbn. by apply Hframe.
Qed.

Lemma clear_unassigned_lookup (groups : list (list bool))
    (out : list (list F)) (o : nat) :
  clear_unassigned groups out !! o
  = (λ row, if in_some_group groups o then row else map (λ _, fzero) row)
      <$> out !! o.
Proof. unfold clear_unassigned. by rewrite list_lookup_imap. Qed.

(** X6.  [compute_component_likelihood] keeps the shape of [out] and
    touches two kinds of rows only: the row of an object that is in no group
    at all becomes zero, and the rows of the members of the changed groups
    are recomputed.  The row of an object that is in some group but in none
    of the changed ones is left as it was: the cached likelihoods of the
    groups that did not change survive. *)
Theorem compute_component_likelihood_frame
    (features : list (list (list bool))) (probs : list (list (list F)))
    (groups : list (list bool)) (changed_groups : list nat)
    (out out' : list (list F)) :
  compute_component_likelihood features probs groups changed_groups out
    = Ok out' →
  length out' = length out ∧
  ∀ o row, out !! o = Some row → outside groups changed_groups o →
    out' !! o
    = Some (if in_some_group groups o then row else map (λ _, fzero) row).
Proof.
  unfold compute_component_likelihood. intros Hrun.
  assert (Hloop : ∀ out0 : list (list F),
    for_each changed_groups (λ out i,
        g ← getitem groups i;
        p_g ← getitem probs i;
        out ← scatter_rows g (einsum_ijk_jk (select g features) p_g) out;
        py_assert (np_allclose (select g out)
                     (einsum_ijk_jk (select g features) p_g));;
        py_assert (np_allclose (select g out)
                     (inner1d_ijk_jk (select g features) p_g));;
        Ok out) out0
      = Ok out' →
    length out' = length out0 ∧
    ∀ o, outside groups changed_groups o → out' !! o = out0 !! o).
  { clear Hrun. induction changed_groups as [|i changed IH]; intros out0 Hrun;
      cbn [for_each] in Hrun.
    - injection Hrun as <-. done.
    - unfold getitem in Hrun.
      destruct (groups !! i) as [g|] eqn:Hgi; cbn in Hrun; [|done].
      destruct (probs !! i) as [p_g|]; cbn in Hrun; [|done].
      destruct (scatter_rows g _ out0) as [out1|e] eqn:Hs; cbn in Hrun; [|done].
      destruct (np_allclose (select g out1) (einsum_ijk_jk _ _));
        cbn in Hrun; [|done].
      destruct (np_allclose (select g out1) (inner1d_ijk_jk _ _));
        cbn in Hrun; [|done].
      apply scatter_rows_frame in Hs as [Hlen Hframe].
      destruct (IH _ Hrun) as [Hlen' Hframe'].
      split; [congruence|]. intros o Hout. rewrite Hframe'.
      + apply Hframe. apply (Hout i); [by left|done].
      + intros i' g' Hi' Hg'. apply (Hout i'); [by right|done]. }
  destruct (Hloop _ Hrun) as [Hlen Hframe].
  split.
  - rewrite Hlen. unfold clear_unassigned. by rewrite length_imap.
  - intros o row Ho Hout. rewrite (Hframe o Hout), clear_unassigned_lookup, Ho.
    done.
Qed.

(** ** [compute_lh_confounder] *)

(** X7.  [compute_lh_confounder] treats the groups of a confounder as
    [compute_lh_clusters] treats the clusters, for every feature type:
    the rows of the groups that the cache reports changed are recomputed in
    closed form, the others keep the cached value, the array is committed to
    the cell of the confounder, and the sum over all its rows is returned.
    In the sample that the call leaves, the cell of the confounder holds the
    array as its value and is not outdated, the marks of the rows that were
    reported are cleared, and nothing else has changed: the state is the
    same, and so are the cells of the other components. *)
Theorem compute_lh_confounder_recomputes_changed_sums_all
    (ft : FeatureType) (self : Self F) (sample : Sample F) (conf : string)
    (caching : bool) (cell : CacheNode (list F)) :
  cell_of ft sample (Conf conf) = Some cell →
  preamble ft self sample (Conf conf) →
  length (dirty_bits cell "sufficient_stats") = length (value cell) →
  (∀ i, i ∈ (what_changed "sufficient_stats" caching cell).1 →
        ∃ r, row_of ft self sample (Conf conf) i = Ok r) →
  ∃ (lh : list F) (sample' : Sample F) (cell' : CacheNode (list F)),
    compute_lh_confounder (engine_of ft) self sample conf caching
    = Ok (np_sum lh, sample') ∧
    sample'
    = set_group_likelihoods ft conf
        (commit lh (what_changed "sufficient_stats" caching cell).2) sample ∧
    rows_after (row_of ft self sample (Conf conf))
      (what_changed "sufficient_stats" caching cell).1 (value cell) lh ∧
    (what_changed "sufficient_stats" caching cell).1
    = (if caching then nonzero (dirty_bits cell "sufficient_stats")
       else seq 0 (length (value cell))) ∧
    cell_of ft sample' (Conf conf) = Some cell' ∧
    value cell' = lh ∧
    is_outdated cell' = false ∧
    dirty_bits cell' "sufficient_stats"
    = (if caching then zeros (length (value cell))
       else dirty_bits cell "sufficient_stats") ∧
    same_state sample sample' ∧
    (∀ g, key_of g ≠ conf → cell_of ft sample' g = cell_of ft sample g).
Proof.
  intros Hcell Hpre Hlen Hrows.
  pose proof (compute_lh_refresh ft self sample (Conf conf) caching cell
                Hcell Hpre) as Hrun.
  change (compute_lh (engine_of ft) self sample (Conf conf) caching)
    with (compute_lh_confounder (engine_of ft) self sample conf caching) in Hrun.
  rewrite Hrun by lia. clear Hrun. unfold refresh.
  pose proof (what_changed_lt "sufficient_stats" caching cell) as Hlt.
  assert (Hwhich : (what_changed "sufficient_stats" caching cell).1
                   = (if caching then nonzero (dirty_bits cell "sufficient_stats")
                      else seq 0 (length (value cell)))).
  { unfold what_changed. destruct caching; simpl; [done|]. by rewrite Hlen. }
  pose proof (λ lh, dirty_bits_after_what_changed caching cell lh _ Hlen)
    as Hbits.
  destruct (what_changed "sufficient_stats" caching cell) as [changed cell'].
  cbn [fst snd] in *.
  destruct (refresh_rows_after (row_of ft self sample (Conf conf)) changed
              (value cell)) as (lh & Hlh & Hafter).
  { intros i Hi. split; [|by apply Hrows]. specialize (Hlt i Hi). lia. }
  exists lh, (set_group_likelihoods ft conf (commit lh cell') sample),
    (commit lh cell').
  rewrite Hlh. split_and!; [done..| | | | | |].
  - change conf with (key_of (Conf conf)) at 1.
    rewrite cell_of_set_group_likelihoods. by rewrite decide_True.
  - done.
  - done.
  - apply Hbits.
  - apply same_state_set_group_likelihoods.
  - intros g Hg. change conf with (key_of (Conf conf)) at 1.
    rewrite cell_of_set_group_likelihoods. by rewrite decide_False.
Qed.

(** ** The state under an evaluation *)

Lemma same_state_assignment (s s' : Sample F) :
  same_state s s' → same_assignment s s'.
Proof. intros (?&Hc&?&?&?&?&?). repeat split; try done. by rewrite Hc. Qed.

Lemma same_assignment_trans (s1 s2 s3 : Sample F) :
  same_assignment s1 s2 → same_assignment s2 s3 → same_assignment s1 s3.
Proof.
  intros (?&?&?&?&?&?&?) (?&?&?&?&?&?&?). repeat split; congruence.
Qed.

Lemma same_assignment_recalculate (values : list (list (list bool)))
    (s : Sample F) :
  same_assignment s (recalculate_feature_counts values s).
Proof.
  unfold recalculate_feature_counts.
  destruct (categorical s) as [cat|] eqn:Hcat; [|by repeat split].
  repeat split; cbn. by rewrite Hcat.
Qed.

Lemma components_same_state (ft : FeatureType) (self : Self F)
    (caching : bool) (gs : list component) :
  ∀ (acc : F) (s s' : Sample F) (v : F),
    for_each gs (add_component (engine_of ft) self caching) (acc, s)
      = Ok (v, s') →
    same_state s s'.
Proof.
  induction gs as [|g gs IH]; intros acc s s' v Hrun; cbn [for_each] in Hrun.
  - injection Hrun as <- <-. apply same_state_refl.
  - destruct (add_component (engine_of ft) self caching (acc, s) g)
      as [[v1 s1]|e] eqn:Hg; [|done].
    unfold add_component in Hg. cbn [fst snd] in Hg.
    destruct (compute_lh (engine_of ft) self s g caching) as [[v2 s2]|e] eqn:Hc;
      [|done].
    cbn in Hg. injection Hg as <- <-.
    apply compute_lh_same_state in Hc. apply IH in Hrun.
    by eapply same_state_trans.
Qed.

Lemma GenericType_call_state (ft : FeatureType) (self : Self F)
    (s s' : Sample F) (caching : bool) (v : F) :
  GenericType_call (engine_of ft) self s caching = Ok (v, s') →
  same_assignment s s' ∧ (caching = true → same_state s s').
Proof.
  rewrite GenericType_call_components. intros Hrun.
  apply components_same_state in Hrun. destruct caching.
  - split; [by apply same_state_assignment|done].
  - split; [|done]. eapply same_assignment_trans;
      [apply same_assignment_recalculate|by apply same_state_assignment].
Qed.

(** X8.  Evaluating the likelihood does not move the chain.  After
    [Likelihood.__call__] the sample has the clusters, the sources, the
    confounders and the numeric feature types it had; with caching, the
    sufficient statistics too, so that only caches were written. *)
Theorem Likelihood_call_keeps_state (self : Self F) (s s' : Sample F)
    (caching : bool) (v : F) :
  Likelihood_call (Likelihood_init self) s caching = Ok (v, s') →
  same_assignment s s' ∧ (caching = true → same_state s s').
Proof.
  unfold Likelihood_call, Likelihood_init.
  cbn [lh_self lh_categorical lh_gaussian lh_poisson lh_logitnormal].
  assert (Hstep : ∀ (ft : FeatureType) (b : bool) (acc : F) (s1 s2 : Sample F)
                    (v2 : F),
    (if b then
       '(v, sample) ← GenericType_call (engine_of ft) self s1 caching;
       Ok (fadd acc v, sample)
     else Ok (acc, s1)) = Ok (v2, s2) →
    same_assignment s1 s2 ∧ (caching = true → same_state s1 s2)).
  { intros ft b acc s1 s2 v2 Hb. destruct b.
    - destruct (GenericType_call (engine_of ft) self s1 caching)
        as [[v1 s1']|e] eqn:Hcall; [|done].
      cbn in Hb. injection Hb as <- <-. by eapply GenericType_call_state.
    - injection Hb as <- <-. split; [by repeat split|].
      intros _. apply same_state_refl. }
  intros Hrun.
  destruct (if bool_decide (is_Some (categorical s)) then _ else _)
    as [[v1 s1]|e] eqn:H1 in Hrun; [|done].
  apply (Hstep ft_categorical) in H1 as [Ha1 Hs1]. cbn in Hrun.
  destruct (if bool_decide (is_Some (gaussian s1)) then _ else _)
    as [[v2 s2]|e] eqn:H2 in Hrun; [|done].
  apply (Hstep ft_gaussian) in H2 as [Ha2 Hs2]. cbn in Hrun.
  destruct (if bool_decide (is_Some (poisson s2)) then _ else _)
    as [[v3 s3]|e] eqn:H3 in Hrun; [|done].
  apply (Hstep ft_poisson) in H3 as [Ha3 Hs3]. cbn in Hrun.
  destruct (if bool_decide (is_Some (logitnormal s3)) then _ else _)
    as [[v4 s4]|e] eqn:H4 in Hrun; [|done].
  apply (Hstep ft_logitnormal) in H4 as [Ha4 Hs4]. cbn in Hrun.
  injection Hrun as <- <-. split.
  - exact (same_assignment_trans _ _ _
             (same_assignment_trans _ _ _
                (same_assignment_trans _ _ _ Ha1 Ha2) Ha3) Ha4).
  - intros Hc.
    exact (same_state_trans _ _ _
             (same_state_trans _ _ _
                (same_state_trans _ _ _ (Hs1 Hc) (Hs2 Hc)) (Hs3 Hc)) (Hs4 Hc)).
Qed.

(** ** The pointwise likelihood, called again *)

(** X9.  Whatever [pointwise_likelihood] returns, with or without caching,
    a call with caching on the sample it leaves returns the same array and
    changes nothing: the array was committed, and the second call reads it
    from the cache. *)
Theorem pointwise_likelihood_repeat (engine : LikelihoodGenericType F)
    (self : Self F) (s s' : Sample F) (caching : bool)
    (out : list (list (list F))) :
  pointwise_likelihood engine self s caching = Ok (out, s') →
  pointwise_likelihood engine self s' true = Ok (out, s').
Proof.
  intros Hrun.
  destruct (caching && negb (is_outdated (component_likelihoods
              (get_ft_cache (feature_type engine) (cache s))))) eqn:Hhit.
  - unfold pointwise_likelihood in Hrun. rewrite Hhit in Hrun.
    injection Hrun as <- <-. unfold pointwise_likelihood.
    apply andb_true_iff in Hhit as [_ ->]. done.
  - destruct (pointwise_likelihood_recomputed _ _ _ _ _ _ Hrun Hhit)
      as (fresh & _ & Hval & Hout).
    unfold pointwise_likelihood, is_outdated. rewrite Hout, Hval. done.
Qed.

End EngineSpec.
Import RationalModel ConfounderModel.

Lemma compute_component_likelihood_frame_witness :
  length [[(4 # 16)%Q]; [8%Q]; [0%Q]] = length [[9%Q]; [8%Q]; [7%Q]] ∧
  ∀ o row, [[9%Q]; [8%Q]; [7%Q]] !! o = Some row →
    outside [[true; false; false]; [false; true; false]] [0] o →
    [[(4 # 16)%Q]; [8%Q]; [0%Q]] !! o
    = Some (if in_some_group [[true; false; false]; [false; true; false]] o
            then row else map (λ _, fzero) row).
Proof.
  apply (compute_component_likelihood_frame
           [[[true; false]]; [[false; true]]; [[true; false]]]
           [[[(1 # 4)%Q; (3 # 4)%Q]]; [[(1 # 2)%Q; (1 # 2)%Q]]]
           [[true; false; false]; [false; true; false]] [0]
           [[9%Q]; [8%Q]; [7%Q]]).
  vm_compute. reflexivity.
Defined.

Lemma compute_lh_confounder_recomputes_changed_sums_all_witness :
  ∃ (lh : list Q) (sample' : Sample Q) (cell' : CacheNode (list Q)),
    compute_lh_confounder (engine_of ft_poisson) self_family sample_family
      "family" true
    = Ok (np_sum lh, sample') ∧
    sample'
    = set_group_likelihoods ft_poisson "family"
        (commit lh (what_changed "sufficient_stats" true family_cell).2)
        sample_family ∧
    rows_after (row_of ft_poisson self_family sample_family (Conf "family"))
      (what_changed "sufficient_stats" true family_cell).1 (value family_cell)
      lh ∧
    (what_changed "sufficient_stats" true family_cell).1
    = nonzero (dirty_bits family_cell "sufficient_stats") ∧
    cell_of ft_poisson sample' (Conf "family") = Some cell' ∧
    value cell' = lh ∧
    is_outdated cell' = false ∧
    dirty_bits cell' "sufficient_stats" = zeros (length (value family_cell)) ∧
    same_state sample_family sample' ∧
    (∀ g, key_of g ≠ "family" →
          cell_of ft_poisson sample' g = cell_of ft_poisson sample_family g).
Proof.
  apply (compute_lh_confounder_recomputes_changed_sums_all ft_poisson
           self_family sample_family "family" true family_cell).
  - reflexivity.
  - exact I.
  - reflexivity.
  - intros i Hi. vm_compute in Hi.
    apply list_elem_of_singleton in Hi as ->. by eexists.
Defined.

(** The first group of the confounder is recomputed, the second keeps its
    cached 9: the sum is 5 + 9. *)
Example compute_lh_confounder_example :
  fst <$> compute_lh_confounder LikelihoodPoisson self_family sample_family
            "family" true
  = Ok 14%Q.
Proof. vm_compute. reflexivity. Qed.

Lemma Likelihood_call_keeps_state_witness :
  same_assignment sample_example sample_after_likelihood ∧
  (true = true → same_state sample_example sample_after_likelihood).
Proof.
  apply (Likelihood_call_keeps_state self_example sample_example
           sample_after_likelihood true 15%Q).
  vm_compute. reflexivity.
Defined.

Lemma pointwise_likelihood_repeat_witness :
  pointwise_likelihood LikelihoodCategorical self_example
    sample_after_pointwise true
  = Ok ([[[(8 # 16)%Q]]; [[(8 # 16)%Q]]], sample_after_pointwise).
Proof.
  apply (pointwise_likelihood_repeat LikelihoodCategorical self_example
           sample_example sample_after_pointwise false).
  vm_compute. reflexivity.
Defined.

End LikelihoodFrameSpec.

Module AggregateSpec.
Import Likelihood LikelihoodSpec Aggregate.

Section EngineSpec.
Context `{Float F, FeatureCounts F}.

(** An engine writes to the cells of its own feature type. *)
Lemma compute_lh_writes (ft : FeatureType) (self : Self F) (s s' : Sample F)
    (g : component) (caching : bool) (v : F) :
  compute_lh (engine_of ft) self s g caching = Ok (v, s') →
  ∃ key cell, s' = set_group_likelihoods ft key cell s.
Proof.
  destruct ft, g; simpl;
    unfold Categorical_compute_lh_clusters, Categorical_compute_lh_confounder,
           Normal_compute_lh_clusters, Normal_compute_lh_confounder,
           Poisson_compute_lh_clusters, Poisson_compute_lh_confounder;
    intros Hrun; inv_result Hrun; injection Hrun as <- <-; by eexists _, _.
Qed.

Lemma get_ft_cache_set_group_likelihoods (ft ft' : FeatureType) (key : string)
    (cell : CacheNode (list F)) (s : Sample F) :
  ft' ≠ ft →
  get_ft_cache ft' (cache (set_group_likelihoods ft key cell s))
  = get_ft_cache ft' (cache s).
Proof. by destruct ft, ft'. Qed.

Lemma components_other_cache (ft ft' : FeatureType) (self : Self F)
    (caching : bool) (gs : list component) :
  ft' ≠ ft →
  ∀ (acc : F) (s s' : Sample F) (v : F),
    for_each gs (add_component (engine_of ft) self caching) (acc, s)
      = Ok (v, s') →
    get_ft_cache ft' (cache s') = get_ft_cache ft' (cache s).
Proof.
  intros Hne. induction gs as [|g gs IH]; intros acc s s' v Hrun;
    cbn [for_each] in Hrun.
  - by injection Hrun as <- <-.
  - destruct (add_component (engine_of ft) self caching (acc, s) g)
      as [[v1 s1]|e] eqn:Hg; [|done].
    unfold add_component in Hg. cbn [fst snd] in Hg.
    destruct (compute_lh (engine_of ft) self s g caching) as [[v2 s2]|e] eqn:Hc;
      [|done].
    cbn in Hg. injection Hg as <- <-.
    apply compute_lh_writes in Hc as (key & cell & ->).
    rewrite (IH _ _ _ _ Hrun). by apply get_ft_cache_set_group_likelihoods.
Qed.

(** A call of an engine leaves the caches of the other feature types as they
    are; without caching this holds of the numeric types, the sufficient
    statistics that are recomputed being those of the categorical one. *)
Lemma GenericType_call_other_cache (ft ft' : FeatureType) (self : Self F)
    (s s' : Sample F) (caching : bool) (v : F) :
  ft' ≠ ft → ft' ≠ ft_categorical →
  GenericType_call (engine_of ft) self s caching = Ok (v, s') →
  get_ft_cache ft' (cache s') = get_ft_cache ft' (cache s).
Proof.
  intros Hne Hcat. rewrite GenericType_call_components. intros Hrun.
  apply (components_other_cache ft ft' self caching _ Hne) in Hrun.
  rewrite Hrun. destruct caching; [done|].
  unfold recalculate_feature_counts.
  destruct (categorical s); [|done]. by destruct ft'.
Qed.

Lemma GenericType_call_same_state (ft : FeatureType) (self : Self F)
    (s s' : Sample F) (caching : bool) (v : F) :
  statistics_in_sync self s →
  GenericType_call (engine_of ft) self s caching = Ok (v, s') →
  same_state s s'.
Proof.
  intros Hsync. rewrite GenericType_call_components. intros Hrun.
  apply LikelihoodFrameSpec.components_same_state in Hrun.
  destruct caching; [done|].
  eapply same_state_trans; [by apply recalculate_same_state|done].
Qed.

Lemma cell_of_same_cache (ft : FeatureType) (s s' : Sample F) (g : component) :
  get_ft_cache ft (cache s') = get_ft_cache ft (cache s) →
  cell_of ft s' g = cell_of ft s g.
Proof. unfold cell_of. by intros ->. Qed.

Lemma consistent_transfer (ft : FeatureType) (self : Self F) (s s' : Sample F) :
  prior_reads_state self → same_state s s' →
  get_ft_cache ft (cache s') = get_ft_cache ft (cache s) →
  consistent ft self s → consistent ft self s'.
Proof.
  intros Hprior Hsame Hcache (Hnd & Hsync & Hcells). split_and!; [done| |].
  - by eapply statistics_in_sync_same_state.
  - intros g Hg. eapply cell_consistent_transfer; [done|done| |by apply Hcells].
    by apply cell_of_same_cache.
Qed.

Lemma closed_form_total_transfer (ft : FeatureType) (self : Self F)
    (s s' : Sample F) :
  prior_reads_state self → same_state s s' →
  get_ft_cache ft (cache s') = get_ft_cache ft (cache s) →
  closed_form_total ft self s' = closed_form_total ft self s.
Proof.
  intros Hprior Hsame Hcache. unfold closed_form_total.
  apply for_each_ext. intros acc g _. unfold all_rows.
  rewrite (cell_of_same_cache ft s s' g Hcache).
  destruct (cell_of ft s g) as [cell|]; [|done]. cbn.
  rewrite (traverse_ext (row_of ft self s' g) (row_of ft self s g)); [done|].
  intros i _. by apply row_of_same_state.
Qed.

(** [Likelihood.__call__] is a loop over the four engines. *)
Lemma Likelihood_call_loop (self : Self F) (s : Sample F) (caching : bool) :
  Likelihood_call (Likelihood_init self) s caching
  = for_each (engine_of <$> [ft_categorical; ft_gaussian; ft_poisson;
                             ft_logitnormal])
      (add_if_used self caching) (fzero, s).
Proof.
  symmetry.
  exact (eq_sym (for_each_four (add_if_used self caching) LikelihoodCategorical
                   LikelihoodGaussian LikelihoodPoisson LikelihoodLogitNormal
                   (fzero, s))).
Qed.

Lemma add_if_used_step (self : Self F) (caching : bool) (acc : F)
    (a : Sample F) (ft : FeatureType) :
  add_if_used self caching (acc, a) (engine_of ft)
  = if bool_decide (is_Some (ft_sample ft a)) then
      '(v, s) ← GenericType_call (engine_of ft) self a caching;
      Ok (fadd acc v, s)
    else Ok (acc, a).
Proof. unfold add_if_used, is_used, add_total. by destruct ft. Qed.

(** The two paths through the engines of the feature types [fts], started
    from two samples with the state of [s] and its caches for these types. *)
Lemma engines_caching_equivalent (self : Self F) (s : Sample F) :
  prior_reads_state self →
  ∀ (fts : list FeatureType) (acc : F) (a b : Sample F),
    NoDup fts → Forall (λ ft, ft ≠ ft_categorical) (tail fts) →
    (∀ ft, ft ∈ fts → is_Some (ft_sample ft s) → consistent ft self s) →
    same_state s a → same_state s b →
    (∀ ft, ft ∈ fts →
       get_ft_cache ft (cache a) = get_ft_cache ft (cache s) ∧
       get_ft_cache ft (cache b) = get_ft_cache ft (cache s)) →
    ∃ (v : F) (a' b' : Sample F),
      for_each (engine_of <$> fts) (add_if_used self true) (acc, a)
        = Ok (v, a') ∧
      for_each (engine_of <$> fts) (add_if_used self false) (acc, b)
        = Ok (v, b').
Proof.
  intros Hprior. induction fts as [|ft fts IH];
    intros acc a b Hnd Htail Hcons Ha Hb Hcache.
  - by exists acc, a, b.
  - apply NoDup_cons in Hnd as [Hft Hnd]. cbn [tail] in Htail.
    assert (Htail' : Forall (λ ft, ft ≠ ft_categorical) (tail fts)).
    { destruct fts as [|ft' fts']; [done|]. by apply Forall_cons in Htail as [_ ?]. }
    cbn [fmap list_fmap for_each]. rewrite !add_if_used_step.
    rewrite (ft_sample_same_state ft s a Ha), (ft_sample_same_state ft s b Hb).
    destruct (decide (is_Some (ft_sample ft s))) as [Hused|Hskip].
    2:{ rewrite !bool_decide_eq_false_2 by done. cbn.
        apply IH; [done|done| |done|done|].
        - intros ft' Hin. apply Hcons. by right.
        - intros ft' Hin. apply Hcache. by right. }
    rewrite !bool_decide_eq_true_2 by done.
    destruct (Hcache ft ltac:(by left)) as [Hca Hcb].
    assert (Hconsa : consistent ft self a).
    { eapply consistent_transfer; [done|exact Ha|done|]. apply Hcons; [by left|done]. }
    assert (Hconsb : consistent ft self b).
    { eapply consistent_transfer; [done|exact Hb|done|]. apply Hcons; [by left|done]. }
    destruct (caching_equivalent_on_consistent ft self a Hprior Hconsa)
      as (v1 & a1 & _ & Hrun1 & _ & Hclosed1 & _).
    destruct (caching_equivalent_on_consistent ft self b Hprior Hconsb)
      as (v2 & _ & b2 & _ & Hrun2 & Hclosed2 & _).
    assert (v2 = v1) as ->.
    { rewrite (closed_form_total_transfer ft self s a Hprior Ha Hca) in Hclosed1.
      rewrite (closed_form_total_transfer ft self s b Hprior Hb Hcb) in Hclosed2.
      congruence. }
    rewrite Hrun1, Hrun2. cbn.
    assert (Ha1 : same_state a a1).
    { eapply GenericType_call_same_state; [|exact Hrun1]. by destruct Hconsa as (_ & ? & _). }
    assert (Hb2 : same_state b b2).
    { eapply GenericType_call_same_state; [|exact Hrun2]. by destruct Hconsb as (_ & ? & _). }
    apply IH; [done|done| | | |].
    + intros ft' Hin. apply Hcons. by right.
    + exact (same_state_trans _ _ _ Ha Ha1).
    + exact (same_state_trans _ _ _ Hb Hb2).
    + intros ft' Hin.
      assert (Hne : ft' ≠ ft) by (intros ->; done).
      assert (Hnc : ft' ≠ ft_categorical)
        by (eapply Forall_forall in Htail; [exact Htail|done]).
      destruct (Hcache ft' ltac:(by right)) as [Hca' Hcb'].
      rewrite (GenericType_call_other_cache ft ft' self a a1 true v1 Hne Hnc Hrun1).
      rewrite (GenericType_call_other_cache ft ft' self b b2 false v1 Hne Hnc Hrun2).
      done.
Qed.

(** X10.  When the caches of all feature types of the sample are consistent
    with its state, the aggregate likelihood returns the same value with
    caching as without: what holds of one engine holds of
    [Likelihood.__call__], although the first engine that runs without
    caching recomputes the sufficient statistics and marks the categorical
    caches dirty under the others. *)
Theorem Likelihood_call_caching_equivalent (self : Self F) (s : Sample F) :
  prior_reads_state self →
  all_consistent self s →
  ∃ (v : F) (s1 s2 : Sample F),
    Likelihood_call (Likelihood_init self) s true = Ok (v, s1) ∧
    Likelihood_call (Likelihood_init self) s false = Ok (v, s2).
Proof.
  intros Hprior Hcons. rewrite !Likelihood_call_loop.
  apply (engines_caching_equivalent self s Hprior).
  - repeat (apply NoDup_cons; split;
              [rewrite ?elem_of_cons, ?elem_of_nil; intros Hin;
               repeat destruct Hin as [Hin|Hin]; done|]).
    apply NoDup_nil_2.
  - repeat constructor; done.
  - intros ft _ Hused. by apply Hcons.
  - apply same_state_refl.
  - apply same_state_refl.
  - done.
Qed.

End EngineSpec.
Import RationalModel.

(** The cold caches of the example are consistent for every feature type
    that the sample has. *)
Lemma sample_example_all_consistent : all_consistent self_example sample_example.
Proof.
  intros ft Hused.
  destruct ft; [exact sample_example_consistent| | |by destruct Hused].
  all: split_and!; [apply NoDup_singleton|vm_compute; reflexivity|].
  all: intros g ->%list_elem_of_singleton.
  all: eexists cold_cell, _; split_and!;
    [reflexivity|exact I|reflexivity|vm_compute; reflexivity|].
  all: intros [|i] Hi; vm_compute in Hi; [discriminate|]; by destruct i.
Qed.

Lemma Likelihood_call_caching_equivalent_witness :
  ∃ (v : Q) (s1 s2 : Sample Q),
    Likelihood_call (Likelihood_init self_example) sample_example true
      = Ok (v, s1) ∧
    Likelihood_call (Likelihood_init self_example) sample_example false
      = Ok (v, s2).
Proof.
  apply (Likelihood_call_caching_equivalent self_example sample_example).
  - exact self_example_prior_reads_state.
  - exact sample_example_all_consistent.
Defined.

End AggregateSpec.

Module ConditionalSpec.
Import Likelihood LikelihoodSpec Conditional.

Section EngineSpec.
Context `{Float F}.

Lemma column_Ok {A} (j : nat) (a : list (list A)) :
  Forall (λ row, j < length row) a →
  ∃ col, column j a = Ok col ∧ length col = length a.
Proof.
  induction 1 as [|row a Hrow _ (col & Hcol & Hlen)].
  - by exists [].
  - apply lookup_lt_is_Some in Hrow as [x Hx]. exists (x :: col).
    unfold column in *. cbn [traverse].
    rewrite (getitem_Ok _ _ _ Hx), Hcol. cbn. by rewrite Hlen.
Qed.

Lemma set_column_replicate {A} (j : nat) (v : A) (a : list (list A)) :
  Forall (λ row, j < length row) a →
  set_column j (replicate (length a) v) a = Ok (map (λ row, <[j:=v]> row) a).
Proof.
  induction 1 as [|row a Hrow _ IH]; [done|].
  cbn. rewrite setitem_Ok by done. cbn. by rewrite IH.
Qed.

Lemma select_Forall {A} (P : A → Prop) (mask : list bool) (a : list A) :
  Forall P a → Forall P (select mask a).
Proof.
  intros Ha. unfold select. apply Forall_fmap, Forall_forall.
  intros [b x] [_ Hin]%list_elem_of_filter. cbn.
  apply elem_of_zip_r in Hin. by eapply Forall_forall in Ha.
Qed.

(** Filling the columns [0 .. n - 1] of rows of length [n] with [v]. *)
Lemma fill_columns (v : F) (n : nat) :
  ∀ (m : nat) (a : list (list F)),
    m ≤ n → Forall (λ row, length row = n) a →
    Forall (λ row, ∀ j, j < m → row !! j = Some v) a →
    let a' := foldl (λ a j, map (λ row, <[j:=v]> row) a) a (seq m (n - m)) in
    length a' = length a ∧
    Forall (λ row, length row = n) a' ∧
    Forall (λ row, ∀ j, j < n → row !! j = Some v) a'.
Proof.
  intros m. remember (n - m) as d eqn:Hd. revert m Hd.
  induction d as [|d IH]; intros m Hd a Hm Hlen Hdone; cbn.
  - split_and!; [done|done|].
    eapply Forall_impl; [exact Hdone|]. cbn. intros row Hrow j Hj.
    apply Hrow. lia.
  - destruct (IH (S m) ltac:(lia) (map (λ row, <[m:=v]> row) a))
      as (Hl' & Hrows' & Hall'); [lia| | |by rewrite length_map in Hl'].
    + apply Forall_fmap. eapply Forall_impl; [exact Hlen|]. cbn.
      intros row Hrow. by rewrite length_insert.
    + apply Forall_fmap, Forall_forall. intros row Hin. cbn. intros j Hj.
      eapply Forall_forall in Hlen as Hl; [|exact Hin].
      eapply Forall_forall in Hdone as Hr; [|exact Hin]. cbn in Hl, Hr.
      destruct (decide (j = m)) as [->|Hne].
      * apply list_lookup_insert_eq. lia.
      * rewrite list_lookup_insert_ne by done. apply Hr. lia.
Qed.

Lemma constant_rows (v : F) (n : nat) (a : list (list F)) :
  Forall (λ row, length row = n) a →
  Forall (λ row, ∀ j, j < n → row !! j = Some v) a →
  a = replicate (length a) (replicate n v).
Proof.
  intros Hlen Hall. apply list_eq_same_length with (length a);
    [by rewrite length_replicate|done|].
  intros i row row' Hi Hrow Hrow'.
  apply lookup_replicate in Hrow' as [-> _].
  eapply Forall_lookup_1 in Hlen; [|exact Hrow].
  eapply Forall_lookup_1 in Hall; [|exact Hrow]. cbn in Hlen, Hall.
  apply list_eq_same_length with n; [by rewrite length_replicate|done|].
  intros j x y Hj Hx Hy. apply lookup_replicate in Hy as [-> _].
  rewrite Hall in Hx by done. congruence.
Qed.

(** X11.  The conditional likelihood of the Gaussian and of the logit-normal
    engine does not look at the observations: for a cluster index in range
    it is the constant 0.5 for every candidate and every feature, whatever
    the cluster, the candidates' values and the prior.  An index out of
    range raises [IndexError]. *)
Theorem Normal_pointwise_conditional_cluster_lh_constant (ft : FeatureType)
    (self : Self F) (sample : Sample F) (i_cluster : nat)
    (available : list bool) :
  Forall (λ row, length row = n_features (numeric_features ft (features self)))
    (num_values (numeric_features ft (features self))) →
  Normal_pointwise_conditional_cluster_lh ft self sample i_cluster available
  = if decide (i_cluster < length (clusters sample)) then
      Ok (replicate
            (length (select available
                       (num_values (numeric_features ft (features self)))))
            (replicate (n_features (numeric_features ft (features self))) fhalf))
    else Raise IndexError.
Proof.
  intros Hshape. unfold Normal_pointwise_conditional_cluster_lh.
  set (values := num_values (numeric_features ft (features self))) in *.
  set (n := n_features (numeric_features ft (features self))) in *.
  case_decide as Hi.
  2:{ unfold getitem. rewrite lookup_ge_None_2 by lia. done. }
  apply lookup_lt_is_Some in Hi as [cluster Hcluster].
  rewrite (getitem_Ok _ _ _ Hcluster). cbn.
  set (cands := select available values).
  set (members := select cluster values).
  assert (Hcands : Forall (λ row, length row = n) cands)
    by by apply select_Forall.
  assert (Hmembers : Forall (λ row, length row = n) members)
    by by apply select_Forall.
  set (body := λ (condition_lh : list (list F)) (j : nat), _).
  assert (Hstep : ∀ m a, m < n → length a = length cands →
            Forall (λ row, length row = n) a →
            body a m = Ok (map (λ row, <[m:=fhalf]> row) a)).
  { intros m a Hm Hla Hrows. unfold body.
    destruct (column_Ok m members) as (f_c & -> & _).
    { eapply Forall_impl; [exact Hmembers|]. cbn. lia. }
    destruct (column_Ok m cands) as (col & -> & Hcol).
    { eapply Forall_impl; [exact Hcands|]. cbn. lia. }
    cbn. rewrite Hcol, <- Hla. apply set_column_replicate.
    eapply Forall_impl; [exact Hrows|]. cbn. lia. }
  clearbody body.
  assert (Hloop : ∀ d m a, m + d ≤ n → length a = length cands →
            Forall (λ row, length row = n) a →
            for_each (seq m d) body a
            = Ok (foldl (λ a j, map (λ row, <[j:=fhalf]> row) a) a (seq m d))).
  { induction d as [|d IH]; intros m a Hm Hla Hrows; [done|].
    cbn [seq for_each foldl]. rewrite Hstep by (done || lia). cbn.
    apply IH; [lia|by rewrite length_map|].
    apply Forall_fmap. eapply Forall_impl; [exact Hrows|]. cbn.
    intros row Hrow. by rewrite length_insert. }
  assert (Hz : Forall (λ row, length row = n) (zeros_like cands)).
  { unfold zeros_like. apply Forall_fmap. eapply Forall_impl; [exact Hcands|].
    cbn. intros row Hrow. by rewrite length_map. }
  rewrite (Hloop n 0 (zeros_like cands)); [|lia|unfold zeros_like; by rewrite length_map|done].
  f_equal.
  destruct (fill_columns fhalf n 0 (zeros_like cands) ltac:(lia) Hz)
    as (Hlres & Hrows & Hall).
  { apply Forall_forall. intros row _ j Hj. lia. }
  rewrite Nat.sub_0_r in Hlres, Hrows, Hall.
  rewrite (constant_rows fhalf n _ Hrows Hall), Hlres.
  unfold zeros_like. by rewrite length_map.
Qed.

Lemma zip_with_fadd_comm (a b : list (list F)) :
  (∀ x y : F, fadd x y = fadd y x) →
  zip_with (zip_with fadd) a b = zip_with (zip_with fadd) b a.
Proof.
  intros Hcomm. revert b. induction a as [|r a IH]; intros [|r' b]; cbn;
    [done..|].
  f_equal; [|apply IH]. clear IH. revert r'.
  induction r as [|x r IH]; intros [|y r']; cbn; [done..|].
  by rewrite Hcomm, IH.
Qed.

(** X12.  For floats whose addition commutes, as that of IEEE floats does:
    whenever the pointwise update of the categorical engine returns for a
    changed cluster, the conditional likelihood of the members of that
    cluster is defined, and the rows that the update has written for the
    members agree with it up to the tolerance of [np.allclose]: members and
    candidates are scored by the same rule.  The second assertion of
    [compute_component_likelihood] is what enforces it. *)
Theorem Categorical_pointwise_is_conditional (self : Self F)
    (sample : Sample F) (i_cluster : nat) (cluster : list bool)
    (out out' : list (list F)) :
  (∀ x y : F, fadd x y = fadd y x) →
  clusters sample !! i_cluster = Some cluster →
  Categorical_compute_pointwise_cluster_likelihood self sample [i_cluster] out
  = Ok out' →
  ∃ lh : list (list F),
    Categorical_pointwise_conditional_cluster_lh self sample i_cluster cluster
    = Ok lh ∧
    np_allclose (select cluster out') lh = true.
Proof.
  intros Hcomm Hcluster.
  unfold Categorical_compute_pointwise_cluster_likelihood,
    Categorical_pointwise_conditional_cluster_lh, compute_component_likelihood.
  destruct (categorical sample) as [cat|]; [|done]. cbn.
  destruct (getkey (sufficient_statistics cat) "clusters") as [counts|e]; [|done].
  cbn. rewrite (getitem_Ok _ _ _ Hcluster). cbn.
  unfold getitem. rewrite !list_lookup_fmap.
  destruct (counts !! i_cluster) as [feature_counts|]; [|done]. cbn.
  rewrite (zip_with_fadd_comm feature_counts _ Hcomm).
  destruct (scatter_rows _ _ _) as [out1|e]; cbn; [|done].
  destruct (np_allclose (select cluster out1) (einsum_ijk_jk _ _)); cbn; [|done].
  destruct (np_allclose (select cluster out1) (inner1d_ijk_jk _ _)) eqn:Hclose;
    cbn; [|done].
  intros [= <-]. eexists. split; [done|]. exact Hclose.
Qed.

End EngineSpec.

Import RationalModel.

Lemma Normal_pointwise_conditional_cluster_lh_constant_witness :
  Normal_pointwise_conditional_cluster_lh ft_gaussian self_example
    sample_example 0 [true; false]
  = if decide (0 < length (clusters sample_example)) then
      Ok (replicate
            (length (select [true; false]
                       (num_values (numeric_features ft_gaussian
                                      (features self_example)))))
            (replicate (n_features (numeric_features ft_gaussian
                                      (features self_example)))
               fhalf))
    else Raise IndexError.
Proof.
  apply (Normal_pointwise_conditional_cluster_lh_constant ft_gaussian
           self_example sample_example 0 [true; false]).
  repeat constructor.
Defined.

Lemma Qplus_comm_eq (x y : Q) : Qplus x y = Qplus y x.
Proof.
  unfold Qplus. f_equal; [apply Z.add_comm|apply Pos.mul_comm].
Qed.

Lemma Categorical_pointwise_is_conditional_witness :
  ∃ lh : list (list Q),
    Categorical_pointwise_conditional_cluster_lh self_example sample_example 0
      [true; true] = Ok lh ∧
    np_allclose
      (select [true; true] [[(8 # 16)%Q]; [(8 # 16)%Q]]) lh = true.
Proof.
  apply (Categorical_pointwise_is_conditional self_example sample_example 0
           [true; true] [[0%Q]; [0%Q]] [[(8 # 16)%Q]; [(8 # 16)%Q]]).
  - exact Qplus_comm_eq.
  - reflexivity.
  - vm_compute. reflexivity.
Defined.

End ConditionalSpec.

Module MaskedWeightsSpec.
Import Weights.
#[local] Open Scope Q_scope.

Lemma sum_Q_zero (l : list Q) : Forall (λ x, x == 0) l → sum_Q l == 0.
Proof.
  induction 1 as [|x l Hx _ IH]; [done|].
  rewrite WeightsSpec.sum_Q_cons, Hx, IH. done.
Qed.

Lemma mask_weights_lookup (r : list bool) (w : list Q) (c : nat) (b : bool)
    (x : Q) :
  r !! c = Some b → w !! c = Some x →
  mask_weights r w !! c = Some (b2q b * x).
Proof. intros Hr Hw. unfold mask_weights. by rewrite lookup_zip_with, Hr, Hw. Qed.

(** X13.  In what [normalize_weights] returns for an object and a feature,
    a component that the object does not have gets the weight 0, whatever
    its weight in the model; or [nan], when the weights of the components
    that the object has sum to zero.  An object without any component gets
    no finite weight at all: its weights are the [nan] of 0/0. *)
Theorem normalize_weights_inactive (weights : list (list Q))
    (has_components : list (list bool)) (o f : nat) (r : list bool)
    (w : list Q) :
  has_components !! o = Some r → weights !! f = Some w →
  length r = length w →
  ∃ row p,
    normalize_weights weights has_components !! o = Some row ∧
    row !! f = Some p ∧ length p = length w ∧
    (∀ c, r !! c = Some false →
       p !! c = Some None ∨ ∃ q, p !! c = Some (Some q) ∧ q == 0) ∧
    (Forall (λ b, b = false) r → Forall (λ x, x = None) p).
Proof.
  intros Ho Hf Hlen.
  exists (map (λ w, divide_by_sum (mask_weights r w)) weights),
         (divide_by_sum (mask_weights r w)).
  split_and!.
  - by apply WeightsSpec.normalize_weights_lookup.
  - by rewrite list_lookup_fmap, Hf.
  - unfold divide_by_sum, mask_weights.
    rewrite length_map, length_zip_with. lia.
  - intros c Hc.
    destruct (lookup_lt_is_Some_2 w c) as [x Hx].
    { apply lookup_lt_Some in Hc. lia. }
    unfold divide_by_sum.
    rewrite list_lookup_fmap, (mask_weights_lookup r w c false x Hc Hx).
    cbn. unfold fdiv_sum, fdiv.
    destruct (overflows (sum_Q (mask_weights r w))).
    { right. eexists. split; [done|]. done. }
    destruct (Qeq_bool (sum_Q (mask_weights r w)) 0); [by left|].
    right. eexists. split; [done|]. unfold b2q, Qdiv. ring.
  - intros Hall. unfold divide_by_sum.
    assert (Hzero : Forall (λ x, x == 0) (mask_weights r w)).
    { apply Forall_lookup. intros c y Hy. unfold mask_weights in Hy.
      apply lookup_zip_with_Some in Hy as (b & x & -> & Hb & _).
      eapply Forall_lookup_1 in Hall; [|exact Hb]. cbn in Hall. subst b.
      unfold b2q. ring. }
    apply sum_Q_zero in Hzero.
    assert (Hov : overflows (sum_Q (mask_weights r w)) = false).
    { apply (WeightsSpec.overflows_mono _ 0); [by rewrite Hzero| |done].
      by rewrite Hzero. }
    apply Qeq_bool_iff in Hzero.
    apply Forall_fmap, Forall_forall. intros x _. cbn. unfold fdiv_sum, fdiv.
    by rewrite Hov, Hzero.
Qed.

Lemma normalize_weights_inactive_witness :
  ∃ row p,
    normalize_weights [[1#2; 1#2]; [1#4; 3#4]] [[true; false]; [false; false]]
      !! 1%nat = Some row ∧
    row !! 0%nat = Some p ∧ length p = length [1#2; 1#2] ∧
    (∀ c, [false; false] !! c = Some false →
       p !! c = Some None ∨ ∃ q, p !! c = Some (Some q) ∧ q == 0) ∧
    (Forall (λ b, b = false) [false; false] → Forall (λ x, x = None) p).
Proof.
  apply (normalize_weights_inactive [[1#2; 1#2]; [1#4; 3#4]]
           [[true; false]; [false; false]] 1 0 [false; false] [1#2; 1#2]);
    reflexivity.
Defined.

End MaskedWeightsSpec.

Module ResumeErrorSpec.
Import Resume.

Lemma traverse_mapM_None {A B} (f : A → option B) (g : A → result B)
    (l : list A) :
  (∀ x y, f x = Some y → g x = Ok y) →
  (∀ x, f x = None → ∃ e, g x = Raise e ∧ (e = IndexError ∨ e = KeyError)) →
  mapM f l = None →
  ∃ e, traverse g l = Raise e ∧ (e = IndexError ∨ e = KeyError).
Proof.
  intros Hsome Hnone. induction l as [|x l IH]; [done|].
  cbn. destruct (f x) as [y|] eqn:Hx; cbn.
  - rewrite (Hsome x y Hx). cbn.
    destruct (mapM f l) as [ys|]; [done|]. intros _.
    destruct (IH eq_refl) as (e & -> & He). by exists e.
  - intros _. destruct (Hnone x Hx) as (e & -> & He). by exists e.
Qed.

Section LastSampleErrors.
Context {F Persisted Confounders Features : Type}.
Variable fzero : F.
Variable feature_names : list string.
Variable feature_values : Features.
Variable data_confounders : Confounders.
Variable shapes : ModelShapes.
Variable sample_source_from_prior :
  list (list bool) → list (list F) → Confounders → (nat → nat) →
  list (list (list bool)).
Variable count_features :
  Features → list (list bool) → Confounders → list (list (list bool)) →
  gmap string (list (list (list F))).

(** X14.  [last_sample] raises exactly when the persisted result lacks a
    last sample to resume from: an empty axis of samples in the clusters, a
    feature without weights, or no sample index.  What it raises then is the
    [IndexError] of the index [-1] on an empty array or the [KeyError] of a
    feature name that the weights do not have, and no sample is built.
    [Sample.from_numpy_arrays], [impute_source] and
    [recalculate_feature_counts], code of other modules, are taken to
    return. *)
Theorem last_sample_raises (results : Results (F:=F) (Persisted:=Persisted))
    (dummy_source : list (list (list bool))) (rnd : nat → nat) :
  persisted_state feature_names results = None
  ↔ ∃ e, last_sample fzero feature_names feature_values data_confounders
           shapes sample_source_from_prior count_features results
           dummy_source rnd = Raise e ∧
         (e = IndexError ∨ e = KeyError).
Proof.
  unfold persisted_state, last_sample. split.
  - destruct (mapM last (r_clusters results)) as [cl|] eqn:Hcl; cbn.
    2:{ intros _.
        destruct (traverse_mapM_None last (λ c, or_raise IndexError (last c))
                    (r_clusters results)) as (e & -> & He); [| |done|by exists e].
        - by intros x y ->.
        - intros x ->. exists IndexError. by split; [|left]. }
    rewrite (ResumeSpec.traverse_mapM last _ _ cl); [|by intros x y ->|done].
    cbn.
    destruct (mapM (λ f, r_weights results !! f ≫= last) feature_names)
      as [w|] eqn:Hw; cbn.
    2:{ intros _.
        destruct (traverse_mapM_None (λ f, r_weights results !! f ≫= last)
                    (λ f, ws ← or_raise KeyError (r_weights results !! f);
                          or_raise IndexError (last ws)) feature_names)
          as (e & -> & He); [| |done|by exists e].
        - intros f y Hf. destruct (r_weights results !! f) as [ws|]; [|done].
          cbn in *. by rewrite Hf.
        - intros f Hf. destruct (r_weights results !! f) as [ws|]; cbn in *.
          + rewrite Hf. exists IndexError. by split; [|left].
          + exists KeyError. by split; [|right]. }
    rewrite (ResumeSpec.traverse_mapM (λ f, r_weights results !! f ≫= last) _ _ w);
      [| |done].
    2:{ intros f y Hf. destruct (r_weights results !! f) as [ws|]; [|done].
        cbn in *. by rewrite Hf. }
    cbn. destruct (last (r_sample_id results)) as [id|]; cbn; [done|].
    intros _. exists IndexError. by split; [|left].
  - intros (e & Hrun & _).
    destruct (mapM last (r_clusters results)) as [cl|] eqn:Hcl; cbn; [|done].
    rewrite (ResumeSpec.traverse_mapM last _ _ cl) in Hrun;
      [|by intros x y ->|done].
    cbn in Hrun.
    destruct (mapM (λ f, r_weights results !! f ≫= last) feature_names)
      as [w|] eqn:Hw; cbn; [|done].
    rewrite (ResumeSpec.traverse_mapM (λ f, r_weights results !! f ≫= last) _ _ w)
      in Hrun; [| |done].
    2:{ intros f y Hf. destruct (r_weights results !! f) as [ws|]; [|done].
        cbn in *. by rewrite Hf. }
    cbn in Hrun. by destruct (last (r_sample_id results)).
Qed.

End LastSampleErrors.
End ResumeErrorSpec.

Module LoggersSpec.
Import Loggers.

Lemma string_app_inj_l (s t1 t2 : string) : s +:+ t1 = s +:+ t2 → t1 = t2.
Proof. induction s as [|c s IH]; cbn; [done|]. intros [= Heq]. by apply IH. Qed.

Lemma string_app_length (s t : string) :
  String.length (s +:+ t) = String.length s + String.length t.
Proof. induction s as [|c s IH]; simpl; [done|]. by f_equal. Qed.

Lemma string_app_inj_r (s1 s2 t : string) : s1 +:+ t = s2 +:+ t → s1 = s2.
Proof.
  revert s2. induction s1 as [|c s1 IH]; intros [|c2 s2]; simpl; [done| | |].
  - intros Heq. apply (f_equal String.length) in Heq. simpl in Heq.
    rewrite !string_app_length in Heq. simpl in Heq. lia.
  - intros Heq. apply (f_equal String.length) in Heq. simpl in Heq.
    rewrite !string_app_length in Heq. simpl in Heq. lia.
  - intros [= -> Heq]. f_equal. by apply IH.
Qed.

(** A decimal number followed by an underscore or a dot determines the
    number: no digit string is a proper prefix of another followed by such a
    character. *)
Lemma run_file_inj (prefix suffix : string) (k k' run run' : Z) :
  run_file prefix k run suffix = run_file prefix k' run' suffix →
  k = k' ∧ run = run'.
Proof.
  unfold run_file, base_dir. intros [= Hk Hfile].
  apply string_app_inj_l, (inj pretty) in Hk as <-. split; [done|].
  apply string_app_inj_l, string_app_inj_l, string_app_inj_l,
        string_app_inj_l in Hfile.
  by apply string_app_inj_r, (inj pretty) in Hfile.
Qed.

(** X15.  Resuming reads what was logged: the two files that
    [read_previous_results] opens for a run are the files that the
    parameters logger and the clusters logger of [get_sample_loggers] write
    for that run.  Runs do not share files: the file of a logger determines
    the number of clusters and the run, and the loggers of one run write
    different files. *)
Theorem resume_reads_logged_files (config : Config) (k run : Z)
    (resume : bool) (dirs : gset (list string)) :
  let loggers := (get_sample_loggers config k run resume dirs).1 in
  (logger_path <$> loggers !! 0 = Some (read_previous_results k run).2) ∧
  (logger_path <$> loggers !! 1 = Some (read_previous_results k run).1) ∧
  NoDup (logger_path <$> loggers) ∧
  ∀ (config' : Config) (k' run' : Z) (resume' : bool)
    (dirs' : gset (list string)) (l l' : logger),
    l ∈ loggers → l' ∈ (get_sample_loggers config' k' run' resume' dirs').1 →
    logger_path l = logger_path l' → k = k' ∧ run = run'.
Proof.
  assert (Hin : ∀ config k run resume dirs l,
            l ∈ (get_sample_loggers config k run resume dirs).1 →
            ∃ prefix suffix,
              logger_path l = run_file prefix k run suffix ∧
              ((prefix = "stats" ∧ suffix = ".txt") ∨
               (prefix = "clusters" ∧ suffix = ".txt") ∨
               (prefix = "operator_stats" ∧ suffix = ".txt") ∨
               (prefix = "likelihood" ∧ suffix = ".h5"))).
  { clear. intros config k run resume dirs l. unfold get_sample_loggers. cbn.
    destruct (negb (sample_from_prior config) && log_likelihood config); cbn;
      rewrite ?elem_of_cons, ?elem_of_nil;
      intros Hl; repeat destruct Hl as [->|Hl]; try done; eexists _, _;
      (split; [reflexivity|]); tauto. }
  cbn zeta. split_and!.
  - unfold get_sample_loggers. cbn.
    by destruct (negb (sample_from_prior config) && log_likelihood config).
  - unfold get_sample_loggers. cbn.
    by destruct (negb (sample_from_prior config) && log_likelihood config).
  - unfold get_sample_loggers. cbn.
    destruct (negb (sample_from_prior config) && log_likelihood config); cbn;
      repeat (apply NoDup_cons; split;
                [rewrite ?elem_of_cons, ?elem_of_nil; unfold run_file; cbn;
                 intros Heq; repeat destruct Heq as [Heq|Heq]; done|]);
      apply NoDup_nil_2.
  - intros config' k' run' resume' dirs' l l' Hl Hl' Heq.
    apply Hin in Hl as (p & sf & Hp & Hcase).
    apply Hin in Hl' as (p' & sf' & Hp' & Hcase').
    rewrite Hp, Hp' in Heq.
    destruct Hcase as [[-> ->]|[[-> ->]|[[-> ->]|[-> ->]]]],
             Hcase' as [[-> ->]|[[-> ->]|[[-> ->]|[-> ->]]]];
      first [by apply run_file_inj in Heq
            |unfold run_file in Heq; cbn in Heq; by injection Heq].
Qed.

End LoggersSpec.

Module RescaleSpec.
Import Rescale.
#[local] Open Scope Q_scope.

(** X16.  [linear_rescale] adds [old_max] where the new range would have
    [new_max] added: it maps the old range onto an interval as long as the
    new range that ends at [old_max].  The old maximum is mapped to itself
    and the old minimum to [old_max - (new_max - new_min)]; the bounds of
    the new range are met only when the two ranges end at the same point. *)
Theorem linear_rescale_ends_at_old_max (old_min old_max new_min new_max : Q) :
  ¬ old_max == old_min →
  ∃ top bottom,
    linear_rescale old_max old_min old_max new_min new_max = Some top ∧
    linear_rescale old_min old_min old_max new_min new_max = Some bottom ∧
    top == old_max ∧
    bottom == old_max - (new_max - new_min) ∧
    (top == new_max ↔ old_max == new_max) ∧
    (bottom == new_min ↔ old_max == new_max).
Proof.
  intros Hne. unfold linear_rescale.
  assert (Hd : ¬ old_max - old_min == 0).
  { intros Hz. apply Hne. rewrite <- (Qplus_0_l old_min), <- Hz. ring. }
  destruct (Qeq_bool (old_max - old_min) 0) eqn:Hz.
  { by apply Qeq_bool_eq in Hz. }
  eexists _, _. split; [done|]. split; [done|].
  assert (Htop : (new_max - new_min) / (old_max - old_min) * (old_max - old_max)
                 + old_max == old_max) by (field; exact Hd).
  assert (Hbot : (new_max - new_min) / (old_max - old_min) * (old_min - old_max)
                 + old_max == old_max - (new_max - new_min)) by (field; exact Hd).
  split_and!; [done|done| |].
  - by rewrite Htop.
  - rewrite Hbot. split.
    + intros Heq.
      assert (Hx : old_max == old_max - (new_max - new_min) + (new_max - new_min))
        by ring.
      rewrite Hx, Heq. ring.
    + intros ->. ring.
Qed.

Lemma linear_rescale_ends_at_old_max_witness :
  ∃ top bottom,
    linear_rescale 10 0 10 0 1 = Some top ∧
    linear_rescale 0 0 10 0 1 = Some bottom ∧
    top == 10 ∧ bottom == 10 - (1 - 0) ∧
    (top == 1 ↔ 10 == 1) ∧ (bottom == 0 ↔ 10 == 1).
Proof. apply (linear_rescale_ends_at_old_max 0 10 0 1). discriminate. Defined.

End RescaleSpec.

Module NeighboursSpec.
Import Initializer.

Lemma any_zip_true (row zone : list bool) :
  any (zip_with andb row zone) = true
  ↔ ∃ i, row !! i = Some true ∧ zone !! i = Some true.
Proof.
  unfold any. rewrite existsb_exists. split.
  - intros (b & Hin & Hb). unfold id in Hb. subst b.
    apply list_elem_of_In, list_elem_of_lookup in Hin as [i Hi].
    apply lookup_zip_with_Some in Hi as (x & y & Hxy & Hx & Hy).
    symmetry in Hxy. apply andb_true_iff in Hxy as [-> ->]. by exists i.
  - intros (i & Hrow & Hzone). exists true. split; [|done].
    apply list_elem_of_In, list_elem_of_lookup. exists i.
    by rewrite lookup_zip_with, Hrow, Hzone.
Qed.

(** X17.  For a zone and a mask over [n] objects and an adjacency matrix of
    [n] rows and [n] columns, [get_neighbours] returns a mask over the [n]
    objects that marks exactly the objects that are in no zone yet and
    adjacent to a member of the zone: an object already in a zone is never a
    neighbour, whatever it is adjacent to. *)
Theorem get_neighbours_characterised (n : nat)
    (zone already_in_zone : list bool) (adj_mat : list (list bool)) :
  length zone = n → length already_in_zone = n → length adj_mat = n →
  Forall (λ row, length row = n) adj_mat →
  length (get_neighbours zone already_in_zone adj_mat) = n ∧
  ∀ j, get_neighbours zone already_in_zone adj_mat !! j = Some true
       ↔ already_in_zone !! j = Some false ∧
         ∃ row i, adj_mat !! j = Some row ∧ row !! i = Some true ∧
                  zone !! i = Some true.
Proof.
  intros Hzone Halready Hadj Hrows. split.
  { unfold get_neighbours, dot.
    rewrite length_zip_with, !length_map. lia. }
  intros j. unfold get_neighbours, dot. rewrite lookup_zip_with_Some. split.
  - intros (x & y & Hxy & Hx & Hy).
    symmetry in Hxy. apply andb_true_iff in Hxy as [-> ->].
    rewrite list_lookup_fmap in Hx. rewrite list_lookup_fmap in Hy.
    destruct (adj_mat !! j) as [row|] eqn:Hrow; [|done].
    destruct (already_in_zone !! j) as [b|] eqn:Hb; [|done].
    cbn in Hx, Hy. injection Hx as Hx. injection Hy as Hy.
    apply negb_true_iff in Hy as ->. split; [done|].
    apply any_zip_true in Hx as (i & Hi & Hz). by exists row, i.
  - intros (Hfree & row & i & Hrow & Hi & Hz). exists true, true.
    split_and!; [done| |].
    + rewrite list_lookup_fmap, Hrow. cbn. f_equal. apply any_zip_true. eauto.
    + by rewrite list_lookup_fmap, Hfree.
Qed.

Lemma get_neighbours_characterised_witness :
  length (get_neighbours [true; false; false] [true; false; false]
            [[false; true; false]; [true; false; true]; [false; true; false]])
  = 3 ∧
  ∀ j, get_neighbours [true; false; false] [true; false; false]
         [[false; true; false]; [true; false; true]; [false; true; false]]
       !! j = Some true
       ↔ [true; false; false] !! j = Some false ∧
         ∃ row i,
           [[false; true; false]; [true; false; true]; [false; true; false]]
           !! j = Some row ∧ row !! i = Some true ∧
           [true; false; false] !! i = Some true.
Proof.
  apply (get_neighbours_characterised 3 [true; false; false]
           [true; false; false]
           [[false; true; false]; [true; false; true]; [false; true; false]]).
  - reflexivity.
  - reflexivity.
  - reflexivity.
  - repeat constructor.
Defined.

End NeighboursSpec.

Module AreasSpec.
Import Stdlib.Strings.Ascii Areas.

Lemma int_of_char_bit (b : bool) :
  int_of_char (bit_char b) = Ok (if b then 1%Z else 0%Z).
Proof. by destruct b. Qed.

Lemma traverse_bits (area : list bool) :
  traverse int_of_char (map bit_char area)
  = Ok (map (λ b : bool, if b then 1%Z else 0%Z) area).
Proof.
  induction area as [|b area IH]; [done|].
  cbn [map traverse]. rewrite int_of_char_bit, IH. done.
Qed.

Lemma decode_encode_area_aux (area : list bool) :
  decode_area (encode_area area) = Ok area.
Proof.
  unfold decode_area, encode_area.
  rewrite String.list_ascii_of_string_of_list_ascii, traverse_bits.
  cbn. f_equal. rewrite map_map. rewrite <- (map_id area) at 2.
  apply map_ext. by intros [].
Qed.

(** X18.  Decoding an encoded area gives the area back, whatever the area:
    no area is lost or altered by a round trip through its bit string, and
    bit strings of different areas differ. *)
Theorem decode_encode_area (area area' : list bool) :
  decode_area (encode_area area) = Ok area ∧
  (encode_area area = encode_area area' → area = area').
Proof.
  split; [apply decode_encode_area_aux|].
  intros Heq. pose proof (decode_encode_area_aux area) as H1.
  rewrite Heq, decode_encode_area_aux in H1. congruence.
Qed.

Lemma int_of_char_Ok (c : ascii) (n : Z) :
  int_of_char c = Ok n →
  (c = "0"%char ∧ n = 0%Z) ∨ (c ≠ "0"%char ∧ n ≠ 0%Z ∧
     (c = "1"%char ↔ n = 1%Z)).
Proof.
  unfold int_of_char. case_decide as Hd; [|done]. intros [= <-].
  rewrite <- (ascii_nat_embedding c).
  remember (nat_of_ascii c) as k eqn:Hk. clear Hk.
  assert (Hcases : k = 48 ∨ k = 49 ∨ k = 50 ∨ k = 51 ∨ k = 52 ∨ k = 53 ∨
                   k = 54 ∨ k = 55 ∨ k = 56 ∨ k = 57) by lia.
  destruct Hcases as [->|[->|[->|[->|[->|[->|[->|[->|[->| ->]]]]]]]]];
    vm_compute;
    first [left; done | right; split_and!; try done; split; done].
Qed.

Lemma decode_area_cons (c : ascii) (s : string) :
  decode_area (String c s)
  = n ← int_of_char c; a ← decode_area s; Ok (negb (n =? 0)%Z :: a).
Proof.
  unfold decode_area. cbn [String.list_ascii_of_string traverse].
  destruct (int_of_char c) as [n|e]; [|done]. cbn.
  destruct (traverse int_of_char (String.list_ascii_of_string s)); done.
Qed.

(** X19.  [decode_area] accepts every string of decimal digits and reads any
    digit but ['0'] as [True]: encoding what it returns gives the string
    back if and only if the string is made of ['0'] and ['1'] only. *)
Theorem encode_decode_area (area_str : string) (area : list bool) :
  decode_area area_str = Ok area →
  encode_area area = area_str ↔ bit_string area_str.
Proof.
  revert area. induction area_str as [|c s IH]; intros area.
  - intros [= <-]. split; [intros _; constructor|done].
  - rewrite decode_area_cons. destruct (int_of_char c) as [n|e] eqn:Hc; [|done].
    cbn. destruct (decode_area s) as [a|e] eqn:Hs; [|done]. cbn.
    intros [= <-]. specialize (IH a eq_refl).
    unfold bit_string in *. cbn [String.list_ascii_of_string].
    rewrite Forall_cons. unfold encode_area in *. cbn [map String.string_of_list_ascii].
    apply int_of_char_Ok in Hc as [[-> ->]|(Hc0 & Hn0 & Hc1)].
    + cbn. split.
      * intros [= Heq]. split; [by left|]. by apply IH.
      * intros [_ Hs']. f_equal. by apply IH.
    + apply Z.eqb_neq in Hn0 as Hn0'. rewrite Hn0'. cbn. split.
      * intros [= <- Heq]. split; [by right|]. by apply IH.
      * intros [[->| ->] Hs']; [done|]. f_equal. by apply IH.
Qed.

Lemma encode_decode_area_witness :
  encode_area [true; false] = "10" ↔ bit_string "10".
Proof. apply (encode_decode_area "10" [true; false]). reflexivity. Defined.

(** A string without the separator is one piece. *)
Lemma split_no_sep (sep : ascii) (s : string) :
  sep ∉ String.list_ascii_of_string s → split sep s = [s].
Proof.
  induction s as [|c s IH]; [done|]. cbn [String.list_ascii_of_string split].
  intros Hnot. apply not_elem_of_cons in Hnot as [Hne Hnot].
  destruct (decide (c = sep)) as [->|_]; [done|]. by rewrite IH.
Qed.

Lemma split_app_sep (sep : ascii) (s rest : string) :
  sep ∉ String.list_ascii_of_string s →
  split sep (s +:+ String sep rest) = s :: split sep rest.
Proof.
  induction s as [|c s IH]; cbn [String.list_ascii_of_string].
  - intros _. simpl. by destruct (decide (sep = sep)).
  - intros Hnot. apply not_elem_of_cons in Hnot as [Hne Hnot].
    simpl. destruct (decide (c = sep)) as [->|_]; [done|].
    by rewrite IH.
Qed.

Lemma split_concat (sep : ascii) (pieces : list string) :
  pieces ≠ [] →
  Forall (λ s, sep ∉ String.list_ascii_of_string s) pieces →
  split sep (String.concat (String sep EmptyString) pieces) = pieces.
Proof.
  induction pieces as [|s pieces IH]; [done|]. intros _ Hall.
  apply Forall_cons in Hall as [Hs Hall].
  destruct pieces as [|s' pieces].
  - cbn. by apply split_no_sep.
  - change (String.concat (String sep EmptyString) (s :: s' :: pieces))
      with (s +:+ String sep (String.concat (String sep EmptyString) (s' :: pieces))).
    rewrite split_app_sep by done. f_equal. by apply IH.
Qed.

Lemma encode_area_no_tab (area : list bool) :
  tab ∉ String.list_ascii_of_string (encode_area area).
Proof.
  unfold encode_area. rewrite String.list_ascii_of_string_of_list_ascii.
  intros (b & Hb & _)%list_elem_of_fmap. by destruct b.
Qed.

Lemma traverse_decode_encode (areas : list (list bool)) :
  traverse decode_area (map encode_area areas) = Ok areas.
Proof.
  induction areas as [|a areas IH]; [done|].
  cbn [map traverse]. rewrite decode_encode_area_aux, IH. done.
Qed.

(** X20.  Parsing the formatted columns of a matrix of areas gives the matrix
    back, with one exception: no area at all is formatted as the empty
    string, which is parsed as one area without objects. *)
Theorem parse_format_area_columns (areas : list (list bool)) (n : nat) :
  Forall (λ area, length area = n) areas →
  parse_area_columns (format_area_columns areas)
  = Ok (match areas with [] => [[]] | _ => areas end).
Proof.
  intros Hrect. unfold parse_area_columns, format_area_columns.
  destruct areas as [|a areas]; [done|].
  rewrite split_concat.
  - rewrite traverse_decode_encode. cbn. unfold np_array.
    rewrite decide_True; [done|].
    apply Forall_cons in Hrect as Hrect'. destruct Hrect' as [Ha _].
    eapply Forall_impl; [exact Hrect|]. cbn. intros r Hr. congruence.
  - done.
  - apply Forall_forall. intros s (area & -> & _)%list_elem_of_fmap.
    apply encode_area_no_tab.
Qed.

Lemma parse_format_area_columns_witness :
  parse_area_columns (format_area_columns [[true; false]; [false; false]])
  = Ok [[true; false]; [false; false]].
Proof.
  apply (parse_format_area_columns [[true; false]; [false; false]] 2).
  repeat constructor.
Defined.

End AreasSpec.

Module BoundingBoxSpec.
Import BoundingBox.
Import BestOfAttempts (float, NaN, NegInf, Finite, PosInf).

Lemma float_le_refl (a : float) : a ≠ NaN → float_le a a = true.
Proof.
  destruct a as [| |x|]; cbn; [done|done| |done]. intros _.
  apply Qle_bool_iff, Qle_refl.
Qed.

Lemma float_le_trans (a b c : float) :
  float_le a b = true → float_le b c = true → float_le a c = true.
Proof.
  destruct a as [| |x|], b as [| |y|], c as [| |z|]; cbn; try done.
  rewrite !Qle_bool_iff. apply Qle_trans.
Qed.

Lemma float_gt_true (a b : float) : float_gt a b = true → float_le b a = true.
Proof.
  destruct a as [| |x|], b as [| |y|]; cbn; try done.
  rewrite negb_true_iff. intros Hf. apply Qle_bool_iff, Qlt_le_weak.
  apply Qnot_le_lt. intros Hle. apply Qle_bool_iff in Hle. congruence.
Qed.

Lemma float_gt_false (a b : float) :
  a ≠ NaN → b ≠ NaN → float_gt a b = false → float_le a b = true.
Proof.
  destruct a as [| |x|], b as [| |y|]; cbn; try done.
  intros _ _. by rewrite negb_false_iff.
Qed.

Lemma foldl_max_spec (xs : list float) (x : float) :
  Forall (λ v, v ≠ NaN) (x :: xs) →
  let m := foldl (λ m v, if float_gt v m then v else m) x xs in
  m ∈ x :: xs ∧ ∀ v, v ∈ x :: xs → float_le v m = true.
Proof.
  revert x. induction xs as [|y xs IH]; intros x Hnan; cbn.
  - split; [by left|]. intros v ->%list_elem_of_singleton.
    apply float_le_refl. by apply Forall_cons in Hnan as [? _].
  - apply Forall_cons in Hnan as [Hx Hnan].
    apply Forall_cons in Hnan as [Hy Hxs].
    destruct (float_gt y x) eqn:Hgt.
    + destruct (IH y) as [Hin Hub]; [by apply Forall_cons|].
      split; [by right|].
      intros v [->|Hv]%elem_of_cons; [|by apply Hub].
      eapply float_le_trans; [by apply float_gt_true|]. apply Hub. by left.
    + destruct (IH x) as [Hin Hub]; [by apply Forall_cons|]. split.
      * apply elem_of_cons in Hin as [->|Hin]; [by left|]. by do 2 right.
      * intros v [->|[->|Hv]%elem_of_cons]%elem_of_cons.
        -- apply Hub. by left.
        -- apply (float_le_trans _ x); [by apply float_gt_false|].
           apply Hub. by left.
        -- apply Hub. by right.
Qed.

Lemma foldl_min_spec (xs : list float) (x : float) :
  Forall (λ v, v ≠ NaN) (x :: xs) →
  let m := foldl (λ m v, if float_lt v m then v else m) x xs in
  m ∈ x :: xs ∧ ∀ v, v ∈ x :: xs → float_le m v = true.
Proof.
  revert x. induction xs as [|y xs IH]; intros x Hnan; cbn [foldl].
  - split; [by left|]. intros v ->%list_elem_of_singleton.
    apply float_le_refl. by apply Forall_cons in Hnan as [? _].
  - apply Forall_cons in Hnan as [Hx Hnan].
    apply Forall_cons in Hnan as [Hy Hxs].
    destruct (float_lt y x) eqn:Hgt; unfold float_lt in Hgt.
    + destruct (IH y) as [Hin Hlb]; [by apply Forall_cons|].
      split; [by right|].
      intros v [->|Hv]%elem_of_cons; [|by apply Hlb].
      eapply float_le_trans; [apply Hlb; by left|]. by apply float_gt_true.
    + destruct (IH x) as [Hin Hlb]; [by apply Forall_cons|]. split.
      * apply elem_of_cons in Hin as [->|Hin]; [by left|]. by do 2 right.
      * intros v [->|[->|Hv]%elem_of_cons]%elem_of_cons.
        -- apply Hlb. by left.
        -- apply (float_le_trans _ x); [apply Hlb; by left|].
           by apply float_gt_false.
        -- apply Hlb. by right.
Qed.

Lemma py_max_spec (xs : list float) :
  xs ≠ [] → Forall (λ v, v ≠ NaN) xs →
  ∃ m, py_max xs = Ok m ∧ m ∈ xs ∧ ∀ v, v ∈ xs → float_le v m = true.
Proof.
  destruct xs as [|x xs]; [done|]. intros _ Hnan. eexists. split; [done|].
  by apply foldl_max_spec.
Qed.

Lemma py_min_spec (xs : list float) :
  xs ≠ [] → Forall (λ v, v ≠ NaN) xs →
  ∃ m, py_min xs = Ok m ∧ m ∈ xs ∧ ∀ v, v ∈ xs → float_le m v = true.
Proof.
  destruct xs as [|x xs]; [done|]. intros _ Hnan. eexists. split; [done|].
  by apply foldl_min_spec.
Qed.

(** The coordinate [c] of every point, when every point has it. *)
Lemma traverse_coordinate (c : nat) (points : list (list float)) :
  Forall (λ p, (c < length p)%nat) points →
  ∃ xs, traverse (λ p, getitem p c) points = Ok xs ∧
        length xs = length points ∧
        (∀ x, x ∈ xs ↔ ∃ p, p ∈ points ∧ p !! c = Some x).
Proof.
  induction 1 as [|p points Hp _ (xs & Hxs & Hlen & Hiff)].
  - exists []. split_and!; [done|done|]. intros x. split.
    + by intros ?%elem_of_nil.
    + by intros (p & ?%elem_of_nil & _).
  - apply lookup_lt_is_Some in Hp as [x Hx]. exists (x :: xs).
    assert (Hg : getitem p c = Ok x) by (unfold getitem; by rewrite Hx).
    cbn [traverse]. rewrite Hg, Hxs. cbn.
    split_and!; [done|by rewrite Hlen|]. intros v. rewrite elem_of_cons, Hiff.
    split.
    + intros [->|(q & Hq & Hv)]; [exists p; split; [by left|done]|].
      exists q. split; [by right|done].
    + intros (q & [->|Hq]%elem_of_cons & Hv); [left; congruence|].
      right. by exists q.
Qed.

(** X21.  For a non-empty list of points with at least two coordinates each,
    none of the first two of which is [nan], [bounding_box] returns a box
    that holds every point, and each of its four bounds is the coordinate
    of some point: no smaller box holds them all. *)
Theorem bounding_box_tight (points : list (list float)) :
  points ≠ [] →
  Forall (λ p, (2 ≤ length p)%nat) points →
  no_nan points →
  ∃ x_max y_max x_min y_min : float,
    bounding_box points
    = Ok (<["x_max" := x_max]> (<["y_max" := y_max]>
            (<["x_min" := x_min]> (<["y_min" := y_min]> ∅)))) ∧
    (∀ p x y, p ∈ points → p !! 0%nat = Some x → p !! 1%nat = Some y →
       float_le x_min x = true ∧ float_le x x_max = true ∧
       float_le y_min y = true ∧ float_le y y_max = true) ∧
    (∃ p, p ∈ points ∧ p !! 0%nat = Some x_max) ∧
    (∃ p, p ∈ points ∧ p !! 1%nat = Some y_max) ∧
    (∃ p, p ∈ points ∧ p !! 0%nat = Some x_min) ∧
    (∃ p, p ∈ points ∧ p !! 1%nat = Some y_min).
Proof.
  intros Hne Hall Hnan.
  destruct (traverse_coordinate 0%nat points) as (xs & Hxs & Hlx & Hx).
  { eapply Forall_impl; [exact Hall|]. cbn. lia. }
  destruct (traverse_coordinate 1%nat points) as (ys & Hys & Hly & Hy).
  { eapply Forall_impl; [exact Hall|]. cbn. lia. }
  assert (Hxne : xs ≠ []).
  { intros ->. destruct points; [done|]. cbn in Hlx. lia. }
  assert (Hyne : ys ≠ []).
  { intros ->. destruct points; [done|]. cbn in Hly. lia. }
  assert (Hxnan : Forall (λ v, v ≠ NaN) xs).
  { apply Forall_forall. intros v (p & Hp & Hv)%Hx ->.
    by apply (Hnan p 0%nat Hp ltac:(lia)). }
  assert (Hynan : Forall (λ v, v ≠ NaN) ys).
  { apply Forall_forall. intros v (p & Hp & Hv)%Hy ->.
    by apply (Hnan p 1%nat Hp ltac:(lia)). }
  destruct (py_max_spec xs Hxne Hxnan) as (x_max & Hxmax & Hxmax_in & Hxmax_ub).
  destruct (py_max_spec ys Hyne Hynan) as (y_max & Hymax & Hymax_in & Hymax_ub).
  destruct (py_min_spec xs Hxne Hxnan) as (x_min & Hxmin & Hxmin_in & Hxmin_lb).
  destruct (py_min_spec ys Hyne Hynan) as (y_min & Hymin & Hymin_in & Hymin_lb).
  exists x_max, y_max, x_min, y_min. split_and!.
  - unfold bounding_box. rewrite Hxs. cbn. rewrite Hys. cbn.
    rewrite Hxmax. cbn. rewrite Hymax. cbn. rewrite Hxmin. cbn.
    rewrite Hymin. done.
  - intros p x y Hp Hpx Hpy.
    assert (x ∈ xs) by (apply Hx; eauto).
    assert (y ∈ ys) by (apply Hy; eauto).
    split_and!; eauto.
  - by apply Hx.
  - by apply Hy.
  - by apply Hx.
  - by apply Hy.
Qed.

Lemma bounding_box_tight_witness :
  ∃ x_max y_max x_min y_min : float,
    bounding_box [[Finite 1; Finite 5]; [Finite 3; NegInf]]
    = Ok (<["x_max" := x_max]> (<["y_max" := y_max]>
            (<["x_min" := x_min]> (<["y_min" := y_min]> ∅)))) ∧
    (∀ p x y, p ∈ [[Finite 1; Finite 5]; [Finite 3; NegInf]] →
       p !! 0%nat = Some x → p !! 1%nat = Some y →
       float_le x_min x = true ∧ float_le x x_max = true ∧
       float_le y_min y = true ∧ float_le y y_max = true) ∧
    (∃ p, p ∈ [[Finite 1; Finite 5]; [Finite 3; NegInf]] ∧ p !! 0%nat = Some x_max) ∧
    (∃ p, p ∈ [[Finite 1; Finite 5]; [Finite 3; NegInf]] ∧ p !! 1%nat = Some y_max) ∧
    (∃ p, p ∈ [[Finite 1; Finite 5]; [Finite 3; NegInf]] ∧ p !! 0%nat = Some x_min) ∧
    (∃ p, p ∈ [[Finite 1; Finite 5]; [Finite 3; NegInf]] ∧ p !! 1%nat = Some y_min).
Proof.
  apply (bounding_box_tight [[Finite 1; Finite 5]; [Finite 3; NegInf]]);
    [done|repeat constructor|].
  intros p c Hp Hc.
  apply elem_of_cons in Hp as [->|Hp];
    [|apply list_elem_of_singleton in Hp as ->];
    destruct c as [|[|c]]; cbn; (done || lia).
Defined.

(** With a [nan] among the coordinates the box need not hold the points:
    no float is greater than [nan], so a [nan] in the first place stays the
    maximum. *)
Example bounding_box_nan :
  bounding_box [[NaN; Finite 0]; [Finite 1; Finite 0]]
  = Ok (<["x_max" := NaN]> (<["y_max" := Finite 0]>
          (<["x_min" := NaN]> (<["y_min" := Finite 0]> ∅))))
  ∧ float_le (Finite 1) NaN = false.
Proof. split; reflexivity. Qed.

End BoundingBoxSpec.

Module RoundingSpec.
Import Rounding.
#[local] Open Scope Z_scope.

(** The decimal representation of a positive number [x] has [k] digits,
    where [10^(k-1) <= x < 10^k]. *)
Lemma pretty_N_go_length (x : N) :
  ∀ s, (0 < x)%N →
    ∃ k : nat, (1 ≤ k)%nat ∧
      (10 ^ N.of_nat (k - 1) ≤ x < 10 ^ N.of_nat k)%N ∧
      String.length (pretty_N_go x s) = (k + String.length s)%nat.
Proof.
  induction (N.lt_wf_0 x) as [x _ IH]. intros s Hpos.
  rewrite pretty_N_go_step by done.
  destruct (decide (x < 10)%N) as [Hlt|Hge].
  - exists 1%nat. rewrite N.div_small by done. rewrite pretty_N_go_0.
    change (N.of_nat (1 - 1)) with 0%N. change (N.of_nat 1) with 1%N.
    rewrite N.pow_0_r, N.pow_1_r. split_and!; [done|lia|done|done].
  - assert (Hdiv : (0 < x `div` 10)%N) by (apply N.div_str_pos; lia).
    destruct (IH (x `div` 10)%N ltac:(apply N.div_lt; lia)
                (String (pretty_N_char (x `mod` 10)) s) Hdiv)
      as (k & Hk & [Hlo Hhi] & Hlen).
    exists (S k). rewrite Hlen. cbn [String.length].
    pose proof (N.div_mod x 10 ltac:(lia)) as Hdm.
    pose proof (N.mod_lt x 10 ltac:(lia)) as Hmod.
    pose proof (N.le_0_l (x `mod` 10)) as Hmod0.
    replace (N.of_nat (S k - 1)) with (N.succ (N.of_nat (k - 1))) by lia.
    replace (N.of_nat (S k)) with (N.succ (N.of_nat k)) by lia.
    rewrite !N.pow_succ_r by lia.
    split_and!; [lia|lia|lia|lia].
Qed.

Lemma len_str_spec (n : Z) :
  0 < n → 1 ≤ len_str n ∧ 10 ^ (len_str n - 1) ≤ n < 10 ^ len_str n.
Proof.
  intros Hpos. destruct n as [|p|p]; [lia| |lia].
  unfold len_str, pretty, pretty_Z, pretty, pretty_positive, pretty, pretty_N.
  rewrite decide_False by done.
  destruct (pretty_N_go_length (N.pos p) "" ltac:(lia))
    as (k & Hk & [Hlo Hhi] & ->).
  cbn [String.length]. rewrite Nat.add_0_r.
  split; [lia|].
  replace (Z.of_nat k - 1) with (Z.of_N (N.of_nat (k - 1))) by lia.
  replace (Z.of_nat k) with (Z.of_N (N.of_nat k)) at 2 by lia.
  change 10 with (Z.of_N 10). rewrite <- !N2Z.inj_pow.
  change (Z.pos p) with (Z.of_N (N.pos p)). lia.
Qed.

(** A larger number has no fewer digits. *)
Lemma len_str_mono (m n : Z) : 0 < m → m ≤ n → len_str m ≤ len_str n.
Proof.
  intros Hm Hmn.
  destruct (len_str_spec m Hm) as (Hm1 & Hmlo & Hmhi).
  destruct (len_str_spec n ltac:(lia)) as (Hn1 & Hnlo & Hnhi).
  destruct (decide (len_str m ≤ len_str n)) as [|Hgt]; [done|].
  assert (10 ^ len_str n ≤ 10 ^ (len_str m - 1))
    by (apply Z.pow_le_mono_r; lia).
  lia.
Qed.

Lemma floor_multiple (n factor : Z) :
  0 < factor →
  n / factor * factor ≤ n ∧ n < n / factor * factor + factor ∧
  (factor | n / factor * factor).
Proof.
  intros Hpos. pose proof (Z.div_mod n factor ltac:(lia)) as Hdm.
  pose proof (Z.mod_pos_bound n factor Hpos) as Hb.
  split_and!; [lia|lia|]. by exists (n / factor).
Qed.

(** X22.  What [round_single_int] returns lies on the side the mode asks
    for, at least [offset] away from [n] (for an offset that is not
    negative); and when the position (counted from 1) is left of the last
    digit, it is a multiple of the power of ten of that position. *)
Theorem round_single_int_direction (n : Z) (mode : string)
    (position offset r : Z) :
  round_single_int n mode position offset = inl r →
  0 ≤ offset →
  (mode = "up" → n + offset ≤ r) ∧
  (mode = "down" → r ≤ n - offset) ∧
  (1 ≤ position < n_digits n → (10 ^ (n_digits n - position) | r)).
Proof.
  unfold round_single_int. intros Hr Hoff.
  destruct (decide (mode ≠ "up" ∧ mode ≠ "down")) as [|Hmode]; [done|].
  destruct (decide (n_digits n < position)) as [|Hpos]; [done|].
  assert (Hud : mode = "up" → mode ≠ "down") by (intros ->; done).
  destruct (decide (n_digits n = 1)) as [Hd1|Hd1].
  { injection Hr as <-. destruct (decide (mode = "down")) as [Hdown|Hdown].
    - split_and!; [by intros ?%Hud|lia|lia].
    - split_and!; [lia|done|lia]. }
  destruct (decide (n_digits n = 2)) as [Hd2|Hd2].
  { destruct (decide (position = 1)) as [->|Hp1].
    - injection Hr as <-. rewrite Hd2. change (10 ^ (2 - 1)) with 10.
      destruct (floor_multiple n 10 ltac:(lia)) as (Hle & Hlt & Hdiv).
      destruct (decide (mode = "down")) as [Hdown|Hdown].
      + split_and!; [by intros ?%Hud|lia|].
        intros _. apply Z.divide_sub_r; [done|]. by exists offset.
      + split_and!; [lia|done|].
        intros _. apply Z.divide_add_r; [done|]. by exists (offset + 1).
    - destruct (decide (position = 2)) as [->|Hp2]; [|done].
      injection Hr as <-. destruct (decide (mode = "down")) as [Hdown|Hdown].
      + split_and!; [by intros ?%Hud|lia|lia].
      + split_and!; [lia|done|lia]. }
  destruct (decide (position ≠ n_digits n)) as [Hne|Heq].
  - injection Hr as <-.
    assert (Hfac : 10 ≤ 10 ^ (n_digits n - position)).
    { change 10 with (10 ^ 1) at 1. apply Z.pow_le_mono_r; lia. }
    destruct (floor_multiple n (10 ^ (n_digits n - position)) ltac:(lia))
      as (Hle & Hlt & Hdiv).
    destruct (decide (mode = "down")) as [Hdown|Hdown].
    + split_and!; [by intros ?%Hud|nia|].
      intros _. apply Z.divide_sub_r; [done|]. by exists offset.
    + split_and!; [nia|done|].
      intros _. apply Z.divide_add_r; [done|]. by exists (offset + 1).
  - injection Hr as <-. destruct (decide (mode = "down")) as [Hdown|Hdown].
    + split_and!; [by intros ?%Hud|lia|lia].
    + split_and!; [lia|done|lia].
Qed.

Lemma round_single_int_direction_witness :
  (("up" : string) = "up" → 3456 + 1 ≤ 3600) ∧
  (("up" : string) = "down" → 3600 ≤ 3456 - 1) ∧
  (1 ≤ 2 < n_digits 3456 → (10 ^ (n_digits 3456 - 2) | 3600)).
Proof.
  apply (round_single_int_direction 3456 "up" 2 1 3600); [reflexivity|lia].
Defined.

(** The model of [round_int] satisfies the recursive definition of the
    source. *)
Lemma round_int_unfold (n : Z) (mode : string) (offset : Z) :
  round_int n mode offset = round_int_body round_int n mode offset.
Proof.
  unfold round_int_body at 1. unfold round_int at 1. unfold round_int_body at 1.
  destruct (decide (offset < n)); [done|].
  destruct (decide (0 ≤ n)); [done|].
  unfold round_int, round_int_body.
  destruct (decide (offset < Z.abs n)); [done|].
  destruct (decide (0 ≤ Z.abs n)); [done|lia].
Qed.

(** ** The division of two integers *)

Lemma floor_div_bounds (a b e : Z) :
  0 < b → b ≤ a → e = Z.log2 (a / b) →
  0 ≤ e ∧ 2 ^ e * b ≤ a < 2 ^ (e + 1) * b.
Proof.
  intros Hb Hab ->. split; [apply Z.log2_nonneg|].
  assert (Hk : 1 ≤ a / b) by (apply Z.div_le_lower_bound; lia).
  destruct (Z.log2_spec (a / b) ltac:(lia)) as [Hlo Hhi].
  pose proof (Z.div_mod a b ltac:(lia)) as Hdm.
  pose proof (Z.mod_pos_bound a b Hb) as Hmod.
  rewrite <- Z.add_1_r in Hhi.
  split.
  - apply Z.le_trans with (a / b * b); [|lia].
    apply Z.mul_le_mono_nonneg_r; lia.
  - apply Z.lt_le_trans with ((a / b + 1) * b); [lia|].
    apply Z.mul_le_mono_nonneg_r; lia.
Qed.

(** The float nearest to a quotient is [2^1024] or more when the quotient
    is at least half-way between the largest float, [2^1024 - 2^971], and
    [2^1024]. *)
Lemma nearest_float_too_large (a b : Z) :
  0 < b → b ≤ a →
  too_large (nearest_float a b) = true ↔ (2 ^ 1024 - 2 ^ 970) * b ≤ a.
Proof.
  intros Hb Hab. unfold too_large, nearest_float.
  rewrite (decide_False (P := a < b)) by lia.
  remember (Z.log2 (a / b)) as e eqn:He.
  destruct (floor_div_bounds a b e Hb Hab He) as (He0 & Hlo & Hhi).
  clear He. cbn [mantissa exponent].
  rewrite Z.min_l by lia. rewrite bool_decide_eq_true.
  replace (- (52 - e)) with (e - 52) by lia.
  destruct (decide (e ≤ 52)) as [Hsmall|Hbig].
  - (* the quotient is below 2^53 *)
    assert (Hlt : a < 2 ^ 53 * b).
    { assert (2 ^ (e + 1) ≤ 2 ^ 53) by (apply Z.pow_le_mono_r; lia). nia. }
    split.
    + intros [Hexp Hov]. assert (e = 52) as -> by lia.
      exfalso. change (52 - 52) with 0 in *.
      change (Z.max 0 0) with 0 in Hov.
      change (2 ^ 0) with 1 in Hov. rewrite !Z.mul_1_r in Hov.
      pose proof (Z.div_mod a b ltac:(lia)) as Hdm.
      pose proof (Z.mod_pos_bound a b Hb) as Hmod.
      assert (a / b < 2 ^ 53) by (apply Z.div_lt_upper_bound; lia).
      repeat case_decide; try destruct (Z.even _); lia.
    + intros Hth. exfalso.
      assert (2 ^ 53 * b ≤ (2 ^ 1024 - 2 ^ 970) * b)
        by (apply Z.mul_le_mono_nonneg_r; lia).
      lia.
  - rewrite (Z.max_l 0 (52 - e)) by lia. rewrite (Z.max_r 0 (e - 52)) by lia.
    change (2 ^ 0) with 1. rewrite Z.mul_1_r.
    set (P := 2 ^ (e - 52)).
    assert (HP : 0 < P) by (apply Z.pow_pos_nonneg; lia).
    assert (HeP : 2 ^ e = 2 ^ 52 * P).
    { unfold P. rewrite <- Z.pow_add_r by lia. f_equal. lia. }
    assert (HeP1 : 2 ^ (e + 1) = 2 ^ 53 * P).
    { unfold P. rewrite <- Z.pow_add_r by lia. f_equal. lia. }
    rewrite HeP in Hlo. rewrite HeP1 in Hhi.
    set (den := b * P). assert (Hden : 0 < den) by (unfold den; nia).
    pose proof (Z.div_mod a den ltac:(lia)) as Hdm.
    pose proof (Z.mod_pos_bound a den Hden) as Hmod.
    set (q := a / den) in *. set (r := a mod den) in *.
    assert (Hq : 2 ^ 52 ≤ q < 2 ^ 53) by (unfold den in *; nia).
    set (m := if decide (2 * r < den) then q
              else if decide (den < 2 * r) then q + 1
              else if Z.even q then q else q + 1).
    assert (Hm : q ≤ m ≤ q + 1)
      by (unfold m; repeat case_decide; try destruct (Z.even q); lia).
    destruct (decide (e ≤ 1022)) as [He1|He1].
    { assert (HP' : P ≤ 2 ^ 970) by (apply Z.pow_le_mono_r; lia).
      split.
      - intros [_ Hov]. exfalso.
        assert (m * P ≤ 2 ^ 53 * 2 ^ 970) by nia. lia.
      - intros Hth. exfalso.
        assert (2 ^ 53 * P * b ≤ 2 ^ 53 * 2 ^ 970 * b) by nia.
        nia. }
    destruct (decide (1024 ≤ e)) as [He2|He2].
    { assert (HP' : 2 ^ 972 ≤ P) by (apply Z.pow_le_mono_r; lia).
      split.
      - intros _. assert (2 ^ 52 * 2 ^ 972 * b ≤ 2 ^ 52 * P * b) by nia. nia.
      - intros _. split; [lia|].
        assert (2 ^ 52 * 2 ^ 972 ≤ m * P) by nia. lia. }
    assert (e = 1023) as -> by lia.
    assert (HP' : P = 2 ^ 971) by (unfold P; f_equal).
    assert (Hm' : 2 ^ 1024 ≤ m * P ↔ 2 ^ 53 ≤ m).
    { rewrite HP'. change (2 ^ 1024) with (2 ^ 53 * 2 ^ 971). nia. }
    assert (Hth : (2 ^ 1024 - 2 ^ 970) * b ≤ a ↔ (2 ^ 54 - 1) * den ≤ 2 * a).
    { unfold den. rewrite HP'.
      change (2 ^ 1024 - 2 ^ 970) with ((2 ^ 54 - 1) * 2 ^ 970).
      change (2 ^ 971) with (2 * 2 ^ 970). nia. }
    rewrite Hth. split.
    + intros [_ Hov%Hm']. assert (Hq' : q = 2 ^ 53 - 1) by lia.
      unfold m in Hov. rewrite Hq' in *.
      repeat case_decide; try lia.
      all: change (Z.even (2 ^ 53 - 1)) with false in Hov; lia.
    + intros Hge. split; [lia|]. apply Hm'.
      assert (Hq' : q = 2 ^ 53 - 1) by nia.
      unfold m. rewrite Hq'.
      repeat case_decide; try lia.
      change (Z.even (2 ^ 53 - 1)) with false. lia.
Qed.

(** The division of a positive integer by a smaller one raises when the
    quotient is too large for a float, and gives a float otherwise. *)
Lemma int_true_divide_large (a b : Z) :
  0 < b → b ≤ a →
  if decide ((2 ^ 1024 - 2 ^ 970) * b ≤ a)
  then int_true_divide a b = inr OverflowError
  else ∃ x, int_true_divide a b = inl x.
Proof.
  intros Hb Hab. unfold int_true_divide.
  rewrite (decide_False (P := b = 0)) by lia.
  rewrite (decide_False (P := a = 0)) by lia.
  rewrite !Z.abs_eq by lia.
  pose proof (nearest_float_too_large a b Hb Hab) as Hiff.
  destruct (too_large (nearest_float a b)); case_decide as Hth.
  - done.
  - exfalso. apply Hth, Hiff. done.
  - apply Hiff in Hth. done.
  - by eexists.
Qed.

Lemma convertor_le (n offset : Z) :
  0 ≤ offset < n → 0 < convertor offset ≤ n.
Proof.
  intros [Hoff Hlt]. unfold convertor.
  destruct (decide (offset = 0)) as [->|Hne].
  - change (10 ^ (len_str 0 - 1)) with 1. lia.
  - destruct (len_str_spec offset ltac:(lia)) as (Hlen & Hlo & _).
    split; [apply Z.pow_pos_nonneg; lia|lia].
Qed.

(** X23.  For [n > offset >= 0], [round_int] cannot round up.  The mode
    ['up'] first divides [n] by the convertor, which gives a float: when the
    quotient is too large for one, that is, at least [2^1024 - 2^970], the
    division raises [OverflowError]; otherwise the number rounded up is
    dropped and the exception meant for an unknown mode is raised.  The
    mode ['down'] on [-n], which is computed by rounding [n] up, ends in
    the same way. *)
Theorem round_int_up_raises (n offset : Z) :
  0 ≤ offset < n →
  let e := if decide ((2 ^ 1024 - 2 ^ 970) * convertor offset ≤ n)
           then OverflowError else Exception "unkown mode" in
  round_int n "up" offset = inr e ∧
  round_int (- n) "down" offset = inr e.
Proof.
  intros Hn e.
  destruct (convertor_le n offset Hn) as [Hc0 Hcn].
  pose proof (int_true_divide_large n (convertor offset) Hc0 Hcn) as Hdiv.
  assert (Hup : round_int_body (round_int_body (λ _ _ _, inr RecursionError))
                  n "up" offset = inr e).
  { unfold round_int_body at 1. rewrite decide_True by lia.
    rewrite (decide_True (P := "up" = "up")) by done.
    unfold e. destruct (decide (_ ≤ n)) as [Hth|Hth].
    - by rewrite Hdiv.
    - destruct Hdiv as [x ->]. by rewrite decide_False. }
  split; [exact Hup|].
  unfold round_int, round_int_body at 1.
  rewrite decide_False by lia. rewrite decide_False by lia.
  rewrite decide_True by done.
  replace (Z.abs (- n)) with n by lia.
  assert (Hin : round_int_body (λ _ _ _, inr RecursionError) n "up" offset
                = inr e).
  { unfold round_int_body. rewrite decide_True by lia.
    rewrite (decide_True (P := "up" = "up")) by done.
    unfold e. destruct (decide (_ ≤ n)) as [Hth|Hth].
    - by rewrite Hdiv.
    - destruct Hdiv as [x ->]. by rewrite decide_False. }
  by rewrite Hin.
Qed.

Lemma round_int_up_raises_witness :
  let e := if decide ((2 ^ 1024 - 2 ^ 970) * convertor 0 ≤ 113)
           then OverflowError else Exception "unkown mode" in
  round_int 113 "up" 0 = inr e ∧
  round_int (- 113) "down" 0 = inr e.
Proof. apply (round_int_up_raises 113 0). lia. Defined.

(** A number that is too large for a float. *)
Example round_int_up_overflow :
  round_int (2 ^ 1024) "up" 0 = inr OverflowError.
Proof. vm_compute. reflexivity. Qed.

(** Rounding down goes through a float as well, which holds 53 bits. *)
Example round_int_down_float :
  round_int (2 ^ 53 + 1) "down" 0 = inl (2 ^ 53) ∧
  round_int 3456 "down" 10 = inl 3440.
Proof. split; vm_compute; reflexivity. Qed.

End RoundingSpec.

Module RoundMultipleSpec.
Import Rounding RoundMultiple.
#[local] Open Scope Z_scope.

Lemma np_min_least (xs : list Z) (m : Z) :
  m ∈ xs → Forall (λ n, m ≤ n) xs → np_min xs = Some m.
Proof.
  destruct xs as [|x xs]; [by intros ?%elem_of_nil|].
  intros Hin Hall. cbn. f_equal.
  apply Forall_cons in Hall as [Hx Hall].
  assert (Hgen : ∀ a, m ≤ a → (a = m ∨ m ∈ xs) → foldl Z.min a xs = m).
  { clear Hin Hx. induction xs as [|y xs IH]; intros a Ha Hor; cbn.
    - destruct Hor as [->|Hin]; [done|]. by apply elem_of_nil in Hin.
    - apply Forall_cons in Hall as [Hy Hall]. apply IH; [done|lia|].
      destruct Hor as [->|[->|Hin]%elem_of_cons]; [left; lia|left; lia|by right]. }
  apply Hgen; [done|]. apply elem_of_cons in Hin as [->|Hin]; [by left|by right].
Qed.

(** Integers that fit an [int64] make an array of [int64]. *)
Lemma array_dtype_int64 (x : Z) (xs : list Z) :
  Forall (λ n, - 2 ^ 63 ≤ n < 2 ^ 63) (x :: xs) →
  array_dtype x xs = np_int64.
Proof.
  intros [Hx Hxs]%Forall_cons. unfold array_dtype.
  assert (Hd : ∀ n, - 2 ^ 63 ≤ n < 2 ^ 63 → dtype_of_int n = np_int64).
  { intros n Hn. unfold dtype_of_int. by rewrite decide_True. }
  rewrite (Hd x Hx). induction Hxs as [|y ys Hy _ IH]; [done|].
  cbn [foldl]. by rewrite (Hd y Hy).
Qed.

Lemma fewest_digits_int64 (len_str_float64 : Z → Z) (xs : list Z) (m : Z) :
  m ∈ xs → Forall (λ n, m ≤ n) xs →
  Forall (λ n, - 2 ^ 63 ≤ n < 2 ^ 63) xs →
  fewest_digits len_str_float64 xs = Some (len_str m).
Proof.
  intros Hin Hall Hrange. unfold fewest_digits.
  destruct xs as [|x xs]; [by apply elem_of_nil in Hin|].
  rewrite (np_min_least _ _ Hin Hall). cbn.
  by rewrite (array_dtype_int64 x xs Hrange).
Qed.

(** Left of the last digit, [round_single_int] rounds on the grid of its
    position: the 2-digit rule and the general rule agree. *)
Lemma round_single_int_grid (n : Z) (mode : string) (position offset : Z) :
  mode = "up" ∨ mode = "down" →
  1 ≤ position < n_digits n →
  let factor := 10 ^ (n_digits n - position) in
  round_single_int n mode position offset
  = inl (if decide (mode = "down") then n / factor * factor - offset * factor
         else n / factor * factor + (offset + 1) * factor).
Proof.
  intros Hmode Hpos. unfold round_single_int.
  rewrite decide_False by (destruct Hmode as [-> | ->]; intros [? ?]; done).
  rewrite decide_False by lia. rewrite decide_False by lia.
  destruct (decide (n_digits n = 2)) as [Hd2|Hd2].
  - rewrite decide_True by lia. rewrite Hd2.
    replace position with 1 by lia. done.
  - by rewrite decide_True by lia.
Qed.

Section Grid.
Variables (position offset smallest : Z).
Hypothesis Hsmallest : 0 < smallest.
Hypothesis Hposition : 1 ≤ position < len_str smallest.
Hypothesis Hoffset : 0 ≤ offset.

#[local] Abbreviation grid := (10 ^ (len_str smallest - position)).

Lemma round_each_up (ns : list Z) :
  Forall (λ n, smallest ≤ n) ns →
  ∃ rounded,
    round_each "up" position (len_str smallest) offset ns = inl rounded ∧
    Forall2 (λ n r, n + offset < r ≤ n + (offset + 1) * grid ∧ (grid | r))
      ns rounded.
Proof.
  induction ns as [|n ns IH]; intros Hall.
  - exists []. by split; [|constructor].
  - apply Forall_cons in Hall as [Hn Hall].
    destruct (IH Hall) as (rounded & Hrun & Hrounded).
    pose proof (RoundingSpec.len_str_mono smallest n Hsmallest Hn) as Hmono.
    cbn [round_each].
    assert (Hnd : n_digits n = len_str n)
      by (unfold n_digits; by rewrite decide_True by lia).
    rewrite round_single_int_grid; [|by left|rewrite Hnd; lia].
    rewrite Hnd, decide_False by done. rewrite Hrun.
    replace (len_str n - (position + len_str n - len_str smallest))
      with (len_str smallest - position) by lia.
    eexists. split; [done|]. constructor; [|done].
    assert (Hfac : 1 ≤ grid).
    { change 1 with (10 ^ 0) at 1. apply Z.pow_le_mono_r; lia. }
    destruct (RoundingSpec.floor_multiple n grid ltac:(lia)) as (Hle & Hlt & Hdiv).
    split; [nia|]. apply Z.divide_add_r; [done|]. by exists (offset + 1).
Qed.

Lemma round_each_down (ns : list Z) :
  Forall (λ n, smallest ≤ n) ns →
  ∃ rounded,
    round_each "down" position (len_str smallest) offset ns = inl rounded ∧
    Forall2 (λ n r, n - (offset + 1) * grid < r ≤ n - offset ∧ (grid | r))
      ns rounded.
Proof.
  induction ns as [|n ns IH]; intros Hall.
  - exists []. by split; [|constructor].
  - apply Forall_cons in Hall as [Hn Hall].
    destruct (IH Hall) as (rounded & Hrun & Hrounded).
    pose proof (RoundingSpec.len_str_mono smallest n Hsmallest Hn) as Hmono.
    cbn [round_each].
    assert (Hnd : n_digits n = len_str n)
      by (unfold n_digits; by rewrite decide_True by lia).
    rewrite round_single_int_grid; [|by right|rewrite Hnd; lia].
    rewrite Hnd, decide_True by done. rewrite Hrun.
    replace (len_str n - (position + len_str n - len_str smallest))
      with (len_str smallest - position) by lia.
    eexists. split; [done|]. constructor; [|done].
    assert (Hfac : 1 ≤ grid).
    { change 1 with (10 ^ 0) at 1. apply Z.pow_le_mono_r; lia. }
    destruct (RoundingSpec.floor_multiple n grid ltac:(lia)) as (Hle & Hlt & Hdiv).
    split; [nia|]. apply Z.divide_sub_r; [done|]. by exists offset.
Qed.

End Grid.

(** X24.  Let the numbers to round be positive and fit an [int64], and let
    the smallest of them have more digits than [position], which is at
    least 1.  Then [round_multiple_ints] rounds them all on one grid, the
    power of ten at that position of the smallest number: every result is a
    multiple of it, whatever the number of digits of the number it comes
    from.  An upper bound is moved up by more than [offset] and by
    [offset + 1] steps of the grid at most, a lower bound down by at least
    [offset] and by less than [offset + 1] steps. *)
Theorem round_multiple_ints_common_grid (len_str_float64 : Z → Z)
    (ups downs : list Z) (position offset smallest : Z) :
  smallest ∈ ups ++ downs →
  Forall (λ n, smallest ≤ n) (ups ++ downs) →
  Forall (λ n, n < 2 ^ 63) (ups ++ downs) →
  0 < smallest →
  1 ≤ position < len_str smallest →
  0 ≤ offset →
  let grid := 10 ^ (len_str smallest - position) in
  ∃ ups_rounded downs_rounded,
    round_multiple_ints len_str_float64 ups downs position offset
    = Some (inl (ups_rounded, downs_rounded)) ∧
    Forall2 (λ n r, n + offset < r ≤ n + (offset + 1) * grid ∧ (grid | r))
      ups ups_rounded ∧
    Forall2 (λ n r, n - (offset + 1) * grid < r ≤ n - offset ∧ (grid | r))
      downs downs_rounded.
Proof.
  intros Hin Hall Hfit Hpos Hposition Hoffset grid.
  unfold round_multiple_ints.
  rewrite (fewest_digits_int64 _ _ smallest Hin Hall).
  2:{ apply Forall_forall. intros n Hn.
      eapply Forall_forall in Hall as Hlo; [|exact Hn].
      eapply Forall_forall in Hfit as Hhi; [|exact Hn]. cbn in Hlo, Hhi. lia. }
  apply Forall_app in Hall as [Hups Hdowns].
  destruct (round_each_up position offset smallest Hpos Hposition Hoffset
              ups Hups) as (ups_rounded & -> & Hu).
  destruct (round_each_down position offset smallest Hpos Hposition Hoffset
              downs Hdowns) as (downs_rounded & -> & Hd).
  by exists ups_rounded, downs_rounded.
Qed.

Lemma round_multiple_ints_common_grid_witness :
  let grid := 10 ^ (len_str 113 - 2) in
  ∃ ups_rounded downs_rounded,
    round_multiple_ints (λ n, len_str n + 2) [3456] [113] 2 1
    = Some (inl (ups_rounded, downs_rounded)) ∧
    Forall2 (λ n r, n + 1 < r ≤ n + (1 + 1) * grid ∧ (grid | r))
      [3456] ups_rounded ∧
    Forall2 (λ n r, n - (1 + 1) * grid < r ≤ n - 1 ∧ (grid | r))
      [113] downs_rounded.
Proof.
  apply (round_multiple_ints_common_grid (λ n, len_str n + 2) [3456] [113]
           2 1 113).
  - set_solver.
  - repeat constructor; lia.
  - repeat constructor; lia.
  - lia.
  - split; [lia|vm_compute; reflexivity].
  - lia.
Defined.

(** The upper bound 3456 and the lower bound 113 are both rounded to tens:
    the position counts from the left of the smallest number. *)
Example round_multiple_ints_tens (len_str_float64 : Z → Z) :
  round_multiple_ints len_str_float64 [3456] [113] 2 1
  = Some (inl ([3470], [100])).
Proof. vm_compute. reflexivity. Qed.

(** Next to a number that needs a [uint64], the numbers become floats, and
    113 is printed as [113.0], with five characters: the positions move by
    two, and 113 is rounded to thousands. *)
Example round_multiple_ints_float :
  round_multiple_ints (λ n, len_str n + 2) [2 ^ 63] [113] 2 1
  = Some (inl ([9223372036854777000], [-1000])).
Proof. vm_compute. reflexivity. Qed.

(** No number at all: [np.min] raises. *)
Example round_multiple_ints_empty (len_str_float64 : Z → Z)
    (position offset : Z) :
  round_multiple_ints len_str_float64 [] [] position offset = None.
Proof. reflexivity. Qed.

End RoundMultipleSpec.

Module EdgesSpec.
Import Edges.

Section AddEdge.
Context {A : Type}.
Implicit Types (edges : gset (Z * Z)) (edge_nodes : list (list A))
  (coords : list A).

Lemma add_edge_present edges edge_nodes coords (i j : Z) :
  (i, j) ∈ edges ∨ (j, i) ∈ edges →
  add_edge edges edge_nodes coords i j = (Ok (), (edges, edge_nodes)).
Proof. intros Hin. unfold add_edge. by rewrite decide_True. Qed.

Lemma add_edge_adds edges edge_nodes coords (i j : Z) :
  (i, j) ∈ (add_edge edges edge_nodes coords i j).2.1 ∨
  (j, i) ∈ (add_edge edges edge_nodes coords i j).2.1.
Proof.
  unfold add_edge. case_decide as Hin; [done|].
  left. destruct (index_pair coords i j); cbn; set_solver.
Qed.

(** X25.  After a call of [add_edge] for [i] and [j], whatever its outcome,
    a further call for the same two points, in either order, returns without
    changing the set of edges or the list of their nodes: an edge is stored
    once, and its direction does not matter. *)
Theorem add_edge_once edges edge_nodes coords (i j : Z) :
  let after := (add_edge edges edge_nodes coords i j).2 in
  add_edge after.1 after.2 coords i j = (Ok (), after) ∧
  add_edge after.1 after.2 coords j i = (Ok (), after).
Proof.
  cbn. pose proof (add_edge_adds edges edge_nodes coords i j) as Hin.
  destruct (add_edge edges edge_nodes coords i j) as [r [edges' nodes']].
  cbn in *. split; apply add_edge_present; tauto.
Qed.

Lemma py_index_Ok coords (i : Z) :
  in_range coords i → ∃ c, py_index coords i = Ok c.
Proof.
  unfold in_range, py_index, getitem. intros Hi.
  destruct (decide (0 ≤ i)%Z).
  - destruct (lookup_lt_is_Some_2 coords (Z.to_nat i)) as [c ->]; [lia|].
    by exists c.
  - rewrite decide_True by lia.
    destruct (lookup_lt_is_Some_2 coords (Z.to_nat (Z.of_nat (length coords) + i)))
      as [c ->]; [lia|].
    by exists c.
Qed.

Lemma py_index_Raise coords (i : Z) :
  ¬ in_range coords i → py_index coords i = Raise IndexError.
Proof.
  unfold in_range, py_index, getitem. intros Hi.
  destruct (decide (0 ≤ i)%Z).
  - rewrite lookup_ge_None_2; [done|lia].
  - by rewrite decide_False by lia.
Qed.

(** X26.  For a new edge, [add_edge] adds the pair to the set first and looks
    the two points up second.  With both indices in range it returns, and
    set and list have each grown by one.  With an index out of range it
    raises [IndexError] after the set has grown: the set then holds an edge
    for which the list has no nodes. *)
Theorem add_edge_new_edge edges edge_nodes coords (i j : Z) :
  (i, j) ∉ edges → (j, i) ∉ edges →
  (in_range coords i ∧ in_range coords j →
     ∃ nodes,
       add_edge edges edge_nodes coords i j
       = (Ok (), (edges ∪ {[ (i, j) ]}, edge_nodes ++ [nodes])) ∧
       size (edges ∪ {[ (i, j) ]}) = S (size edges) ∧
       length (edge_nodes ++ [nodes]) = S (length edge_nodes)) ∧
  (¬ (in_range coords i ∧ in_range coords j) →
     add_edge edges edge_nodes coords i j
     = (Raise IndexError, (edges ∪ {[ (i, j) ]}, edge_nodes)) ∧
     size (edges ∪ {[ (i, j) ]}) = S (size edges)).
Proof.
  intros Hij Hji.
  assert (Hsize : size (edges ∪ {[ (i, j) ]}) = S (size edges)).
  { rewrite size_union by set_solver. rewrite size_singleton. lia. }
  unfold add_edge. rewrite decide_False by tauto. split.
  - intros [Hi Hj]. unfold index_pair.
    destruct (py_index_Ok coords i Hi) as [ci ->].
    destruct (py_index_Ok coords j Hj) as [cj ->]. cbn.
    exists [ci; cj]. split_and!; [done|done|]. rewrite length_app. cbn. lia.
  - intros Hout. split; [|done]. unfold index_pair.
    destruct (decide (in_range coords i)) as [Hi|Hi].
    + destruct (py_index_Ok coords i Hi) as [ci ->]. cbn.
      destruct (decide (in_range coords j)) as [Hj|Hj]; [tauto|].
      by rewrite (py_index_Raise coords j Hj).
    + rewrite (py_index_Raise coords i Hi). reflexivity.
Qed.

End AddEdge.

Lemma add_edge_new_edge_witness :
  (in_range [10; 20; 30] 0%Z ∧ in_range [10; 20; 30] (-1)%Z →
     ∃ nodes,
       add_edge ∅ [] [10; 20; 30] 0%Z (-1)%Z
       = (Ok (), (∅ ∪ {[ (0%Z, (-1)%Z) ]}, [] ++ [nodes])) ∧
       size (∅ ∪ {[ (0%Z, (-1)%Z) ]} : gset (Z * Z)) = S (size (∅ : gset (Z * Z))) ∧
       length ([] ++ [nodes]) = S (length ([] : list (list nat)))) ∧
  (¬ (in_range [10; 20; 30] 0%Z ∧ in_range [10; 20; 30] (-1)%Z) →
     add_edge ∅ [] [10; 20; 30] 0%Z (-1)%Z
     = (Raise IndexError, (∅ ∪ {[ (0%Z, (-1)%Z) ]}, [])) ∧
     size (∅ ∪ {[ (0%Z, (-1)%Z) ]} : gset (Z * Z)) = S (size (∅ : gset (Z * Z)))).
Proof.
  apply (add_edge_new_edge ∅ [] [10; 20; 30] 0%Z (-1)%Z); set_solver.
Defined.

End EdgesSpec.

Module BalanceSpec.
Import Weights WeightsSpec Balance.
#[local] Open Scope Q_scope.

(** ** Index arrays *)

Lemma np_where_lookup (test : Q → bool) (a : list Q) :
  ∀ (k j i : nat),
    np_where test k a !! j = Some i →
    (k ≤ i)%nat ∧ ∃ x, a !! (i - k)%nat = Some x ∧ test x = true ∧
      (∀ j', (j' < j)%nat → ∃ i', np_where test k a !! j' = Some i' ∧ (i' < i)%nat).
Proof.
  induction a as [|x a IH]; intros k j i Hj; [done|].
  cbn in Hj. destruct (test x) eqn:Hx.
  - destruct j as [|j].
    + injection Hj as <-. split; [done|]. exists x.
      rewrite Nat.sub_diag. split_and!; [done|done|]. intros j' Hj'. lia.
    + cbn in Hj. destruct (IH _ _ _ Hj) as (Hle & y & Hy & Hty & Hbefore).
      split; [lia|]. exists y. split_and!; [|done|].
      * replace (i - k)%nat with (S (i - S k)) by lia. done.
      * intros [|j'] Hj'.
        -- exists k. cbn. rewrite Hx. split; [done|lia].
        -- destruct (Hbefore j' ltac:(lia)) as (i' & Hi' & Hlt).
           exists i'. cbn. rewrite Hx. by split.
  - destruct (IH _ _ _ Hj) as (Hle & y & Hy & Hty & Hbefore).
    split; [lia|]. exists y. split_and!; [|done|].
    + replace (i - k)%nat with (S (i - S k)) by lia. done.
    + intros j' Hj'. destruct (Hbefore j' Hj') as (i' & Hi' & Hlt).
      exists i'. cbn. rewrite Hx. by split.
Qed.

Lemma np_where_elem (test : Q → bool) (a : list Q) :
  ∀ (k i : nat) (x : Q),
    a !! i = Some x → test x = true → (k + i)%nat ∈ np_where test k a.
Proof.
  induction a as [|y a IH]; intros k i x Hi Hx; [done|].
  cbn. destruct i as [|i].
  - injection Hi as ->. rewrite Hx, Nat.add_0_r. apply elem_of_cons. by left.
  - cbn in Hi. pose proof (IH (S k) i x Hi Hx) as Hin.
    replace (S k + i)%nat with (k + S i)%nat in Hin by lia.
    destruct (test y); [apply elem_of_cons; by right|done].
Qed.

Lemma np_where_NoDup (test : Q → bool) (a : list Q) (k : nat) :
  NoDup (np_where test k a).
Proof.
  apply NoDup_alt. intros j1 j2 i H1 H2.
  destruct (np_where_lookup _ _ _ _ _ H1) as (_ & _ & _ & _ & Hb1).
  destruct (np_where_lookup _ _ _ _ _ H2) as (_ & _ & _ & _ & Hb2).
  destruct (Nat.lt_trichotomy j1 j2) as [Hlt|[->|Hlt]]; [|done|].
  - destruct (Hb2 j1 Hlt) as (i' & Hi' & Hlt'). rewrite H1 in Hi'.
    injection Hi' as <-. lia.
  - destruct (Hb1 j2 Hlt) as (i' & Hi' & Hlt'). rewrite H2 in Hi'.
    injection Hi' as <-. lia.
Qed.

Lemma take_idx_np_where (test : Q → bool) (a : list Q) :
  take_idx a (np_where test 0 a)
  = omap (λ x, if test x then Some x else None) a.
Proof.
  unfold take_idx.
  assert (Hgen : ∀ pre b,
    omap (λ i, (pre ++ b) !! i) (np_where test (length pre) b)
    = omap (λ x, if test x then Some x else None) b).
  { intros pre b. revert pre. induction b as [|x b IH]; intros pre; [done|].
    cbn. specialize (IH (pre ++ [x])).
    rewrite <- app_assoc, length_app, Nat.add_1_r in IH. cbn in IH.
    destruct (test x).
    - cbn. rewrite lookup_app_r by lia. rewrite Nat.sub_diag. cbn.
      by rewrite IH.
    - by rewrite IH. }
  exact (Hgen [] a).
Qed.

Lemma take_idx_lookup (a : list Q) (idx : list nat) (j i : nat) (x : Q) :
  Forall (λ i, (i < length a)%nat) idx →
  idx !! j = Some i → a !! i = Some x → take_idx a idx !! j = Some x.
Proof.
  unfold take_idx. revert j. induction idx as [|i0 idx IH]; intros j Hall Hj Hi;
    [done|].
  apply Forall_cons in Hall as [Hi0 Hall].
  destruct (lookup_lt_is_Some_2 a i0 Hi0) as [x0 Hx0].
  cbn. rewrite Hx0. cbn. destruct j as [|j].
  - injection Hj as ->. rewrite Hx0 in Hi. by injection Hi as ->.
  - cbn. by apply IH.
Qed.

Lemma length_take_idx (a : list Q) (idx : list nat) :
  Forall (λ i, (i < length a)%nat) idx → length (take_idx a idx) = length idx.
Proof.
  unfold take_idx. induction idx as [|i0 idx IH]; intros Hall; [done|].
  apply Forall_cons in Hall as [Hi0 Hall].
  destruct (lookup_lt_is_Some_2 a i0 Hi0) as [x0 Hx0].
  cbn. rewrite Hx0. cbn. by rewrite IH.
Qed.

Lemma np_where_in_range (test : Q → bool) (a : list Q) :
  Forall (λ i, (i < length a)%nat) (np_where test 0 a).
Proof.
  apply Forall_forall. intros i [j Hj]%list_elem_of_lookup.
  destruct (np_where_lookup _ _ _ _ _ Hj) as (_ & x & Hx & _).
  rewrite Nat.sub_0_r in Hx. by apply lookup_lt_Some in Hx.
Qed.

Lemma put_idx_length {A} (idx : list nat) :
  ∀ (vals arr : list A), length (put_idx idx vals arr) = length arr.
Proof.
  unfold put_idx. induction idx as [|i idx IH]; intros [|v vals] arr; try done.
  cbn. by rewrite IH, length_insert.
Qed.

Lemma put_idx_other {A} (idx : list nat) (i : nat) :
  ∀ (vals arr : list A), i ∉ idx → put_idx idx vals arr !! i = arr !! i.
Proof.
  unfold put_idx. induction idx as [|i0 idx IH]; intros [|v vals] arr Hin;
    try done.
  apply not_elem_of_cons in Hin as [Hne Hin].
  cbn. rewrite IH by done. by rewrite list_lookup_insert_ne.
Qed.

Lemma put_idx_lookup {A} (idx : list nat) :
  ∀ (vals arr : list A) (j i : nat) (v : A),
    NoDup idx → (i < length arr)%nat →
    idx !! j = Some i → vals !! j = Some v →
    put_idx idx vals arr !! i = Some v.
Proof.
  induction idx as [|i0 idx IH]; intros [|v0 vals] arr j i v Hnd Hi Hj Hv;
    try done.
  apply NoDup_cons in Hnd as [Hnotin Hnd].
  change (put_idx (i0 :: idx) (v0 :: vals) arr)
    with (put_idx idx vals (<[i0:=v0]> arr)).
  destruct j as [|j].
  - injection Hj as ->. injection Hv as ->.
    rewrite put_idx_other by done. by rewrite list_lookup_insert_eq.
  - cbn in Hj, Hv. eapply IH; [done|by rewrite length_insert|done|done].
Qed.

(** ** The balanced array, entry by entry *)

(** What [balance_p_array] makes of one entry. *)
#[local] Abbreviation balanced_entry zero_value total balance_by :=
  (λ x : Q, if Qeq_bool x 0 then zero_value
            else x - x / total * balance_by).

Lemma balance_p_array_entries (p_array : list Q) (balance_by : Q) :
  let nonzero := take_idx p_array
                   (np_where (λ x, negb (Qeq_bool x 0)) 0 p_array) in
  let n_zero := length (np_where (λ x, Qeq_bool x 0) 0 p_array) in
  n_zero ≠ 0%nat →
  ¬ sum_Q nonzero == 0 →
  balance_p_array p_array balance_by
  = Some (map Some
            (map (balanced_entry (balance_by / inject_Z (Z.of_nat n_zero))
                    (sum_Q nonzero) balance_by) p_array)).
Proof.
  intros nonzero n_zero Hnz Htotal. unfold balance_p_array.
  fold nonzero. fold n_zero. rewrite decide_False by done. f_equal.
  apply list_eq_same_length with (length p_array).
  { by rewrite !length_map. }
  { by rewrite !put_idx_length, length_map. }
  intros i y z Hi Hy Hz.
  destruct (lookup_lt_is_Some_2 p_array i Hi) as [x Hx].
  rewrite !list_lookup_fmap, Hx in Hz. cbn in Hz. injection Hz as <-.
  destruct (Qeq_bool x 0) eqn:Hx0.
  - (* a zero entry: written by the first assignment, kept by the second *)
    rewrite put_idx_other in Hy.
    2:{ intros [j Hj]%list_elem_of_lookup.
        destruct (np_where_lookup _ _ _ _ _ Hj) as (_ & x' & Hx' & Ht & _).
        rewrite Nat.sub_0_r, Hx in Hx'. injection Hx' as <-.
        by rewrite Hx0 in Ht. }
    pose proof (np_where_elem (λ x, Qeq_bool x 0) p_array 0 i x Hx Hx0)
      as [j Hj]%list_elem_of_lookup.
    cbn in Hj.
    erewrite put_idx_lookup in Hy; [by injection Hy as <-| | |exact Hj|].
    + apply np_where_NoDup.
    + by rewrite length_map.
    + apply lookup_replicate_2. by apply lookup_lt_Some in Hj.
  - (* another entry: written by the second assignment *)
    assert (Ht : negb (Qeq_bool x 0) = true) by by rewrite Hx0.
    pose proof (np_where_elem (λ x, negb (Qeq_bool x 0)) p_array 0 i x Hx Ht)
      as [j Hj]%list_elem_of_lookup.
    cbn in Hj.
    pose proof (take_idx_lookup p_array _ j i x (np_where_in_range _ _) Hj Hx)
      as Hnon.
    fold nonzero in Hnon.
    erewrite put_idx_lookup in Hy; [by injection Hy as <-| | |exact Hj|].
    + apply np_where_NoDup.
    + by rewrite put_idx_length, length_map.
    + rewrite lookup_zip_with, Hnon. cbn.
      rewrite list_lookup_fmap, Hnon. cbn. unfold fdiv.
      destruct (Qeq_bool (sum_Q nonzero) 0) eqn:Hs; [|done].
      by apply Qeq_bool_iff in Hs.
Qed.

(** ** Sums *)

Lemma sum_Q_nonzero (p_array : list Q) :
  sum_Q (take_idx p_array (np_where (λ x, negb (Qeq_bool x 0)) 0 p_array))
  == sum_Q p_array.
Proof.
  rewrite take_idx_np_where. induction p_array as [|x p IH]; [done|].
  cbn [omap list_omap].
  destruct (Qeq_bool x 0) eqn:Hx; cbn [negb]; rewrite !sum_Q_cons, IH.
  - apply Qeq_bool_iff in Hx. rewrite Hx. ring.
  - reflexivity.
Qed.

Lemma length_np_where_zero (p_array : list Q) (k : nat) :
  (∃ x, x ∈ p_array ∧ x == 0) →
  length (np_where (λ x, Qeq_bool x 0) k p_array) ≠ 0%nat.
Proof.
  intros (x & [i Hi]%list_elem_of_lookup & Hx%Qeq_bool_iff).
  pose proof (np_where_elem (λ x, Qeq_bool x 0) p_array k i x Hi Hx) as Hin.
  destruct (np_where _ k p_array); [by apply elem_of_nil in Hin|done].
Qed.

Lemma length_np_where (test : Q → bool) (a : list Q) (k k' : nat) :
  length (np_where test k a) = length (np_where test k' a).
Proof.
  revert k k'. induction a as [|x a IH]; intros k k'; [done|].
  cbn. destruct (test x); cbn; by rewrite (IH (S k) (S k')).
Qed.

Lemma sum_Q_balanced (zero_value total balance_by : Q) (p_array : list Q) :
  ¬ total == 0 →
  sum_Q (map (balanced_entry zero_value total balance_by) p_array)
  == inject_Z (Z.of_nat (length (np_where (λ x, Qeq_bool x 0) 0 p_array)))
     * zero_value
     + (1 - balance_by / total) * sum_Q p_array.
Proof.
  intros Htotal. induction p_array as [|x p IH].
  - cbn. ring.
  - cbn [map]. rewrite !sum_Q_cons, IH. cbn [np_where].
    destruct (Qeq_bool x 0) eqn:Hx.
    + apply Qeq_bool_iff in Hx. cbn [length].
      rewrite (length_np_where _ p 1 0).
      rewrite Nat2Z.inj_succ, <- Z.add_1_r, inject_Z_plus. rewrite Hx.
      change (inject_Z 1) with 1. ring.
    + rewrite (length_np_where _ p 1 0). field. exact Htotal.
Qed.

(** X27.  For an array with a zero entry whose entries do not sum to zero,
    [balance_p_array] returns an array of finite entries of the same length
    and with the same sum: what the entries that are not zero lose is what
    the zero entries get.  Every entry that is not zero is scaled by the
    same factor, [1 - balance_by / sum].  When no entry is negative and
    [0 < balance_by < sum], no entry of the result is zero: all are
    positive. *)
Theorem balance_p_array_preserves_mass (p_array : list Q) (balance_by : Q) :
  (∃ x, x ∈ p_array ∧ x == 0) →
  ¬ sum_Q p_array == 0 →
  ∃ out : list Q,
    balance_p_array p_array balance_by = Some (map Some out) ∧
    length out = length p_array ∧
    sum_Q out == sum_Q p_array ∧
    Forall2 (λ x y, ¬ x == 0 → y == x * (1 - balance_by / sum_Q p_array))
      p_array out ∧
    (Forall (λ x, 0 <= x) p_array → 0 < balance_by →
     balance_by < sum_Q p_array → Forall (λ y, 0 < y) out).
Proof.
  intros Hzero Hsum.
  pose proof (sum_Q_nonzero p_array) as Htotal.
  pose proof (length_np_where_zero p_array 0 Hzero) as Hnz.
  set (total := sum_Q (take_idx p_array
                 (np_where (λ x, negb (Qeq_bool x 0)) 0 p_array))) in *.
  set (n_zero := length (np_where (λ x, Qeq_bool x 0) 0 p_array)) in *.
  assert (Htotal0 : ¬ total == 0) by (by rewrite Htotal).
  assert (Hn : ¬ inject_Z (Z.of_nat n_zero) == 0).
  { intros Heq. unfold Qeq, inject_Z in Heq. cbn [Qnum Qden] in Heq. lia. }
  eexists. split; [by apply balance_p_array_entries|].
  split; [by rewrite length_map|]. split_and!.
  - rewrite sum_Q_balanced by done. fold n_zero total. rewrite <- Htotal.
    generalize dependent (inject_Z (Z.of_nat n_zero)). intros nz Hn.
    field. by split.
  - apply Forall2_fmap_r, Forall_Forall2_diag, Forall_forall.
    intros x _ Hx. cbv beta. destruct (Qeq_bool x 0) eqn:Hx0.
    + by apply Qeq_bool_iff in Hx0.
    + fold total. rewrite <- Htotal. field. exact Htotal0.
  - intros Hnonneg Hb Hlt. rewrite <- Htotal in Hlt.
    apply Forall_fmap, Forall_forall. intros x Hx. cbn [compose]. cbv beta.
    fold total. destruct (Qeq_bool x 0) eqn:Hx0.
    + apply Qlt_shift_div_l.
      * fold n_zero. unfold Qlt, inject_Z. cbn [Qnum Qden]. lia.
      * by rewrite Qmult_0_l.
    + assert (Hxpos : 0 < x).
      { rewrite Forall_forall in Hnonneg. specialize (Hnonneg x Hx).
        apply Qle_lt_or_eq in Hnonneg as [Hpos|Heq]; [done|].
        symmetry in Heq. apply Qeq_bool_iff in Heq. by rewrite Heq in Hx0. }
      pose proof (Qlt_trans _ _ _ Hb Hlt) as Htpos.
      assert (Heq : x - x / total * balance_by
                    == x * ((total - balance_by) / total))
        by (field; exact Htotal0).
      rewrite Heq. apply Qmult_lt_0_compat; [done|].
      apply Qlt_shift_div_l; [done|]. rewrite Qmult_0_l.
      by apply (Qlt_minus_iff balance_by total).
Qed.

(** Half of the mass that one state holds goes to the two states with
    none. *)
Lemma balance_p_array_preserves_mass_witness :
  ∃ out : list Q,
    balance_p_array [0; 1; 0] (1 # 2) = Some (map Some out) ∧
    length out = length [0; 1; 0] ∧
    sum_Q out == sum_Q [0; 1; 0] ∧
    Forall2 (λ x y, ¬ x == 0 → y == x * (1 - (1 # 2) / sum_Q [0; 1; 0]))
      [0; 1; 0] out ∧
    (Forall (λ x, 0 <= x) [0; 1; 0] → 0 < 1 # 2 →
     1 # 2 < sum_Q [0; 1; 0] → Forall (λ y, 0 < y) out).
Proof.
  apply (balance_p_array_preserves_mass [0; 1; 0] (1 # 2)).
  - exists 0. split; [set_solver|reflexivity].
  - discriminate.
Defined.

(** Without a zero entry the division by [len(zero_idx)] raises. *)
Example balance_p_array_no_zero :
  balance_p_array [1 # 2; 1 # 2] (1 # 10) = None.
Proof. reflexivity. Qed.

End BalanceSpec.

Module AssignNASpec.
Import AssignNA.

Lemma with_na_nil (features : list (list (list Q))) :
  with_na [] features features.
Proof.
  split; [done|]. intros s f site cats Hs Hf. exists site.
  split_and!; [done|done|]. rewrite decide_False; [done|]. by intros ?%elem_of_nil.
Qed.

Lemma with_na_set_na (pairs : list (nat * nat)) (na_site na_feature : nat)
    (features out : list (list (list Q))) :
  with_na pairs features out →
  with_na (pairs ++ [(na_site, na_feature)]) features
    (set_na na_site na_feature out).
Proof.
  intros [Hlen Hout]. split; [unfold set_na; by rewrite length_alter|].
  intros s f site cats Hs Hf.
  destruct (Hout s f site cats Hs Hf) as (site' & Hs' & Hlen' & Hf').
  unfold set_na. destruct (decide (s = na_site)) as [->|Hne].
  - exists (alter (map (λ _, 0%Q)) na_feature site').
    rewrite list_lookup_alter_eq, Hs'. split_and!; [done|by rewrite length_alter|].
    destruct (decide (f = na_feature)) as [->|Hnf].
    + rewrite list_lookup_alter_eq, Hf'. cbn.
      rewrite (decide_True (P:=_ ∈ _ ++ _)) by set_solver.
      f_equal. case_decide; [|done]. by rewrite List.map_map.
    + rewrite list_lookup_alter_ne, Hf' by done. f_equal.
      repeat case_decide; try done; set_solver.
  - exists site'. rewrite list_lookup_alter_ne by done.
    split_and!; [done|done|]. rewrite Hf'. f_equal.
    repeat case_decide; try done; set_solver.
Qed.

Section Loop.
Variables (rnd : nat → nat) (features : list (list (list Q))).
Variable n_features : nat.
Hypothesis Hsites : features ≠ [].
Hypothesis Hfeatures : 0 < n_features.
Hypothesis Hshape : Forall (λ site, length site = n_features) features.

Lemma with_na_shape (pairs : list (nat * nat)) (out : list (list (list Q))) :
  with_na pairs features out →
  length out = length features ∧ length (hd [] out) = n_features.
Proof.
  intros [Hlen Hout]. split; [done|].
  destruct features as [|site rest] eqn:Hf; [done|].
  apply Forall_cons in Hshape as [Hsite _].
  destruct (lookup_lt_is_Some_2 site 0 ltac:(lia)) as [cats Hcats].
  destruct (Hout 0 0 site cats eq_refl Hcats) as (site' & Hs' & Hlen' & _).
  destruct out as [|site0 out']; [done|]. cbn in Hs'. injection Hs' as ->.
  cbn. lia.
Qed.

Lemma drawn_pairs_S (k : nat) :
  drawn_pairs rnd (length features) n_features (S k)
  = drawn_pairs rnd (length features) n_features k
    ++ [(rnd (2 * k) mod length features, rnd (2 * k + 1) mod n_features)].
Proof. unfold drawn_pairs. by rewrite seq_S, map_app. Qed.

Lemma assign_na_loop_spec (n : nat) :
  ∀ (k : nat) (out : list (list (list Q))),
    with_na (drawn_pairs rnd (length features) n_features k) features out →
    ∃ out',
      assign_na_loop rnd n (2 * k) out = Ok out' ∧
      with_na (drawn_pairs rnd (length features) n_features (k + n))
        features out'.
Proof.
  induction n as [|n IH]; intros k out Hinv.
  - exists out. rewrite Nat.add_0_r. done.
  - destruct (with_na_shape _ out Hinv) as [Hlen Hhd].
    assert (length features ≠ 0) by (by destruct features).
    cbn [assign_na_loop]. unfold np_random_choice.
    rewrite !decide_False by lia. cbn [mbind result_bind].
    rewrite Hlen, Hhd.
    pose proof (with_na_set_na _ (rnd (2 * k) mod length features)
                  (rnd (S (2 * k)) mod n_features) features out Hinv) as Hstep.
    replace (S (2 * k)) with (2 * k + 1) in Hstep by lia.
    rewrite <- drawn_pairs_S in Hstep.
    destruct (IH (S k) _ Hstep) as (out' & Hrun & Hout').
    exists out'. split.
    + replace (S (2 * k)) with (2 * k + 1) by lia.
      replace (S (2 * k + 1)) with (2 * S k) by lia. done.
    + by replace (k + S n) with (S k + n) by lia.
Qed.

End Loop.

(** X28.  For an array with at least one site and at least one feature,
    [assign_na] returns the array that differs from its argument exactly in
    the pairs (site, feature) that it drew, whose categories are all zero:
    round [k] of the loop draws the site [rnd (2 k) mod n_sites] and the
    feature [rnd (2 k + 1) mod n_features].  It makes [n_na] rounds, with
    replacement: the pairs it sets to NA are those of a list of length
    [n_na], so they are [n_na] at most, and may be fewer. *)
Theorem assign_na_at_most (rnd : nat → nat)
    (features : list (list (list Q))) (n_features : nat) (n_na : Z) :
  features ≠ [] → 0 < n_features →
  Forall (λ site, length site = n_features) features →
  ∃ out : list (list (list Q)),
    assign_na rnd features n_na = Ok out ∧
    length (drawn_pairs rnd (length features) n_features (Z.to_nat n_na))
    = Z.to_nat n_na ∧
    with_na (drawn_pairs rnd (length features) n_features (Z.to_nat n_na))
      features out.
Proof.
  intros Hsites Hfeatures Hshape. unfold assign_na.
  destruct (assign_na_loop_spec rnd features n_features Hsites Hfeatures
              Hshape (Z.to_nat n_na) 0 features (with_na_nil features))
    as (out & Hrun & Hout).
  exists out. split_and!; [done| |done].
  unfold drawn_pairs. by rewrite length_map, length_seq.
Qed.

Lemma assign_na_at_most_witness :
  ∃ out : list (list (list Q)),
    assign_na (λ t, t) [[[1%Q; 0%Q]]; [[0%Q; 1%Q]]] 2 = Ok out ∧
    length (drawn_pairs (λ t, t) 2 1 (Z.to_nat 2)) = Z.to_nat 2 ∧
    with_na (drawn_pairs (λ t, t) 2 1 (Z.to_nat 2))
      [[[1%Q; 0%Q]]; [[0%Q; 1%Q]]] out.
Proof.
  apply (assign_na_at_most (λ t, t) [[[1%Q; 0%Q]]; [[0%Q; 1%Q]]] 1 2).
  - done.
  - lia.
  - repeat constructor.
Defined.

(** Two draws of the same pair give one NA. *)
Example assign_na_twice :
  assign_na (λ _, 0) [[[1%Q; 0%Q]]; [[0%Q; 1%Q]]] 2
  = Ok [[[0%Q; 0%Q]]; [[0%Q; 1%Q]]]
  ∧ drawn_pairs (λ _, 0) 2 1 2 = [(0, 0); (0, 0)].
Proof. split; reflexivity. Qed.

(** No site to draw from: [np.random.choice] raises. *)
Example assign_na_no_site (rnd : nat → nat) :
  assign_na rnd [] 1 = Raise ValueError.
Proof. reflexivity. Qed.

End AssignNASpec.

